(** * Reference-count insertion pass (src/codegen/irgen/refcounts.cpp)

    A shallow embedding of the refcounting pass of the code generator:
    the annotation store ([RefcountTracker]), the insertion-ordered map
    used for the per-block summaries ([OrderedMap]), the graph of the
    blocks, the traversal order and the worklist, the backward solver,
    and of the mutator the search for insertion points (with the
    splitting of critical edges) and the emission of a decrement.

    Conventions.
    - A [llvm::Value*], [llvm::Instruction*] or [llvm::BasicBlock*] is
      the address of the object, a [positive]; the null pointer of an
      optional field is [None].
    - A C++ [int] is a [Z]; the overflow of a signed [int] has no
      defined behaviour in C++ and none in the model.
    - [llvm::DenseMap] is a [gmap]: lookups, insertions and deletions
      only, its bucket order is never observed by the pass.
    - [assert], [ASSERT] and [RELEASE_ASSERT] failures, [abort()] and
      dereferences of [end()] are error results of the [result] monad
      (the model is the one of a build with assertions enabled); a
      process ended by a signal is the error [Killed];
      [OutOfFuel] is not an outcome of the program: it is what a loop
      of the model answers when its iteration bound is too small. *)

From Stdlib Require Import ZArith Lia List Permutation String.
From stdpp Require Import base option list gmap fin_maps.

Local Open Scope Z_scope.

(** ** Addresses *)

Abbreviation Value := positive (only parsing).
Abbreviation Instruction := positive (only parsing).
Abbreviation BasicBlock := positive (only parsing).

(** ** Fallible computations *)

Inductive error : Type :=
| AssertionFailed (what : string)
| ReleaseAssertFailed (what : string)
| Aborted
| Killed (signal : string)
| UndefinedBehaviour (what : string)
| OutOfFuel.

Inductive result (A : Type) : Type :=
| Ok (a : A)
| Err (e : error).
Arguments Ok {A} a.
Arguments Err {A} e.

Definition rbind {A B} (m : result A) (k : A -> result B) : result B :=
  match m with
  | Ok a => k a
  | Err e => Err e
  end.

Definition assert_ (b : bool) (what : string) : result unit :=
  if b then Ok tt else Err (AssertionFailed what).

#[global] Instance result_bind : MBind result := fun A B k m => rbind m k.
#[global] Instance result_ret : MRet result := @Ok.

Definition is_ok {A} (r : result A) : bool :=
  match r with Ok _ => true | Err _ => false end.

(** Monadic left fold: a [for] loop whose body may fail. *)
Fixpoint foldM {A S} (f : S -> A -> result S) (l : list A) (s : S) : result S :=
  match l with
  | [] => Ok s
  | a :: l' => rbind (f s a) (foldM f l')
  end.

Fixpoint mapM_result {A B} (f : A -> result B) (l : list A) : result (list B) :=
  match l with
  | [] => Ok []
  | a :: l' => b ← f a; bs ← mapM_result f l'; Ok (b :: bs)
  end.

(** ** [OrderedMap<K, V>]: a DenseMap plus the vector of its keys in
    insertion order *)

Module OrderedMap.
Section OrderedMap.
Context {K : Type} `{Countable K} {V : Type}.
(** [V()], the value-initialised element *)
Variable V0 : V.

Record t : Type := Make { map : gmap K V; order : list K }.

Definition empty : t := Make ∅ [].

(** [count(k)] *)
Definition count (m : t) (k : K) : nat :=
  match map m !! k with Some _ => 1%nat | None => 0%nat end.

(** The effect of [operator[]] on the container: a missing key is
    appended to [order] and value-initialised in [map]. *)
Definition touch (k : K) (m : t) : t :=
  if Nat.eqb (count m k) 0
  then Make (<[k := V0]> (map m)) (order m ++ [k])
  else m.

(** The value read through the reference returned by [operator[]]. *)
Definition subscript (m : t) (k : K) : V := default V0 (map m !! k).

(** [m[k] = x] *)
Definition assign (k : K) (x : V) (m : t) : t :=
  let m' := touch k m in Make (<[k := x]> (map m')) (order m').

(** [get(k)]: [map.find(k)->second] *)
Definition get (m : t) (k : K) : result V :=
  match map m !! k with
  | Some x => Ok x
  | None => Err (UndefinedBehaviour "OrderedMap::get of a missing key")
  end.

(** [size()] *)
Definition size (m : t) : result nat :=
  assert_ (Nat.eqb (length (order m)) (stdpp.base.size (map m)))
          "order.size() == map.size()" ;;
  Ok (length (order m)).

(** [clear()] *)
Definition clear (m : t) : t := empty.

(** [erase(k)] *)
Definition erase (k : K) (m : t) : result t :=
  assert_ (Nat.ltb 0 (count m k)) "map.count(k)" ;;
  Ok (Make (delete k (map m))
           (List.filter (fun k' => negb (bool_decide (k' = k))) (order m))).

(** [*it] for the iterator at position [idx]:
    [*themap->map.find(themap->order[idx])] *)
Definition deref (m : t) (idx : nat) : result (K * V) :=
  match order m !! idx with
  | None => Err (UndefinedBehaviour "OrderedMap iterator out of range")
  | Some k =>
      match map m !! k with
      | Some x => Ok (k, x)
      | None => Err (UndefinedBehaviour "OrderedMap iterator: key not in map")
      end
  end.

(** A read-only pass [for (auto&& p : m)]: [end()] is evaluated once and
    calls [size()], then the iterator runs over the positions
    [0 .. size()-1]. *)
Definition items (m : t) : result (list (K * V)) :=
  n ← size m;
  mapM_result (deref m) (seq 0 n).

(** The keys in insertion order, each paired with its value. *)
Definition elements (m : t) : list (K * V) :=
  omap (fun k => pair k <$> map m !! k) (order m).

(** The class invariant that [size()] asserts. *)
Definition wf (m : t) : Prop :=
  NoDup (order m) ∧ ∀ k, k ∈ order m ↔ is_Some (map m !! k).

End OrderedMap.
Arguments t K {_ _} V.
End OrderedMap.

Abbreviation BlockMap := (OrderedMap.t positive Z).

(** ** [SmallOrderedMap<K, V>]: a vector of pairs searched linearly *)

Module SmallOrderedMap.

Abbreviation t := (list (positive * Z)).

(** [get(k)]: the value of the first pair with key [k], or [V()] *)
Fixpoint get (v : t) (k : Value) : Z :=
  match v with
  | [] => 0
  | p :: v' => if Pos.eqb p.1 k then p.2 else get v' k
  end.

(** [v[k] = f(v[k])] through the reference returned by [operator[]]:
    the first pair with key [k] is updated, or [(k, f(V()))] is
    appended. *)
Fixpoint update (f : Z -> Z) (k : Value) (v : t) : t :=
  match v with
  | [] => [(k, f 0)]
  | p :: v' => if Pos.eqb p.1 k then (p.1, f p.2) :: v' else p :: update f k v'
  end.

(** [v[k]++] *)
Definition incr (k : Value) (v : t) : t := update Z.succ k v.

(** [v[k];] just makes sure that the key appears *)
Definition touch (k : Value) (v : t) : t := update (fun x => x) k v.

End SmallOrderedMap.

(** ** The IR, as far as the pass looks at it *)

Inductive ValueClass : Type :=
| UndefValue
| ConstantPointerNull
| GlobalVariable
| OtherConstant
| Argument
| InstructionValue.

(** [llvm::isa<llvm::Constant>]: undef, null pointers and globals are
    constants too. *)
Definition isa_Constant (c : ValueClass) : bool :=
  match c with
  | UndefValue | ConstantPointerNull | GlobalVariable | OtherConstant => true
  | Argument | InstructionValue => false
  end.

Definition isa_UndefValue (c : ValueClass) : bool :=
  match c with UndefValue => true | _ => false end.

Definition isa_ConstantPointerNull (c : ValueClass) : bool :=
  match c with ConstantPointerNull => true | _ => false end.

Definition isa_GlobalVariable (c : ValueClass) : bool :=
  match c with GlobalVariable => true | _ => false end.

Inductive Opcode : Type :=
| PHINode (incoming_blocks : list BasicBlock)
| AllocaInst
| LandingPadInst
| CastInst
| CallInst (callee : Value)
| InvokeInst (normal_dest unwind_dest : BasicBlock)
| BranchInst (succ0 : BasicBlock) (succ1 : option BasicBlock)
| ReturnInst
| UnreachableInst
| OtherTerminator (succs : list BasicBlock)
| OtherInst.

Record InstructionData : Type := {
  addr : Instruction;
  opcode : Opcode;
  operands : list Value
}.

Definition isa_PHINode (i : InstructionData) : bool :=
  match opcode i with PHINode _ => true | _ => false end.
Definition isa_AllocaInst (i : InstructionData) : bool :=
  match opcode i with AllocaInst => true | _ => false end.
Definition isa_LandingPadInst (i : InstructionData) : bool :=
  match opcode i with LandingPadInst => true | _ => false end.
Definition isa_InvokeInst (i : InstructionData) : bool :=
  match opcode i with InvokeInst _ _ => true | _ => false end.
Definition isa_UnreachableInst (i : InstructionData) : bool :=
  match opcode i with UnreachableInst => true | _ => false end.
Definition isa_CastInst (i : InstructionData) : bool :=
  match opcode i with CastInst => true | _ => false end.

Definition isTerminator (i : InstructionData) : bool :=
  match opcode i with
  | InvokeInst _ _ | BranchInst _ _ | ReturnInst | UnreachableInst
  | OtherTerminator _ => true
  | _ => false
  end.

(** The successors of a terminator, in operand order. *)
Definition terminator_successors (i : InstructionData) : list BasicBlock :=
  match opcode i with
  | BranchInst s0 None => [s0]
  | BranchInst s0 (Some s1) => [s0; s1]
  | InvokeInst n u => [n; u]
  | OtherTerminator l => l
  | _ => []
  end.

(** A basic block: its address, its instructions, and the answer of
    [pred_begin .. pred_end], i.e. the parents of the terminators that
    use the block, in use-list order and with multiplicity. *)
Record BasicBlockData : Type := {
  bb_addr : BasicBlock;
  bb_insts : list InstructionData;
  bb_preds : list BasicBlock
}.

(** [getTerminator()] *)
Definition getTerminator (b : BasicBlockData) : option InstructionData :=
  match last (bb_insts b) with
  | Some i => if isTerminator i then Some i else None
  | None => None
  end.

(** [succ_begin .. succ_end] *)
Definition succ_range (b : BasicBlockData) : list BasicBlock :=
  match getTerminator b with
  | Some i => terminator_successors i
  | None => []
  end.

Record Function : Type := {
  fn_args : list Value;
  fn_blocks : list BasicBlockData;
  (** the number of objects that the pass has created in the function *)
  fn_created : nat
}.

Definition find_block (f : Function) (b : BasicBlock) : option BasicBlockData :=
  List.find (fun d => Pos.eqb (bb_addr d) b) (fn_blocks f).

(** [numSuccessors], [numPredecessors] *)
Definition numSuccessors (b : BasicBlockData) : Z := Z.of_nat (length (succ_range b)).
Definition numPredecessors (b : BasicBlockData) : Z := Z.of_nat (length (bb_preds b)).

(** The instruction at address [a] in a block together with its
    [getNextNode()]. *)
Fixpoint locate_in (a : Instruction) (l : list InstructionData)
  : option (InstructionData * option InstructionData) :=
  match l with
  | [] => None
  | i :: l' => if Pos.eqb (addr i) a then Some (i, head l') else locate_in a l'
  end.

Fixpoint locate_blocks (a : Instruction) (bs : list BasicBlockData)
  : option (BasicBlockData * InstructionData * option InstructionData) :=
  match bs with
  | [] => None
  | b :: bs' =>
      match locate_in a (bb_insts b) with
      | Some (i, n) => Some (b, i, n)
      | None => locate_blocks a bs'
      end
  end.

Definition locate (f : Function) (a : Instruction) := locate_blocks a (fn_blocks f).

(** [getFirstNonPHI()] *)
Definition getFirstNonPHI (b : BasicBlockData) : option InstructionData :=
  List.find (fun i => negb (isa_PHINode i)) (bb_insts b).

(** ** The annotation store *)

(** Modelled from the spec: the declarations of [RefType] and
    [RefcountState] live in a header that is not among the sources
    (section 3, value annotation: the discipline is OWNED, BORROWED or
    UNKNOWN, UNKNOWN being the state of a value that was never
    annotated, and a value is not nullable until it is said to be). *)
Inductive RefType : Type := UNKNOWN | OWNED | BORROWED.

Definition RefType_eqb (a b : RefType) : bool :=
  match a, b with
  | UNKNOWN, UNKNOWN | OWNED, OWNED | BORROWED, BORROWED => true
  | _, _ => false
  end.

Record RefcountState : Type := {
  reftype : RefType;
  nullable : bool
}.

(** The value-initialised [RefcountState], what [DenseMap::lookup]
    answers and what [DenseMap::operator[]] inserts for a missing key. *)
Definition RefcountState0 : RefcountState :=
  {| reftype := UNKNOWN; nullable := false |}.

Record RefcountTracker : Type := {
  vars : gmap positive RefcountState;
  refs_consumed : gmap positive (list positive);
  refs_used : gmap positive (list positive);
  may_throw : gset positive
}.

Definition RefcountTracker0 : RefcountTracker :=
  {| vars := ∅; refs_consumed := ∅; refs_used := ∅; may_throw := ∅ |}.

Definition vars_count (rt : RefcountTracker) (v : Value) : bool :=
  bool_decide (is_Some (vars rt !! v)).

Definition vars_lookup (rt : RefcountTracker) (v : Value) : RefcountState :=
  default RefcountState0 (vars rt !! v).

Definition may_throw_count (rt : RefcountTracker) (i : Instruction) : bool :=
  bool_decide (i ∈ may_throw rt).

Definition isOwned (rt : RefcountTracker) (v : Value) : bool :=
  RefType_eqb (reftype (vars_lookup rt v)) OWNED.

Section Tracker.
(** What kind of value lives at an address. *)
Variable classof : Value -> ValueClass.

Definition set_vars (rt : RefcountTracker) (m : gmap positive RefcountState) :=
  {| vars := m; refs_consumed := refs_consumed rt;
     refs_used := refs_used rt; may_throw := may_throw rt |}.

(** The check of [setType] on tracked casts. *)
Definition check_cast_position (f : Function) (v : Value) : result unit :=
  match locate f v with
  | Some (_, cast, _) =>
      if isa_CastInst cast then
        match operands cast with
        | uncasted :: _ =>
            match locate f uncasted with
            | None => Err (AssertionFailed "cast<Instruction>(uncasted)")
            | Some (_, uncasted_inst, next) =>
                match opcode uncasted_inst with
                | InvokeInst normal _ =>
                    assert_
                      (match find_block f normal with
                       | Some nb =>
                           match getFirstNonPHI nb with
                           | Some i => Pos.eqb (addr i) v
                           | None => false
                           end
                       | None => false
                       end)
                      "Refcount-tracked casts must be immediately after the value they cast"
                | _ =>
                    assert_
                      (match next with
                       | Some i => Pos.eqb (addr i) v
                       | None => false
                       end)
                      "Refcount-tracked casts must be immediately after the value they cast"
                end
            end
        | [] => Err (UndefinedBehaviour "cast without operand")
        end
      else Ok tt
  | None => Ok tt
  end.

Definition setType (f : Function) (v : Value) (rty : RefType)
           (rt : RefcountTracker) : result RefcountTracker :=
  assert_ (negb (isa_UndefValue (classof v))) "!isa<UndefValue>(v)" ;;
  check_cast_position f v ;;
  let var := vars_lookup rt v in
  assert_ (RefType_eqb (reftype var) rty || RefType_eqb (reftype var) UNKNOWN)
          "var.reftype == reftype || var.reftype == RefType::UNKNOWN" ;;
  let var' := {| reftype := rty;
                 nullable := if isa_ConstantPointerNull (classof v)
                             then true else nullable var |} in
  Ok (set_vars rt (<[v := var']> (vars rt))).

Definition setNullable (v : Value) (nl : bool) (rt : RefcountTracker)
  : result RefcountTracker :=
  assert_ (negb (isa_UndefValue (classof v))) "!isa<UndefValue>(v)" ;;
  let var := vars_lookup rt v in
  assert_ (Bool.eqb (nullable var) nl || Bool.eqb (nullable var) false)
          "var.nullable == nullable || var.nullable == false" ;;
  Ok (set_vars rt (<[v := {| reftype := reftype var; nullable := nl |}]> (vars rt))).

Definition isNullable (rt : RefcountTracker) (v : Value) : result bool :=
  assert_ (vars_count rt v) "vars.count(v)" ;;
  Ok (nullable (vars_lookup rt v)).

(** [refs[inst].push_back(v)] *)
Definition push_ref (inst : Instruction) (v : Value)
           (refs : gmap positive (list positive)) : gmap positive (list positive) :=
  <[inst := default [] (refs !! inst) ++ [v]]> refs.

Definition refConsumed (v : Value) (inst : Instruction) (rt : RefcountTracker)
  : result RefcountTracker :=
  if isa_UndefValue (classof v) || isa_ConstantPointerNull (classof v)
  then Ok rt
  else
    assert_ (negb (RefType_eqb (reftype (vars_lookup rt v)) UNKNOWN))
            "this->vars[v].reftype != RefType::UNKNOWN" ;;
    Ok {| vars := vars rt; refs_consumed := push_ref inst v (refs_consumed rt);
          refs_used := refs_used rt; may_throw := may_throw rt |}.

Definition refUsed (v : Value) (inst : Instruction) (rt : RefcountTracker)
  : result RefcountTracker :=
  if isa_UndefValue (classof v) || isa_ConstantPointerNull (classof v)
  then Ok rt
  else
    assert_ (negb (RefType_eqb (reftype (vars_lookup rt v)) UNKNOWN))
            "this->vars[v].reftype != RefType::UNKNOWN" ;;
    Ok {| vars := vars rt; refs_consumed := refs_consumed rt;
          refs_used := push_ref inst v (refs_used rt); may_throw := may_throw rt |}.

Definition setMayThrow (inst : Instruction) (rt : RefcountTracker)
  : result RefcountTracker :=
  assert_ (negb (may_throw_count rt inst)) "!may_throw.count(inst)" ;;
  Ok {| vars := vars rt; refs_consumed := refs_consumed rt;
        refs_used := refs_used rt; may_throw := {[inst]} ∪ may_throw rt |}.

(** The calls by which the code generator fills the store. *)
Inductive TrackerCall : Type :=
| CallSetType (f : Function) (v : Value) (rty : RefType)
| CallSetNullable (v : Value) (nl : bool)
| CallRefConsumed (v : Value) (inst : Instruction)
| CallRefUsed (v : Value) (inst : Instruction)
| CallSetMayThrow (inst : Instruction).

Definition run_call (rt : RefcountTracker) (c : TrackerCall) : result RefcountTracker :=
  match c with
  | CallSetType f v rty => setType f v rty rt
  | CallSetNullable v nl => setNullable v nl rt
  | CallRefConsumed v inst => refConsumed v inst rt
  | CallRefUsed v inst => refUsed v inst rt
  | CallSetMayThrow inst => setMayThrow inst rt
  end.

Definition run_calls (cs : list TrackerCall) (rt : RefcountTracker)
  : result RefcountTracker := foldM run_call cs rt.

End Tracker.

(** ** The state of the solver *)

(** A planned insertion.  Exactly one of [insertion_inst] and
    [insertion_bb] should be set. *)
Record RefOp : Type := {
  operand : Value;
  op_nullable : bool;
  num_refs : Z;
  insertion_inst : option Instruction;
  insertion_bb : option BasicBlock;
  insertion_from_bb : option BasicBlock
}.

Record CXXFixup : Type := {
  fixup_inst : Instruction;
  to_decref : list Value
}.

(** "starting" and "ending" refer to the backward scan: [starting_refs]
    is the state at the end of the block, [ending_refs] the state
    computed for its beginning. *)
Record RefState : Type := {
  been_run : bool;
  starting_refs : BlockMap;
  ending_refs : BlockMap;
  increfs : list RefOp;
  decrefs : list RefOp;
  cxx_fixups : list CXXFixup
}.

Definition RefState0 : RefState :=
  {| been_run := false; starting_refs := OrderedMap.empty;
     ending_refs := OrderedMap.empty; increfs := []; decrefs := [];
     cxx_fixups := [] |}.

Definition set_starting_refs (s : RefState) (m : BlockMap) : RefState :=
  {| been_run := been_run s; starting_refs := m; ending_refs := ending_refs s;
     increfs := increfs s; decrefs := decrefs s; cxx_fixups := cxx_fixups s |}.
Definition set_ending_refs (s : RefState) (m : BlockMap) : RefState :=
  {| been_run := been_run s; starting_refs := starting_refs s; ending_refs := m;
     increfs := increfs s; decrefs := decrefs s; cxx_fixups := cxx_fixups s |}.
Definition push_incref (s : RefState) (op : RefOp) : RefState :=
  {| been_run := been_run s; starting_refs := starting_refs s;
     ending_refs := ending_refs s; increfs := increfs s ++ [op];
     decrefs := decrefs s; cxx_fixups := cxx_fixups s |}.
Definition push_decref (s : RefState) (op : RefOp) : RefState :=
  {| been_run := been_run s; starting_refs := starting_refs s;
     ending_refs := ending_refs s; increfs := increfs s;
     decrefs := decrefs s ++ [op]; cxx_fixups := cxx_fixups s |}.
Definition push_fixup (s : RefState) (fx : CXXFixup) : RefState :=
  {| been_run := been_run s; starting_refs := starting_refs s;
     ending_refs := ending_refs s; increfs := increfs s;
     decrefs := decrefs s; cxx_fixups := cxx_fixups s ++ [fx] |}.

(** [int] keys of the block maps *)
Abbreviation count := (OrderedMap.count (V:=Z)).
Abbreviation subscript := (OrderedMap.subscript 0).
Abbreviation touch := (OrderedMap.touch 0).
Abbreviation assign := (OrderedMap.assign 0).

(** ** Comparison of two summaries *)

(** The loop of [endingRefsDifferent] over the positions of [lhs] that
    are still to be visited. *)
Fixpoint endingRefsDifferent_loop (lhs rhs : BlockMap) (idxs : list nat)
  : result bool :=
  match idxs with
  | [] => Ok false
  | idx :: idxs' =>
      p ← OrderedMap.deref lhs idx;
      if Nat.eqb (count rhs p.1) 0 then Ok true
      else
        x ← OrderedMap.get rhs p.1;
        if negb (Z.eqb p.2 x) then Ok true
        else endingRefsDifferent_loop lhs rhs idxs'
  end.

Definition endingRefsDifferent (lhs rhs : BlockMap) : result bool :=
  nl ← OrderedMap.size lhs;
  nr ← OrderedMap.size rhs;
  if negb (Nat.eqb nl nr) then Ok true
  else
    n ← OrderedMap.size lhs;
    endingRefsDifferent_loop lhs rhs (seq 0 n).

(** ** One block of the backward solver *)

Section Solver.
Variable rt : RefcountTracker.

(** *** Merge of the successors' summaries *)

(** The first loop nest of the merge: the values of the successors'
    [ending_refs], each once, in first-seen order. *)
Definition collect_from (acc : list Value * gset positive) (p : Value * Z)
  : result (list Value * gset positive) :=
  assert_ (Z.ltb 0 p.2) "p.second > 0" ;;
  if bool_decide (p.1 ∈ acc.2) then Ok acc
  else Ok (acc.1 ++ [p.1], {[p.1]} ∪ acc.2).

Definition collect_tracked_values (successor_refs : list BlockMap)
  : result (list Value) :=
  acc ← foldM (fun acc m => ps ← OrderedMap.items m; foldM collect_from ps acc)
              successor_refs ([], ∅);
  Ok acc.1.

(** The loop that computes [min_refs] for a value. *)
Definition min_refs_step (v : Value) (min_refs : Z) (s_info : BlockMap * BasicBlock) : Z :=
  if Nat.ltb 0 (count s_info.1 v)
  then Z.min (subscript s_info.1 v) min_refs
  else 0.

Definition min_refs_loop (v : Value) (successor_info : list (BlockMap * BasicBlock)) : Z :=
  fold_left (min_refs_step v) successor_info 1000000000.

Definition min_refs_of (v : Value) (successor_info : list (BlockMap * BasicBlock)) : Z :=
  let min_refs := min_refs_loop v successor_info in
  if isOwned rt v then Z.max 1 min_refs else min_refs.

(** The references that one successor demands for [v]. *)
Definition this_refs_of (v : Value) (m : BlockMap) : Z :=
  if Nat.ltb 0 (count m v) then subscript m v else 0.

(** The loop that reconciles each successor with [min_refs]; [bb] is
    the block being processed. *)
Definition reconcile_step (bb : BasicBlock) (v : Value) (min_refs : Z)
           (state : RefState) (s_info : BlockMap * BasicBlock) : result RefState :=
  let this_refs := this_refs_of v s_info.1 in
  let refstate := vars_lookup rt v in
  if Z.ltb min_refs this_refs then
    Ok (push_incref state
          {| operand := v; op_nullable := nullable refstate;
             num_refs := this_refs - min_refs; insertion_inst := None;
             insertion_bb := Some s_info.2; insertion_from_bb := Some bb |})
  else if Z.ltb this_refs min_refs then
    assert_ (RefType_eqb (reftype refstate) OWNED)
            "refstate.reftype == RefType::OWNED" ;;
    Ok (push_decref state
          {| operand := v; op_nullable := nullable refstate;
             num_refs := min_refs - this_refs; insertion_inst := None;
             insertion_bb := Some s_info.2; insertion_from_bb := Some bb |})
  else Ok state.

(** The body of the loop over [tracked_values]. *)
Definition merge_value (bb : BasicBlock) (successor_info : list (BlockMap * BasicBlock))
           (state : RefState) (v : Value) : result RefState :=
  assert_ (vars_count rt v) "rt->vars.count(v)" ;;
  let min_refs := min_refs_of v successor_info in
  state ← foldM (reconcile_step bb v min_refs) successor_info state;
  if negb (Z.eqb min_refs 0)
  then Ok (set_starting_refs state (assign v min_refs (starting_refs state)))
  else
    assert_ (Nat.eqb (count (starting_refs state) v) 0)
            "state.starting_refs.count(v) == 0" ;;
    Ok state.

(** The merge for block [bb]; [successor_info] holds, for every
    successor that has been run, its [ending_refs] and its block. *)
Definition merge_successors (bb : BasicBlock)
           (successor_info : list (BlockMap * BasicBlock)) (state : RefState)
  : result RefState :=
  match successor_info with
  | [] => Ok state
  | _ =>
      tracked_values ← collect_tracked_values (fst <$> successor_info);
      foldM (merge_value bb successor_info) tracked_values state
  end.

End Solver.

Section Scan.
Variable rt : RefcountTracker.

(** *** The backward scan of the instructions *)

(** [inst == inst->getParent()->getTerminator()], for an instruction
    followed in its block by [following]. *)
Definition is_block_terminator (i : InstructionData)
           (following : list InstructionData) : bool :=
  match following with
  | [] => isTerminator i
  | _ => false
  end.

(** [getNextNode()], then on past the phis. *)
Fixpoint next_non_phi (following : list InstructionData) : result Instruction :=
  match following with
  | [] => Err (UndefinedBehaviour "isa<PHINode> of a null instruction")
  | i :: l => if isa_PHINode i then next_non_phi l else Ok (addr i)
  end.

Definition defining_refs (v : Value) : Z := if isOwned rt v then 1 else 0.

(** A value starts its life with [starting_refs] references while the
    code after it wants [ending_refs[inst]]: plan the difference at
    the given site. *)
Definition adjust_definition (inst : Value) (pt : option Instruction)
           (ibb ifrom : option BasicBlock) (state : RefState) : result RefState :=
  let rstate := vars_lookup rt inst in
  let starting_refs := defining_refs inst in
  let cur := subscript (ending_refs state) inst in
  if Z.ltb cur starting_refs then
    assert_ (RefType_eqb (reftype rstate) OWNED) "rstate.reftype == RefType::OWNED" ;;
    Ok (push_decref state
          {| operand := inst; op_nullable := nullable rstate;
             num_refs := starting_refs - cur; insertion_inst := pt;
             insertion_bb := ibb; insertion_from_bb := ifrom |})
  else
    Ok (push_incref state
          {| operand := inst; op_nullable := nullable rstate;
             num_refs := cur - starting_refs; insertion_inst := pt;
             insertion_bb := ibb; insertion_from_bb := ifrom |}).

(** The definition of a tracked value by a non-invoke instruction. *)
Definition scan_definition (i : InstructionData) (following : list InstructionData)
           (state : RefState) : result RefState :=
  if negb (isa_InvokeInst i) && vars_count rt (addr i) then
    let state := set_ending_refs state (touch (addr i) (ending_refs state)) in
    state ←
      (if negb (Z.eqb (subscript (ending_refs state) (addr i)) (defining_refs (addr i)))
       then
         assert_ (negb (is_block_terminator i following))
                 "inst != inst->getParent()->getTerminator()" ;;
         insertion_pt ← next_non_phi following;
         adjust_definition (addr i) (Some insertion_pt) None None state
       else Ok state);
    er ← OrderedMap.erase (addr i) (ending_refs state);
    Ok (set_ending_refs state er)
  else Ok state.

(** [I.getNextNode()] *)
Definition getNextNode (following : list InstructionData) : option Instruction :=
  addr <$> head following.

(** One round of the loop that, before an instruction that may throw,
    moves the surplus references behind it; [idx] is the position of
    the iterator in [state.ending_refs]. *)
Definition flush_step (following : list InstructionData)
           (acc : RefState * list Value) (idx : nat) : result (RefState * list Value) :=
  let '(state, to_erase) := acc in
  p ← OrderedMap.deref (ending_refs state) idx;
  let needed_refs := defining_refs p.1 in
  let state :=
    if Z.ltb needed_refs p.2 then
      push_incref state
        {| operand := p.1; op_nullable := nullable (vars_lookup rt p.1);
           num_refs := p.2 - needed_refs; insertion_inst := getNextNode following;
           insertion_bb := None; insertion_from_bb := None |}
    else state in
  let state := set_ending_refs state (assign p.1 needed_refs (ending_refs state)) in
  Ok (state, if Z.eqb needed_refs 0 then to_erase ++ [p.1] else to_erase).

Definition erase_step (state : RefState) (v : Value) : result RefState :=
  er ← OrderedMap.erase v (ending_refs state);
  Ok (set_ending_refs state er).

Definition scan_flush (i : InstructionData) (following : list InstructionData)
           (state : RefState) : result RefState :=
  if may_throw_count rt (addr i) then
    n ← OrderedMap.size (ending_refs state);
    acc ← foldM (flush_step following) (seq 0 n) (state, []);
    foldM erase_step acc.2 acc.1
  else Ok state.

(** The two counters of an instruction: how often it consumes each
    value and how often each value is one of its operands or uses. *)
Definition count_consumed_step (acc : SmallOrderedMap.t * SmallOrderedMap.t) (v : Value)
  : result (SmallOrderedMap.t * SmallOrderedMap.t) :=
  let num_consumed_by_inst := SmallOrderedMap.incr v acc.1 in
  assert_ (vars_count rt v && negb (RefType_eqb (reftype (vars_lookup rt v)) UNKNOWN))
          "rt->vars.count(v) && rt->vars.lookup(v).reftype != RefType::UNKNOWN" ;;
  Ok (num_consumed_by_inst, SmallOrderedMap.touch v acc.2).

Definition count_used_step (num_times_as_op : SmallOrderedMap.t) (v : Value)
  : result SmallOrderedMap.t :=
  assert_ (negb (RefType_eqb (reftype (vars_lookup rt v)) UNKNOWN))
          "rt->vars.lookup(v).reftype != RefType::UNKNOWN" ;;
  Ok (SmallOrderedMap.incr v num_times_as_op).

Definition count_operand_step (num_times_as_op : SmallOrderedMap.t) (op : Value)
  : SmallOrderedMap.t :=
  if vars_count rt op then SmallOrderedMap.incr op num_times_as_op
  else num_times_as_op.

Definition count_uses (i : InstructionData)
  : result (SmallOrderedMap.t * SmallOrderedMap.t) :=
  acc ← foldM count_consumed_step (default [] (refs_consumed rt !! addr i)) ([], []);
  num_times_as_op ← foldM count_used_step (default [] (refs_used rt !! addr i)) acc.2;
  Ok (acc.1, fold_left count_operand_step (operands i) num_times_as_op).

(** The last use of an owned value: a decrement behind the instruction,
    or on both edges out of an invoke. *)
Definition plan_last_use (bb : BasicBlock) (i : InstructionData)
           (following : list InstructionData) (op : Value) (state : RefState)
  : result RefState :=
  let nl := nullable (vars_lookup rt op) in
  match opcode i with
  | InvokeInst normal_dest unwind_dest =>
      let state :=
        push_decref state
          {| operand := op; op_nullable := nl; num_refs := 1; insertion_inst := None;
             insertion_bb := Some normal_dest; insertion_from_bb := Some bb |} in
      Ok (push_decref state
            {| operand := op; op_nullable := nl; num_refs := 1; insertion_inst := None;
               insertion_bb := Some unwind_dest; insertion_from_bb := Some bb |})
  | _ =>
      assert_ (negb (is_block_terminator i following))
              "&I != I.getParent()->getTerminator()" ;;
      match following with
      | [] => Err (UndefinedBehaviour "isa<UnreachableInst> of a null instruction")
      | next :: _ =>
          if isa_UnreachableInst next then
            assert_ (may_throw_count rt (addr i)) "rt->may_throw.count(&I)" ;;
            Ok state
          else
            Ok (push_decref state
                  {| operand := op; op_nullable := nl; num_refs := 1;
                     insertion_inst := Some (addr next);
                     insertion_bb := None; insertion_from_bb := None |})
      end
  end.

Definition keep_alive_step (bb : BasicBlock) (i : InstructionData)
           (following : list InstructionData) (num_consumed_by_inst : SmallOrderedMap.t)
           (state : RefState) (p : Value * Z) : result RefState :=
  let op := p.1 in
  let num_consumed := SmallOrderedMap.get num_consumed_by_inst op in
  if Z.ltb num_consumed p.2 && isOwned rt op then
    let state := set_ending_refs state (touch op (ending_refs state)) in
    if Z.eqb (subscript (ending_refs state) op) 0 then
      state ← plan_last_use bb i following op state;
      Ok (set_ending_refs state (assign op 1 (ending_refs state)))
    else Ok state
  else Ok state.

(** The values to release if the instruction throws: each key of
    [ending_refs] as many times as its count (the inner [for] loop runs
    [p.second] times, and not at all for a count below one). *)
Definition expand_refs (ps : list (Value * Z)) : list Value :=
  flat_map (fun p => repeat p.1 (Z.to_nat p.2)) ps.

(** The inner loop of the capture for the entry [p] of [ending_refs]:
    [p.second] times, the assertion that the value is tracked and the
    [push_back]. *)
Definition capture_entry (to_decref : list Value) (p : Value * Z) : result (list Value) :=
  foldM (fun acc (_ : nat) =>
           assert_ (vars_count rt p.1) "rt->vars.count(p.first)" ;;
           Ok (acc ++ [p.1]))
        (seq 0 (Z.to_nat p.2)) to_decref.

Definition scan_fixup (i : InstructionData) (state : RefState) : result RefState :=
  if may_throw_count rt (addr i) then
    ps ← OrderedMap.items (ending_refs state);
    to_decref ← foldM capture_entry ps [];
    let fixup := {| fixup_inst := addr i; to_decref := to_decref |} in
    match to_decref with
    | [] => Ok state
    | _ => Ok (push_fixup state fixup)
    end
  else Ok state.

Definition stolen_step (num_consumed_by_inst : SmallOrderedMap.t)
           (state : RefState) (p : Value * Z) : RefState :=
  let op := p.1 in
  let num_consumed := SmallOrderedMap.get num_consumed_by_inst op in
  if negb (Z.eqb num_consumed 0) then
    let er := touch op (ending_refs state) in
    set_ending_refs state (assign op (subscript er op + num_consumed) er)
  else state.

(** The body of the loop over the instructions of block [bb]. *)
Definition scan_instruction (bb : BasicBlock) (state : RefState)
           (it : InstructionData * list InstructionData) : result RefState :=
  let '(i, following) := it in
  state ← scan_definition i following state;
  if isa_PHINode i then Ok state
  else
    state ← scan_flush i following state;
    counters ← count_uses i;
    let '(num_consumed_by_inst, num_times_as_op) := counters in
    state ← foldM (keep_alive_step bb i following num_consumed_by_inst)
                  num_times_as_op state;
    state ← scan_fixup i state;
    Ok (fold_left (stolen_step num_consumed_by_inst) num_times_as_op state).

(** Every instruction of a list with the instructions behind it. *)
Fixpoint with_following (l : list InstructionData)
  : list (InstructionData * list InstructionData) :=
  match l with
  | [] => []
  | i :: l' => (i, l') :: with_following l'
  end.

Definition scan_block (b : BasicBlockData) (state : RefState) : result RefState :=
  foldM (scan_instruction (bb_addr b)) (rev (with_following (bb_insts b))) state.

End Scan.

Section Block.
Variable classof : Value -> ValueClass.
Variable rt : RefcountTracker.
Variable f : Function.

(** *** Invokes

    An invoke defines its value at the top of its normal destination. *)

(** The tracked invokes of the function with their parent blocks, in
    instruction order. *)
Definition collect_invokes : list (InstructionData * BasicBlock) :=
  flat_map
    (fun b =>
       omap (fun i => if vars_count rt (addr i) && isa_InvokeInst i
                      then Some (i, bb_addr b) else None)
            (bb_insts b))
    (fn_blocks f).

Definition invoke_step (bb : BasicBlock) (state : RefState)
           (ii : InstructionData * BasicBlock) : result RefState :=
  match opcode ii.1 with
  | InvokeInst normal_dest _ =>
      if Pos.eqb normal_dest bb then
        let inst := addr ii.1 in
        let state := set_ending_refs state (touch inst (ending_refs state)) in
        state ←
          (if negb (Z.eqb (subscript (ending_refs state) inst) (defining_refs rt inst))
           then adjust_definition rt inst None (Some bb) (Some ii.2) state
           else Ok state);
        er ← OrderedMap.erase inst (ending_refs state);
        Ok (set_ending_refs state er)
      else Ok state
  | _ => Ok state
  end.

(** *** The entry block *)

Definition is_argument (v : Value) : bool := existsb (Pos.eqb v) (fn_args f).

Definition entry_step (bb : BasicBlock) (state : RefState) (p : Value * Z)
  : result RefState :=
  assert_ (negb (Z.eqb p.2 0)) "p.second" ;;
  (if negb (isa_GlobalVariable (classof p.1)) && negb (isa_Constant (classof p.1))
   then assert_ (is_argument p.1) "found"
   else Ok tt) ;;
  assert_ (RefType_eqb (reftype (vars_lookup rt p.1)) BORROWED)
          "rt->vars.lookup(p.first).reftype == RefType::BORROWED" ;;
  Ok (push_incref state
        {| operand := p.1; op_nullable := nullable (vars_lookup rt p.1);
           num_refs := p.2; insertion_inst := None;
           insertion_bb := Some bb; insertion_from_bb := None |}).

(** [bb == &bb->getParent()->front()] *)
Definition is_entry_block (bb : BasicBlock) : bool :=
  match fn_blocks f with
  | b :: _ => Pos.eqb (bb_addr b) bb
  | [] => false
  end.

Definition finish_entry (bb : BasicBlock) (state : RefState) : result RefState :=
  if is_entry_block bb then
    ps ← OrderedMap.items (ending_refs state);
    state ← foldM (entry_step bb) ps state;
    Ok (set_ending_refs state (OrderedMap.clear (ending_refs state)))
  else Ok state.

End Block.

(** ** The graph of basic blocks by index *)

Record BBGraph : Type := {
  bb_idx : gmap positive nat;
  bbs : list BasicBlock;
  predecessors : list (list nat);
  successors : list (list nat)
}.

Definition numBB (bbg : BBGraph) : nat := length (bbs bbg).

(** [bb_idx[b]] *)
Definition idx_of (m : gmap positive nat) (b : BasicBlock) : nat :=
  default 0%nat (m !! b).

Definition mkBBGraph (f : Function) : BBGraph :=
  let bbs := bb_addr <$> fn_blocks f in
  let bb_idx :=
    (fold_left (fun acc b => (<[b := length acc.2]> acc.1, acc.2 ++ [b]))
               bbs (∅, [])).1 in
  {| bb_idx := bb_idx;
     bbs := bbs;
     predecessors := (fun b => idx_of bb_idx <$> bb_preds b) <$> fn_blocks f;
     successors := (fun b => idx_of bb_idx <$> succ_range b) <$> fn_blocks f |}.

(** ** The traversal order *)

Section Traversal.
(** [std::sort] with the comparator [p1.second > p2.second]; which of
    two pairs with equal counts comes first is up to the library. *)
Variable sort_by_count : list (nat * Z) -> list (nat * Z).
Variable bbg : BBGraph.

Record Traversal : Type := {
  ordering : list nat;
  added : list bool;
  num_successors_added : list Z;
  check_predecessors_idx : nat
}.

Definition succs_of (idx : nat) : list nat := default [] (successors bbg !! idx).
Definition preds_of (idx : nat) : list nat := default [] (predecessors bbg !! idx).

(** The exit nodes come first. *)
Definition add_exit (t : Traversal) (i : nat) : Traversal :=
  if Nat.eqb (length (succs_of i)) 0 then
    {| ordering := ordering t ++ [i]; added := <[i := true]> (added t);
       num_successors_added := num_successors_added t;
       check_predecessors_idx := check_predecessors_idx t |}
  else t.

(** Case 1: a predecessor all of whose successors have been added. *)
Definition visit_predecessor (t : Traversal) (pidx : nat) : Traversal :=
  if default false (added t !! pidx) then t
  else
    let n := default 0 (num_successors_added t !! pidx) + 1 in
    let nsa := <[pidx := n]> (num_successors_added t) in
    if Z.eqb n (Z.of_nat (length (succs_of pidx))) then
      {| ordering := ordering t ++ [pidx]; added := <[pidx := true]> (added t);
         num_successors_added := nsa;
         check_predecessors_idx := check_predecessors_idx t |}
    else
      {| ordering := ordering t; added := added t; num_successors_added := nsa;
         check_predecessors_idx := check_predecessors_idx t |}.

(** Case 2: the flood fill from a provisional node. *)
Definition flood_successor (acc : list bool * list nat) (sidx : nat)
  : list bool * list nat :=
  if default false (acc.1 !! sidx) then acc
  else (<[sidx := true]> acc.1, acc.2 ++ [sidx]).

Fixpoint flood (fuel : nat) (visit_queue : list nat) (visited : list bool)
  : result (list bool) :=
  match visit_queue with
  | [] => Ok visited
  | idx :: rest =>
      match fuel with
      | O => Err OutOfFuel
      | S fuel' =>
          let acc := fold_left flood_successor (succs_of idx) (visited, rest) in
          flood fuel' acc.2 acc.1
      end
  end.

Definition pick_best (acc : list bool * option nat) (p : nat * Z)
  : result (list bool * option nat) :=
  if default false (acc.1 !! p.1) then Ok acc
  else
    visited ← flood (S (numBB bbg)) [p.1] (<[p.1 := true]> acc.1);
    Ok (visited, Some p.1).

Definition break_cycle (t : Traversal) : result Traversal :=
  let num_successors :=
    omap (fun i =>
            let n := default 0 (num_successors_added t !! i) in
            if Z.eqb n 0 then None
            else if default false (added t !! i) then None
            else Some (i, n))
         (seq 0 (numBB bbg)) in
  let sorted := sort_by_count num_successors in
  acc ← foldM pick_best sorted (replicate (numBB bbg) false, None);
  match acc.2 with
  | None => Err (AssertionFailed "best != -1")
  | Some best =>
      Ok {| ordering := ordering t ++ [best]; added := <[best := true]> (added t);
            num_successors_added := num_successors_added t;
            check_predecessors_idx := check_predecessors_idx t |}
  end.

Fixpoint traversal_loop (fuel : nat) (t : Traversal) : result Traversal :=
  if Nat.ltb (length (ordering t)) (numBB bbg) then
    match fuel with
    | O => Err OutOfFuel
    | S fuel' =>
        if Nat.ltb (check_predecessors_idx t) (length (ordering t)) then
          let idx := default 0%nat (ordering t !! check_predecessors_idx t) in
          let t := {| ordering := ordering t; added := added t;
                      num_successors_added := num_successors_added t;
                      check_predecessors_idx := S (check_predecessors_idx t) |} in
          traversal_loop fuel' (fold_left visit_predecessor (preds_of idx) t)
        else
          t ← break_cycle t;
          traversal_loop fuel' t
    end
  else Ok t.

Definition computeTraversalOrder : result (list nat) :=
  let num_bb := numBB bbg in
  let t0 := {| ordering := []; added := replicate num_bb false;
               num_successors_added := replicate num_bb 0;
               check_predecessors_idx := 0 |} in
  t ← traversal_loop (2 * num_bb + 1) (fold_left add_exit (seq 0 num_bb) t0);
  assert_ (Nat.eqb (length (ordering t)) num_bb) "ordering.size() == num_bb" ;;
  assert_ (Nat.eqb (length (added t)) num_bb) "added.size() == num_bb" ;;
  Ok (ordering t).

End Traversal.

(** ** The worklist *)

Module BlockOrderer.

(** [queue] holds the pairs (block, priority) of the priority queue;
    the queue hands out the pair of least priority ([BlockComparer]
    orders by greater priority), so how the library arranges the pairs
    internally is not part of the model.

    The model is one of orderers whose priorities are pairwise
    different, as they are when [order] lists every block index once
    ([priorities_differ] below).  [BlockComparer] asserts that the two
    pairs it is given differ in their priority; which pairs the library
    hands it depends on its heap, so the model has no error for this
    assertion, and it does not say what the constructor does with an
    entry of [order] that is no block index (a write out of bounds).
    The properties of the orderer are stated for priorities that
    differ and orders within bounds, where neither can happen. *)
Record t : Type := Make {
  priority : list Z;
  in_queue : list bool;
  queue : list (nat * Z)
}.

Definition create (order : list nat) : t :=
  {| priority :=
       fold_left (fun pr i => <[default 0%nat (order !! i) := Z.of_nat i]> pr)
                 (seq 0 (length order)) (replicate (length order) 0);
     in_queue := replicate (length order) false;
     queue := [] |}.

Definition add (idx : nat) (o : t) : t :=
  if default false (in_queue o !! idx) then o
  else {| priority := priority o;
          in_queue := <[idx := true]> (in_queue o);
          queue := (idx, default 0 (priority o !! idx)) :: queue o |}.

(** [queue.top()]: the pair that no other pair precedes. *)
Fixpoint top (q : list (nat * Z)) : option (nat * Z) :=
  match q with
  | [] => None
  | p :: q' =>
      match top q' with
      | Some p' => if Z.ltb p'.2 p.2 then Some p' else Some p
      | None => Some p
      end
  end.

(** [queue.pop()]: the queue without its top. *)
Fixpoint remove (p : nat * Z) (q : list (nat * Z)) : list (nat * Z) :=
  match q with
  | [] => []
  | p' :: q' =>
      if Nat.eqb p'.1 p.1 && Z.eqb p'.2 p.2 then q' else p' :: remove p q'
  end.

(** [pop()]; [None] stands for the answer [-1]. *)
Definition pop (o : t) : result (option nat * t) :=
  match top (queue o) with
  | None => Ok (None, o)
  | Some p =>
      let idx := p.1 in
      assert_ (default false (in_queue o !! idx)) "in_queue[idx]" ;;
      Ok (Some idx, {| priority := priority o;
                       in_queue := <[idx := false]> (in_queue o);
                       queue := remove p (queue o) |})
  end.

End BlockOrderer.

(** ** The fixed point *)

Section Worklist.
Variable classof : Value -> ValueClass.
Variable rt : RefcountTracker.
Variable f : Function.
Variable bbg : BBGraph.

Definition state_at (states : list RefState) (idx : nat) : RefState :=
  default RefState0 (states !! idx).

(** The body of the worklist loop for the block of index [idx]: the
    new states, and whether the predecessors are to be reconsidered. *)
Definition process_block (idx : nat) (states : list RefState)
  : result (list RefState * bool) :=
  match fn_blocks f !! idx with
  | None => Err (UndefinedBehaviour "bbg.bbs[idx] out of range")
  | Some b =>
      let bb := bb_addr b in
      let firsttime := negb (been_run (state_at states idx)) in
      let orig_ending_refs := ending_refs (state_at states idx) in
      let state :=
        {| been_run := true; starting_refs := OrderedMap.empty;
           ending_refs := OrderedMap.empty; increfs := []; decrefs := [];
           cxx_fixups := [] |} in
      let states := <[idx := state]> states in
      let successors :=
        List.filter (fun sidx => been_run (state_at states sidx)) (succs_of bbg idx) in
      successor_info ←
        mapM_result
          (fun sidx =>
             match bbs bbg !! sidx with
             | Some sbb => Ok (ending_refs (state_at states sidx), sbb)
             | None => Err (UndefinedBehaviour "bbg.bbs[sidx] out of range")
             end)
          successors;
      state ← merge_successors rt bb successor_info state;
      let state := set_ending_refs state (starting_refs state) in
      state ← scan_block rt b state;
      state ← foldM (invoke_step rt bb) (collect_invokes rt f) state;
      state ← finish_entry classof rt f bb state;
      changed ← (if firsttime then Ok true
                 else endingRefsDifferent orig_ending_refs (ending_refs state));
      Ok (<[idx := state]> states, changed)
  end.

(** The worklist loop; the third component lists the blocks in the
    order in which they were processed. *)
Fixpoint solve_loop (fuel : nat) (orderer : BlockOrderer.t)
         (states : list RefState) (visited : list nat)
  : result (list RefState * list nat) :=
  match fuel with
  | O => Err OutOfFuel
  | S fuel' =>
      '(popped, orderer) ← BlockOrderer.pop orderer;
      match popped with
      | None => Ok (states, visited)
      | Some idx =>
          '(states, changed) ← process_block idx states;
          let orderer :=
            if changed : bool
            then fold_left (fun o p => BlockOrderer.add p o) (preds_of bbg idx) orderer
            else orderer in
          solve_loop fuel' orderer states (visited ++ [idx])
      end
  end.

End Worklist.

Definition solve (sort_by_count : list (nat * Z) -> list (nat * Z))
           (classof : Value -> ValueClass) (rt : RefcountTracker) (f : Function)
           (fuel : nat) : result (list RefState * list nat) :=
  let bbg := mkBBGraph f in
  let num_bb := length (fn_blocks f) in
  order ← computeTraversalOrder sort_by_count bbg;
  let orderer :=
    fold_left (fun o i => BlockOrderer.add i o) (seq 0 num_bb)
              (BlockOrderer.create order) in
  solve_loop classof rt f bbg fuel orderer (replicate num_bb RefState0) [].

(** ** The mutator: where an operation planned on an edge goes *)

Abbreviation InsertionCache := (gmap (positive * option positive) positive).

Section Mutator.
(** The address of the [n]-th object that the pass creates. *)
Variable alloc : nat -> positive.

Definition set_opcode (i : InstructionData) (o : Opcode) : InstructionData :=
  {| addr := addr i; opcode := o; operands := operands i |}.

Definition set_insts (b : BasicBlockData) (l : list InstructionData) : BasicBlockData :=
  {| bb_addr := bb_addr b; bb_insts := l; bb_preds := bb_preds b |}.

Definition set_preds (b : BasicBlockData) (l : list BasicBlock) : BasicBlockData :=
  {| bb_addr := bb_addr b; bb_insts := bb_insts b; bb_preds := l |}.

(** [phi->setIncomingBlock(phi->getBasicBlockIndex(from), new_from)] *)
Fixpoint replace_first (from_block new_from_block : BasicBlock) (l : list BasicBlock)
  : list BasicBlock :=
  match l with
  | [] => []
  | b :: l' =>
      if Pos.eqb b from_block then new_from_block :: l'
      else b :: replace_first from_block new_from_block l'
  end.

(** [remapPhis], on the instructions of [in_block] *)
Fixpoint remapPhis (from_block new_from_block : BasicBlock) (l : list InstructionData)
  : list InstructionData :=
  match l with
  | [] => []
  | i :: l' =>
      match opcode i with
      | PHINode incoming =>
          set_opcode i (PHINode (replace_first from_block new_from_block incoming))
            :: remapPhis from_block new_from_block l'
      | _ => l
      end
  end.

(** The terminator of [from_bb] with its edges to [BB] moved to the
    breaker block, and the number of edges moved. *)
Definition retarget (BB breaker_block : BasicBlock) (terminator : InstructionData)
  : result (InstructionData * nat) :=
  match opcode terminator with
  | BranchInst s0 s1 =>
      let hit0 := Pos.eqb s0 BB in
      let hit1 := match s1 with Some s => Pos.eqb s BB | None => false end in
      Ok (set_opcode terminator
            (BranchInst (if hit0 then breaker_block else s0)
                        (if hit1 then Some breaker_block else s1)),
          ((if hit0 then 1 else 0) + (if hit1 then 1 else 0))%nat)
  | InvokeInst normal unwind =>
      let hit := Pos.eqb normal BB in
      assert_ (negb (Pos.eqb unwind BB)) "don't know how break critical unwind edges" ;;
      Ok (set_opcode terminator
            (InvokeInst (if hit then breaker_block else normal) unwind),
          if hit then 1%nat else 0%nat)
  | _ => Err (ReleaseAssertFailed "unhandled terminator type")
  end.

(** The list without the first [n] occurrences of [b]. *)
Fixpoint remove_uses (n : nat) (b : BasicBlock) (l : list BasicBlock) : list BasicBlock :=
  match n, l with
  | O, _ => l
  | _, [] => []
  | S n', x :: l' =>
      if Pos.eqb x b then remove_uses n' b l' else x :: remove_uses n b l'
  end.

Definition replace_last (l : list InstructionData) (i : InstructionData)
  : list InstructionData := removelast l ++ [i].

(** The function after the edge [from_bb] -> [BB] has been split; the
    second component is the branch of the breaker block. *)
Definition break_edge (f : Function) (b : BasicBlockData) (from_bb : BasicBlock)
  : result (Function * Instruction) :=
  let BB := bb_addr b in
  let breaker_block := alloc (fn_created f) in
  let br := alloc (S (fn_created f)) in
  match find_block f from_bb with
  | None => Err (UndefinedBehaviour "from_bb is not a block of the function")
  | Some fb =>
      match getTerminator fb with
      | None => Err (UndefinedBehaviour "from_bb has no terminator")
      | Some terminator =>
          '(terminator', moved) ← retarget BB breaker_block terminator;
          let breaker :=
            {| bb_addr := breaker_block;
               bb_insts := [ {| addr := br; opcode := BranchInst BB None;
                                operands := [] |} ];
               bb_preds := repeat from_bb moved |} in
          let rewrite_block (d : BasicBlockData) : list BasicBlockData :=
            let d :=
              if Pos.eqb (bb_addr d) from_bb
              then set_insts d (replace_last (bb_insts d) terminator')
              else d in
            if Pos.eqb (bb_addr d) BB then
              [ breaker;
                set_preds
                  (set_insts d (remapPhis from_bb breaker_block (bb_insts d)))
                  (breaker_block :: remove_uses moved from_bb (bb_preds d)) ]
            else [d] in
          Ok ({| fn_args := fn_args f;
                 fn_blocks := flat_map rewrite_block (fn_blocks f);
                 fn_created := S (S (fn_created f)) |},
              br)
      end
  end.

Definition findInsertionPoint (BB from_bb : option BasicBlock)
           (st : Function * InsertionCache)
  : result (Instruction * (Function * InsertionCache)) :=
  let '(f, cache) := st in
  match BB with
  | None => Err (AssertionFailed "BB")
  | Some BB =>
      assert_ (negb (bool_decide (Some BB = from_bb))) "BB != from_bb" ;;
      let key := (BB, from_bb) in
      match cache !! key with
      | Some pt => Ok (pt, (f, cache))
      | None =>
          match find_block f BB with
          | None => Err (UndefinedBehaviour "BB is not a block of the function")
          | Some b =>
              if Z.ltb 1 (numPredecessors b) then
                match from_bb with
                | None =>
                    Err (AssertionFailed "Don't know how to break the critical edge")
                | Some from_bb' =>
                    '(f', br) ← break_edge f b from_bb';
                    Ok (br, (f', <[key := br]> cache))
                end
              else
                match bb_insts b with
                | [] => Err (UndefinedBehaviour "*BB->begin() of an empty block")
                | first :: _ =>
                    if isa_LandingPadInst first then
                      match bb_insts b !! 3%nat with
                      | Some i => Ok (addr i, (f, <[key := addr i]> cache))
                      | None => Err (UndefinedBehaviour "iterator past the end of BB")
                      end
                    else
                      match List.find
                              (fun i => negb (isa_PHINode i) && negb (isa_AllocaInst i))
                              (bb_insts b) with
                      | Some i => Ok (addr i, (f, <[key := addr i]> cache))
                      | None => Err Aborted
                      end
                end
          end
      end
  end.

End Mutator.

(** ** The mutator: emission of a decrement

    What [addDecrefs] does to the IR is recorded as the sequence of its
    calls into the IR builder and the C library. *)

Inductive Site : Type :=
| ExistingInst (i : Instruction)
| CreatedBranch (block_name : string).

Inductive Event : Type :=
| Printf (text : string)
| RaiseSIGTRAP
| SplitBasicBlock (pt : Site)
| CreateBasicBlock (name : string)
| EraseTerminator
| CreateICmpEQNull (v : Value)
| CreateCondBr
| CreateBr
| CreatePatchpointCall (pp_id pp_size : Z) (v : Value) (pt : Site).

Section Decrefs.
Variable classof : Value -> ValueClass.
(** What becomes of [raise(SIGTRAP)] is decided outside the program:
    in a plain run the default action of the signal ends the process
    inside [raise] ([sigtrap_returns = false]); [raise] returns only
    when the signal is caught or ignored, as under a debugger or with
    a handler installed ([sigtrap_returns = true]). *)
Variable sigtrap_returns : bool.
(** The identifiers and sizes of the decrement patchpoints, declared
    in a header that is not among the sources. *)
Variables DECREF_PP_ID XDECREF_PP_ID DECREF_PP_SIZE XDECREF_PP_SIZE : Z.

(** The call of [addDecrefs] on itself passes [nullable = false] and
    so never nests deeper than once: [fuel] two is always enough. *)
Fixpoint addDecrefs_rec (fuel : nat) (v : Value) (nullable : bool) (num_refs : Z)
         (decref_pt : Site) : list Event * result unit :=
  let warning :=
    if Z.ltb 1 num_refs then [Printf "Whoa more than one decref??"; RaiseSIGTRAP]
    else [] in
  if Z.ltb 1 num_refs && negb sigtrap_returns then
    (warning, Err (Killed "SIGTRAP"))
  else if isa_ConstantPointerNull (classof v) then
    (warning, assert_ nullable "nullable")
  else if negb (Z.ltb 0 num_refs) then
    (warning, Err (AssertionFailed "num_refs > 0"))
  else if nullable then
    match fuel with
    | O => (warning, Err OutOfFuel)
    | S fuel' =>
        let events :=
          warning ++ [SplitBasicBlock decref_pt; CreateBasicBlock "decref";
                      EraseTerminator; CreateICmpEQNull v; CreateCondBr; CreateBr] in
        let r := addDecrefs_rec fuel' v false num_refs (CreatedBranch "decref") in
        (events ++ r.1, r.2)
    end
  else if negb (Z.eqb num_refs 1) then
    (warning, Err (ReleaseAssertFailed "decref patchpoints don't support >1 refs"))
  else
    let pp_id := if nullable then XDECREF_PP_ID else DECREF_PP_ID in
    let pp_size := if nullable then XDECREF_PP_SIZE else DECREF_PP_SIZE in
    (warning ++ [CreatePatchpointCall pp_id pp_size v decref_pt], Ok tt).

Definition addDecrefs (v : Value) (nullable : bool) (num_refs : Z)
           (decref_pt : Instruction) : list Event * result unit :=
  addDecrefs_rec 2 v nullable num_refs (ExistingInst decref_pt).

End Decrefs.

(** ** The mutator: the search for the insertion points

    The first walk over the plans finds the insertion point of every
    operation that is planned on an edge, which may split critical
    edges.  The second walk makes the same search for every operation
    before it hands the operation to its emitter.  The emitters
    [addIncrefs] and [addCXXFixup] and the rewrite of the yield calls
    build IR through the interfaces of LLVM and of the code generator,
    which are not among the sources; they are not part of the
    model. *)

Section Walks.
Variable alloc : nat -> positive.

(** [op.insertion_inst], or else the insertion point of the edge *)
Definition insertion_point_of (op : RefOp) (st : Function * InsertionCache)
  : result (Instruction * (Function * InsertionCache)) :=
  match insertion_inst op with
  | Some pt => Ok (pt, st)
  | None => findInsertionPoint alloc (insertion_bb op) (insertion_from_bb op) st
  end.

Definition find_step (st : Function * InsertionCache) (op : RefOp)
  : result (Function * InsertionCache) :=
  r ← insertion_point_of op st; Ok r.2.

Definition find_in_state (st : Function * InsertionCache) (state : RefState)
  : result (Function * InsertionCache) :=
  st ← foldM find_step (increfs state) st;
  foldM find_step (decrefs state) st.

(** The first walk. *)
Definition find_insertion_points (states : list RefState)
           (st : Function * InsertionCache) : result (Function * InsertionCache) :=
  foldM find_in_state states st.

End Walks.

(** ** The merge in the words of the specification

    The definitions of this section follow the text of the
    specification (sections 3 and 4.4); the properties below compare them
    with the code. *)

(** [s.ending_refs.get(v, 0)]: what a successor demands for [v]. *)
Definition demand (v : Value) (m : BlockMap) : Z :=
  default 0 (OrderedMap.map m !! v).

(** Invariant I3 as it is written: the largest demand of a successor. *)
Definition max_demand (v : Value) (successor_info : list (BlockMap * BasicBlock)) : Z :=
  foldr Z.max 0 (demand v <$> successor_info.*1).

(** The smallest demand of a successor, as far as the solver looks:
    its search starts from 1000000000. *)
Definition min_demand (v : Value) (successor_info : list (BlockMap * BasicBlock)) : Z :=
  foldr Z.min 1000000000 (demand v <$> successor_info.*1).

(** An operation planned on the edge from [bb] to [sbb]. *)
Definition edge_op (rt : RefcountTracker) (bb : BasicBlock) (v : Value) (n : Z)
           (sbb : BasicBlock) : RefOp :=
  {| operand := v; op_nullable := nullable (vars_lookup rt v); num_refs := n;
     insertion_inst := None; insertion_bb := Some sbb; insertion_from_bb := Some bb |}.

(** "If [d > 0], schedule an increment of [d] on the edge": the
    increments for [v], successor by successor, [d] being the demand
    of the successor less [min_refs]. *)
Definition edge_increfs_for (rt : RefcountTracker) (bb : BasicBlock) (v : Value)
           (min_refs : Z) (successor_info : list (BlockMap * BasicBlock)) : list RefOp :=
  successor_info ≫= fun s =>
    let d := demand v s.1 - min_refs in
    if Z.ltb 0 d then [edge_op rt bb v d s.2] else [].

(** "If [d < 0], schedule a decrement of [-d] on the edge". *)
Definition edge_decrefs_for (rt : RefcountTracker) (bb : BasicBlock) (v : Value)
           (min_refs : Z) (successor_info : list (BlockMap * BasicBlock)) : list RefOp :=
  successor_info ≫= fun s =>
    let d := demand v s.1 - min_refs in
    if Z.ltb d 0 then [edge_op rt bb v (- d) s.2] else [].

Definition edge_increfs (rt : RefcountTracker) (bb : BasicBlock)
           (successor_info : list (BlockMap * BasicBlock)) (v : Value) : list RefOp :=
  edge_increfs_for rt bb v (min_refs_of rt v successor_info) successor_info.

Definition edge_decrefs (rt : RefcountTracker) (bb : BasicBlock)
           (successor_info : list (BlockMap * BasicBlock)) (v : Value) : list RefOp :=
  edge_decrefs_for rt bb v (min_refs_of rt v successor_info) successor_info.

(** The summaries that the solver hands from block to block: the
    class invariant of the map, and no count below one (I1). *)
Definition summary_ok (m : BlockMap) : Prop :=
  OrderedMap.wf m ∧ ∀ v x, OrderedMap.map m !! v = Some x → 0 < x.

(** ** The entry block in the words of the specification *)

(** "Anything still in [ending_refs] must be a function argument, a
    global, or a constant -- all BORROWED." *)
Definition entry_value_ok (classof : Value -> ValueClass) (rt : RefcountTracker)
           (f : Function) (v : Value) : bool :=
  (isa_GlobalVariable (classof v) || isa_Constant (classof v) || is_argument f v)
  && RefType_eqb (reftype (vars_lookup rt v)) BORROWED.

(** "Schedule an increment at the top of the entry block for each." *)
Definition entry_incref (rt : RefcountTracker) (bb : BasicBlock) (p : Value * Z) : RefOp :=
  {| operand := p.1; op_nullable := nullable (vars_lookup rt p.1); num_refs := p.2;
     insertion_inst := None; insertion_bb := Some bb; insertion_from_bb := None |}.

(** ** The handling of an instruction that may raise, in the words of
    the specification *)

(** "Any value in [ending_refs] holding more references than it
    structurally needs [...] must have the surplus materialized as an
    increment placed after [I]": the increment for the entry [p] of
    [ending_refs], if it has a surplus. *)
Definition surplus_incref (rt : RefcountTracker) (following : list InstructionData)
           (p : Value * Z) : list RefOp :=
  let needed := if isOwned rt p.1 then 1 else 0 in
  if Z.ltb needed p.2 then
    [ {| operand := p.1; op_nullable := nullable (vars_lookup rt p.1);
         num_refs := p.2 - needed; insertion_inst := getNextNode following;
         insertion_bb := None; insertion_from_bb := None |} ]
  else [].

(** "Capture the current [ending_refs] as a multiset (expanding each
    count into that many entries, in insertion order)." *)
Definition captured_refs (m : BlockMap) : list Value :=
  OrderedMap.elements m ≫= fun p => replicate (Z.to_nat p.2) p.1.

(** How often a value occurs in a sequence. *)
Definition occurrences (v : Value) (l : list Value) : nat :=
  length (List.filter (Pos.eqb v) l).

(** ** The insertion point on an edge in the words of the specification *)




(** ** Invariants of the annotation store *)

(** The values that [refConsumed] and [refUsed] pass over. *)
Definition skipped (classof : Value -> ValueClass) (v : Value) : bool :=
  isa_UndefValue (classof v) || isa_ConstantPointerNull (classof v).

(** No sequence of the mapping holds a value that is passed over. *)
Definition refs_clean (classof : Value -> ValueClass)
           (refs : gmap positive (list positive)) : Prop :=
  ∀ inst v, v ∈ default [] (refs !! inst) → skipped classof v = false.

(** The counters of an instruction are not negative. *)
Definition counters_ok (c : SmallOrderedMap.t) : Prop := Forall (λ p, 0 ≤ p.2) c.

(** The states of all blocks obey I1. *)
Definition states_ok (states : list RefState) : Prop :=
  Forall (λ s, summary_ok (ending_refs s)) states.

(** ** The calls behind a store *)

(** The values that the calls [cs] have filed as consumed by [inst],
    in the order of the calls. *)
Definition consumed_by (classof : Value -> ValueClass) (inst : Instruction)
           (cs : list TrackerCall) : list Value :=
  omap (fun c => match c with
                 | CallRefConsumed v i =>
                     if Pos.eqb i inst && negb (skipped classof v) then Some v else None
                 | _ => None
                 end) cs.

(** The values that the calls [cs] have filed as used by [inst]. *)
Definition used_by (classof : Value -> ValueClass) (inst : Instruction)
           (cs : list TrackerCall) : list Value :=
  omap (fun c => match c with
                 | CallRefUsed v i =>
                     if Pos.eqb i inst && negb (skipped classof v) then Some v else None
                 | _ => None
                 end) cs.

(** The instructions that the calls [cs] have marked as able to throw. *)
Definition marked_by (cs : list TrackerCall) : list Instruction :=
  omap (fun c => match c with CallSetMayThrow i => Some i | _ => None end) cs.

(** Every value that is filed as consumed or used has a discipline. *)
Definition uses_annotated (rt : RefcountTracker) : Prop :=
  ∀ inst v,
    v ∈ default [] (refs_consumed rt !! inst) ∨ v ∈ default [] (refs_used rt !! inst) →
    reftype (vars_lookup rt v) ≠ UNKNOWN.

(** ** The bookkeeping of the worklist *)

(** What [BlockOrderer] keeps between its calls: no block is queued
    twice, [in_queue] flags exactly the queued blocks, and every block
    is queued under its priority. *)
Definition orderer_ok (o : BlockOrderer.t) : Prop :=
  NoDup (BlockOrderer.queue o).*1 ∧
  (∀ i, default false (BlockOrderer.in_queue o !! i) = true
        ↔ i ∈ (BlockOrderer.queue o).*1) ∧
  (∀ p, p ∈ BlockOrderer.queue o →
        p.2 = default 0 (BlockOrderer.priority o !! p.1)).

(** The priorities are those of a traversal order that lists every
    block once: there is one for each block, and no two are the same.
    This is what [BlockComparer] asserts of every two pairs that it
    compares. *)
Definition priorities_differ (o : BlockOrderer.t) : Prop :=
  NoDup (BlockOrderer.priority o) ∧
  length (BlockOrderer.priority o) = length (BlockOrderer.in_queue o).

(** ** Graphs whose edges stay among the blocks *)

(** Every index in the lists of predecessors and successors is the
    index of a block: the accesses [added[pidx]], [states[sidx]] and
    [bbg.bbs[sidx]] are within bounds. *)
Definition graph_in_range (bbg : BBGraph) : Prop :=
  Forall (Forall (λ j, (j < numBB bbg)%nat)) (predecessors bbg) ∧
  Forall (Forall (λ j, (j < numBB bbg)%nat)) (successors bbg).

(** The blocks of [ordering] are distinct, and [added] flags them. *)
Definition traversal_ok (bbg : BBGraph) (t : Traversal) : Prop :=
  NoDup (ordering t) ∧ length (added t) = numBB bbg ∧
  ∀ i, i ∈ ordering t ↔ added t !! i = Some true.

(** [bbg.successors[i].size() == 0] *)
Definition is_exit (bbg : BBGraph) (i : nat) : bool :=
  Nat.eqb (length (succs_of bbg i)) 0.

(** ** Graphs without cycles *)

(** How often [x] occurs in [l]. *)
Definition count_in (x : nat) (l : list nat) : nat :=
  length (List.filter (Nat.eqb x) l).

(** The lists of predecessors mirror the lists of successors: block
    [i] is as often a predecessor of block [j] as [j] is a successor of
    [i] (LLVM derives both from the operands of the terminators). *)
Definition edges_agree (bbg : BBGraph) : bool :=
  forallb (λ i,
     forallb (λ j, Nat.eqb (count_in j (succs_of bbg i)) (count_in i (preds_of bbg j)))
             (seq 0 (numBB bbg)))
    (seq 0 (numBB bbg)).

(** Every successor of a block of [order] stands before the block. *)
Definition successors_first (bbg : BBGraph) (order : list nat) : Prop :=
  ∀ pa a b, order !! pa = Some a → b ∈ succs_of bbg a →
            ∃ pb, (pb < pa)%nat ∧ order !! pb = Some b.

(** How many successor edges of [p] lead into [X]. *)
Definition succs_in (bbg : BBGraph) (p : nat) (X : list nat) : nat :=
  length (List.filter (λ y, bool_decide (y ∈ X)) (succs_of bbg p)).

(** What case 1 of the traversal keeps while it has handled the blocks
    [X], is at block [idx] and has gone through the predecessors [L1]
    of it: a block that is not added has counted its successor edges
    into [X] and its occurrences in [L1], and still misses some. *)
Definition counting_ok (bbg : BBGraph) (X L1 : list nat) (t : Traversal) : Prop :=
  ∀ p, (p < numBB bbg)%nat → default false (added t !! p) = false →
       default 0 (num_successors_added t !! p)
       = Z.of_nat (succs_in bbg p X + count_in p L1) ∧
       (succs_in bbg p X + count_in p L1 < length (succs_of bbg p))%nat.

Definition dag_ok (bbg : BBGraph) (t : Traversal) : Prop :=
  traversal_ok bbg t ∧
  length (num_successors_added t) = numBB bbg ∧
  (check_predecessors_idx t ≤ length (ordering t))%nat ∧
  successors_first bbg (ordering t) ∧
  counting_ok bbg (take (check_predecessors_idx t) (ordering t)) [] t.

(** ** The insertion points that the first walk has found *)

(** The insertion point of [op] is known without a search: it was
    planned at an instruction, or its edge is in the cache. *)
Definition covered (cache : InsertionCache) (op : RefOp) : Prop :=
  is_Some (insertion_inst op) ∨
  ∃ BB, insertion_bb op = Some BB ∧ Some BB ≠ insertion_from_bb op ∧
        is_Some (cache !! (BB, insertion_from_bb op)).

(** ** The pieces of a split edge *)

(** The block that [findInsertionPoint] puts on a critical edge: one
    unconditional branch [br] to [BB]; its predecessors are the edges
    that were moved to it. *)
Definition breaker_block (block br from_bb BB : positive) (moved : nat) : BasicBlockData :=
  {| bb_addr := block;
     bb_insts := [ {| addr := br; opcode := BranchInst BB None; operands := [] |} ];
     bb_preds := repeat from_bb moved |}.

(** A phi whose first incoming entry for [from_block] is redirected. *)
Definition redirect_phi (from_block new_from_block : BasicBlock) (i : InstructionData)
  : InstructionData :=
  match opcode i with
  | PHINode incoming =>
      set_opcode i (PHINode (replace_first from_block new_from_block incoming))
  | _ => i
  end.

(** The calls of the patchpoint intrinsic among the events. *)
Definition is_patchpoint (e : Event) : bool :=
  match e with CreatePatchpointCall _ _ _ _ => true | _ => false end.

(** ** The scan of an instruction, stage by stage *)

(** The operation that settles the count of [v] where it is defined. *)
Definition def_op (rt : RefcountTracker) (v : Value) (n : Z) (pt : option Instruction)
           (ibb ifrom : option BasicBlock) : RefOp :=
  {| operand := v; op_nullable := nullable (vars_lookup rt v); num_refs := n;
     insertion_inst := pt; insertion_bb := ibb; insertion_from_bb := ifrom |}.

(** An owned value that the instruction uses more often than it
    consumes it, and that is not wanted behind the instruction: this
    is its last use, and the reference is kept alive through it. *)
Definition kept_alive (rt : RefcountTracker) (nc nt : SmallOrderedMap.t)
           (m : BlockMap) (v : Value) : bool :=
  Z.ltb (SmallOrderedMap.get nc v) (SmallOrderedMap.get nt v)
  && isOwned rt v && Z.eqb (subscript m v) 0.

(** A counter that has gone through the values [l]: it has one entry
    for each of them and holds how often each occurs. *)
Definition counters_of (l : list Value) (c : SmallOrderedMap.t) : Prop :=
  NoDup c.*1 ∧ (∀ v, v ∈ c.*1 → v ∈ l) ∧
  ∀ v, SmallOrderedMap.get c v = Z.of_nat (occurrences v l).

(** The blocks that a flood fill has not reached. *)
Definition unvisited (visited : list bool) : nat := length (List.filter negb visited).

(** ** Plans that the emitters accept *)

(** Every planned operation adds or drops at least one reference, and
    decrements are planned for owned values only. *)
Definition ops_ok (rt : RefcountTracker) (s : RefState) : Prop :=
  Forall (λ op, 0 < num_refs op) (increfs s) ∧
  Forall (λ op, 0 < num_refs op ∧ isOwned rt (operand op) = true) (decrefs s).

(** ** Sample data *)

Module Sample.

(** Two summaries with the same entries inserted in different orders. *)
Definition refs_ab : BlockMap := assign 2%positive 5 (assign 1%positive 2 OrderedMap.empty).
Definition refs_ba : BlockMap := assign 1%positive 2 (assign 2%positive 5 OrderedMap.empty).

(** A borrowed value [7] of which one successor (block 11) wants one
    reference and the other (block 12) three. *)
Definition rt_borrowed : RefcountTracker :=
  {| vars := {[ 7%positive := {| reftype := BORROWED; nullable := false |} ]};
     refs_consumed := ∅; refs_used := ∅; may_throw := ∅ |}.

Definition refs_one : BlockMap := assign 7%positive 1 OrderedMap.empty.
Definition refs_three : BlockMap := assign 7%positive 3 OrderedMap.empty.

Definition two_successors : list (BlockMap * BasicBlock) :=
  [(refs_one, 11%positive); (refs_three, 12%positive)].

(** An owned value [8] of which one successor (block 11) wants two
    references and the other (block 12) none. *)
Definition rt_owned : RefcountTracker :=
  {| vars := {[ 8%positive := {| reftype := OWNED; nullable := false |} ]};
     refs_consumed := ∅; refs_used := ∅; may_throw := ∅ |}.

Definition refs_two : BlockMap := assign 8%positive 2 OrderedMap.empty.

Definition owned_successors : list (BlockMap * BasicBlock) :=
  [(refs_two, 11%positive); (OrderedMap.empty, 12%positive)].

(** A store filled by a few calls: value 1 is undef, value 3 a null
    pointer, value 2 an owned instruction result. *)
Definition classes (v : Value) : ValueClass :=
  match v with
  | 1%positive => UndefValue
  | 3%positive => ConstantPointerNull
  | 4%positive => Argument
  | _ => InstructionValue
  end.

Definition no_blocks : Function := {| fn_args := []; fn_blocks := []; fn_created := 0 |}.

(** An entry block 20 (a single return) at whose top a borrowed
    argument [4] is still wanted twice. *)
Definition entry_fn : Function :=
  {| fn_args := [4%positive];
     fn_blocks := [ {| bb_addr := 20%positive;
                       bb_insts := [ {| addr := 21%positive; opcode := ReturnInst;
                                        operands := [4%positive] |} ];
                       bb_preds := [] |} ];
     fn_created := 0 |}.

Definition rt_argument : RefcountTracker :=
  {| vars := {[ 4%positive := {| reftype := BORROWED; nullable := true |} ]};
     refs_consumed := ∅; refs_used := ∅; may_throw := ∅ |}.

Definition entry_state : RefState :=
  set_ending_refs RefState0 (assign 4%positive 2 OrderedMap.empty).

(** A call [30] that may raise, followed by a return [31]; behind the
    call the owned value [8] is wanted three times and the borrowed
    value [7] twice. *)
Definition rt_raising : RefcountTracker :=
  {| vars := {[ 8%positive := {| reftype := OWNED; nullable := false |};
                7%positive := {| reftype := BORROWED; nullable := true |} ]};
     refs_consumed := ∅; refs_used := ∅; may_throw := {[ 30%positive ]} |}.

Definition raising_call : InstructionData :=
  {| addr := 30%positive; opcode := CallInst 40%positive; operands := [] |}.

Definition after_call : list InstructionData :=
  [ {| addr := 31%positive; opcode := ReturnInst; operands := [] |} ].

Definition raising_state : RefState :=
  set_ending_refs RefState0
    (assign 8%positive 3 (assign 7%positive 2 OrderedMap.empty)).

(** The entry block 45 branches to the blocks 50 and 55.  Block 50
    branches to block 60, which starts with a phi and an alloca before
    its first ordinary instruction 63.  The invoke of block 55 goes on
    to block 80 and unwinds to the landing-pad block 70. *)
Definition block60 : BasicBlockData :=
  {| bb_addr := 60%positive;
     bb_insts := [ {| addr := 61%positive; opcode := PHINode [50%positive];
                      operands := [4%positive] |};
                   {| addr := 62%positive; opcode := AllocaInst; operands := [] |};
                   {| addr := 63%positive; opcode := OtherInst; operands := [] |};
                   {| addr := 64%positive; opcode := ReturnInst; operands := [] |} ];
     bb_preds := [50%positive] |}.

Definition edge_fn : Function :=
  {| fn_args := [4%positive];
     fn_blocks :=
       [ {| bb_addr := 45%positive;
            bb_insts := [ {| addr := 46%positive;
                             opcode := BranchInst 50%positive (Some 55%positive);
                             operands := [] |} ];
            bb_preds := [] |};
         {| bb_addr := 50%positive;
            bb_insts := [ {| addr := 51%positive; opcode := BranchInst 60%positive None;
                             operands := [] |} ];
            bb_preds := [45%positive] |};
         {| bb_addr := 55%positive;
            bb_insts := [ {| addr := 56%positive;
                             opcode := InvokeInst 80%positive 70%positive;
                             operands := [] |} ];
            bb_preds := [45%positive] |};
         block60;
         {| bb_addr := 70%positive;
            bb_insts := [ {| addr := 71%positive; opcode := LandingPadInst;
                             operands := [] |};
                          {| addr := 72%positive; opcode := OtherInst; operands := [] |};
                          {| addr := 73%positive; opcode := CallInst 41%positive;
                             operands := [] |};
                          {| addr := 74%positive; opcode := OtherInst; operands := [] |};
                          {| addr := 75%positive; opcode := UnreachableInst;
                             operands := [] |} ];
            bb_preds := [55%positive] |};
         {| bb_addr := 80%positive;
            bb_insts := [ {| addr := 81%positive; opcode := ReturnInst;
                             operands := [] |} ];
            bb_preds := [55%positive] |} ];
     fn_created := 0 |}.

Definition allocator (n : nat) : positive := Pos.of_nat (1000 + n).

(** A sort for the call of [std::sort] in the traversal order. *)
Fixpoint insert_by_count (p : nat * Z) (l : list (nat * Z)) : list (nat * Z) :=
  match l with
  | [] => [p]
  | q :: l' => if Z.ltb q.2 p.2 then p :: l else q :: insert_by_count p l'
  end.

Definition sort_by_count (l : list (nat * Z)) : list (nat * Z) :=
  foldr insert_by_count [] l.

(** A diamond: the entry block 100 defines the owned value [101] and
    branches to 200, which consumes it, or to 300, which does not use
    it; both go on to 400, which returns. *)
Definition diamond_fn : Function :=
  {| fn_args := [];
     fn_blocks :=
       [ {| bb_addr := 100%positive;
            bb_insts := [ {| addr := 101%positive; opcode := CallInst 900%positive;
                             operands := [900%positive] |};
                          {| addr := 102%positive;
                             opcode := BranchInst 200%positive (Some 300%positive);
                             operands := [] |} ];
            bb_preds := [] |};
         {| bb_addr := 200%positive;
            bb_insts := [ {| addr := 201%positive; opcode := CallInst 901%positive;
                             operands := [101%positive; 901%positive] |};
                          {| addr := 202%positive; opcode := BranchInst 400%positive None;
                             operands := [] |} ];
            bb_preds := [100%positive] |};
         {| bb_addr := 300%positive;
            bb_insts := [ {| addr := 302%positive; opcode := BranchInst 400%positive None;
                             operands := [] |} ];
            bb_preds := [100%positive] |};
         {| bb_addr := 400%positive;
            bb_insts := [ {| addr := 402%positive; opcode := ReturnInst;
                             operands := [] |} ];
            bb_preds := [300%positive; 200%positive] |} ];
     fn_created := 0 |}.

Definition rt_diamond : RefcountTracker :=
  {| vars := {[ 101%positive := {| reftype := OWNED; nullable := false |} ]};
     refs_consumed := {[ 201%positive := [101%positive] ]};
     refs_used := ∅; may_throw := ∅ |}.

(** The second run finds every object one address further. *)
Definition moved_classes (v : Value) : ValueClass := classes (Pos.pred v).
Definition moved_allocator (n : nat) : positive := Pos.succ (allocator n).

Definition calls : list TrackerCall :=
  [ CallSetType no_blocks 2%positive OWNED;
    CallRefConsumed 2%positive 5%positive;
    CallRefConsumed 1%positive 5%positive;
    CallRefUsed 3%positive 5%positive;
    CallRefUsed 2%positive 6%positive;
    CallSetMayThrow 5%positive ].

End Sample.

(** ** Two runs of the pass

    Between two runs of the compiler on the same input the objects of
    the IR keep their order in every container of the host but not
    their addresses, and with the addresses change the hash values
    under which the dense maps file them.  The second run is the first
    with every address moved by an injective [relocate]. *)

Definition result_map {A B} (g : A -> B) (r : result A) : result B :=
  match r with
  | Ok a => Ok (g a)
  | Err e => Err e
  end.

Section Relocation.
Variable relocate : positive -> positive.

Definition reloc_map (m : BlockMap) : BlockMap :=
  OrderedMap.Make (kmap (M2:=gmap positive) relocate (OrderedMap.map m))
                  (relocate <$> OrderedMap.order m).

Definition reloc_op (op : RefOp) : RefOp :=
  {| operand := relocate (operand op); op_nullable := op_nullable op;
     num_refs := num_refs op; insertion_inst := relocate <$> insertion_inst op;
     insertion_bb := relocate <$> insertion_bb op;
     insertion_from_bb := relocate <$> insertion_from_bb op |}.

Definition reloc_fixup (fx : CXXFixup) : CXXFixup :=
  {| fixup_inst := relocate (fixup_inst fx); to_decref := relocate <$> to_decref fx |}.

Definition reloc_state (s : RefState) : RefState :=
  {| been_run := been_run s;
     starting_refs := reloc_map (starting_refs s);
     ending_refs := reloc_map (ending_refs s);
     increfs := reloc_op <$> increfs s;
     decrefs := reloc_op <$> decrefs s;
     cxx_fixups := reloc_fixup <$> cxx_fixups s |}.

Definition reloc_tracker (rt : RefcountTracker) : RefcountTracker :=
  {| vars := kmap (M2:=gmap positive) relocate (vars rt);
     refs_consumed :=
       kmap (M2:=gmap positive) relocate (fmap (M:=list) relocate <$> refs_consumed rt);
     refs_used :=
       kmap (M2:=gmap positive) relocate (fmap (M:=list) relocate <$> refs_used rt);
     may_throw := set_map relocate (may_throw rt) |}.

Definition reloc_opcode (o : Opcode) : Opcode :=
  match o with
  | PHINode incoming => PHINode (relocate <$> incoming)
  | CallInst callee => CallInst (relocate callee)
  | InvokeInst n u => InvokeInst (relocate n) (relocate u)
  | BranchInst s0 s1 => BranchInst (relocate s0) (relocate <$> s1)
  | OtherTerminator succs => OtherTerminator (relocate <$> succs)
  | AllocaInst => AllocaInst
  | LandingPadInst => LandingPadInst
  | CastInst => CastInst
  | ReturnInst => ReturnInst
  | UnreachableInst => UnreachableInst
  | OtherInst => OtherInst
  end.

Definition reloc_inst (i : InstructionData) : InstructionData :=
  {| addr := relocate (addr i); opcode := reloc_opcode (opcode i);
     operands := relocate <$> operands i |}.

Definition reloc_block (b : BasicBlockData) : BasicBlockData :=
  {| bb_addr := relocate (bb_addr b); bb_insts := reloc_inst <$> bb_insts b;
     bb_preds := relocate <$> bb_preds b |}.

Definition reloc_function (f : Function) : Function :=
  {| fn_args := relocate <$> fn_args f; fn_blocks := reloc_block <$> fn_blocks f;
     fn_created := fn_created f |}.

Definition reloc_bbg (bbg : BBGraph) : BBGraph :=
  {| bb_idx := kmap (M2:=gmap positive) relocate (bb_idx bbg);
     bbs := relocate <$> bbs bbg;
     predecessors := predecessors bbg; successors := successors bbg |}.

Definition reloc_info (s_info : BlockMap * BasicBlock) : BlockMap * BasicBlock :=
  (reloc_map s_info.1, relocate s_info.2).

Definition reloc_small (v : SmallOrderedMap.t) : SmallOrderedMap.t :=
  prod_map relocate id <$> v.

Definition reloc_it (it : InstructionData * list InstructionData)
  : InstructionData * list InstructionData :=
  (reloc_inst it.1, reloc_inst <$> it.2).

Definition reloc_invoke (ii : InstructionData * BasicBlock)
  : InstructionData * BasicBlock :=
  (reloc_inst ii.1, relocate ii.2).

Definition reloc_key (key : positive * option positive) : positive * option positive :=
  (relocate key.1, relocate <$> key.2).

Definition reloc_cache (cache : InsertionCache) : InsertionCache :=
  kmap (M2:=gmap (positive * option positive)) reloc_key (relocate <$> cache).

Definition reloc_mutation (st : Function * InsertionCache) : Function * InsertionCache :=
  (reloc_function st.1, reloc_cache st.2).

Definition reloc_found (r : Instruction * (Function * InsertionCache))
  : Instruction * (Function * InsertionCache) :=
  (relocate r.1, reloc_mutation r.2).

(** The outcome of the solver: the summaries and plans of the blocks,
    and the blocks in the order of their visits. *)
Definition reloc_solution (r : list RefState * list nat) : list RefState * list nat :=
  (reloc_state <$> r.1, r.2).

End Relocation.

(** ** More sample data *)

Module Sample2.

(** The summary [refs_ab] without its first entry. *)
Definition refs_b : BlockMap := assign 2%positive 5 OrderedMap.empty.

(** A store in which value [2] is owned, and the calls that follow. *)
Definition rt_two : RefcountTracker :=
  {| vars := {[ 2%positive := {| reftype := OWNED; nullable := false |} ]};
     refs_consumed := ∅; refs_used := ∅; may_throw := ∅ |}.

Definition more_calls : list TrackerCall :=
  [ CallSetNullable 2%positive true;
    CallSetType Sample.no_blocks 2%positive OWNED;
    CallRefConsumed 2%positive 5%positive ].

(** An instruction with the operand [2]. *)
Definition inst5 : InstructionData :=
  {| addr := 5%positive; opcode := OtherInst; operands := [2%positive] |}.

(** A worklist of two blocks of which block 1 comes first. *)
Definition two_blocks : BlockOrderer.t := BlockOrderer.create [1; 0]%nat.
Definition both_queued : BlockOrderer.t :=
  BlockOrderer.add 1 (BlockOrderer.add 0 two_blocks).

(** The graph of the diamond, and its blocks ranked by their distance
    from the exit. *)
Definition diamond : BBGraph := mkBBGraph Sample.diamond_fn.
Definition diamond_rank (i : nat) : nat := (3 - i)%nat.

(** The call of block 200 of the diamond, which consumes value [101],
    and the call of block 100, which defines it. *)
Definition call201 : InstructionData :=
  {| addr := 201%positive; opcode := CallInst 901%positive;
     operands := [101%positive; 901%positive] |}.
Definition call101 : InstructionData :=
  {| addr := 101%positive; opcode := CallInst 900%positive;
     operands := [900%positive] |}.
Definition branch102 : InstructionData :=
  {| addr := 102%positive; opcode := BranchInst 200%positive (Some 300%positive);
     operands := [] |}.

(** Behind the definition of [101] two references are wanted. *)
Definition wanted_twice : RefState :=
  set_ending_refs RefState0 (assign 101%positive 2 OrderedMap.empty).

(** An increment planned on the edge from block 50 to block 60 of
    [Sample.edge_fn], and a decrement planned at the instruction 63. *)
Definition edge_incref : RefOp :=
  {| operand := 4%positive; op_nullable := true; num_refs := 2;
     insertion_inst := None; insertion_bb := Some 60%positive;
     insertion_from_bb := Some 50%positive |}.

Definition inst_decref : RefOp :=
  {| operand := 4%positive; op_nullable := true; num_refs := 1;
     insertion_inst := Some 63%positive; insertion_bb := None;
     insertion_from_bb := None |}.

Definition edge_state : RefState :=
  push_decref (push_incref RefState0 edge_incref) inst_decref.

Definition edge_plan : list RefState := [RefState0; edge_state].

(** Two invokes (blocks 55 and 57) that unwind to the same landing
    pad, block 70; the value of the invoke [56] is owned. *)
Definition invoke56 : InstructionData :=
  {| addr := 56%positive; opcode := InvokeInst 60%positive 70%positive;
     operands := [] |}.

Definition block55 : BasicBlockData :=
  {| bb_addr := 55%positive; bb_insts := [invoke56]; bb_preds := [] |}.

Definition block70 : BasicBlockData :=
  {| bb_addr := 70%positive;
     bb_insts := [ {| addr := 71%positive; opcode := LandingPadInst; operands := [] |};
                   {| addr := 72%positive; opcode := OtherInst; operands := [] |};
                   {| addr := 73%positive; opcode := CallInst 41%positive;
                      operands := [] |};
                   {| addr := 74%positive; opcode := OtherInst; operands := [] |};
                   {| addr := 75%positive; opcode := UnreachableInst; operands := [] |} ];
     bb_preds := [57%positive; 55%positive] |}.

Definition unwind_fn : Function :=
  {| fn_args := [];
     fn_blocks :=
       [ block55;
         {| bb_addr := 57%positive;
            bb_insts := [ {| addr := 58%positive;
                             opcode := InvokeInst 60%positive 70%positive;
                             operands := [] |} ];
            bb_preds := [] |};
         {| bb_addr := 60%positive;
            bb_insts := [ {| addr := 64%positive; opcode := ReturnInst;
                             operands := [] |} ];
            bb_preds := [57%positive; 55%positive] |};
         block70 ];
     fn_created := 0 |}.

Definition rt_invoke : RefcountTracker :=
  {| vars := {[ 56%positive := {| reftype := OWNED; nullable := false |} ]};
     refs_consumed := ∅; refs_used := ∅; may_throw := ∅ |}.

(** Two owned values [9] and [8] that are wanted twice and three times
    behind the call [30] of [Sample.raising_call], which may raise. *)
Definition rt_pair : RefcountTracker :=
  {| vars := {[ 8%positive := {| reftype := OWNED; nullable := false |};
                9%positive := {| reftype := OWNED; nullable := true |} ]};
     refs_consumed := ∅; refs_used := ∅; may_throw := {[ 30%positive ]} |}.

Definition wanted_pair : RefState :=
  set_ending_refs RefState0
    (assign 8%positive 3 (assign 9%positive 2 OrderedMap.empty)).

(** What the flush of the surplus at the call [30] makes of
    [wanted_pair]: one reference of each value is left, the others are
    planned as increments behind the call. *)
Definition flushed_pair : RefState :=
  push_incref
    (push_incref
       (set_ending_refs RefState0
          (assign 8%positive 1 (assign 9%positive 1 OrderedMap.empty)))
       {| operand := 9%positive; op_nullable := true; num_refs := 1;
          insertion_inst := Some 31%positive; insertion_bb := None;
          insertion_from_bb := None |})
    {| operand := 8%positive; op_nullable := false; num_refs := 2;
       insertion_inst := Some 31%positive; insertion_bb := None;
       insertion_from_bb := None |}.

(** A state that wants a value which the tracker [rt_pair] does not
    know. *)
Definition wanted_stranger : RefState :=
  set_ending_refs RefState0 (assign 5%positive 1 OrderedMap.empty).

(** The last block of the diamond. *)
Definition block400 : BasicBlockData :=
  {| bb_addr := 400%positive;
     bb_insts := [ {| addr := 402%positive; opcode := ReturnInst; operands := [] |} ];
     bb_preds := [300%positive; 200%positive] |}.

End Sample2.

(** * Properties *)

(** ** The result monad *)

(** Runs the binds of the result monad whose first computation is a value. *)
Ltac rsimpl :=
  cbn [rbind mbind mret result_bind result_ret assert_ fst snd].

Lemma rbind_Ok {A B} (m : result A) (k : A -> result B) (b : B) :
  rbind m k = Ok b ↔ ∃ a, m = Ok a ∧ k a = Ok b.
Proof.
  destruct m as [a|e]; simpl; split.
  - intros Hk. exists a. split; [reflexivity | exact Hk].
  - intros (a' & Ha & Hk). injection Ha as ->. exact Hk.
  - discriminate.
  - intros (a' & Ha & _). discriminate.
Qed.

Lemma bind_Ok_inv {A B} (m : result A) (k : A -> result B) (b : B) :
  m ≫= k = Ok b → ∃ a, m = Ok a ∧ k a = Ok b.
Proof. apply rbind_Ok. Qed.

(** Splits a successful sequence of binds into its steps. *)
Ltac rinv H :=
  repeat match type of H with
         | _ ≫= _ = Ok _ =>
             let a := fresh "a" in
             let Ha := fresh "Ha" in
             apply bind_Ok_inv in H; destruct H as (a & Ha & H)
         | rbind _ _ = Ok _ =>
             let a := fresh "a" in
             let Ha := fresh "Ha" in
             apply rbind_Ok in H; destruct H as (a & Ha & H)
         end.

Lemma assert_Ok (b : bool) (what : string) (u : unit) :
  assert_ b what = Ok u ↔ b = true.
Proof. destruct b, u; simpl; split; congruence. Qed.

Lemma mapM_result_Ok {A B} (f : A -> result B) (g : A -> B) (l : list A) :
  (∀ a, a ∈ l → f a = Ok (g a)) → mapM_result f l = Ok (g <$> l).
Proof.
  induction l as [|a l IH]; intros Hf; simpl; [reflexivity|].
  rewrite (Hf a) by left. cbn.
  rewrite IH; [reflexivity|]. intros a' Ha'. apply Hf. by right.
Qed.

Lemma mapM_result_seq {A B} (f : nat -> result B) (h : A -> B) (l : list A) (j : nat) :
  (∀ i a, l !! i = Some a → f (j + i)%nat = Ok (h a)) →
  mapM_result f (seq j (length l)) = Ok (h <$> l).
Proof.
  revert j. induction l as [|a l IH]; intros j Hf; simpl; [reflexivity|].
  rewrite <-(Nat.add_0_r j) at 1. rewrite (Hf 0%nat a) by reflexivity. cbn.
  rewrite (IH (S j)); [reflexivity|].
  intros i a' Hi. replace (S j + i)%nat with (j + S i)%nat by lia. by apply Hf.
Qed.

Lemma filter_all_true {A} (f : A -> bool) (l : list A) :
  (∀ x, f x = true) → List.filter f l = l.
Proof.
  intros Hf. induction l as [|a l IH]; simpl; [done|]. by rewrite Hf, IH.
Qed.

Lemma NoDup_list_filter {A} (f : A -> bool) (l : list A) :
  NoDup l → NoDup (List.filter f l).
Proof.
  induction 1 as [|x l Hx Hnd IH]; simpl; [constructor|].
  destruct (f x); [|done]. constructor; [|done].
  rewrite list_elem_of_In, filter_In, <-list_elem_of_In. tauto.
Qed.

Lemma filter_filter_ne (te : list positive) (k : positive) (l : list positive) :
  List.filter (λ a, negb (bool_decide (a ∈ te)))
              (List.filter (λ a, negb (bool_decide (a = k))) l)
  = List.filter (λ a, negb (bool_decide (a ∈ k :: te))) l.
Proof.
  induction l as [|a l IH]; simpl; [done|].
  destruct (decide (a = k)) as [->|Hne].
  - rewrite (bool_decide_eq_true_2 (k = k)) by done. simpl.
    rewrite (bool_decide_eq_true_2 (k ∈ k :: te)) by left. simpl. apply IH.
  - rewrite (bool_decide_eq_false_2 (a = k)) by done. simpl.
    destruct (bool_decide (a ∈ te)) eqn:Hd.
    + apply bool_decide_eq_true in Hd.
      rewrite (bool_decide_eq_true_2 (a ∈ k :: te)) by (by right). simpl. apply IH.
    + apply bool_decide_eq_false in Hd.
      rewrite (bool_decide_eq_false_2 (a ∈ k :: te)) by (by apply not_elem_of_cons).
      simpl. f_equal. apply IH.
Qed.

Lemma foldM_app {A S} (f : S -> A -> result S) (l1 l2 : list A) (s : S) :
  foldM f (l1 ++ l2) s = rbind (foldM f l1 s) (foldM f l2).
Proof.
  revert s. induction l1 as [|a l1 IH]; intros s; simpl; [reflexivity|].
  destruct (f s a) as [s'|e]; simpl; [apply IH | reflexivity].
Qed.

(** ** Facts about [OrderedMap] *)

Module OrderedMapFacts.
Import OrderedMap.
Section Facts.
Context {K : Type} `{Countable K} {V : Type}.
Variable V0 : V.
Implicit Types (m : OrderedMap.t K V) (k : K).

Lemma wf_empty : wf (K:=K) (V:=V) empty.
Proof.
  split; simpl; [constructor|].
  intros k. rewrite lookup_empty. split; [by intros ?%elem_of_nil | by intros [? ?]].
Qed.

Lemma count_pos m k : (0 <? count m k)%nat = true ↔ is_Some (map m !! k).
Proof.
  unfold count. destruct (map m !! k) eqn:E; simpl; split; intros Hx;
    first [reflexivity | by eauto | discriminate | by destruct Hx].
Qed.

Lemma count_zero m k : (count m k =? 0)%nat = true ↔ map m !! k = None.
Proof. unfold count. destruct (map m !! k); simpl; split; done. Qed.

Lemma wf_touch m k : wf m → wf (touch V0 k m).
Proof.
  intros [Hnd Hdom]. unfold touch.
  destruct (count m k =? 0)%nat eqn:Hc; [|by split].
  apply count_zero in Hc. split; simpl.
  - apply NoDup_app. split_and!; [done| |apply NoDup_singleton].
    intros x Hx ->%list_elem_of_singleton. apply Hdom in Hx.
    rewrite Hc in Hx. by destruct Hx.
  - intros k'. rewrite elem_of_app, list_elem_of_singleton, lookup_insert_is_Some.
    rewrite Hdom. destruct (decide (k = k')) as [->|]; naive_solver.
Qed.

Lemma touch_lookup m k :
  map (touch V0 k m) !! k = Some (subscript V0 m k).
Proof.
  unfold touch, subscript.
  destruct (count m k =? 0)%nat eqn:Hc; simpl.
  - apply count_zero in Hc. by rewrite lookup_insert_eq, Hc.
  - unfold count in Hc. by destruct (map m !! k).
Qed.

Lemma touch_lookup_ne m k k' :
  k ≠ k' → map (touch V0 k m) !! k' = map m !! k'.
Proof.
  intros Hne. unfold touch. destruct (count m k =? 0)%nat; simpl; [|done].
  by rewrite lookup_insert_ne.
Qed.

Lemma subscript_touch m k k' :
  subscript V0 (touch V0 k m) k' = subscript V0 m k'.
Proof.
  destruct (decide (k = k')) as [->|Hne].
  - unfold subscript at 1. by rewrite touch_lookup.
  - unfold subscript. by rewrite touch_lookup_ne.
Qed.

Lemma wf_assign m k x : wf m → wf (assign V0 k x m).
Proof.
  intros Hwf. apply (wf_touch _ k) in Hwf. destruct Hwf as [Hnd Hdom].
  unfold assign. split; simpl; [done|].
  intros k'. rewrite Hdom, lookup_insert_is_Some.
  destruct (decide (k = k')) as [->|]; [|naive_solver].
  rewrite touch_lookup. naive_solver.
Qed.

Lemma assign_lookup m k x : map (assign V0 k x m) !! k = Some x.
Proof. unfold assign; simpl. by rewrite lookup_insert_eq. Qed.

Lemma assign_lookup_ne m k k' x :
  k ≠ k' → map (assign V0 k x m) !! k' = map m !! k'.
Proof.
  intros Hne. unfold assign; simpl.
  by rewrite lookup_insert_ne, touch_lookup_ne.
Qed.

Lemma assign_order_present m k x :
  is_Some (map m !! k) → order (assign V0 k x m) = order m.
Proof.
  intros Hk. unfold assign, touch; simpl.
  apply count_pos in Hk. destruct (count m k); [done|]. done.
Qed.

Lemma erase_Ok m k :
  is_Some (map m !! k) →
  erase k m = Ok (Make (delete k (map m))
                       (List.filter (λ k', negb (bool_decide (k' = k))) (order m))).
Proof.
  intros Hk. unfold erase. apply count_pos in Hk. rewrite Hk. reflexivity.
Qed.

Lemma elem_of_filter_ne (l : list K) k k' :
  k' ∈ List.filter (λ x, negb (bool_decide (x = k))) l ↔ k' ∈ l ∧ k' ≠ k.
Proof.
  rewrite !list_elem_of_In, filter_In, negb_true_iff, bool_decide_eq_false.
  reflexivity.
Qed.

Lemma NoDup_filter_ne (l : list K) k :
  NoDup l → NoDup (List.filter (λ x, negb (bool_decide (x = k))) l).
Proof.
  induction 1 as [|x l Hx Hnd IH]; simpl; [constructor|].
  destruct (negb (bool_decide (x = k))); [|done].
  constructor; [|done]. rewrite elem_of_filter_ne. tauto.
Qed.

Lemma wf_erase m m' k : wf m → erase k m = Ok m' → wf m'.
Proof.
  intros [Hnd Hdom] He. unfold erase in He.
  destruct (0 <? count m k)%nat; [|discriminate].
  injection He as <-. split; simpl.
  - by apply NoDup_filter_ne.
  - intros k'. rewrite elem_of_filter_ne, Hdom, lookup_delete_is_Some. naive_solver.
Qed.

Lemma wf_length m : wf m → length (order m) = stdpp.base.size (map m).
Proof.
  intros [Hnd Hdom].
  rewrite <-(size_dom (D:=gset K)), <-(size_list_to_set (C:=gset K)) by done.
  f_equal. apply set_eq. intros k.
  by rewrite elem_of_list_to_set, elem_of_dom.
Qed.

Lemma size_wf m : wf m → size m = Ok (length (order m)).
Proof.
  intros Hwf. unfold size. rewrite <-wf_length by done.
  by rewrite Nat.eqb_refl.
Qed.

Lemma deref_wf m idx k :
  wf m → order m !! idx = Some k →
  ∃ x, map m !! k = Some x ∧ deref m idx = Ok (k, x).
Proof.
  intros [_ Hdom] Hk. unfold deref. rewrite Hk.
  destruct (proj1 (Hdom k)) as [x Hx]; [by eapply list_elem_of_lookup_2|].
  exists x. by rewrite Hx.
Qed.

Lemma elements_alt m :
  wf m → elements m = (λ k, (k, default V0 (map m !! k))) <$> order m.
Proof.
  intros [_ Hdom]. unfold elements.
  assert (Hall : ∀ k, k ∈ order m → is_Some (map m !! k)) by (intros; by apply Hdom).
  clear Hdom. induction (order m) as [|k l IH]; simpl; [done|].
  destruct (Hall k) as [x Hx]; [left|]. rewrite Hx; simpl. f_equal.
  apply IH. intros k' Hk'. apply Hall. by right.
Qed.

Lemma items_wf m : wf m → items m = Ok (elements m).
Proof.
  intros Hwf. unfold items. rewrite size_wf by done. cbn.
  rewrite elements_alt by done.
  apply (mapM_result_seq _ (λ k, (k, default V0 (map m !! k))) (order m) 0).
  intros i k Hk. simpl. destruct (deref_wf m i k Hwf Hk) as (x & Hx & ->).
  by rewrite Hx.
Qed.

Lemma elem_of_elements m k x :
  wf m → (k, x) ∈ elements m ↔ map m !! k = Some x.
Proof.
  intros Hwf. rewrite elements_alt by done. destruct Hwf as [_ Hdom].
  rewrite list_elem_of_fmap. split.
  - intros (k' & [= -> ->] & Hk'). apply Hdom in Hk' as [y Hy]. by rewrite Hy.
  - intros Hx. exists k. rewrite Hx. split; [done|]. apply Hdom. by eauto.
Qed.

Lemma elements_fst m : wf m → (elements m).*1 = order m.
Proof.
  intros Hwf. rewrite elements_alt by done.
  rewrite <-list_fmap_compose. apply list_fmap_id.
Qed.

End Facts.
End OrderedMapFacts.

(** ** Comparison of summaries *)

Import OrderedMapFacts.

Lemma endingRefsDifferent_loop_spec (lhs rhs : BlockMap) (idxs : list nat) :
  OrderedMap.wf lhs →
  (∀ i, i ∈ idxs → is_Some (OrderedMap.order lhs !! i)) →
  ∃ b, endingRefsDifferent_loop lhs rhs idxs = Ok b ∧
       (b = false ↔
        ∀ i k, i ∈ idxs → OrderedMap.order lhs !! i = Some k →
               OrderedMap.map rhs !! k = OrderedMap.map lhs !! k).
Proof.
  intros Hwf. induction idxs as [|i idxs IH]; intros Hin; simpl.
  - exists false. split; [done|]. split; [|done]. by intros _ i k ?%elem_of_nil.
  - destruct (Hin i) as [k Hk]; [left|].
    destruct (deref_wf lhs i k Hwf Hk) as (x & Hx & ->). cbn.
    destruct (IH (λ j Hj, Hin j (list_elem_of_further _ _ _ Hj))) as (b & Hb & Hiff).
    destruct (OrderedMap.map rhs !! k) as [y|] eqn:Hy.
    + assert (count rhs k =? 0 = false)%nat as ->.
      { unfold OrderedMap.count. by rewrite Hy. }
      unfold OrderedMap.get. rewrite Hy. cbn.
      destruct (Z.eqb_spec x y) as [->|Hne]; simpl.
      * exists b. split; [done|]. rewrite Hiff. split.
        -- intros Hall j k' [->|Hj]%elem_of_cons Hk'; [|by eauto].
           rewrite Hk in Hk'. injection Hk' as <-. by rewrite Hx, Hy.
        -- intros Hall j k' Hj. apply Hall. by right.
      * exists true. split; [done|]. split; [done|]. intros Hall.
        specialize (Hall i k (list_elem_of_here _ _) Hk). congruence.
    + assert (count rhs k =? 0 = true)%nat as ->.
      { unfold OrderedMap.count. by rewrite Hy. }
      exists true. split; [done|]. split; [done|]. intros Hall.
      specialize (Hall i k (list_elem_of_here _ _) Hk). congruence.
Qed.

Lemma endingRefsDifferent_spec (lhs rhs : BlockMap) :
  OrderedMap.wf lhs → OrderedMap.wf rhs →
  ∃ b, endingRefsDifferent lhs rhs = Ok b ∧
       (b = false ↔ OrderedMap.map lhs = OrderedMap.map rhs).
Proof.
  intros Hl Hr. unfold endingRefsDifferent.
  rewrite !size_wf by done. cbn.
  destruct (Nat.eqb_spec (length (OrderedMap.order lhs))
                         (length (OrderedMap.order rhs))) as [Hlen|Hlen]; simpl.
  - destruct (endingRefsDifferent_loop_spec lhs rhs
                (seq 0 (length (OrderedMap.order lhs))) Hl) as (b & Hb & Hiff).
    { intros i Hi%elem_of_seq. apply lookup_lt_is_Some. lia. }
    exists b. split; [done|]. rewrite Hiff. split.
    + intros Hall. apply map_subseteq_size_eq.
      * apply map_subseteq_spec. intros k x Hx.
        assert (k ∈ OrderedMap.order lhs) as [i Hi]%list_elem_of_lookup.
        { apply Hl. by eauto. }
        rewrite (Hall i k); [done| |done].
        apply elem_of_seq. apply lookup_lt_Some in Hi. lia.
      * rewrite <-!wf_length by done. lia.
    + intros Heq i k _ _. by rewrite Heq.
  - exists true. split; [done|]. split; [done|]. intros Heq.
    rewrite !wf_length in Hlen by done. by rewrite Heq in Hlen.
Qed.

(** C9: [endingRefsDifferent] answers [false] exactly when the two
    summaries hold the same values with the same counts, whatever the
    order in which the entries were inserted, and its answer does not
    depend on the order of its two arguments. *)
Theorem endingRefsDifferent_order_insensitive (lhs rhs : BlockMap) :
  OrderedMap.wf lhs → OrderedMap.wf rhs →
  ∃ b, endingRefsDifferent lhs rhs = Ok b ∧
       (b = false ↔
        ∀ v, OrderedMap.map lhs !! v = OrderedMap.map rhs !! v) ∧
       endingRefsDifferent rhs lhs = Ok b.
Proof.
  intros Hl Hr.
  destruct (endingRefsDifferent_spec lhs rhs Hl Hr) as (b & Hb & Hiff).
  destruct (endingRefsDifferent_spec rhs lhs Hr Hl) as (b' & Hb' & Hiff').
  exists b. split; [done|]. split.
  - rewrite Hiff. split; [by intros ->|]. apply map_eq.
  - rewrite Hb'. f_equal. destruct b, b'; try done.
    + symmetry. apply Hiff. symmetry. by apply Hiff'.
    + apply Hiff'. symmetry. by apply Hiff.
Qed.

Lemma wf_refs_ab : OrderedMap.wf Sample.refs_ab.
Proof. unfold Sample.refs_ab. repeat apply wf_assign. apply wf_empty. Qed.

Lemma wf_refs_ba : OrderedMap.wf Sample.refs_ba.
Proof. unfold Sample.refs_ba. repeat apply wf_assign. apply wf_empty. Qed.

Lemma endingRefsDifferent_order_insensitive_witness :
  OrderedMap.wf Sample.refs_ab ∧ OrderedMap.wf Sample.refs_ba ∧
  ∃ b, endingRefsDifferent Sample.refs_ab Sample.refs_ba = Ok b ∧
       (b = false ↔
        ∀ v, OrderedMap.map Sample.refs_ab !! v = OrderedMap.map Sample.refs_ba !! v) ∧
       endingRefsDifferent Sample.refs_ba Sample.refs_ab = Ok b.
Proof.
  split; [exact wf_refs_ab|]. split; [exact wf_refs_ba|].
  exact (endingRefsDifferent_order_insensitive
           Sample.refs_ab Sample.refs_ba wf_refs_ab wf_refs_ba).
Defined.

Example endingRefsDifferent_sample :
  endingRefsDifferent Sample.refs_ab Sample.refs_ba = Ok false ∧
  OrderedMap.order Sample.refs_ab ≠ OrderedMap.order Sample.refs_ba.
Proof. split; [vm_compute; reflexivity | vm_compute; discriminate]. Qed.

(** ** The merge of the successors *)

Section MergeFacts.
Variable rt : RefcountTracker.
Implicit Types (m : BlockMap) (v : Value) (state : RefState).

Lemma this_refs_of_demand v m : this_refs_of v m = demand v m.
Proof.
  unfold this_refs_of, demand, OrderedMap.count, OrderedMap.subscript.
  by destruct (OrderedMap.map m !! v).
Qed.

Lemma summary_ok_empty : summary_ok OrderedMap.empty.
Proof. split; [apply wf_empty|]. intros v x. simpl. by rewrite lookup_empty. Qed.

Lemma demand_nonneg v m : summary_ok m → 0 ≤ demand v m.
Proof.
  intros [_ Hpos]. unfold demand.
  destruct (OrderedMap.map m !! v) as [x|] eqn:Hx; simpl; [|lia].
  specialize (Hpos v x Hx). lia.
Qed.

Lemma collect_from_fold (ps : list (Value * Z)) (l : list Value) (S : gset positive) :
  (∀ v, v ∈ S ↔ v ∈ l) → NoDup l → (∀ p, p ∈ ps → 0 < p.2) →
  ∃ l' S',
    foldM collect_from ps (l, S) = Ok (l', S') ∧
    (∀ v, v ∈ S' ↔ v ∈ l') ∧ NoDup l' ∧
    (∀ v, v ∈ l' ↔ v ∈ l ∨ v ∈ ps.*1).
Proof.
  revert l S. induction ps as [|[k x] ps IH]; intros l S HS Hnd Hpos; simpl.
  - exists l, S. split_and!; [done..|]. intros v. rewrite elem_of_nil. tauto.
  - unfold collect_from at 1. simpl.
    assert (0 <? x = true) as -> by (apply Z.ltb_lt, (Hpos (k, x)); left).
    cbn. case_bool_decide as Hk.
    + destruct (IH l S HS Hnd) as (l' & S' & Hf & HS' & Hnd' & Hl').
      { intros p Hp. apply Hpos. by right. }
      exists l', S'. split_and!; [done..|].
      intros v. rewrite Hl', elem_of_cons. apply HS in Hk. naive_solver.
    + destruct (IH (l ++ [k]) ({[k]} ∪ S)) as (l' & S' & Hf & HS' & Hnd' & Hl').
      { intros v. rewrite elem_of_union, elem_of_singleton, elem_of_app,
          list_elem_of_singleton, HS. tauto. }
      { apply NoDup_app. split_and!; [done| |apply NoDup_singleton].
        intros v Hv ->%list_elem_of_singleton. apply Hk, HS, Hv. }
      { intros p Hp. apply Hpos. by right. }
      exists l', S'. split_and!; [done..|].
      intros v. rewrite Hl', elem_of_app, list_elem_of_singleton, elem_of_cons. tauto.
Qed.

Lemma collect_maps_fold (maps : list BlockMap) (l : list Value) (S : gset positive) :
  (∀ v, v ∈ S ↔ v ∈ l) → NoDup l → Forall summary_ok maps →
  ∃ l' S',
    foldM (λ acc m, ps ← OrderedMap.items m; foldM collect_from ps acc) maps (l, S)
      = Ok (l', S') ∧
    NoDup l' ∧
    (∀ v, v ∈ l' ↔ v ∈ l ∨ ∃ m, m ∈ maps ∧ is_Some (OrderedMap.map m !! v)).
Proof.
  intros HS Hnd Hok. revert l S HS Hnd.
  induction Hok as [|m maps [Hwf Hpos] Hok IH]; intros l S HS Hnd; simpl.
  - exists l, S. split_and!; [done..|]. intros v. split; [tauto|].
    intros [?|(m & []%elem_of_nil & _)]; done.
  - rewrite (items_wf 0) by done. cbn.
    destruct (collect_from_fold (OrderedMap.elements m) l S HS Hnd)
      as (l1 & S1 & -> & HS1 & Hnd1 & Hl1).
    { intros [k x] Hp. simpl. apply (Hpos k). by apply (elem_of_elements 0). }
    cbn. destruct (IH l1 S1 HS1 Hnd1) as (l' & S' & Hf & Hnd' & Hl').
    exists l', S'. split_and!; [done..|].
    intros v. rewrite Hl', Hl1, (elements_fst 0) by done. split.
    + intros [[?|Hv]|(m' & Hm' & Hv)]; [by left|right..].
      * exists m. split; [left|]. by apply Hwf.
      * exists m'. split; [by right|done].
    + intros [?|(m' & [->|Hm']%elem_of_cons & Hv)]; [by left; left| |].
      * left; right. by apply Hwf.
      * right. by exists m'.
Qed.

Lemma collect_tracked_values_spec (maps : list BlockMap) :
  Forall summary_ok maps →
  ∃ tv, collect_tracked_values maps = Ok tv ∧ NoDup tv ∧
        ∀ v, v ∈ tv ↔ ∃ m, m ∈ maps ∧ is_Some (OrderedMap.map m !! v).
Proof.
  intros Hok. unfold collect_tracked_values.
  destruct (collect_maps_fold maps [] ∅) as (l & S & Hf & Hnd & Hl); [|constructor|done|].
  { intros v. rewrite elem_of_nil. set_solver. }
  rewrite Hf. cbn. exists l. split_and!; [done..|].
  intros v. rewrite Hl, elem_of_nil. tauto.
Qed.

End MergeFacts.

Section MinRefs.
Variable rt : RefcountTracker.
Implicit Types (m : BlockMap) (v : Value) (state : RefState)
         (info : list (BlockMap * BasicBlock)).

Lemma foldr_min_acc (d acc : Z) (ds : list Z) :
  foldr Z.min (Z.min d acc) ds = Z.min d (foldr Z.min acc ds).
Proof. induction ds as [|x ds IH]; simpl; [done|]. rewrite IH. lia. Qed.

Lemma foldr_min_nonneg (acc : Z) (ds : list Z) :
  0 ≤ acc → Forall (λ d, 0 ≤ d) ds → 0 ≤ foldr Z.min acc ds.
Proof. intros Hacc. induction 1; simpl; lia. Qed.

Lemma foldr_min_le (acc d : Z) (ds : list Z) :
  d ∈ ds → foldr Z.min acc ds ≤ d.
Proof.
  induction ds as [|x ds IH]; simpl; [by intros ?%elem_of_nil|].
  intros [->|Hd]%elem_of_cons; [lia|]. specialize (IH Hd). lia.
Qed.

Lemma foldr_min_le_acc (acc : Z) (ds : list Z) : foldr Z.min acc ds ≤ acc.
Proof. induction ds as [|x ds IH]; simpl; lia. Qed.

Lemma min_refs_fold v info (acc : Z) :
  0 ≤ acc → Forall summary_ok info.*1 →
  fold_left (min_refs_step v) info acc = foldr Z.min acc (demand v <$> info.*1).
Proof.
  revert acc. induction info as [|[m sbb] info IH]; intros acc Hacc Hok; simpl; [done|].
  apply Forall_cons in Hok as [Hm Hok].
  pose proof (demand_nonneg v m Hm) as Hd.
  assert (min_refs_step v acc (m, sbb) = Z.min (demand v m) acc) as ->.
  { unfold min_refs_step, demand, OrderedMap.count, OrderedMap.subscript in *. simpl.
    destruct (OrderedMap.map m !! v); simpl in *; lia. }
  rewrite IH by (done || lia). apply foldr_min_acc.
Qed.

Lemma min_refs_loop_min_demand v info :
  Forall summary_ok info.*1 → min_refs_loop v info = min_demand v info.
Proof. intros Hok. unfold min_refs_loop, min_demand. by apply min_refs_fold. Qed.

Lemma min_demand_nonneg v info :
  Forall summary_ok info.*1 → 0 ≤ min_demand v info.
Proof.
  intros Hok. apply foldr_min_nonneg; [lia|].
  apply Forall_fmap. eapply Forall_impl; [exact Hok|].
  intros m Hm. by apply demand_nonneg.
Qed.

Lemma min_demand_le v info s :
  s ∈ info → min_demand v info ≤ demand v s.1.
Proof.
  intros Hs. apply foldr_min_le. apply list_elem_of_fmap. exists s.1.
  split; [done|]. apply list_elem_of_fmap. by exists s.
Qed.

Lemma min_refs_of_closed v info :
  Forall summary_ok info.*1 →
  min_refs_of rt v info = Z.max (defining_refs rt v) (min_demand v info).
Proof.
  intros Hok. unfold min_refs_of, defining_refs.
  rewrite min_refs_loop_min_demand by done.
  pose proof (min_demand_nonneg v info Hok).
  destruct (isOwned rt v); lia.
Qed.

(** A value that is not owned is never decremented on an edge. *)
Lemma min_refs_of_le_demand v info s :
  Forall summary_ok info.*1 → s ∈ info → isOwned rt v = false →
  min_refs_of rt v info ≤ demand v s.1.
Proof.
  intros Hok Hs Hown. rewrite min_refs_of_closed by done.
  unfold defining_refs. rewrite Hown.
  pose proof (min_demand_le v info s Hs).
  pose proof (min_demand_nonneg v info Hok). lia.
Qed.

Lemma isOwned_reftype v : isOwned rt v = RefType_eqb (reftype (vars_lookup rt v)) OWNED.
Proof. reflexivity. Qed.

Lemma reconcile_fold bb v (min_refs : Z) info state :
  (∀ s, s ∈ info → demand v s.1 < min_refs → isOwned rt v = true) →
  ∃ st, foldM (reconcile_step rt bb v min_refs) info state = Ok st ∧
        been_run st = been_run state ∧
        starting_refs st = starting_refs state ∧
        ending_refs st = ending_refs state ∧
        increfs st = increfs state ++ edge_increfs_for rt bb v min_refs info ∧
        decrefs st = decrefs state ++ edge_decrefs_for rt bb v min_refs info ∧
        cxx_fixups st = cxx_fixups state.
Proof.
  revert state. induction info as [|[m sbb] info IH]; intros state Hown; simpl.
  - exists state. unfold edge_increfs_for, edge_decrefs_for. simpl.
    by rewrite !app_nil_r.
  - unfold reconcile_step at 1. simpl. rewrite this_refs_of_demand.
    unfold edge_increfs_for, edge_decrefs_for. cbn [mbind list_bind fst snd].
    fold (edge_increfs_for rt bb v min_refs info).
    fold (edge_decrefs_for rt bb v min_refs info).
    replace (0 <? demand v m - min_refs) with (min_refs <? demand v m) by lia.
    replace (demand v m - min_refs <? 0) with (demand v m <? min_refs) by lia.
    destruct (Z.ltb_spec min_refs (demand v m)) as [Hlt|Hge].
    + assert (demand v m <? min_refs = false) as -> by lia. rsimpl.
      edestruct IH as (st & -> & ? & ? & ? & Hi & Hd & ?).
      { intros s Hs. apply Hown. by right. }
      exists st. split; [done|]. simpl in *.
      split_and!; try done.
      by rewrite Hi, <-app_assoc.
    + destruct (Z.ltb_spec (demand v m) min_refs) as [Hlt'|Hge'].
      * rewrite <-isOwned_reftype, (Hown (m, sbb)) by (done || left). rsimpl.
        edestruct IH as (st & -> & ? & ? & ? & Hi & Hd & ?).
        { intros s Hs. apply Hown. by right. }
        exists st. split; [done|]. simpl in *.
        split_and!; try done.
        rewrite Hd, <-app_assoc. simpl. do 2 f_equal. unfold edge_op. f_equal. lia.
      * rsimpl. edestruct IH as (st & -> & ? & ? & ? & Hi & Hd & ?).
        { intros s Hs. apply Hown. by right. }
        exists st. by split.
Qed.

End MinRefs.

Section MergeValue.
Variable rt : RefcountTracker.
Implicit Types (m : BlockMap) (v : Value) (state : RefState)
         (info : list (BlockMap * BasicBlock)).

(** The entry that the merge leaves in [starting_refs] for a value
    whose merged count is [n]. *)
Lemma merge_value_spec bb info state v :
  Forall summary_ok info.*1 →
  vars_count rt v = true →
  OrderedMap.wf (starting_refs state) →
  OrderedMap.map (starting_refs state) !! v = None →
  ∃ st, merge_value rt bb info state v = Ok st ∧
        been_run st = been_run state ∧
        ending_refs st = ending_refs state ∧
        cxx_fixups st = cxx_fixups state ∧
        increfs st = increfs state ++ edge_increfs rt bb info v ∧
        decrefs st = decrefs state ++ edge_decrefs rt bb info v ∧
        OrderedMap.wf (starting_refs st) ∧
        OrderedMap.map (starting_refs st) !! v
          = (if Z.eqb (min_refs_of rt v info) 0 then None
             else Some (min_refs_of rt v info)) ∧
        (∀ v', v' ≠ v →
               OrderedMap.map (starting_refs st) !! v'
               = OrderedMap.map (starting_refs state) !! v').
Proof.
  intros Hok Hv Hwf Hnone. unfold merge_value. rewrite Hv. rsimpl.
  destruct (reconcile_fold rt bb v (min_refs_of rt v info) info state)
    as (st & -> & Hb & Hs & He & Hi & Hd & Hc).
  { intros s Hs Hlt. destruct (isOwned rt v) eqn:Hown; [done|].
    pose proof (min_refs_of_le_demand rt v info s Hok Hs Hown). lia. }
  rsimpl. destruct (Z.eqb_spec (min_refs_of rt v info) 0) as [Hz|Hnz]; simpl.
  - assert (count (starting_refs st) v =? 0 = true)%nat as ->.
    { apply count_zero. by rewrite Hs. }
    rsimpl. exists st. rewrite Hs. by split_and!.
  - eexists. split; [reflexivity|]. simpl. rewrite Hs.
    split_and!; try done.
    + by apply wf_assign.
    + apply assign_lookup.
    + intros v' Hne. by apply assign_lookup_ne.
Qed.

Lemma merge_values_spec bb info (tv : list Value) state :
  Forall summary_ok info.*1 →
  NoDup tv →
  (∀ v, v ∈ tv → vars_count rt v = true) →
  OrderedMap.wf (starting_refs state) →
  (∀ v, v ∈ tv → OrderedMap.map (starting_refs state) !! v = None) →
  ∃ st, foldM (merge_value rt bb info) tv state = Ok st ∧
        been_run st = been_run state ∧
        ending_refs st = ending_refs state ∧
        cxx_fixups st = cxx_fixups state ∧
        increfs st = increfs state ++ (tv ≫= edge_increfs rt bb info) ∧
        decrefs st = decrefs state ++ (tv ≫= edge_decrefs rt bb info) ∧
        OrderedMap.wf (starting_refs st) ∧
        (∀ v, v ∈ tv →
              OrderedMap.map (starting_refs st) !! v
              = (if Z.eqb (min_refs_of rt v info) 0 then None
                 else Some (min_refs_of rt v info))) ∧
        (∀ v, v ∉ tv →
              OrderedMap.map (starting_refs st) !! v
              = OrderedMap.map (starting_refs state) !! v).
Proof.
  intros Hok Hnd. revert state.
  induction Hnd as [|v tv Hv Hnd IH]; intros state Htr Hwf Hnone; simpl.
  - exists state. rewrite !app_nil_r. split_and!; try done.
    by intros v ?%elem_of_nil.
  - destruct (merge_value_spec bb info state v)
      as (s1 & -> & Hb1 & He1 & Hc1 & Hi1 & Hd1 & Hwf1 & Hv1 & Ho1);
      [done|apply Htr; left|done|apply Hnone; left|].
    rsimpl. destruct (IH s1) as (st & -> & Hb & He & Hc & Hi & Hd & Hwf' & Hin & Hout).
    { intros v' Hv'. apply Htr. by right. }
    { done. }
    { intros v' Hv'. rewrite Ho1; [apply Hnone; by right|]. intros ->. done. }
    exists st. split; [done|]. split_and!; try congruence.
    + rewrite Hi, Hi1, <-app_assoc. done.
    + rewrite Hd, Hd1, <-app_assoc. done.
    + intros v' [->|Hv']%elem_of_cons; [|by apply Hin].
      rewrite Hout by done. done.
    + intros v' Hv'%not_elem_of_cons. destruct Hv' as [Hne Hv'].
      rewrite Hout by done. by apply Ho1.
Qed.

(** What the merge computes from the summaries of the successors. *)
Lemma merge_successors_spec bb info state :
  info ≠ [] →
  Forall summary_ok info.*1 →
  (∀ s v, s ∈ info → is_Some (OrderedMap.map s.1 !! v) → vars_count rt v = true) →
  starting_refs state = OrderedMap.empty →
  ∃ st tv,
    merge_successors rt bb info state = Ok st ∧
    collect_tracked_values info.*1 = Ok tv ∧
    NoDup tv ∧
    (∀ v, v ∈ tv ↔ ∃ s, s ∈ info ∧ is_Some (OrderedMap.map s.1 !! v)) ∧
    been_run st = been_run state ∧
    ending_refs st = ending_refs state ∧
    cxx_fixups st = cxx_fixups state ∧
    increfs st = increfs state ++ (tv ≫= edge_increfs rt bb info) ∧
    decrefs st = decrefs state ++ (tv ≫= edge_decrefs rt bb info) ∧
    OrderedMap.wf (starting_refs st) ∧
    ∀ v, OrderedMap.map (starting_refs st) !! v
         = if bool_decide (v ∈ tv) && negb (Z.eqb (min_refs_of rt v info) 0)
           then Some (min_refs_of rt v info) else None.
Proof.
  intros Hne Hok Htr Hempty.
  destruct (collect_tracked_values_spec info.*1 Hok) as (tv & Hc & Hnd & Htv).
  assert (Htv' : ∀ v, v ∈ tv ↔ ∃ s, s ∈ info ∧ is_Some (OrderedMap.map s.1 !! v)).
  { intros v. rewrite Htv. split.
    - intros (m & (s & -> & Hs)%list_elem_of_fmap & Hv). by exists s.
    - intros (s & Hs & Hv). exists s.1. split; [|done].
      apply list_elem_of_fmap. by exists s. }
  destruct (merge_values_spec bb info tv state)
    as (st & Hf & Hb & He & Hcx & Hi & Hd & Hwf & Hin & Hout); [done|done| | | |].
  { intros v (s & Hs & Hv)%Htv'. by apply (Htr s). }
  { rewrite Hempty. apply wf_empty. }
  { intros v _. rewrite Hempty. simpl. apply lookup_empty. }
  exists st, tv. unfold merge_successors.
  destruct info as [|s0 info0]; [done|]. fold (@fmap list _ _ _ (@fst BlockMap positive)).
  rewrite Hc. rsimpl. split; [exact Hf|]. split_and!; try done.
  intros v. case_bool_decide as Hv; simpl.
  - rewrite Hin by done. by destruct (_ =? 0).
  - rewrite Hout by done. rewrite Hempty. apply lookup_empty.
Qed.

End MergeValue.

Lemma summary_ok_assign (m : BlockMap) (v : Value) (x : Z) :
  summary_ok m → 0 < x → summary_ok (assign v x m).
Proof.
  intros [Hwf Hpos] Hx. split; [by apply wf_assign|].
  intros v' x'. destruct (decide (v = v')) as [->|Hne].
  - rewrite assign_lookup. by intros [= <-].
  - rewrite assign_lookup_ne by done. apply Hpos.
Qed.

Lemma lookup_assign_empty_is_Some (v v' : Value) (x : Z) :
  is_Some (OrderedMap.map (assign v x OrderedMap.empty) !! v') → v' = v.
Proof.
  destruct (decide (v = v')) as [->|Hne]; [done|].
  rewrite assign_lookup_ne by done. simpl. rewrite lookup_empty. by intros [? ?].
Qed.

(** *** C1 *)

(** C1, as it is written, fails: of a borrowed value one successor
    wants one reference and the other three; the block inherits one,
    the least demand, and not three, the greatest. *)
Lemma starting_refs_not_max_counterexample :
  ∃ st, merge_successors Sample.rt_borrowed 10%positive Sample.two_successors RefState0
          = Ok st ∧
        is_Some (OrderedMap.map Sample.refs_three !! 7%positive) ∧
        OrderedMap.map (starting_refs st) !! 7%positive = Some 1 ∧
        max_demand 7%positive Sample.two_successors = 3 ∧
        OrderedMap.map (starting_refs st) !! 7%positive
          ≠ Some (max_demand 7%positive Sample.two_successors).
Proof.
  eexists. split; [vm_compute; reflexivity|].
  split; [vm_compute; eauto|]. split; [vm_compute; reflexivity|].
  split; [vm_compute; reflexivity|]. vm_compute. discriminate.
Qed.

(** C1, amended: for a block with at least one processed successor
    and a value that appears in the summary of one of them, the count
    recorded in [starting_refs] is the least demand of a successor (a
    successor without the value demands zero, and the search starts
    from 1000000000), raised to one for an owned value; no entry is
    recorded when this number is zero. *)
Theorem merge_starting_refs_is_min (rt : RefcountTracker) (bb : BasicBlock)
        (info : list (BlockMap * BasicBlock)) (state : RefState) :
  info ≠ [] →
  Forall summary_ok info.*1 →
  (∀ s v, s ∈ info → is_Some (OrderedMap.map s.1 !! v) → vars_count rt v = true) →
  starting_refs state = OrderedMap.empty →
  ∃ st, merge_successors rt bb info state = Ok st ∧
        ∀ v, (∃ s, s ∈ info ∧ is_Some (OrderedMap.map s.1 !! v)) →
             let n := Z.max (if isOwned rt v then 1 else 0) (min_demand v info) in
             OrderedMap.map (starting_refs st) !! v
             = if Z.eqb n 0 then None else Some n.
Proof.
  intros Hne Hok Htr Hempty.
  destruct (merge_successors_spec rt bb info state Hne Hok Htr Hempty)
    as (st & tv & Hm & _ & _ & Htv & _ & _ & _ & _ & _ & _ & Hst).
  exists st. split; [done|]. intros v Hv n. rewrite Hst.
  apply Htv in Hv. rewrite bool_decide_eq_true_2 by done. simpl.
  rewrite min_refs_of_closed by done. subst n. unfold defining_refs.
  by destruct (Z.max _ _ =? 0).
Qed.

Lemma summary_ok_two_successors : Forall summary_ok Sample.two_successors.*1.
Proof.
  repeat apply Forall_cons_2; [| |apply Forall_nil_2];
    (apply summary_ok_assign; [apply summary_ok_empty | lia]).
Qed.

Lemma tracked_two_successors (s : BlockMap * BasicBlock) (v : Value) :
  s ∈ Sample.two_successors → is_Some (OrderedMap.map s.1 !! v) →
  vars_count Sample.rt_borrowed v = true.
Proof.
  unfold Sample.two_successors.
  intros [->|[->|[]%elem_of_nil]%elem_of_cons]%elem_of_cons Hv;
    apply lookup_assign_empty_is_Some in Hv as ->; reflexivity.
Qed.

Lemma merge_starting_refs_is_min_witness :
  Sample.two_successors ≠ [] ∧
  Forall summary_ok Sample.two_successors.*1 ∧
  ∃ st, merge_successors Sample.rt_borrowed 10%positive Sample.two_successors RefState0
          = Ok st ∧
        ∀ v, (∃ s, s ∈ Sample.two_successors ∧ is_Some (OrderedMap.map s.1 !! v)) →
             let n := Z.max (if isOwned Sample.rt_borrowed v then 1 else 0)
                            (min_demand v Sample.two_successors) in
             OrderedMap.map (starting_refs st) !! v
             = if Z.eqb n 0 then None else Some n.
Proof.
  split; [discriminate|]. split; [exact summary_ok_two_successors|].
  exact (merge_starting_refs_is_min Sample.rt_borrowed 10%positive
           Sample.two_successors RefState0
           ltac:(discriminate) summary_ok_two_successors tracked_two_successors
           eq_refl).
Defined.

(** *** C2 *)





(** The sample in numbers: the owned value is kept with one reference;
    the successor that wants two gets an increment of one on its edge,
    the one that wants none a decrement of one. *)
Example merge_owned_sample :
  ∃ st, merge_successors Sample.rt_owned 10%positive Sample.owned_successors RefState0
          = Ok st ∧
        OrderedMap.elements (starting_refs st) = [(8%positive, 1)] ∧
        increfs st = [edge_op Sample.rt_owned 10%positive 8%positive 1 11%positive] ∧
        decrefs st = [edge_op Sample.rt_owned 10%positive 8%positive 1 12%positive].
Proof. eexists. repeat split; vm_compute; reflexivity. Qed.

(** ** The annotation store *)

Section TrackerFacts.
Variable classof : Value -> ValueClass.

Lemma refs_clean_empty : refs_clean classof ∅.
Proof. intros inst v. rewrite lookup_empty. simpl. by intros ?%elem_of_nil. Qed.

Lemma refs_clean_push inst v refs :
  refs_clean classof refs → skipped classof v = false →
  refs_clean classof (push_ref inst v refs).
Proof.
  intros Hc Hv inst' v'. unfold push_ref.
  destruct (decide (inst = inst')) as [->|Hne].
  - rewrite lookup_insert_eq. simpl.
    intros [Hin| ->%list_elem_of_singleton]%elem_of_app; [by apply (Hc inst')|done].
  - rewrite lookup_insert_ne by done. apply Hc.
Qed.

Lemma run_call_clean rt rt' c :
  refs_clean classof (refs_consumed rt) → refs_clean classof (refs_used rt) →
  run_call classof rt c = Ok rt' →
  refs_clean classof (refs_consumed rt') ∧ refs_clean classof (refs_used rt').
Proof.
  intros Hc Hu Hrun. destruct c as [f v rty|v nl|v inst|v inst|inst]; simpl in Hrun.
  - unfold setType in Hrun. rinv Hrun. by injection Hrun as <-.
  - unfold setNullable in Hrun. rinv Hrun. by injection Hrun as <-.
  - unfold refConsumed in Hrun. fold (skipped classof v) in Hrun.
    destruct (skipped classof v) eqn:Hv.
    + by injection Hrun as <-.
    + rinv Hrun. injection Hrun as <-. simpl.
      split; [|done]. by apply refs_clean_push.
  - unfold refUsed in Hrun. fold (skipped classof v) in Hrun.
    destruct (skipped classof v) eqn:Hv.
    + by injection Hrun as <-.
    + rinv Hrun. injection Hrun as <-. simpl.
      split; [done|]. by apply refs_clean_push.
  - unfold setMayThrow in Hrun. rinv Hrun. by injection Hrun as <-.
Qed.

Lemma run_calls_clean cs rt rt' :
  refs_clean classof (refs_consumed rt) → refs_clean classof (refs_used rt) →
  run_calls classof cs rt = Ok rt' →
  refs_clean classof (refs_consumed rt') ∧ refs_clean classof (refs_used rt').
Proof.
  unfold run_calls. revert rt. induction cs as [|c cs IH]; intros rt Hc Hu; simpl.
  - by intros [= <-].
  - destruct (run_call classof rt c) as [rt1|] eqn:H1; [|done]. rsimpl.
    destruct (run_call_clean rt rt1 c Hc Hu H1). by apply IH.
Qed.

End TrackerFacts.

(** C10: for a value that is undef or a constant null pointer,
    [refConsumed] and [refUsed] return without touching the store, and
    in a store filled through the calls of the tracker such a value is
    in no instruction's sequence of consumed or of used values. *)
Theorem refs_skip_undef_and_null (classof : Value -> ValueClass)
        (cs : list TrackerCall) (rt : RefcountTracker) (v : Value) (inst : Instruction) :
  isa_UndefValue (classof v) || isa_ConstantPointerNull (classof v) = true →
  run_calls classof cs RefcountTracker0 = Ok rt →
  refConsumed classof v inst rt = Ok rt ∧
  refUsed classof v inst rt = Ok rt ∧
  ∀ i, v ∉ default [] (refs_consumed rt !! i) ∧ v ∉ default [] (refs_used rt !! i).
Proof.
  intros Hv Hrun. unfold refConsumed, refUsed. rewrite Hv.
  split; [done|]. split; [done|].
  destruct (run_calls_clean classof cs RefcountTracker0 rt) as [Hc Hu];
    [apply refs_clean_empty..|done|].
  intros i. split; intros Hin.
  - apply Hc in Hin. unfold skipped in Hin. congruence.
  - apply Hu in Hin. unfold skipped in Hin. congruence.
Qed.

Lemma refs_skip_undef_and_null_witness :
  ∃ rt, run_calls Sample.classes Sample.calls RefcountTracker0 = Ok rt ∧
        refs_consumed rt !! 5%positive = Some [2%positive] ∧
        refConsumed Sample.classes 1%positive 5%positive rt = Ok rt ∧
        refUsed Sample.classes 1%positive 5%positive rt = Ok rt ∧
        ∀ i, 1%positive ∉ default [] (refs_consumed rt !! i) ∧
             1%positive ∉ default [] (refs_used rt !! i).
Proof.
  eexists. split; [vm_compute; reflexivity|]. split; [vm_compute; reflexivity|].
  apply (refs_skip_undef_and_null Sample.classes Sample.calls); [reflexivity|].
  vm_compute. reflexivity.
Defined.

(** ** Emission of decrements *)

Section DecrefFacts.
Variable classof : Value -> ValueClass.
Variable sigtrap_returns : bool.
Variables DECREF_PP_ID XDECREF_PP_ID DECREF_PP_SIZE XDECREF_PP_SIZE : Z.

Lemma addDecrefs_one v nullable decref_pt :
  isa_ConstantPointerNull (classof v) = false →
  ∃ events, addDecrefs classof sigtrap_returns
              DECREF_PP_ID XDECREF_PP_ID DECREF_PP_SIZE XDECREF_PP_SIZE
              v nullable 1 decref_pt = (events, Ok tt) ∧
            Printf "Whoa more than one decref??" ∉ events ∧
            RaiseSIGTRAP ∉ events.
Proof.
  intros Hv. unfold addDecrefs. destruct nullable; simpl; rewrite Hv; simpl.
  - eexists. split; [reflexivity|].
    split; intros Hin; repeat (apply elem_of_cons in Hin as [Hin|Hin]; [done|]);
      by apply elem_of_nil in Hin.
  - eexists. split; [reflexivity|].
    split; intros Hin; repeat (apply elem_of_cons in Hin as [Hin|Hin]; [done|]);
      by apply elem_of_nil in Hin.
Qed.

(** In a plain run the emission of more than one reference ends in
    [raise(SIGTRAP)], whatever the value. *)
Lemma addDecrefs_many_killed v nullable num_refs decref_pt :
  sigtrap_returns = false → 1 < num_refs →
  addDecrefs classof sigtrap_returns
    DECREF_PP_ID XDECREF_PP_ID DECREF_PP_SIZE XDECREF_PP_SIZE
    v nullable num_refs decref_pt
  = ([Printf "Whoa more than one decref??"; RaiseSIGTRAP], Err (Killed "SIGTRAP")).
Proof.
  intros Hs Hn. unfold addDecrefs.
  assert (1 <? num_refs = true) as H1 by lia.
  cbn [addDecrefs_rec]. by rewrite H1, Hs.
Qed.

(** When [raise] returns, it comes to the release assertion. *)
Lemma addDecrefs_many_caught v nullable num_refs decref_pt :
  sigtrap_returns = true →
  isa_ConstantPointerNull (classof v) = false → 1 < num_refs →
  ∃ events,
    addDecrefs classof sigtrap_returns
      DECREF_PP_ID XDECREF_PP_ID DECREF_PP_SIZE XDECREF_PP_SIZE
      v nullable num_refs decref_pt
      = ([Printf "Whoa more than one decref??"; RaiseSIGTRAP] ++ events,
         Err (ReleaseAssertFailed "decref patchpoints don't support >1 refs")) ∧
    ∀ pp_id pp_size pt, CreatePatchpointCall pp_id pp_size v pt ∉ events.
Proof.
  intros Hs Hv Hn. unfold addDecrefs.
  assert (1 <? num_refs = true) as H1 by lia.
  assert (0 <? num_refs = true) as H0 by lia.
  assert (num_refs =? 1 = false) as He by lia.
  destruct nullable; simpl; rewrite Hs, Hv, H1, H0, ?He; simpl.
  - eexists. split; [reflexivity|]. intros pp_id pp_size pt Hin.
    repeat (apply elem_of_cons in Hin as [Hin|Hin]; [done|]).
    by apply elem_of_nil in Hin.
  - exists []. split; [reflexivity|]. intros pp_id pp_size pt Hin.
    by apply elem_of_nil in Hin.
Qed.

End DecrefFacts.

(** C5, as it is written, fails: the emission of a decrement of two
    references of an ordinary value does not complete.  In a plain run
    the process ends in [raise(SIGTRAP)] right after the warning; when
    the signal is caught and [raise] returns, the emission stops at
    the release assertion of the patchpoint. *)
Lemma addDecrefs_two_refs_counterexample :
  addDecrefs Sample.classes false 1 2 3 4 2%positive false 2 9%positive
  = ([Printf "Whoa more than one decref??"; RaiseSIGTRAP], Err (Killed "SIGTRAP")) ∧
  addDecrefs Sample.classes true 1 2 3 4 2%positive false 2 9%positive
  = ([Printf "Whoa more than one decref??"; RaiseSIGTRAP],
     Err (ReleaseAssertFailed "decref patchpoints don't support >1 refs")).
Proof. split; reflexivity. Qed.

(** C5, amended: of a value that is not a constant null pointer only
    single references are dropped at a site: the emission of a
    decrement with count one completes without a warning; the
    emission with a greater count never completes and never emits the
    patchpoint call: it prints the warning and raises SIGTRAP, which
    in a plain run ends the process there, and when the signal is
    caught and [raise] returns, the release assertion "decref
    patchpoints don't support >1 refs" fails. *)
Theorem addDecrefs_single_reference_only (classof : Value -> ValueClass)
        (sigtrap_returns : bool)
        (DECREF_PP_ID XDECREF_PP_ID DECREF_PP_SIZE XDECREF_PP_SIZE : Z)
        (v : Value) (nullable : bool) (num_refs : Z) (decref_pt : Instruction) :
  isa_ConstantPointerNull (classof v) = false →
  1 ≤ num_refs →
  let r := addDecrefs classof sigtrap_returns
                      DECREF_PP_ID XDECREF_PP_ID DECREF_PP_SIZE XDECREF_PP_SIZE
                      v nullable num_refs decref_pt in
  (num_refs = 1 →
   r.2 = Ok tt ∧ Printf "Whoa more than one decref??" ∉ r.1 ∧ RaiseSIGTRAP ∉ r.1) ∧
  (1 < num_refs →
   r.2 = (if sigtrap_returns
          then Err (ReleaseAssertFailed "decref patchpoints don't support >1 refs")
          else Err (Killed "SIGTRAP")) ∧
   take 2 r.1 = [Printf "Whoa more than one decref??"; RaiseSIGTRAP] ∧
   (sigtrap_returns = false →
    r.1 = [Printf "Whoa more than one decref??"; RaiseSIGTRAP]) ∧
   ∀ pp_id pp_size pt, CreatePatchpointCall pp_id pp_size v pt ∉ r.1).
Proof.
  intros Hv Hn r. split.
  - intros ->. subst r.
    destruct (addDecrefs_one classof sigtrap_returns DECREF_PP_ID XDECREF_PP_ID
                DECREF_PP_SIZE XDECREF_PP_SIZE v nullable decref_pt Hv)
      as (events & -> & H1 & H2).
    done.
  - intros Hgt. subst r. destruct sigtrap_returns eqn:Hs.
    + destruct (addDecrefs_many_caught classof true DECREF_PP_ID XDECREF_PP_ID
                  DECREF_PP_SIZE XDECREF_PP_SIZE v nullable num_refs decref_pt
                  eq_refl Hv Hgt) as (events & -> & Hno).
      split; [done|]. split; [done|]. split; [done|]. simpl.
      intros pp_id pp_size pt Hin.
      repeat (apply elem_of_cons in Hin as [Hin|Hin]; [done|]).
      by apply (Hno pp_id pp_size pt).
    + rewrite (addDecrefs_many_killed classof false DECREF_PP_ID XDECREF_PP_ID
                 DECREF_PP_SIZE XDECREF_PP_SIZE v nullable num_refs decref_pt
                 eq_refl Hgt).
      split; [done|]. split; [done|]. split; [done|]. simpl.
      intros pp_id pp_size pt Hin.
      repeat (apply elem_of_cons in Hin as [Hin|Hin]; [done|]).
      by apply elem_of_nil in Hin.
Qed.

(** The witness takes the theorem at a single reference and at two
    references, in a plain run and with the signal caught. *)
Lemma addDecrefs_single_reference_only_witness :
  (isa_ConstantPointerNull (Sample.classes 2%positive) = false ∧ 1 ≤ 1 ∧
   let r := addDecrefs Sample.classes false 1 2 3 4 2%positive true 1 9%positive in
   (1 = 1 →
    r.2 = Ok tt ∧ Printf "Whoa more than one decref??" ∉ r.1 ∧ RaiseSIGTRAP ∉ r.1) ∧
   (1 < 1 →
    r.2 = Err (Killed "SIGTRAP") ∧
    take 2 r.1 = [Printf "Whoa more than one decref??"; RaiseSIGTRAP] ∧
    (false = false → r.1 = [Printf "Whoa more than one decref??"; RaiseSIGTRAP]) ∧
    ∀ pp_id pp_size pt, CreatePatchpointCall pp_id pp_size 2%positive pt ∉ r.1)) ∧
  (isa_ConstantPointerNull (Sample.classes 2%positive) = false ∧ 1 ≤ 2 ∧
   let r := addDecrefs Sample.classes false 1 2 3 4 2%positive true 2 9%positive in
   (2 = 1 →
    r.2 = Ok tt ∧ Printf "Whoa more than one decref??" ∉ r.1 ∧ RaiseSIGTRAP ∉ r.1) ∧
   (1 < 2 →
    r.2 = Err (Killed "SIGTRAP") ∧
    take 2 r.1 = [Printf "Whoa more than one decref??"; RaiseSIGTRAP] ∧
    (false = false → r.1 = [Printf "Whoa more than one decref??"; RaiseSIGTRAP]) ∧
    ∀ pp_id pp_size pt, CreatePatchpointCall pp_id pp_size 2%positive pt ∉ r.1)) ∧
  (isa_ConstantPointerNull (Sample.classes 2%positive) = false ∧ 1 ≤ 2 ∧
   let r := addDecrefs Sample.classes true 1 2 3 4 2%positive true 2 9%positive in
   (2 = 1 →
    r.2 = Ok tt ∧ Printf "Whoa more than one decref??" ∉ r.1 ∧ RaiseSIGTRAP ∉ r.1) ∧
   (1 < 2 →
    r.2 = Err (ReleaseAssertFailed "decref patchpoints don't support >1 refs") ∧
    take 2 r.1 = [Printf "Whoa more than one decref??"; RaiseSIGTRAP] ∧
    (true = false → r.1 = [Printf "Whoa more than one decref??"; RaiseSIGTRAP]) ∧
    ∀ pp_id pp_size pt, CreatePatchpointCall pp_id pp_size 2%positive pt ∉ r.1)).
Proof.
  split_and!; try reflexivity; try lia.
  - apply (addDecrefs_single_reference_only Sample.classes false 1 2 3 4 2%positive
             true 1 9%positive); [reflexivity | lia].
  - apply (addDecrefs_single_reference_only Sample.classes false 1 2 3 4 2%positive
             true 2 9%positive); [reflexivity | lia].
  - apply (addDecrefs_single_reference_only Sample.classes true 1 2 3 4 2%positive
             true 2 9%positive); [reflexivity | lia].
Defined.

(** ** The entry block *)

Section EntryFacts.
Variable classof : Value -> ValueClass.
Variable rt : RefcountTracker.
Variable f : Function.

Lemma entry_step_ok bb state (p : Value * Z) :
  0 < p.2 → entry_value_ok classof rt f p.1 = true →
  entry_step classof rt f bb state p = Ok (push_incref state (entry_incref rt bb p)).
Proof.
  intros Hpos Hok. unfold entry_step, entry_value_ok in *.
  apply andb_true_iff in Hok as [Hcls Hb].
  assert (p.2 =? 0 = false) as -> by lia. rsimpl.
  rewrite Hb. destruct (isa_GlobalVariable _), (isa_Constant _); simpl in *;
    rewrite ?Hcls; reflexivity.
Qed.

Lemma entry_step_bad bb state (p : Value * Z) :
  entry_value_ok classof rt f p.1 = false →
  ∃ what, entry_step classof rt f bb state p = Err (AssertionFailed what).
Proof.
  intros Hbad. unfold entry_step, entry_value_ok in *.
  destruct (p.2 =? 0); rsimpl; [by eexists|].
  destruct (isa_GlobalVariable _), (isa_Constant _); simpl in *;
    try (rewrite Hbad; rsimpl; by eexists).
  destruct (is_argument f p.1); simpl in *; rsimpl; [|by eexists].
  rewrite Hbad. by eexists.
Qed.

Lemma entry_fold_ok bb (ps : list (Value * Z)) state :
  (∀ p, p ∈ ps → 0 < p.2) →
  forallb (λ p, entry_value_ok classof rt f p.1) ps = true →
  ∃ st, foldM (entry_step classof rt f bb) ps state = Ok st ∧
        increfs st = increfs state ++ (entry_incref rt bb <$> ps) ∧
        been_run st = been_run state ∧
        starting_refs st = starting_refs state ∧
        ending_refs st = ending_refs state ∧
        decrefs st = decrefs state ∧
        cxx_fixups st = cxx_fixups state.
Proof.
  revert state. induction ps as [|p ps IH]; intros state Hpos Hall; simpl.
  - exists state. by rewrite app_nil_r.
  - simpl in Hall. apply andb_true_iff in Hall as [Hp Hall].
    rewrite entry_step_ok by (done || apply Hpos; left). rsimpl.
    destruct (IH (push_incref state (entry_incref rt bb p)))
      as (st & -> & Hi & ? & ? & ? & ? & ?); [|done|].
    { intros p' Hp'. apply Hpos. by right. }
    exists st. split; [done|]. rewrite Hi. simpl. rewrite <-app_assoc. done.
Qed.

Lemma entry_fold_bad bb (ps : list (Value * Z)) state :
  (∀ p, p ∈ ps → 0 < p.2) →
  forallb (λ p, entry_value_ok classof rt f p.1) ps = false →
  ∃ what, foldM (entry_step classof rt f bb) ps state = Err (AssertionFailed what).
Proof.
  revert state. induction ps as [|p ps IH]; intros state Hpos Hall; simpl; [done|].
  simpl in Hall. destruct (entry_value_ok classof rt f p.1) eqn:Hp.
  - rewrite entry_step_ok by (done || apply Hpos; left). rsimpl.
    apply IH; [|done]. intros p' Hp'. apply Hpos. by right.
  - destruct (entry_step_bad bb state p Hp) as [what ->]. by exists what.
Qed.

End EntryFacts.

(** C7: when the block is the entry block, the pass goes on exactly
    when every value left in [ending_refs] is an argument, a global or
    a constant and is borrowed (any other value is an assertion
    failure); it then plans for each value an increment of its count
    at the top of the entry block and leaves [ending_refs] empty. *)
Theorem entry_block_settles_refs (classof : Value -> ValueClass)
        (rt : RefcountTracker) (f : Function) (bb : BasicBlock) (state : RefState) :
  is_entry_block f bb = true →
  summary_ok (ending_refs state) →
  let remaining := OrderedMap.elements (ending_refs state) in
  (forallb (λ p, entry_value_ok classof rt f p.1) remaining = true →
   ∃ st, finish_entry classof rt f bb state = Ok st ∧
         increfs st = increfs state ++ (entry_incref rt bb <$> remaining) ∧
         ending_refs st = OrderedMap.empty ∧
         decrefs st = decrefs state ∧
         cxx_fixups st = cxx_fixups state ∧
         starting_refs st = starting_refs state) ∧
  (forallb (λ p, entry_value_ok classof rt f p.1) remaining = false →
   ∃ what, finish_entry classof rt f bb state = Err (AssertionFailed what)).
Proof.
  intros Hentry [Hwf Hpos] remaining.
  assert (Hpos' : ∀ p, p ∈ remaining → 0 < p.2).
  { intros [v x] Hp. simpl. apply (Hpos v). by apply (elem_of_elements 0). }
  unfold finish_entry. rewrite Hentry, (items_wf 0) by done. rsimpl.
  fold remaining. split; intros Hall.
  - destruct (entry_fold_ok classof rt f bb remaining state Hpos' Hall)
      as (st & -> & Hi & ? & ? & ? & ? & ?).
    rsimpl. eexists. split; [reflexivity|]. simpl. by split_and!.
  - destruct (entry_fold_bad classof rt f bb remaining state Hpos' Hall) as [what ->].
    by exists what.
Qed.

Lemma summary_ok_entry_state : summary_ok (ending_refs Sample.entry_state).
Proof. apply summary_ok_assign; [apply summary_ok_empty | lia]. Qed.

Lemma entry_block_settles_refs_witness :
  is_entry_block Sample.entry_fn 20%positive = true ∧
  let remaining := OrderedMap.elements (ending_refs Sample.entry_state) in
  (forallb (λ p, entry_value_ok Sample.classes Sample.rt_argument Sample.entry_fn p.1)
           remaining = true →
   ∃ st, finish_entry Sample.classes Sample.rt_argument Sample.entry_fn 20%positive
                      Sample.entry_state = Ok st ∧
         increfs st = increfs Sample.entry_state ++
                      (entry_incref Sample.rt_argument 20%positive <$> remaining) ∧
         ending_refs st = OrderedMap.empty ∧
         decrefs st = decrefs Sample.entry_state ∧
         cxx_fixups st = cxx_fixups Sample.entry_state ∧
         starting_refs st = starting_refs Sample.entry_state) ∧
  (forallb (λ p, entry_value_ok Sample.classes Sample.rt_argument Sample.entry_fn p.1)
           remaining = false →
   ∃ what, finish_entry Sample.classes Sample.rt_argument Sample.entry_fn 20%positive
                        Sample.entry_state = Err (AssertionFailed what)).
Proof.
  split; [reflexivity|].
  exact (entry_block_settles_refs Sample.classes Sample.rt_argument Sample.entry_fn
           20%positive Sample.entry_state eq_refl summary_ok_entry_state).
Defined.

(** The sample in numbers, and an owned value left at the entry. *)
Example entry_block_sample :
  (∃ st, finish_entry Sample.classes Sample.rt_argument Sample.entry_fn 20%positive
                      Sample.entry_state = Ok st ∧
         increfs st = [entry_incref Sample.rt_argument 20%positive (4%positive, 2)] ∧
         OrderedMap.elements (ending_refs st) = []) ∧
  finish_entry Sample.classes Sample.rt_owned Sample.entry_fn 20%positive
               (set_ending_refs RefState0 (assign 8%positive 1 OrderedMap.empty))
  = Err (AssertionFailed "found").
Proof. split; [eexists; repeat split; vm_compute; reflexivity | vm_compute; reflexivity]. Qed.

(** ** Instructions that may raise: the flush of the surplus *)

Section FlushFacts.
Variable rt : RefcountTracker.
Implicit Types (state s : RefState) (k v : Value).

Lemma deref_at (m : BlockMap) (pre suf : list Value) k x :
  OrderedMap.order m = pre ++ k :: suf → OrderedMap.map m !! k = Some x →
  OrderedMap.deref m (length pre) = Ok (k, x).
Proof.
  intros Ho Hk. unfold OrderedMap.deref.
  rewrite Ho, list_lookup_middle by done. by rewrite Hk.
Qed.

Lemma flush_step_at following s (te pre suf : list Value) k x :
  OrderedMap.order (ending_refs s) = pre ++ k :: suf →
  OrderedMap.map (ending_refs s) !! k = Some x →
  flush_step rt following (s, te) (length pre)
  = Ok (set_ending_refs
          {| been_run := been_run s; starting_refs := starting_refs s;
             ending_refs := ending_refs s;
             increfs := increfs s ++ surplus_incref rt following (k, x);
             decrefs := decrefs s; cxx_fixups := cxx_fixups s |}
          (assign k (defining_refs rt k) (ending_refs s)),
        if Z.eqb (defining_refs rt k) 0 then te ++ [k] else te).
Proof.
  intros Ho Hk. unfold flush_step. rewrite (deref_at _ pre suf k x) by done. rsimpl.
  unfold surplus_incref, defining_refs. cbn [fst snd].
  destruct (_ <? x); [reflexivity|]. rewrite app_nil_r. by destruct s.
Qed.

Lemma flush_fold following (er0 : BlockMap) (suf pre : list Value) s (te : list Value) :
  OrderedMap.order (ending_refs s) = pre ++ suf →
  OrderedMap.wf (ending_refs s) →
  (∀ k, k ∈ suf → OrderedMap.map (ending_refs s) !! k = OrderedMap.map er0 !! k) →
  ∃ s',
    foldM (flush_step rt following) (seq (length pre) (length suf)) (s, te)
      = Ok (s', te ++ List.filter (λ k, Z.eqb (defining_refs rt k) 0) suf) ∧
    increfs s' = increfs s ++
                 (suf ≫= λ k, surplus_incref rt following (k, demand k er0)) ∧
    OrderedMap.order (ending_refs s') = pre ++ suf ∧
    OrderedMap.wf (ending_refs s') ∧
    (∀ k, k ∈ suf → OrderedMap.map (ending_refs s') !! k = Some (defining_refs rt k)) ∧
    (∀ k, k ∉ suf →
          OrderedMap.map (ending_refs s') !! k = OrderedMap.map (ending_refs s) !! k) ∧
    been_run s' = been_run s ∧ starting_refs s' = starting_refs s ∧
    decrefs s' = decrefs s ∧ cxx_fixups s' = cxx_fixups s.
Proof.
  revert pre s te. induction suf as [|k suf IH]; intros pre s te Ho Hwf Hsame.
  - exists s. simpl. rewrite !app_nil_r. rewrite app_nil_r in Ho.
    split_and!; try done. by intros k ?%elem_of_nil.
  - assert (Hnd : NoDup (pre ++ k :: suf)) by (rewrite <-Ho; apply Hwf).
    assert (Hk : is_Some (OrderedMap.map (ending_refs s) !! k)).
    { apply Hwf. rewrite Ho. set_solver. }
    destruct Hk as [x Hx].
    assert (Hx0 : demand k er0 = x).
    { unfold demand. rewrite <-(Hsame k) by left. by rewrite Hx. }
    cbn [length seq foldM]. rewrite (flush_step_at following s te pre suf k x) by done.
    rsimpl. set (s1 := set_ending_refs _ _).
    assert (Hk_suf : k ∉ suf).
    { apply NoDup_app in Hnd as (_ & _ & Hnd). by apply NoDup_cons in Hnd as [? _]. }
    destruct (IH (pre ++ [k]) s1
                 (if defining_refs rt k =? 0 then te ++ [k] else te))
      as (s' & Hf & Hi & Ho' & Hwf' & Hin & Hout & Hb & Hs & Hd & Hc).
    { subst s1. cbn [ending_refs set_ending_refs]. rewrite <-app_assoc. cbn [app].
      rewrite assign_order_present by eauto. done. }
    { subst s1. cbn [ending_refs set_ending_refs]. by apply wf_assign. }
    { intros k' Hk'. subst s1. cbn [ending_refs set_ending_refs].
      rewrite assign_lookup_ne by (intros ->; done).
      apply Hsame. by right. }
    rewrite length_app in Hf. cbn [length] in Hf. rewrite Nat.add_1_r in Hf.
    exists s'. split.
    { rewrite Hf. f_equal. f_equal. cbn [List.filter].
      destruct (defining_refs rt k =? 0); simpl; by rewrite <-?app_assoc. }
    rewrite <-app_assoc in Ho'. cbn [app] in Ho'.
    split_and!; try done.
    + rewrite Hi. subst s1. cbn [increfs set_ending_refs mbind list_bind].
      rewrite Hx0. by rewrite <-app_assoc.
    + intros k' [->|Hk']%elem_of_cons; [|by apply Hin].
      rewrite Hout by done. subst s1. cbn [ending_refs set_ending_refs].
      apply assign_lookup.
    + intros k' [Hne Hk']%not_elem_of_cons. rewrite Hout by done.
      subst s1. cbn [ending_refs set_ending_refs].
      by rewrite assign_lookup_ne.
Qed.

Lemma erase_fold (te : list Value) s :
  NoDup te →
  (∀ k, k ∈ te → is_Some (OrderedMap.map (ending_refs s) !! k)) →
  OrderedMap.wf (ending_refs s) →
  ∃ s',
    foldM erase_step te s = Ok s' ∧
    OrderedMap.wf (ending_refs s') ∧
    (∀ k, OrderedMap.map (ending_refs s') !! k
          = if bool_decide (k ∈ te) then None else OrderedMap.map (ending_refs s) !! k) ∧
    OrderedMap.order (ending_refs s')
      = List.filter (λ k, negb (bool_decide (k ∈ te))) (OrderedMap.order (ending_refs s)) ∧
    been_run s' = been_run s ∧ starting_refs s' = starting_refs s ∧
    increfs s' = increfs s ∧ decrefs s' = decrefs s ∧ cxx_fixups s' = cxx_fixups s.
Proof.
  intros Hnd. revert s. induction Hnd as [|k te Hk Hnd IH]; intros s Hin Hwf;
    cbn [foldM].
  - exists s. split_and!; try done.
    symmetry. apply filter_all_true.
    intros k. by rewrite bool_decide_eq_false_2 by apply not_elem_of_nil.
  - unfold erase_step at 1. rewrite erase_Ok by (apply Hin; left). rsimpl.
    set (s1 := set_ending_refs _ _).
    destruct (IH s1) as (s' & -> & Hwf' & Hmap & Hord & ? & ? & ? & ? & ?).
    { intros k' Hk'. subst s1. simpl. rewrite lookup_delete_ne by (intros ->; done).
      apply Hin. by right. }
    { subst s1. simpl. eapply wf_erase; [exact Hwf|]. by apply erase_Ok, Hin; left. }
    exists s'. split; [done|]. split_and!; try done.
    + intros k'. rewrite Hmap. subst s1. simpl.
      destruct (decide (k' = k)) as [->|Hne].
      * rewrite lookup_delete_eq. rewrite (bool_decide_eq_true_2 (k ∈ k :: te)) by left.
        by destruct (bool_decide (k ∈ te)).
      * rewrite lookup_delete_ne by done.
        destruct (bool_decide (k' ∈ te)) eqn:Hd.
        -- apply bool_decide_eq_true in Hd.
           by rewrite bool_decide_eq_true_2 by (by right).
        -- apply bool_decide_eq_false in Hd.
           rewrite bool_decide_eq_false_2; [done|]. by apply not_elem_of_cons.
    + rewrite Hord. subst s1. cbn [ending_refs set_ending_refs OrderedMap.order].
      apply filter_filter_ne.
Qed.

End FlushFacts.

Lemma defining_refs_zero (rt : RefcountTracker) (v : Value) :
  Z.eqb (defining_refs rt v) 0 = negb (isOwned rt v).
Proof. unfold defining_refs. by destruct (isOwned rt v). Qed.

(** What the flush does to the state. *)
Lemma scan_flush_spec (rt : RefcountTracker) (i : InstructionData)
        (following : list InstructionData) (state : RefState) :
  may_throw_count rt (addr i) = true →
  OrderedMap.wf (ending_refs state) →
  ∃ st,
    scan_flush rt i following state = Ok st ∧
    increfs st = increfs state ++
                 (OrderedMap.elements (ending_refs state) ≫= surplus_incref rt following) ∧
    (∀ v, OrderedMap.map (ending_refs st) !! v
          = match OrderedMap.map (ending_refs state) !! v with
            | Some _ => if isOwned rt v then Some 1 else None
            | None => None
            end) ∧
    OrderedMap.order (ending_refs st)
      = List.filter (isOwned rt) (OrderedMap.order (ending_refs state)) ∧
    decrefs st = decrefs state ∧ cxx_fixups st = cxx_fixups state ∧
    starting_refs st = starting_refs state ∧ been_run st = been_run state ∧
    OrderedMap.wf (ending_refs st).
Proof.
  intros Hthrow Hwf. unfold scan_flush. rewrite Hthrow, size_wf by done.
  rsimpl.
  destruct (flush_fold rt following (ending_refs state)
              (OrderedMap.order (ending_refs state)) [] state [])
    as (s1 & Hf & Hi & Ho & Hwf1 & Hin & Hout & Hb & Hs & Hd & Hc); [done..|].
  cbn [length app] in Hf. rewrite Hf. rsimpl.
  set (te := List.filter _ _) in *.
  assert (Hte : ∀ k, k ∈ te ↔
                     k ∈ OrderedMap.order (ending_refs state) ∧ isOwned rt k = false).
  { intros k. subst te. rewrite !list_elem_of_In, filter_In, defining_refs_zero.
    by rewrite negb_true_iff. }
  destruct (erase_fold te s1) as (st & -> & Hwf2 & Hmap & Hord & ? & ? & ? & ? & ?).
  { subst te. by apply NoDup_list_filter, Hwf. }
  { intros k [Hk _]%Hte. rewrite Hin by done. by eexists. }
  { done. }
  exists st. split; [done|]. split_and!; try congruence.
  - rewrite H1, Hi. f_equal. rewrite (elements_alt 0) by done.
    unfold demand. clear. induction (OrderedMap.order (ending_refs state)) as [|a l IH];
      [done|].
    cbn [fmap list_fmap mbind list_bind]. by rewrite IH.
  - intros v. rewrite Hmap.
    destruct (OrderedMap.map (ending_refs state) !! v) as [x|] eqn:Hx.
    + assert (Hv : v ∈ OrderedMap.order (ending_refs state)) by (apply Hwf; eauto).
      rewrite Hin by done. unfold defining_refs.
      destruct (isOwned rt v) eqn:Hown.
      * rewrite bool_decide_eq_false_2; [done|]. rewrite Hte. intros [_ ?]. congruence.
      * rewrite bool_decide_eq_true_2; [done|]. by apply Hte.
    + assert (Hv : v ∉ OrderedMap.order (ending_refs state)).
      { intros Hv%Hwf. rewrite Hx in Hv. by destruct Hv. }
      rewrite bool_decide_eq_false_2 by (rewrite Hte; tauto).
      by rewrite Hout.
  - rewrite Hord, Ho. cbn [app]. apply filter_ext_in. intros k Hk%list_elem_of_In.
    destruct (isOwned rt k) eqn:Hown.
    + rewrite bool_decide_eq_false_2; [done|]. rewrite Hte. intros [_ ?]. congruence.
    + rewrite bool_decide_eq_true_2; [done|]. by apply Hte.
Qed.

(** C4: before an instruction that may raise, every value of
    [ending_refs] that holds more references than it needs (one if it
    is owned, none otherwise) gets an increment of exactly the surplus
    planned right behind the instruction; the count of every owned
    value is set to one and the values that need no reference leave
    [ending_refs]. *)
Theorem may_raise_flushes_surplus (rt : RefcountTracker) (i : InstructionData)
        (following : list InstructionData) (state : RefState) :
  may_throw_count rt (addr i) = true →
  OrderedMap.wf (ending_refs state) →
  ∃ st,
    scan_flush rt i following state = Ok st ∧
    increfs st = increfs state ++
                 (OrderedMap.elements (ending_refs state) ≫= surplus_incref rt following) ∧
    (∀ v, OrderedMap.map (ending_refs st) !! v
          = match OrderedMap.map (ending_refs state) !! v with
            | Some _ => if isOwned rt v then Some 1 else None
            | None => None
            end) ∧
    OrderedMap.order (ending_refs st)
      = List.filter (isOwned rt) (OrderedMap.order (ending_refs state)) ∧
    decrefs st = decrefs state ∧ cxx_fixups st = cxx_fixups state ∧
    starting_refs st = starting_refs state ∧ been_run st = been_run state.
Proof.
  intros Hthrow Hwf.
  destruct (scan_flush_spec rt i following state Hthrow Hwf)
    as (st & ? & ? & ? & ? & ? & ? & ? & ? & _).
  exists st. by split_and!.
Qed.

Lemma summary_ok_raising_state : summary_ok (ending_refs Sample.raising_state).
Proof.
  repeat (apply summary_ok_assign; [|lia]). apply summary_ok_empty.
Qed.

Lemma may_raise_flushes_surplus_witness :
  may_throw_count Sample.rt_raising (addr Sample.raising_call) = true ∧
  ∃ st,
    scan_flush Sample.rt_raising Sample.raising_call Sample.after_call
               Sample.raising_state = Ok st ∧
    increfs st = increfs Sample.raising_state ++
                 (OrderedMap.elements (ending_refs Sample.raising_state)
                    ≫= surplus_incref Sample.rt_raising Sample.after_call) ∧
    (∀ v, OrderedMap.map (ending_refs st) !! v
          = match OrderedMap.map (ending_refs Sample.raising_state) !! v with
            | Some _ => if isOwned Sample.rt_raising v then Some 1 else None
            | None => None
            end) ∧
    OrderedMap.order (ending_refs st)
      = List.filter (isOwned Sample.rt_raising)
                    (OrderedMap.order (ending_refs Sample.raising_state)) ∧
    decrefs st = decrefs Sample.raising_state ∧
    cxx_fixups st = cxx_fixups Sample.raising_state ∧
    starting_refs st = starting_refs Sample.raising_state ∧
    been_run st = been_run Sample.raising_state.
Proof.
  split; [reflexivity|].
  exact (may_raise_flushes_surplus Sample.rt_raising Sample.raising_call
           Sample.after_call Sample.raising_state eq_refl
           (proj1 summary_ok_raising_state)).
Defined.

(** The sample in numbers: two references of the borrowed value and
    two of the three of the owned value are taken behind the call. *)
Example may_raise_flush_sample :
  ∃ st, scan_flush Sample.rt_raising Sample.raising_call Sample.after_call
                   Sample.raising_state = Ok st ∧
        OrderedMap.elements (ending_refs st) = [(8%positive, 1)] ∧
        (λ op, (operand op, num_refs op, insertion_inst op)) <$> increfs st
        = [(7%positive, 2, Some 31%positive); (8%positive, 2, Some 31%positive)].
Proof. eexists. repeat split; vm_compute; reflexivity. Qed.

(** ** Instructions that may raise: the fixup record *)

Lemma expand_refs_captured (m : BlockMap) :
  expand_refs (OrderedMap.elements m) = captured_refs m.
Proof.
  unfold expand_refs, captured_refs.
  induction (OrderedMap.elements m) as [|p ps IH]; [done|].
  cbn [flat_map mbind list_bind]. rewrite IH. f_equal.
  induction (Z.to_nat p.2) as [|n IHn]; simpl; [done|]. by rewrite IHn.
Qed.

Lemma occurrences_app (v : Value) (l1 l2 : list Value) :
  occurrences v (l1 ++ l2) = (occurrences v l1 + occurrences v l2)%nat.
Proof. unfold occurrences. by rewrite List.filter_app, length_app. Qed.

Lemma occurrences_replicate (v k : Value) (n : nat) :
  occurrences v (replicate n k) = if decide (v = k) then n else 0%nat.
Proof.
  unfold occurrences. destruct (decide (v = k)) as [->|Hne].
  - induction n as [|n IH]; simpl; [done|]. rewrite Pos.eqb_refl. simpl. by rewrite IH.
  - induction n as [|n IH]; simpl; [done|]. by destruct (Pos.eqb_spec v k).
Qed.

Lemma occurrences_captured (m : BlockMap) (v : Value) :
  OrderedMap.wf m → occurrences v (captured_refs m) = Z.to_nat (demand v m).
Proof.
  intros Hwf. unfold captured_refs, demand. rewrite (elements_alt 0) by done.
  destruct Hwf as [Hnd Hdom].
  assert (Hnone : v ∉ OrderedMap.order m → OrderedMap.map m !! v = None).
  { intros Hv. destruct (OrderedMap.map m !! v) eqn:Hx; [|done].
    exfalso. apply Hv, Hdom. by eauto. }
  clear Hdom. induction Hnd as [|k ks Hk Hnd IH].
  - simpl. rewrite Hnone; [done|]. apply not_elem_of_nil.
  - cbn [fmap list_fmap mbind list_bind fst snd].
    rewrite occurrences_app, occurrences_replicate.
    destruct (decide (v = k)) as [->|Hne].
    + assert (occurrences k
                (((λ k0, (k0, default 0 (OrderedMap.map m !! k0))) <$> ks)
                   ≫= λ p, replicate (Z.to_nat p.2) p.1) = 0%nat) as ->; [|lia].
      clear -Hk. induction ks as [|a ks IH]; [done|].
      cbn [fmap list_fmap mbind list_bind fst snd].
      rewrite occurrences_app, occurrences_replicate.
      apply not_elem_of_cons in Hk as [Hne Hk].
      rewrite decide_False by done. by apply IH.
    + destruct (decide (v ∈ ks)) as [Hin|Hout].
      * apply IH. intros Hv. done.
      * rewrite Hnone by (by apply not_elem_of_cons). simpl.
        clear -Hout. induction ks as [|a ks IH]; [done|].
        cbn [fmap list_fmap mbind list_bind fst snd].
        rewrite occurrences_app, occurrences_replicate.
        apply not_elem_of_cons in Hout as [Hne Hout].
        rewrite decide_False by done. by apply IH.
Qed.

Lemma capture_entry_spec (rt : RefcountTracker) (acc : list Value) (p : Value * Z) :
  capture_entry rt acc p
  = if (Z.to_nat p.2 =? 0)%nat || vars_count rt p.1
    then Ok (acc ++ repeat p.1 (Z.to_nat p.2))
    else Err (AssertionFailed "rt->vars.count(p.first)").
Proof.
  unfold capture_entry.
  enough (∀ n a acc,
            foldM (λ acc (_ : nat),
                     assert_ (vars_count rt p.1) "rt->vars.count(p.first)" ;;
                     Ok (acc ++ [p.1])) (seq a n) acc
            = if (n =? 0)%nat || vars_count rt p.1
              then Ok (acc ++ repeat p.1 n)
              else Err (AssertionFailed "rt->vars.count(p.first)")) as Hloop
    by apply Hloop.
  clear acc. induction n as [|n IH]; intros a acc.
  - simpl. by rewrite app_nil_r.
  - cbn [seq foldM Nat.eqb orb]. destruct (vars_count rt p.1) eqn:Hv.
    + cbn [assert_ mbind result_bind rbind]. rewrite IH, orb_true_r.
      cbn [repeat]. by rewrite <-app_assoc.
    + reflexivity.
Qed.

Lemma capture_refs_spec (rt : RefcountTracker) (ps : list (Value * Z)) (acc : list Value) :
  foldM (capture_entry rt) ps acc
  = if forallb (vars_count rt) (expand_refs ps)
    then Ok (acc ++ expand_refs ps)
    else Err (AssertionFailed "rt->vars.count(p.first)").
Proof.
  revert acc. induction ps as [|p ps IH]; intros acc.
  - simpl. by rewrite app_nil_r.
  - cbn [foldM]. rewrite capture_entry_spec. unfold expand_refs. cbn [flat_map].
    fold (expand_refs ps). rewrite forallb_app.
    assert (Hrep : forallb (vars_count rt) (repeat p.1 (Z.to_nat p.2))
                   = (Z.to_nat p.2 =? 0)%nat || vars_count rt p.1).
    { destruct (Z.to_nat p.2) as [|n]; [done|]. cbn [repeat forallb Nat.eqb orb].
      destruct (vars_count rt p.1) eqn:Hv; [|done]. cbn [andb].
      induction n as [|n IHn]; [done|]. cbn [repeat forallb]. by rewrite Hv, IHn. }
    rewrite Hrep. destruct (_ || _); [|done]. cbn [andb rbind].
    rewrite IH. by rewrite <-app_assoc.
Qed.

(** What [scan_fixup] comes to: nothing for an instruction that cannot
    throw; otherwise the capture, which fails at the first value that
    is not tracked. *)
Lemma scan_fixup_spec (rt : RefcountTracker) (i : InstructionData) (state : RefState) :
  OrderedMap.wf (ending_refs state) →
  scan_fixup rt i state
  = if may_throw_count rt (addr i) then
      if forallb (vars_count rt) (captured_refs (ending_refs state)) then
        match captured_refs (ending_refs state) with
        | [] => Ok state
        | l => Ok (push_fixup state {| fixup_inst := addr i; to_decref := l |})
        end
      else Err (AssertionFailed "rt->vars.count(p.first)")
    else Ok state.
Proof.
  intros Hwf. unfold scan_fixup. destruct (may_throw_count rt (addr i)); [|done].
  rewrite (items_wf 0) by done. rsimpl.
  rewrite capture_refs_spec, expand_refs_captured.
  destruct (forallb _ _); [|done]. rsimpl. cbn [app].
  by destruct (captured_refs (ending_refs state)).
Qed.

(** A successful [scan_fixup] leaves the state alone or adds one
    record to it. *)
Lemma scan_fixup_Ok (rt : RefcountTracker) (i : InstructionData) (s st : RefState) :
  scan_fixup rt i s = Ok st → st = s ∨ ∃ fx, st = push_fixup s fx.
Proof.
  unfold scan_fixup. destruct (may_throw_count rt (addr i)); [|intros [= <-]; by left].
  intros H. rinv H. destruct a0; injection H as <-; [by left|right; by eexists].
Qed.

(** C3: at an instruction that may raise, the fixup record holds the
    values of the current [ending_refs], each as many times as its
    count and in the order of insertion of the map; when there is none,
    no record is attached to the instruction.  The capture asserts
    that each of these values is tracked: it fails that assertion if
    one of them is not. *)
Theorem may_raise_captures_ending_refs (rt : RefcountTracker) (i : InstructionData)
        (state : RefState) :
  may_throw_count rt (addr i) = true →
  OrderedMap.wf (ending_refs state) →
  (Forall (λ v, vars_count rt v = true) (captured_refs (ending_refs state)) →
   ∃ st,
     scan_fixup rt i state = Ok st ∧
     cxx_fixups st
       = cxx_fixups state ++
         (if decide (captured_refs (ending_refs state) = []) then []
          else [ {| fixup_inst := addr i;
                    to_decref := captured_refs (ending_refs state) |} ]) ∧
     ending_refs st = ending_refs state ∧ starting_refs st = starting_refs state ∧
     increfs st = increfs state ∧ decrefs st = decrefs state) ∧
  (∀ v, occurrences v (captured_refs (ending_refs state))
        = Z.to_nat (demand v (ending_refs state))) ∧
  (¬ Forall (λ v, vars_count rt v = true) (captured_refs (ending_refs state)) →
   scan_fixup rt i state = Err (AssertionFailed "rt->vars.count(p.first)")).
Proof.
  intros Hthrow Hwf. rewrite scan_fixup_spec, Hthrow by done.
  split_and!.
  - intros Htracked.
    assert (forallb (vars_count rt) (captured_refs (ending_refs state)) = true) as ->.
    { apply forallb_forall. intros v Hv. apply (proj1 (Forall_forall _ _) Htracked).
      by apply list_elem_of_In. }
    destruct (captured_refs (ending_refs state)) as [|v0 vs] eqn:Hcap.
    + exists state. rewrite decide_True by done. by rewrite app_nil_r.
    + eexists. split; [reflexivity|]. by rewrite decide_False.
  - intros v. by apply occurrences_captured.
  - intros Hnot.
    destruct (forallb (vars_count rt) (captured_refs (ending_refs state))) eqn:Hall; [|done].
    exfalso. apply Hnot. apply Forall_forall. intros v Hv.
    apply (proj1 (forallb_forall _ _) Hall). by apply list_elem_of_In.
Qed.

(** The witness takes the state as the scan hands it to the capture:
    behind the flush of the surplus, which leaves one reference of
    each owned value. *)
Lemma may_raise_captures_ending_refs_witness :
  may_throw_count Sample2.rt_pair (addr Sample.raising_call) = true ∧
  scan_flush Sample2.rt_pair Sample.raising_call Sample.after_call
             Sample2.wanted_pair = Ok Sample2.flushed_pair ∧
  OrderedMap.wf (ending_refs Sample2.flushed_pair) ∧
  Forall (λ v, vars_count Sample2.rt_pair v = true)
         (captured_refs (ending_refs Sample2.flushed_pair)) ∧
  (∃ st,
     scan_fixup Sample2.rt_pair Sample.raising_call Sample2.flushed_pair = Ok st ∧
     cxx_fixups st
       = cxx_fixups Sample2.flushed_pair ++
         (if decide (captured_refs (ending_refs Sample2.flushed_pair) = []) then []
          else [ {| fixup_inst := addr Sample.raising_call;
                    to_decref := captured_refs (ending_refs Sample2.flushed_pair) |} ]) ∧
     ending_refs st = ending_refs Sample2.flushed_pair ∧
     starting_refs st = starting_refs Sample2.flushed_pair ∧
     increfs st = increfs Sample2.flushed_pair ∧
     decrefs st = decrefs Sample2.flushed_pair) ∧
  (∀ v, occurrences v (captured_refs (ending_refs Sample2.flushed_pair))
        = Z.to_nat (demand v (ending_refs Sample2.flushed_pair))).
Proof.
  assert (Hwf : OrderedMap.wf (ending_refs Sample2.flushed_pair)).
  { apply (wf_assign 0), (wf_assign 0), wf_empty. }
  assert (Htracked : Forall (λ v, vars_count Sample2.rt_pair v = true)
                            (captured_refs (ending_refs Sample2.flushed_pair))).
  { apply Forall_forall. intros v Hv. apply list_elem_of_In in Hv.
    vm_compute in Hv. by destruct Hv as [<-|[<-|[]]]. }
  split; [reflexivity|]. split; [vm_compute; reflexivity|].
  split; [exact Hwf|]. split; [exact Htracked|].
  destruct (may_raise_captures_ending_refs Sample2.rt_pair Sample.raising_call
              Sample2.flushed_pair eq_refl Hwf) as (Hok & Hocc & _).
  split; [exact (Hok Htracked)|exact Hocc].
Defined.

(** The sample in numbers: behind the flush one reference of each of
    the two owned values is captured, in the order of their insertion;
    no record is made for an empty map; and the capture of a value that
    is not tracked fails. *)
Example fixup_sample :
  (∃ st,
     scan_fixup Sample2.rt_pair Sample.raising_call Sample2.flushed_pair = Ok st ∧
     cxx_fixups st
     = [ {| fixup_inst := 30%positive; to_decref := [9; 8]%positive |} ]) ∧
  scan_fixup Sample2.rt_pair Sample.raising_call RefState0 = Ok RefState0 ∧
  scan_fixup Sample2.rt_pair Sample.raising_call Sample2.wanted_stranger
  = Err (AssertionFailed "rt->vars.count(p.first)").
Proof.
  split; [eexists; split; vm_compute; reflexivity|].
  split; vm_compute; reflexivity.
Qed.

(** ** Insertion points on edges *)






(** The landing-pad block of the sample: the fourth instruction. *)
Example findInsertionPoint_landing_pad_sample :
  ∃ st, findInsertionPoint Sample.allocator (Some 70%positive) (Some 55%positive)
                           (Sample.edge_fn, ∅) = Ok (74%positive, st).
Proof. eexists. vm_compute. reflexivity. Qed.

(** ** Relocation of addresses *)

Lemma result_map_bind {A B A' B'} (g : A -> A') (h : B -> B')
      (m : result A) (k : A -> result B) (k' : A' -> result B') :
  (∀ a, k' (g a) = result_map h (k a)) →
  result_map g m ≫= k' = result_map h (m ≫= k).
Proof. intros Hk. destruct m as [a|e]; [apply Hk | reflexivity]. Qed.

Lemma foldM_reloc {A S A' S'} (gA : A -> A') (gS : S -> S')
      (f : S -> A -> result S) (f' : S' -> A' -> result S') (l : list A) (s : S) :
  (∀ s a, f' (gS s) (gA a) = result_map gS (f s a)) →
  foldM f' (gA <$> l) (gS s) = result_map gS (foldM f l s).
Proof.
  intros Hf. revert s. induction l as [|a l IH]; intros s; [reflexivity|].
  cbn [fmap list_fmap foldM]. rewrite Hf.
  destruct (f s a) as [s1|e]; [apply IH | reflexivity].
Qed.

Lemma foldM_ext_in {A S} (f f' : S -> A -> result S) (l : list A) (s : S) :
  (∀ s a, a ∈ l → f' s a = f s a) → foldM f' l s = foldM f l s.
Proof.
  revert s. induction l as [|a l IH]; intros s Hf; [reflexivity|].
  cbn [foldM]. rewrite Hf by left.
  destruct (f s a) as [s1|e]; [|reflexivity]. apply IH.
  intros s' a' Ha'. apply Hf. by right.
Qed.

Lemma fold_left_reloc {A S A' S'} (gA : A -> A') (gS : S -> S')
      (f : S -> A -> S) (f' : S' -> A' -> S') (l : list A) (s : S) :
  (∀ s a, f' (gS s) (gA a) = gS (f s a)) →
  fold_left f' (gA <$> l) (gS s) = gS (fold_left f l s).
Proof.
  intros Hf. revert s. induction l as [|a l IH]; intros s; [reflexivity|].
  cbn [fmap list_fmap fold_left]. rewrite Hf. apply IH.
Qed.

Lemma mapM_result_reloc {A B A' B'} (gA : A -> A') (gB : B -> B')
      (f : A -> result B) (f' : A' -> result B') (l : list A) :
  (∀ a, f' (gA a) = result_map gB (f a)) →
  mapM_result f' (gA <$> l) = result_map (fmap gB) (mapM_result f l).
Proof.
  intros Hf. induction l as [|a l IH]; [reflexivity|].
  cbn [fmap list_fmap mapM_result]. rewrite Hf.
  destruct (f a) as [b|e]; [|reflexivity]. cbn. rewrite IH.
  by destruct (mapM_result f l).
Qed.

Lemma filter_reloc {A B} (g : A -> B) (p : A -> bool) (p' : B -> bool) (l : list A) :
  (∀ a, p' (g a) = p a) →
  List.filter p' (g <$> l) = g <$> List.filter p l.
Proof.
  intros Hp. induction l as [|a l IH]; [reflexivity|].
  cbn [fmap list_fmap List.filter]. rewrite Hp.
  destruct (p a); cbn [fmap list_fmap]; by rewrite IH.
Qed.

Lemma rev_fmap {A B} (g : A -> B) (l : list A) : rev (g <$> l) = g <$> rev l.
Proof.
  induction l as [|a l IH]; [done|]. cbn [fmap list_fmap rev].
  by rewrite IH, fmap_app.
Qed.

Section Reloc.
Variable relocate : positive -> positive.
Context `{!Inj (=) (=) relocate}.
Implicit Types (m : BlockMap) (k v : Value).

Lemma Pos_eqb_reloc (a b : positive) : Pos.eqb (relocate a) (relocate b) = Pos.eqb a b.
Proof.
  destruct (Pos.eqb_spec a b) as [->|Hne].
  - apply Pos.eqb_refl.
  - apply Pos.eqb_neq. intros Heq. by apply Hne, (inj relocate).
Qed.

Lemma reloc_map_empty : reloc_map relocate OrderedMap.empty = OrderedMap.empty.
Proof. unfold reloc_map, OrderedMap.empty. simpl. by rewrite kmap_empty. Qed.

Lemma lookup_reloc_map m k :
  OrderedMap.map (reloc_map relocate m) !! relocate k = OrderedMap.map m !! k.
Proof. unfold reloc_map. simpl. apply (lookup_kmap relocate). Qed.

Lemma count_reloc m k : count (reloc_map relocate m) (relocate k) = count m k.
Proof. unfold OrderedMap.count. by rewrite lookup_reloc_map. Qed.

Lemma subscript_reloc m k :
  subscript (reloc_map relocate m) (relocate k) = subscript m k.
Proof. unfold OrderedMap.subscript. by rewrite lookup_reloc_map. Qed.

Lemma touch_reloc m k :
  touch (relocate k) (reloc_map relocate m) = reloc_map relocate (touch k m).
Proof.
  unfold OrderedMap.touch. rewrite count_reloc.
  destruct (Nat.eqb _ _); [|done].
  unfold reloc_map. simpl. by rewrite (kmap_insert relocate), fmap_app.
Qed.

Lemma assign_reloc m k (x : Z) :
  assign (relocate k) x (reloc_map relocate m) = reloc_map relocate (assign k x m).
Proof.
  unfold OrderedMap.assign. rewrite touch_reloc.
  unfold reloc_map. simpl. by rewrite (kmap_insert relocate).
Qed.

Lemma erase_reloc m k :
  OrderedMap.erase (relocate k) (reloc_map relocate m)
  = result_map (reloc_map relocate) (OrderedMap.erase k m).
Proof.
  unfold OrderedMap.erase. rewrite count_reloc.
  destruct (Nat.ltb _ _); [|done]. cbn.
  unfold reloc_map. simpl. rewrite (kmap_delete relocate). do 2 f_equal.
  apply filter_reloc. intros a.
  destruct (decide (a = k)) as [->|Hne].
  - by rewrite !bool_decide_eq_true_2.
  - rewrite (bool_decide_eq_false_2 (a = k)) by done.
    rewrite bool_decide_eq_false_2; [done|].
    intros Heq. by apply Hne, (inj relocate).
Qed.

Lemma get_reloc m k :
  OrderedMap.get (reloc_map relocate m) (relocate k) = OrderedMap.get m k.
Proof. unfold OrderedMap.get. by rewrite lookup_reloc_map. Qed.

Lemma size_kmap {A} (m : gmap positive A) :
  size (kmap (M2:=gmap positive) relocate m) = size m.
Proof.
  rewrite <-!length_map_to_list.
  rewrite (map_to_list_kmap relocate m). by rewrite length_fmap.
Qed.

Lemma size_reloc m : OrderedMap.size (reloc_map relocate m) = OrderedMap.size m.
Proof.
  unfold OrderedMap.size, reloc_map. simpl. by rewrite length_fmap, size_kmap.
Qed.

Lemma deref_reloc m idx :
  OrderedMap.deref (reloc_map relocate m) idx
  = result_map (prod_map relocate id) (OrderedMap.deref m idx).
Proof.
  unfold OrderedMap.deref.
  replace (OrderedMap.order (reloc_map relocate m))
    with (relocate <$> OrderedMap.order m) by reflexivity.
  rewrite list_lookup_fmap. destruct (OrderedMap.order m !! idx) as [k|]; [|done].
  cbn [fmap option_fmap option_map]. rewrite lookup_reloc_map.
  by destruct (OrderedMap.map m !! k).
Qed.

Lemma items_reloc m :
  OrderedMap.items (reloc_map relocate m)
  = result_map (fmap (prod_map relocate id)) (OrderedMap.items m).
Proof.
  unfold OrderedMap.items. rewrite size_reloc.
  destruct (OrderedMap.size m) as [n|e]; [|done]. cbn.
  rewrite <-(list_fmap_id (seq 0 n)) at 1.
  apply (mapM_result_reloc id). intros idx. apply deref_reloc.
Qed.

Lemma endingRefsDifferent_loop_reloc (lhs rhs : BlockMap) (idxs : list nat) :
  endingRefsDifferent_loop (reloc_map relocate lhs) (reloc_map relocate rhs) idxs
  = endingRefsDifferent_loop lhs rhs idxs.
Proof.
  induction idxs as [|i idxs IH]; [done|]. cbn [endingRefsDifferent_loop].
  rewrite deref_reloc. destruct (OrderedMap.deref lhs i) as [[k x]|e]; [|done].
  cbn. rewrite count_reloc, get_reloc. destruct (Nat.eqb _ _); [done|].
  destruct (OrderedMap.get rhs k) as [y|e]; [|done]. cbn.
  by destruct (negb _).
Qed.

Lemma endingRefsDifferent_reloc (lhs rhs : BlockMap) :
  endingRefsDifferent (reloc_map relocate lhs) (reloc_map relocate rhs)
  = endingRefsDifferent lhs rhs.
Proof.
  unfold endingRefsDifferent. rewrite !size_reloc.
  destruct (OrderedMap.size lhs) as [nl|e]; [|done]. cbn.
  destruct (OrderedMap.size rhs) as [nr|e]; [|done]. cbn.
  destruct (negb _); [done|]. apply endingRefsDifferent_loop_reloc.
Qed.

Variable rt : RefcountTracker.
Implicit Types (s state : RefState).

Lemma vars_reloc v : vars (reloc_tracker relocate rt) !! relocate v = vars rt !! v.
Proof. unfold reloc_tracker. simpl. apply (lookup_kmap relocate). Qed.

Lemma vars_count_reloc v :
  vars_count (reloc_tracker relocate rt) (relocate v) = vars_count rt v.
Proof. unfold vars_count. by rewrite vars_reloc. Qed.

Lemma vars_lookup_reloc v :
  vars_lookup (reloc_tracker relocate rt) (relocate v) = vars_lookup rt v.
Proof. unfold vars_lookup. by rewrite vars_reloc. Qed.

Lemma isOwned_reloc v : isOwned (reloc_tracker relocate rt) (relocate v) = isOwned rt v.
Proof. unfold isOwned. by rewrite vars_lookup_reloc. Qed.

Lemma defining_refs_reloc v :
  defining_refs (reloc_tracker relocate rt) (relocate v) = defining_refs rt v.
Proof. unfold defining_refs. by rewrite isOwned_reloc. Qed.

Lemma may_throw_count_reloc i :
  may_throw_count (reloc_tracker relocate rt) (relocate i) = may_throw_count rt i.
Proof.
  unfold may_throw_count, reloc_tracker. simpl. apply bool_decide_ext.
  rewrite elem_of_map. split.
  - intros (x & Hx%(inj relocate) & Hin). by subst.
  - intros Hin. by exists i.
Qed.

Lemma refs_consumed_reloc i :
  default [] (refs_consumed (reloc_tracker relocate rt) !! relocate i)
  = relocate <$> default [] (refs_consumed rt !! i).
Proof.
  unfold reloc_tracker. simpl. rewrite (lookup_kmap relocate), lookup_fmap.
  by destruct (refs_consumed rt !! i).
Qed.

Lemma refs_used_reloc i :
  default [] (refs_used (reloc_tracker relocate rt) !! relocate i)
  = relocate <$> default [] (refs_used rt !! i).
Proof.
  unfold reloc_tracker. simpl. rewrite (lookup_kmap relocate), lookup_fmap.
  by destruct (refs_used rt !! i).
Qed.

(** *** States *)

Lemma reloc_state_push_incref s op :
  push_incref (reloc_state relocate s) (reloc_op relocate op)
  = reloc_state relocate (push_incref s op).
Proof. unfold push_incref, reloc_state. simpl. by rewrite fmap_app. Qed.

Lemma reloc_state_push_decref s op :
  push_decref (reloc_state relocate s) (reloc_op relocate op)
  = reloc_state relocate (push_decref s op).
Proof. unfold push_decref, reloc_state. simpl. by rewrite fmap_app. Qed.

Lemma reloc_state_push_fixup s fx :
  push_fixup (reloc_state relocate s) (reloc_fixup relocate fx)
  = reloc_state relocate (push_fixup s fx).
Proof. unfold push_fixup, reloc_state. simpl. by rewrite fmap_app. Qed.

Lemma reloc_state_set_ending_refs s m :
  set_ending_refs (reloc_state relocate s) (reloc_map relocate m)
  = reloc_state relocate (set_ending_refs s m).
Proof. reflexivity. Qed.

Lemma reloc_state_set_starting_refs s m :
  set_starting_refs (reloc_state relocate s) (reloc_map relocate m)
  = reloc_state relocate (set_starting_refs s m).
Proof. reflexivity. Qed.

(** *** The merge *)

Lemma collect_from_reloc (acc : list Value * gset positive) (p : Value * Z) :
  collect_from (relocate <$> acc.1, set_map relocate acc.2) (prod_map relocate id p)
  = result_map (λ acc, (relocate <$> acc.1, set_map relocate acc.2)) (collect_from acc p).
Proof.
  destruct acc as [l S], p as [k x]. unfold collect_from. simpl.
  destruct (0 <? x); [|done]. cbn.
  assert (bool_decide (relocate k ∈ (set_map relocate S : gset positive))
          = bool_decide (k ∈ S)) as ->.
  { apply bool_decide_ext. rewrite elem_of_map. split.
    - intros (y & Hy%(inj relocate) & Hin). by subst.
    - intros Hin. by exists k. }
  destruct (bool_decide (k ∈ S)); [done|]. cbn.
  rewrite fmap_app. do 2 f_equal.
  by rewrite set_map_union_L, set_map_singleton_L.
Qed.

Lemma collect_tracked_values_reloc (maps : list BlockMap) :
  collect_tracked_values (reloc_map relocate <$> maps)
  = result_map (fmap relocate) (collect_tracked_values maps).
Proof.
  unfold collect_tracked_values.
  pose (gS := λ acc : list Value * gset positive,
                (relocate <$> acc.1, (set_map relocate acc.2 : gset positive))).
  assert (Hfold :
    foldM (λ acc m, ps ← OrderedMap.items m; foldM collect_from ps acc)
          (reloc_map relocate <$> maps) (gS ([], ∅))
    = result_map gS
        (foldM (λ acc m, ps ← OrderedMap.items m; foldM collect_from ps acc)
               maps ([], ∅))).
  { apply foldM_reloc. intros acc m. rewrite items_reloc.
    destruct (OrderedMap.items m) as [ps|e]; [|done]. cbn.
    apply (foldM_reloc (prod_map relocate id) gS). intros acc' p.
    apply collect_from_reloc. }
  unfold gS in Hfold at 1. cbn [fst snd fmap list_fmap] in Hfold.
  rewrite set_map_empty in Hfold. rewrite Hfold.
  by destruct (foldM _ maps _).
Qed.

Lemma this_refs_of_reloc v m :
  this_refs_of (relocate v) (reloc_map relocate m) = this_refs_of v m.
Proof. unfold this_refs_of. by rewrite count_reloc, subscript_reloc. Qed.

Lemma min_refs_loop_reloc v (info : list (BlockMap * BasicBlock)) :
  min_refs_loop (relocate v) ((reloc_info relocate) <$> info) = min_refs_loop v info.
Proof.
  unfold min_refs_loop.
  apply (fold_left_reloc (reloc_info relocate) id). intros acc [m sbb].
  unfold min_refs_step, reloc_info. simpl. by rewrite count_reloc, subscript_reloc.
Qed.

Lemma min_refs_of_reloc v (info : list (BlockMap * BasicBlock)) :
  min_refs_of (reloc_tracker relocate rt) (relocate v) ((reloc_info relocate) <$> info)
  = min_refs_of rt v info.
Proof. unfold min_refs_of. by rewrite isOwned_reloc, min_refs_loop_reloc. Qed.

Lemma reconcile_step_reloc bb v (min_refs : Z) state (s_info : BlockMap * BasicBlock) :
  reconcile_step (reloc_tracker relocate rt) (relocate bb) (relocate v) min_refs
                 (reloc_state relocate state) ((reloc_info relocate) s_info)
  = result_map (reloc_state relocate) (reconcile_step rt bb v min_refs state s_info).
Proof.
  unfold reconcile_step. destruct s_info as [m sbb]. cbn [reloc_info fst snd].
  rewrite this_refs_of_reloc, vars_lookup_reloc.
  destruct (Z.ltb min_refs _).
  { cbn [result_map]. by rewrite <-reloc_state_push_incref. }
  destruct (Z.ltb _ min_refs); [|done].
  destruct (RefType_eqb _ _); [|done]. cbn [result_map assert_ mbind result_bind rbind].
  by rewrite <-reloc_state_push_decref.
Qed.

Lemma merge_value_reloc bb (info : list (BlockMap * BasicBlock)) state v :
  merge_value (reloc_tracker relocate rt) (relocate bb) ((reloc_info relocate) <$> info)
              (reloc_state relocate state) (relocate v)
  = result_map (reloc_state relocate) (merge_value rt bb info state v).
Proof.
  unfold merge_value. rewrite vars_count_reloc, min_refs_of_reloc.
  destruct (vars_count rt v); [|done]. cbn.
  rewrite (foldM_reloc (reloc_info relocate) (reloc_state relocate)
             (reconcile_step rt bb v (min_refs_of rt v info)))
    by (intros; apply reconcile_step_reloc).
  destruct (foldM _ info state) as [st|e]; [|done]. cbn.
  destruct (negb _).
  - cbn [starting_refs reloc_state]. rewrite assign_reloc. reflexivity.
  - cbn [starting_refs reloc_state]. rewrite count_reloc.
    by destruct (Nat.eqb _ _).
Qed.

Lemma merge_successors_reloc bb (info : list (BlockMap * BasicBlock)) state :
  merge_successors (reloc_tracker relocate rt) (relocate bb) ((reloc_info relocate) <$> info)
                   (reloc_state relocate state)
  = result_map (reloc_state relocate) (merge_successors rt bb info state).
Proof.
  unfold merge_successors. destruct info as [|s0 info0] eqn:Hinfo; [done|].
  rewrite <-Hinfo. clear Hinfo. cbn [fmap list_fmap].
  destruct ((reloc_info relocate) <$> info) as [|? ?] eqn:Hri.
  { by destruct info. }
  rewrite <-Hri. clear Hri.
  assert (((reloc_info relocate) <$> info).*1 = reloc_map relocate <$> info.*1) as ->.
  { rewrite <-!list_fmap_compose. by apply list_fmap_ext. }
  rewrite collect_tracked_values_reloc.
  destruct (collect_tracked_values info.*1) as [tv|e]; [|done]. cbn.
  apply foldM_reloc. intros s v. apply merge_value_reloc.
Qed.


(** *** The scan *)

Implicit Types (i : InstructionData) (following : list InstructionData).

Lemma isa_PHINode_reloc i : isa_PHINode (reloc_inst relocate i) = isa_PHINode i.
Proof. unfold isa_PHINode. simpl. by destruct (opcode i). Qed.

Lemma isa_InvokeInst_reloc i : isa_InvokeInst (reloc_inst relocate i) = isa_InvokeInst i.
Proof. unfold isa_InvokeInst. simpl. by destruct (opcode i). Qed.

Lemma isa_UnreachableInst_reloc i :
  isa_UnreachableInst (reloc_inst relocate i) = isa_UnreachableInst i.
Proof. unfold isa_UnreachableInst. simpl. by destruct (opcode i). Qed.

Lemma isTerminator_reloc i : isTerminator (reloc_inst relocate i) = isTerminator i.
Proof. unfold isTerminator. simpl. by destruct (opcode i). Qed.

Lemma is_block_terminator_reloc i following :
  is_block_terminator (reloc_inst relocate i) (reloc_inst relocate <$> following)
  = is_block_terminator i following.
Proof. destruct following; [apply isTerminator_reloc | reflexivity]. Qed.

Lemma next_non_phi_reloc following :
  next_non_phi (reloc_inst relocate <$> following)
  = result_map relocate (next_non_phi following).
Proof.
  induction following as [|i l IH]; [done|]. cbn [fmap list_fmap next_non_phi].
  rewrite isa_PHINode_reloc. by destruct (isa_PHINode i).
Qed.

Lemma getNextNode_reloc following :
  getNextNode (reloc_inst relocate <$> following) = relocate <$> getNextNode following.
Proof. by destruct following. Qed.

Lemma adjust_definition_reloc inst (pt : option Instruction) (ibb ifrom : option BasicBlock)
      state :
  adjust_definition (reloc_tracker relocate rt) (relocate inst) (relocate <$> pt)
                    (relocate <$> ibb) (relocate <$> ifrom) (reloc_state relocate state)
  = result_map (reloc_state relocate) (adjust_definition rt inst pt ibb ifrom state).
Proof.
  unfold adjust_definition.
  rewrite vars_lookup_reloc, defining_refs_reloc.
  cbn [ending_refs reloc_state]. rewrite subscript_reloc.
  destruct (Z.ltb _ _).
  - destruct (RefType_eqb _ _); [|done].
    cbn [result_map assert_ mbind result_bind rbind].
    by rewrite <-reloc_state_push_decref.
  - cbn [result_map]. by rewrite <-reloc_state_push_incref.
Qed.

Lemma scan_definition_reloc i following state :
  scan_definition (reloc_tracker relocate rt) (reloc_inst relocate i)
                  (reloc_inst relocate <$> following) (reloc_state relocate state)
  = result_map (reloc_state relocate) (scan_definition rt i following state).
Proof.
  unfold scan_definition. rewrite isa_InvokeInst_reloc.
  cbn [addr reloc_inst]. rewrite vars_count_reloc.
  destruct (negb _ && _); [|done].
  cbn [ending_refs reloc_state]. rewrite touch_reloc, reloc_state_set_ending_refs.
  set (s1 := set_ending_refs state _).
  cbn [ending_refs reloc_state]. rewrite subscript_reloc, defining_refs_reloc.
  destruct (negb _).
  - rewrite is_block_terminator_reloc.
    destruct (negb (is_block_terminator i following)); [|done].
    cbn [assert_ mbind result_bind rbind]. rewrite next_non_phi_reloc.
    destruct (next_non_phi following) as [pt|e]; [|done].
    cbn [result_map mbind result_bind rbind].
    pose proof (adjust_definition_reloc (addr i) (Some pt) None None s1) as Ha.
    cbn [fmap option_fmap option_map] in Ha. rewrite Ha.
    destruct (adjust_definition rt (addr i) (Some pt) None None s1) as [s2|e]; [|done].
    cbn [result_map mbind result_bind rbind ending_refs reloc_state].
    rewrite erase_reloc.
    by destruct (OrderedMap.erase (addr i) (ending_refs s2)).
  - cbn [mbind result_bind rbind ending_refs reloc_state]. rewrite erase_reloc.
    by destruct (OrderedMap.erase (addr i) (ending_refs s1)).
Qed.

Lemma flush_step_reloc following (acc : RefState * list Value) (idx : nat) :
  flush_step (reloc_tracker relocate rt) (reloc_inst relocate <$> following)
             (reloc_state relocate acc.1, relocate <$> acc.2) idx
  = result_map (λ acc, (reloc_state relocate acc.1, relocate <$> acc.2))
               (flush_step rt following acc idx).
Proof.
  destruct acc as [state te]. unfold flush_step. cbn [fst snd ending_refs reloc_state].
  rewrite deref_reloc.
  destruct (OrderedMap.deref (ending_refs state) idx) as [[k x]|e]; [|done].
  cbn [result_map mbind result_bind rbind prod_map fst snd id].
  rewrite defining_refs_reloc, vars_lookup_reloc, getNextNode_reloc.
  f_equal. f_equal.
  - destruct (Z.ltb _ _).
    + rewrite <-reloc_state_set_ending_refs. cbn [ending_refs push_incref reloc_state].
      rewrite <-assign_reloc. by rewrite <-reloc_state_push_incref.
    + rewrite <-reloc_state_set_ending_refs. by rewrite <-assign_reloc.
  - destruct (Z.eqb _ _); [|done]. by rewrite fmap_app.
Qed.

Lemma erase_step_reloc state v :
  erase_step (reloc_state relocate state) (relocate v)
  = result_map (reloc_state relocate) (erase_step state v).
Proof.
  unfold erase_step. cbn [ending_refs reloc_state]. rewrite erase_reloc.
  by destruct (OrderedMap.erase v (ending_refs state)).
Qed.

Lemma scan_flush_reloc i following state :
  scan_flush (reloc_tracker relocate rt) (reloc_inst relocate i)
             (reloc_inst relocate <$> following) (reloc_state relocate state)
  = result_map (reloc_state relocate) (scan_flush rt i following state).
Proof.
  unfold scan_flush. cbn [addr reloc_inst]. rewrite may_throw_count_reloc.
  destruct (may_throw_count rt (addr i)); [|done].
  cbn [ending_refs reloc_state]. rewrite size_reloc.
  destruct (OrderedMap.size (ending_refs state)) as [n|e]; [|done].
  cbn [mbind result_bind rbind].
  pose proof (foldM_reloc id (λ acc : RefState * list Value,
                                (reloc_state relocate acc.1, relocate <$> acc.2))
                (flush_step rt following)
                (flush_step (reloc_tracker relocate rt) (reloc_inst relocate <$> following))
                (seq 0 n) (state, [])) as Hf.
  rewrite list_fmap_id in Hf. cbn [fst snd fmap list_fmap] in Hf.
  rewrite Hf by (intros acc idx; apply flush_step_reloc).
  destruct (foldM (flush_step rt following) (seq 0 n) (state, [])) as [[s1 te]|e];
    [|done].
  cbn [result_map mbind result_bind rbind fst snd].
  apply foldM_reloc. intros s v. apply erase_step_reloc.
Qed.


Lemma small_get_reloc (c : SmallOrderedMap.t) k :
  SmallOrderedMap.get ((reloc_small relocate) c) (relocate k) = SmallOrderedMap.get c k.
Proof.
  induction c as [|[k' x] c IH]; [done|].
  cbn [reloc_small fmap list_fmap SmallOrderedMap.get prod_map fst snd id].
  rewrite Pos_eqb_reloc. destruct (Pos.eqb k' k); [done|]. apply IH.
Qed.

Lemma small_update_reloc (g : Z -> Z) k (c : SmallOrderedMap.t) :
  SmallOrderedMap.update g (relocate k) ((reloc_small relocate) c)
  = (reloc_small relocate) (SmallOrderedMap.update g k c).
Proof.
  induction c as [|[k' x] c IH]; [done|].
  cbn [reloc_small fmap list_fmap SmallOrderedMap.update prod_map fst snd id].
  rewrite Pos_eqb_reloc. destruct (Pos.eqb k' k); [done|].
  cbn [fmap list_fmap prod_map fst snd id]. f_equal. apply IH.
Qed.

Lemma count_consumed_step_reloc (acc : SmallOrderedMap.t * SmallOrderedMap.t) v :
  count_consumed_step (reloc_tracker relocate rt)
                      ((reloc_small relocate) acc.1, (reloc_small relocate) acc.2) (relocate v)
  = result_map (λ acc, ((reloc_small relocate) acc.1, (reloc_small relocate) acc.2))
               (count_consumed_step rt acc v).
Proof.
  unfold count_consumed_step. cbn [fst snd].
  rewrite vars_count_reloc, vars_lookup_reloc.
  destruct (_ && _); [|done]. cbn [assert_ mbind result_bind rbind result_map fst snd].
  unfold SmallOrderedMap.incr, SmallOrderedMap.touch.
  by rewrite !small_update_reloc.
Qed.

Lemma count_used_step_reloc (c : SmallOrderedMap.t) v :
  count_used_step (reloc_tracker relocate rt) ((reloc_small relocate) c) (relocate v)
  = result_map (reloc_small relocate) (count_used_step rt c v).
Proof.
  unfold count_used_step. rewrite vars_lookup_reloc.
  destruct (negb _); [|done]. cbn [assert_ mbind result_bind rbind result_map].
  unfold SmallOrderedMap.incr. by rewrite small_update_reloc.
Qed.

Lemma count_operand_step_reloc (c : SmallOrderedMap.t) v :
  count_operand_step (reloc_tracker relocate rt) ((reloc_small relocate) c) (relocate v)
  = (reloc_small relocate) (count_operand_step rt c v).
Proof.
  unfold count_operand_step. rewrite vars_count_reloc.
  destruct (vars_count rt v); [|done].
  unfold SmallOrderedMap.incr. by rewrite small_update_reloc.
Qed.

Lemma count_uses_reloc i :
  count_uses (reloc_tracker relocate rt) (reloc_inst relocate i)
  = result_map (λ acc, ((reloc_small relocate) acc.1, (reloc_small relocate) acc.2)) (count_uses rt i).
Proof.
  unfold count_uses. cbn [addr operands reloc_inst].
  rewrite refs_consumed_reloc, refs_used_reloc.
  pose proof (foldM_reloc relocate (λ acc : SmallOrderedMap.t * SmallOrderedMap.t,
                                      ((reloc_small relocate) acc.1, (reloc_small relocate) acc.2))
                (count_consumed_step rt)
                (count_consumed_step (reloc_tracker relocate rt))
                (default [] (refs_consumed rt !! addr i)) ([], [])) as Hc.
  cbn [fst snd reloc_small fmap list_fmap] in Hc.
  rewrite Hc by (intros acc v; apply count_consumed_step_reloc).
  destruct (foldM (count_consumed_step rt) _ _) as [[nc nt]|e]; [|done].
  cbn [result_map mbind result_bind rbind fst snd].
  rewrite (foldM_reloc relocate (reloc_small relocate) (count_used_step rt))
    by (intros c v; apply count_used_step_reloc).
  destruct (foldM (count_used_step rt) _ _) as [nt'|e]; [|done].
  cbn [result_map mbind result_bind rbind fst snd]. do 2 f_equal.
  apply fold_left_reloc. intros c v. apply count_operand_step_reloc.
Qed.

Lemma plan_last_use_reloc bb i following op state :
  plan_last_use (reloc_tracker relocate rt) (relocate bb) (reloc_inst relocate i)
                (reloc_inst relocate <$> following) (relocate op)
                (reloc_state relocate state)
  = result_map (reloc_state relocate) (plan_last_use rt bb i following op state).
Proof.
  unfold plan_last_use. rewrite vars_lookup_reloc, is_block_terminator_reloc.
  cbn [addr opcode reloc_inst]. rewrite may_throw_count_reloc.
  destruct (opcode i) eqn:Hop; cbn [reloc_opcode];
    try (destruct (negb (is_block_terminator i following)); [|done];
         cbn [assert_ mbind result_bind rbind];
         destruct following as [|next rest]; [done|];
         cbn [fmap list_fmap]; rewrite isa_UnreachableInst_reloc;
         destruct (isa_UnreachableInst next);
         [by destruct (may_throw_count rt (addr i))|];
         cbn [result_map addr reloc_inst];
         by rewrite <-reloc_state_push_decref).
  cbn [result_map]. by rewrite <-!reloc_state_push_decref.
Qed.

Lemma keep_alive_step_reloc bb i following (nc : SmallOrderedMap.t) state (p : Value * Z) :
  keep_alive_step (reloc_tracker relocate rt) (relocate bb) (reloc_inst relocate i)
                  (reloc_inst relocate <$> following) ((reloc_small relocate) nc)
                  (reloc_state relocate state) (prod_map relocate id p)
  = result_map (reloc_state relocate)
               (keep_alive_step rt bb i following nc state p).
Proof.
  unfold keep_alive_step. destruct p as [op x]. cbn [prod_map fst snd id].
  rewrite small_get_reloc, isOwned_reloc.
  destruct (_ && _); [|done].
  cbn [ending_refs reloc_state]. rewrite touch_reloc, reloc_state_set_ending_refs.
  set (s1 := set_ending_refs state _).
  cbn [ending_refs reloc_state]. rewrite subscript_reloc.
  destruct (Z.eqb _ _); [|done].
  rewrite plan_last_use_reloc.
  destruct (plan_last_use rt bb i following op s1) as [s2|e]; [|done].
  cbn [result_map mbind result_bind rbind ending_refs reloc_state].
  by rewrite assign_reloc.
Qed.

Lemma expand_refs_reloc (ps : list (Value * Z)) :
  expand_refs (prod_map relocate id <$> ps) = relocate <$> expand_refs ps.
Proof.
  unfold expand_refs. induction ps as [|[k x] ps IH]; [done|].
  cbn [fmap list_fmap flat_map prod_map fst snd id]. rewrite fmap_app, IH. f_equal.
  induction (Z.to_nat x) as [|n IHn]; [done|]. simpl. by rewrite IHn.
Qed.

Lemma scan_fixup_reloc i state :
  scan_fixup (reloc_tracker relocate rt) (reloc_inst relocate i)
             (reloc_state relocate state)
  = result_map (reloc_state relocate) (scan_fixup rt i state).
Proof.
  unfold scan_fixup. cbn [addr reloc_inst]. rewrite may_throw_count_reloc.
  destruct (may_throw_count rt (addr i)); [|done].
  cbn [ending_refs reloc_state]. rewrite items_reloc.
  destruct (OrderedMap.items (ending_refs state)) as [ps|e]; [|done].
  cbn [result_map mbind result_bind rbind].
  rewrite !capture_refs_spec, expand_refs_reloc, !app_nil_l.
  assert (forallb (vars_count (reloc_tracker relocate rt)) (relocate <$> expand_refs ps)
          = forallb (vars_count rt) (expand_refs ps)) as ->.
  { induction (expand_refs ps) as [|v vs IH]; [done|].
    cbn [fmap list_fmap forallb]. by rewrite vars_count_reloc, IH. }
  destruct (forallb _ _); [|done].
  cbn [result_map mbind result_bind rbind].
  destruct (expand_refs ps) as [|v vs] eqn:Hexp; [done|].
  cbn [fmap list_fmap result_map]. by rewrite <-reloc_state_push_fixup.
Qed.

Lemma stolen_step_reloc (nc : SmallOrderedMap.t) state (p : Value * Z) :
  stolen_step ((reloc_small relocate) nc) (reloc_state relocate state) (prod_map relocate id p)
  = reloc_state relocate (stolen_step nc state p).
Proof.
  unfold stolen_step. destruct p as [op x]. cbn [prod_map fst snd id].
  rewrite small_get_reloc. destruct (negb _); [|done].
  cbn [ending_refs reloc_state].
  by rewrite touch_reloc, subscript_reloc, assign_reloc.
Qed.

Lemma scan_instruction_reloc bb state (it : InstructionData * list InstructionData) :
  scan_instruction (reloc_tracker relocate rt) (relocate bb)
                   (reloc_state relocate state) ((reloc_it relocate) it)
  = result_map (reloc_state relocate) (scan_instruction rt bb state it).
Proof.
  destruct it as [i following]. unfold scan_instruction, reloc_it. cbn [fst snd].
  rewrite scan_definition_reloc.
  destruct (scan_definition rt i following state) as [s1|e]; [|done].
  cbn [result_map mbind result_bind rbind]. rewrite isa_PHINode_reloc.
  destruct (isa_PHINode i); [done|].
  rewrite scan_flush_reloc.
  destruct (scan_flush rt i following s1) as [s2|e]; [|done].
  cbn [result_map mbind result_bind rbind]. rewrite count_uses_reloc.
  destruct (count_uses rt i) as [[nc nt]|e]; [|done].
  cbn [result_map mbind result_bind rbind fst snd].
  change (reloc_small relocate nt) with (prod_map relocate id <$> nt).
  rewrite (foldM_reloc (prod_map relocate id) (reloc_state relocate)
             (keep_alive_step rt bb i following nc))
    by (intros s p; apply keep_alive_step_reloc).
  destruct (foldM (keep_alive_step rt bb i following nc) nt s2) as [s3|e]; [|done].
  cbn [result_map mbind result_bind rbind]. rewrite scan_fixup_reloc.
  destruct (scan_fixup rt i s3) as [s4|e]; [|done].
  cbn [result_map mbind result_bind rbind]. f_equal.
  apply (fold_left_reloc (prod_map relocate id) (reloc_state relocate)).
  intros s p. apply stolen_step_reloc.
Qed.

Lemma with_following_reloc (l : list InstructionData) :
  with_following (reloc_inst relocate <$> l) = (reloc_it relocate) <$> with_following l.
Proof.
  induction l as [|i l IH]; [done|]. cbn [fmap list_fmap with_following].
  by rewrite IH.
Qed.

Lemma scan_block_reloc (b : BasicBlockData) state :
  scan_block (reloc_tracker relocate rt) (reloc_block relocate b)
             (reloc_state relocate state)
  = result_map (reloc_state relocate) (scan_block rt b state).
Proof.
  unfold scan_block. cbn [bb_addr bb_insts reloc_block].
  rewrite with_following_reloc, rev_fmap.
  apply foldM_reloc. intros s it. apply scan_instruction_reloc.
Qed.


(** *** Invokes and the entry block *)

Variables classof classof' : Value -> ValueClass.
Hypothesis classof_reloc : ∀ v, classof' (relocate v) = classof v.
Variable f : Function.

Lemma collect_invokes_reloc :
  collect_invokes (reloc_tracker relocate rt) (reloc_function relocate f)
  = (reloc_invoke relocate) <$> collect_invokes rt f.
Proof.
  unfold collect_invokes. cbn [fn_blocks reloc_function].
  induction (fn_blocks f) as [|b bs IH]; [done|].
  cbn [fmap list_fmap flat_map]. rewrite fmap_app, IH. f_equal.
  cbn [bb_insts bb_addr reloc_block].
  induction (bb_insts b) as [|i l IHl]; [done|].
  cbn [fmap list_fmap omap list_omap addr reloc_inst].
  rewrite vars_count_reloc, isa_InvokeInst_reloc, IHl.
  by destruct (_ && _).
Qed.

Lemma invoke_step_reloc bb state (ii : InstructionData * BasicBlock) :
  invoke_step (reloc_tracker relocate rt) (relocate bb) (reloc_state relocate state)
              ((reloc_invoke relocate) ii)
  = result_map (reloc_state relocate) (invoke_step rt bb state ii).
Proof.
  unfold invoke_step. destruct ii as [i parent]. cbn [reloc_invoke fst snd opcode reloc_inst].
  destruct (opcode i) eqn:Hop; cbn [reloc_opcode]; try done.
  rewrite Pos_eqb_reloc. destruct (Pos.eqb _ bb); [|done].
  cbn [addr reloc_inst ending_refs reloc_state].
  rewrite touch_reloc, reloc_state_set_ending_refs.
  set (s1 := set_ending_refs state _).
  cbn [ending_refs reloc_state]. rewrite subscript_reloc, defining_refs_reloc.
  destruct (negb _).
  - pose proof (adjust_definition_reloc (addr i) None (Some bb) (Some parent) s1) as Ha.
    cbn [fmap option_fmap option_map] in Ha. rewrite Ha.
    destruct (adjust_definition rt (addr i) None (Some bb) (Some parent) s1) as [s2|e];
      [|done].
    cbn [result_map mbind result_bind rbind ending_refs reloc_state].
    rewrite erase_reloc. by destruct (OrderedMap.erase (addr i) (ending_refs s2)).
  - cbn [mbind result_bind rbind ending_refs reloc_state]. rewrite erase_reloc.
    by destruct (OrderedMap.erase (addr i) (ending_refs s1)).
Qed.

Lemma is_argument_reloc v :
  is_argument (reloc_function relocate f) (relocate v) = is_argument f v.
Proof.
  unfold is_argument. cbn [fn_args reloc_function].
  induction (fn_args f) as [|a l IH]; [done|].
  cbn [fmap list_fmap existsb]. by rewrite Pos_eqb_reloc, IH.
Qed.

Lemma entry_step_reloc bb state (p : Value * Z) :
  entry_step classof' (reloc_tracker relocate rt) (reloc_function relocate f)
             (relocate bb) (reloc_state relocate state) (prod_map relocate id p)
  = result_map (reloc_state relocate) (entry_step classof rt f bb state p).
Proof.
  unfold entry_step. destruct p as [v x]. cbn [prod_map fst snd id].
  destruct (negb (x =? 0)); [|done]. cbn [assert_ mbind result_bind rbind].
  rewrite classof_reloc, is_argument_reloc, vars_lookup_reloc.
  destruct (_ && _).
  - destruct (is_argument f v); [|done]. cbn [assert_ mbind result_bind rbind].
    destruct (RefType_eqb _ _); [|done]. cbn [assert_ mbind result_bind rbind result_map].
    by rewrite <-reloc_state_push_incref.
  - cbn [mbind result_bind rbind].
    destruct (RefType_eqb _ _); [|done]. cbn [assert_ mbind result_bind rbind result_map].
    by rewrite <-reloc_state_push_incref.
Qed.

Lemma is_entry_block_reloc bb :
  is_entry_block (reloc_function relocate f) (relocate bb) = is_entry_block f bb.
Proof.
  unfold is_entry_block. cbn [fn_blocks reloc_function].
  destruct (fn_blocks f) as [|b bs]; [done|].
  cbn [fmap list_fmap bb_addr reloc_block]. apply Pos_eqb_reloc.
Qed.

Lemma finish_entry_reloc bb state :
  finish_entry classof' (reloc_tracker relocate rt) (reloc_function relocate f)
               (relocate bb) (reloc_state relocate state)
  = result_map (reloc_state relocate) (finish_entry classof rt f bb state).
Proof.
  unfold finish_entry. rewrite is_entry_block_reloc.
  destruct (is_entry_block f bb); [|done].
  cbn [ending_refs reloc_state]. rewrite items_reloc.
  destruct (OrderedMap.items (ending_refs state)) as [ps|e]; [|done].
  cbn [result_map mbind result_bind rbind].
  rewrite (foldM_reloc (prod_map relocate id) (reloc_state relocate)
             (entry_step classof rt f bb))
    by (intros s p; apply entry_step_reloc).
  destruct (foldM (entry_step classof rt f bb) ps state) as [s1|e]; [|done].
  reflexivity.
Qed.

(** *** A block, and the worklist *)

Variable bbg : BBGraph.

Lemma reloc_state0 : reloc_state relocate RefState0 = RefState0.
Proof. unfold reloc_state, RefState0. cbn. by rewrite !reloc_map_empty. Qed.

Lemma state_at_reloc (states : list RefState) idx :
  state_at (reloc_state relocate <$> states) idx
  = reloc_state relocate (state_at states idx).
Proof.
  unfold state_at. rewrite list_lookup_fmap.
  destruct (states !! idx); [done|]. symmetry. apply reloc_state0.
Qed.

Lemma process_block_reloc idx (states : list RefState) :
  process_block classof' (reloc_tracker relocate rt) (reloc_function relocate f)
                (reloc_bbg relocate bbg) idx (reloc_state relocate <$> states)
  = result_map (λ r, (reloc_state relocate <$> r.1, r.2))
               (process_block classof rt f bbg idx states).
Proof.
  unfold process_block. cbn [fn_blocks reloc_function].
  rewrite list_lookup_fmap. destruct (fn_blocks f !! idx) as [b|]; [|done].
  cbn [fmap option_fmap option_map bb_addr reloc_block].
  rewrite !state_at_reloc. cbn [been_run ending_refs reloc_state].
  set (cleared := {| been_run := true; starting_refs := OrderedMap.empty;
                     ending_refs := OrderedMap.empty; increfs := []; decrefs := [];
                     cxx_fixups := [] |}).
  assert (Hcl : reloc_state relocate cleared = cleared) by reflexivity.
  assert (Hst : <[idx := cleared]> (reloc_state relocate <$> states)
                = reloc_state relocate <$> <[idx := cleared]> states).
  { by rewrite list_fmap_insert, Hcl. }
  rewrite Hst. clear Hst.
  set (states1 := <[idx := cleared]> states).
  assert (Hsucc :
    List.filter (λ sidx, been_run (state_at (reloc_state relocate <$> states1) sidx))
                (succs_of (reloc_bbg relocate bbg) idx)
    = List.filter (λ sidx, been_run (state_at states1 sidx)) (succs_of bbg idx)).
  { apply filter_ext. intros sidx. by rewrite state_at_reloc. }
  rewrite Hsucc. set (succs := List.filter _ (succs_of bbg idx)).
  assert (Hinfo :
    mapM_result
      (λ sidx, match bbs (reloc_bbg relocate bbg) !! sidx with
               | Some sbb =>
                   Ok (ending_refs (state_at (reloc_state relocate <$> states1) sidx), sbb)
               | None => Err (UndefinedBehaviour "bbg.bbs[sidx] out of range")
               end) succs
    = result_map (fmap (reloc_info relocate))
        (mapM_result
           (λ sidx, match bbs bbg !! sidx with
                    | Some sbb => Ok (ending_refs (state_at states1 sidx), sbb)
                    | None => Err (UndefinedBehaviour "bbg.bbs[sidx] out of range")
                    end) succs)).
  { rewrite <-(list_fmap_id succs) at 1.
    apply (mapM_result_reloc id (reloc_info relocate)). intros sidx.
    cbn [bbs reloc_bbg id]. rewrite list_lookup_fmap, state_at_reloc.
    by destruct (bbs bbg !! sidx). }
  rewrite Hinfo. clear Hinfo. set (r := mapM_result _ succs).
  clearbody r. destruct r as [info|e]; [|reflexivity].
  cbn [result_map mbind result_bind rbind].
  rewrite <-Hcl at 1. rewrite merge_successors_reloc.
  destruct (merge_successors rt (bb_addr b) info cleared) as [s1|e]; [|done].
  cbn [result_map mbind result_bind rbind starting_refs reloc_state].
  rewrite reloc_state_set_ending_refs, scan_block_reloc.
  destruct (scan_block rt b (set_ending_refs s1 (starting_refs s1))) as [s2|e]; [|done].
  cbn [result_map mbind result_bind rbind].
  rewrite collect_invokes_reloc.
  rewrite (foldM_reloc (reloc_invoke relocate) (reloc_state relocate) (invoke_step rt (bb_addr b)))
    by (intros s ii; apply invoke_step_reloc).
  destruct (foldM (invoke_step rt (bb_addr b)) (collect_invokes rt f) s2) as [s3|e];
    [|done].
  cbn [result_map mbind result_bind rbind]. rewrite finish_entry_reloc.
  destruct (finish_entry classof rt f (bb_addr b) s3) as [s4|e]; [|done].
  cbn [result_map mbind result_bind rbind ending_refs reloc_state].
  rewrite endingRefsDifferent_reloc.
  destruct (if negb (been_run (state_at states idx)) then Ok true
            else endingRefsDifferent (ending_refs (state_at states idx)) (ending_refs s4))
    as [changed|e]; [|done].
  cbn [result_map mbind result_bind rbind fst snd].
  by rewrite list_fmap_insert.
Qed.

Lemma solve_loop_reloc (fuel : nat) (orderer : BlockOrderer.t)
      (states : list RefState) (visited : list nat) :
  solve_loop classof' (reloc_tracker relocate rt) (reloc_function relocate f)
             (reloc_bbg relocate bbg) fuel orderer (reloc_state relocate <$> states)
             visited
  = result_map (reloc_solution relocate)
               (solve_loop classof rt f bbg fuel orderer states visited).
Proof.
  revert orderer states visited.
  induction fuel as [|fuel IH]; intros orderer states visited; [done|].
  cbn [solve_loop].
  destruct (BlockOrderer.pop orderer) as [[popped orderer1]|e]; [|done].
  cbn [mbind result_bind rbind].
  destruct popped as [idx|]; [|done].
  rewrite process_block_reloc.
  destruct (process_block classof rt f bbg idx states) as [[states1 changed]|e]; [|done].
  cbn [result_map mbind result_bind rbind fst snd]. apply IH.
Qed.

End Reloc.

(** *** The graph and the traversal order *)

Section TraversalShape.
Variable sort_by_count : list (nat * Z) -> list (nat * Z).
Variables bbg bbg' : BBGraph.
Hypothesis same_successors : successors bbg' = successors bbg.
Hypothesis same_predecessors : predecessors bbg' = predecessors bbg.
Hypothesis same_numBB : numBB bbg' = numBB bbg.

Lemma succs_of_shape idx : succs_of bbg' idx = succs_of bbg idx.
Proof. unfold succs_of. by rewrite same_successors. Qed.

Lemma preds_of_shape idx : preds_of bbg' idx = preds_of bbg idx.
Proof. unfold preds_of. by rewrite same_predecessors. Qed.

Lemma add_exit_shape t i : add_exit bbg' t i = add_exit bbg t i.
Proof. unfold add_exit. by rewrite succs_of_shape. Qed.

Lemma visit_predecessor_shape t pidx :
  visit_predecessor bbg' t pidx = visit_predecessor bbg t pidx.
Proof. unfold visit_predecessor. by rewrite succs_of_shape. Qed.

Lemma flood_shape fuel visit_queue visited :
  flood bbg' fuel visit_queue visited = flood bbg fuel visit_queue visited.
Proof.
  revert visit_queue visited. induction fuel as [|fuel IH]; intros q v.
  - by destruct q.
  - destruct q as [|idx rest]; [done|]. cbn [flood].
    rewrite succs_of_shape. apply IH.
Qed.

Lemma pick_best_shape acc p : pick_best bbg' acc p = pick_best bbg acc p.
Proof. unfold pick_best. by rewrite same_numBB, flood_shape. Qed.

Lemma break_cycle_shape t : break_cycle sort_by_count bbg' t = break_cycle sort_by_count bbg t.
Proof.
  unfold break_cycle. rewrite same_numBB.
  rewrite (foldM_ext_in (pick_best bbg) (pick_best bbg')); [done|].
  intros acc p _. apply pick_best_shape.
Qed.

Lemma traversal_loop_shape fuel t :
  traversal_loop sort_by_count bbg' fuel t = traversal_loop sort_by_count bbg fuel t.
Proof.
  revert t. induction fuel as [|fuel IH]; intros t.
  - cbn [traversal_loop]. by rewrite same_numBB.
  - cbn [traversal_loop]. rewrite same_numBB.
    destruct (Nat.ltb (length (ordering t)) (numBB bbg)); [|done].
    destruct (Nat.ltb _ _).
    + rewrite preds_of_shape.
      assert (∀ l t0, fold_left (visit_predecessor bbg') l t0
                      = fold_left (visit_predecessor bbg) l t0) as ->.
      { induction l as [|a l IHl]; intros t0; [done|]. cbn [fold_left].
        by rewrite visit_predecessor_shape, IHl. }
      apply IH.
    + rewrite break_cycle_shape.
      destruct (break_cycle sort_by_count bbg t); [|done]. cbn. apply IH.
Qed.

Lemma computeTraversalOrder_shape :
  computeTraversalOrder sort_by_count bbg' = computeTraversalOrder sort_by_count bbg.
Proof.
  unfold computeTraversalOrder. rewrite same_numBB, traversal_loop_shape.
  assert (∀ l t0, fold_left (add_exit bbg') l t0 = fold_left (add_exit bbg) l t0) as ->.
  { induction l as [|a l IHl]; intros t0; [done|]. cbn [fold_left].
    by rewrite add_exit_shape, IHl. }
  done.
Qed.

End TraversalShape.

Section RelocGraph.
Variable relocate : positive -> positive.
Context `{!Inj (=) (=) relocate}.

Lemma terminator_successors_reloc (i : InstructionData) :
  terminator_successors (reloc_inst relocate i) = relocate <$> terminator_successors i.
Proof.
  unfold terminator_successors. cbn [opcode reloc_inst].
  destruct (opcode i) as [| | | | | | s0 [s1|] | | | |]; done.
Qed.

Lemma getTerminator_reloc (b : BasicBlockData) :
  getTerminator (reloc_block relocate b) = reloc_inst relocate <$> getTerminator b.
Proof.
  unfold getTerminator. cbn [bb_insts reloc_block]. rewrite fmap_last.
  destruct (last (bb_insts b)) as [i|]; [|done].
  cbn [fmap option_fmap option_map]. rewrite (isTerminator_reloc relocate).
  by destruct (isTerminator i).
Qed.

Lemma succ_range_reloc (b : BasicBlockData) :
  succ_range (reloc_block relocate b) = relocate <$> succ_range b.
Proof.
  unfold succ_range. rewrite getTerminator_reloc.
  destruct (getTerminator b) as [i|]; [|done]. apply terminator_successors_reloc.
Qed.

Lemma idx_of_reloc (m : gmap positive nat) (b : BasicBlock) :
  idx_of (kmap (M2:=gmap positive) relocate m) (relocate b) = idx_of m b.
Proof. unfold idx_of. by rewrite (lookup_kmap relocate). Qed.

Lemma mkBBGraph_reloc (f : Function) :
  mkBBGraph (reloc_function relocate f) = reloc_bbg relocate (mkBBGraph f).
Proof.
  unfold mkBBGraph, reloc_bbg. cbn [fn_blocks reloc_function bb_idx bbs predecessors successors].
  assert (Hbbs : bb_addr <$> (reloc_block relocate <$> fn_blocks f)
                 = relocate <$> (bb_addr <$> fn_blocks f)).
  { rewrite <-!list_fmap_compose. by apply list_fmap_ext. }
  rewrite Hbbs.
  set (step := λ (acc : gmap positive nat * list positive) (b : positive),
                 (<[b := length acc.2]> acc.1, acc.2 ++ [b])).
  assert (Hidx : (fold_left step (relocate <$> (bb_addr <$> fn_blocks f)) (∅, [])).1
                 = kmap (M2:=gmap positive) relocate
                        (fold_left step (bb_addr <$> fn_blocks f) (∅, [])).1).
  { pose (gS := λ acc : gmap positive nat * list positive,
                  (kmap (M2:=gmap positive) relocate acc.1, relocate <$> acc.2)).
    change ((∅, []) : gmap positive nat * list positive) with (gS (∅, [])) at 1.
    rewrite (fold_left_reloc relocate gS step step); [done|].
    intros [m l] b. unfold step, gS. cbn [fst snd].
    by rewrite (kmap_insert relocate), length_fmap, fmap_app. }
  rewrite Hidx. f_equal.
  - rewrite <-list_fmap_compose. apply list_fmap_ext. intros _ b _.
    cbn [compose bb_preds reloc_block]. rewrite <-list_fmap_compose.
    apply list_fmap_ext. intros _ p _. apply idx_of_reloc.
  - rewrite <-list_fmap_compose. apply list_fmap_ext. intros _ b _.
    cbn [compose]. rewrite succ_range_reloc, <-list_fmap_compose.
    apply list_fmap_ext. intros _ p _. apply idx_of_reloc.
Qed.

End RelocGraph.

(** The solver commutes with the relocation of the addresses: the
    same visits, and the same summaries and plans entry by entry. *)
Lemma solver_is_deterministic (relocate : positive -> positive)
        (sort_by_count : list (nat * Z) -> list (nat * Z))
        (classof classof' : Value -> ValueClass) (rt : RefcountTracker)
        (f : Function) (fuel : nat) :
  Inj (=) (=) relocate →
  (∀ v, classof' (relocate v) = classof v) →
  solve sort_by_count classof' (reloc_tracker relocate rt)
        (reloc_function relocate f) fuel
  = result_map (reloc_solution relocate) (solve sort_by_count classof rt f fuel).
Proof.
  intros Hinj Hcls. unfold solve.
  rewrite (mkBBGraph_reloc relocate).
  rewrite (computeTraversalOrder_shape sort_by_count (mkBBGraph f)
             (reloc_bbg relocate (mkBBGraph f)))
    by (done || apply length_fmap).
  destruct (computeTraversalOrder sort_by_count (mkBBGraph f)) as [order|e]; [|done].
  cbn [mbind result_bind rbind fn_blocks reloc_function]. rewrite length_fmap.
  assert (Hinit : replicate (length (fn_blocks f)) RefState0
                  = reloc_state relocate <$> replicate (length (fn_blocks f)) RefState0).
  { by rewrite fmap_replicate. }
  rewrite Hinit at 1.
  by apply solve_loop_reloc.
Qed.

(** *** The walks of the mutator *)

Section RelocMutator.
Variable relocate : positive -> positive.
Context `{!Inj (=) (=) relocate}.
Variables alloc alloc' : nat -> positive.
Hypothesis alloc_reloc : ∀ n, alloc' n = relocate (alloc n).
Implicit Types (f : Function) (b : BasicBlockData) (i : InstructionData)
         (cache : InsertionCache).

#[local] Instance reloc_key_inj : Inj (=) (=) (reloc_key relocate).
Proof.
  intros [a [a'|]] [b [b'|]]; unfold reloc_key; cbn; intros [= H1 H2] || intros [= H1];
    try apply (inj relocate) in H1; try apply (inj relocate) in H2; by subst.
Qed.

Lemma lookup_reloc_cache cache (BB : BasicBlock) (from_bb : option BasicBlock) :
  reloc_cache relocate cache !! (relocate BB, relocate <$> from_bb)
  = relocate <$> cache !! (BB, from_bb).
Proof.
  unfold reloc_cache.
  change (relocate BB, relocate <$> from_bb) with (reloc_key relocate (BB, from_bb)).
  by rewrite (lookup_kmap (reloc_key relocate)), lookup_fmap.
Qed.

Lemma insert_reloc_cache cache (BB : BasicBlock) (from_bb : option BasicBlock)
      (pt : Instruction) :
  <[(relocate BB, relocate <$> from_bb) := relocate pt]> (reloc_cache relocate cache)
  = reloc_cache relocate (<[(BB, from_bb) := pt]> cache).
Proof.
  unfold reloc_cache.
  change (relocate BB, relocate <$> from_bb) with (reloc_key relocate (BB, from_bb)).
  by rewrite fmap_insert, (kmap_insert (reloc_key relocate)).
Qed.

Lemma find_reloc {A B} (g : A -> B) (p : A -> bool) (p' : B -> bool) (l : list A) :
  (∀ a, p' (g a) = p a) → List.find p' (g <$> l) = g <$> List.find p l.
Proof.
  intros Hp. induction l as [|a l IH]; [done|]. cbn [fmap list_fmap List.find].
  rewrite Hp. by destruct (p a).
Qed.

Lemma find_block_reloc f (BB : BasicBlock) :
  find_block (reloc_function relocate f) (relocate BB)
  = reloc_block relocate <$> find_block f BB.
Proof.
  unfold find_block. cbn [fn_blocks reloc_function]. apply find_reloc.
  intros b. cbn [bb_addr reloc_block]. apply (Pos_eqb_reloc relocate).
Qed.

Lemma numPredecessors_reloc b :
  numPredecessors (reloc_block relocate b) = numPredecessors b.
Proof. unfold numPredecessors. cbn [bb_preds reloc_block]. by rewrite length_fmap. Qed.

Lemma isa_LandingPadInst_reloc i :
  isa_LandingPadInst (reloc_inst relocate i) = isa_LandingPadInst i.
Proof. unfold isa_LandingPadInst. simpl. by destruct (opcode i). Qed.

Lemma isa_AllocaInst_reloc i :
  isa_AllocaInst (reloc_inst relocate i) = isa_AllocaInst i.
Proof. unfold isa_AllocaInst. simpl. by destruct (opcode i). Qed.

Lemma replace_first_reloc (from_block new_from : BasicBlock) (l : list BasicBlock) :
  replace_first (relocate from_block) (relocate new_from) (relocate <$> l)
  = relocate <$> replace_first from_block new_from l.
Proof.
  induction l as [|a l IH]; [done|]. cbn [fmap list_fmap replace_first].
  rewrite (Pos_eqb_reloc relocate). destruct (Pos.eqb a from_block); [done|].
  cbn [fmap list_fmap]. by rewrite IH.
Qed.

Lemma remapPhis_reloc (from_block new_from : BasicBlock) (l : list InstructionData) :
  remapPhis (relocate from_block) (relocate new_from) (reloc_inst relocate <$> l)
  = reloc_inst relocate <$> remapPhis from_block new_from l.
Proof.
  induction l as [|i l IH]; [done|]. destruct i as [a o ops].
  destruct o; try reflexivity.
  cbn [fmap list_fmap remapPhis opcode reloc_inst reloc_opcode].
  rewrite IH. f_equal.
  unfold set_opcode, reloc_inst. cbn. by rewrite replace_first_reloc.
Qed.


Lemma retarget_reloc (BB breaker_block : BasicBlock) (terminator : InstructionData) :
  retarget (relocate BB) (relocate breaker_block) (reloc_inst relocate terminator)
  = result_map (prod_map (reloc_inst relocate) id)
               (retarget BB breaker_block terminator).
Proof.
  unfold retarget. destruct terminator as [a o ops].
  destruct o as [| | | | |n u|s0 s1| | | |]; try reflexivity.
  - cbn [opcode reloc_inst reloc_opcode]. rewrite !(Pos_eqb_reloc relocate).
    destruct (negb (Pos.eqb u BB)); [|done].
    cbn [assert_ mbind result_bind rbind result_map prod_map fst snd id].
    by destruct (Pos.eqb n BB).
  - cbn [opcode reloc_inst reloc_opcode result_map prod_map fst snd id].
    rewrite (Pos_eqb_reloc relocate). destruct s1 as [s1|].
    + cbn [fmap option_fmap option_map]. rewrite (Pos_eqb_reloc relocate).
      by destruct (Pos.eqb s0 BB), (Pos.eqb s1 BB).
    + by destruct (Pos.eqb s0 BB).
Qed.

Lemma remove_uses_reloc (n : nat) (b : BasicBlock) (l : list BasicBlock) :
  remove_uses n (relocate b) (relocate <$> l) = relocate <$> remove_uses n b l.
Proof.
  revert n. induction l as [|a l IH]; intros n; [by destruct n|].
  destruct n as [|n]; [done|]. cbn [fmap list_fmap remove_uses].
  rewrite (Pos_eqb_reloc relocate). destruct (Pos.eqb a b); [apply IH|].
  cbn [fmap list_fmap]. by rewrite IH.
Qed.

Lemma removelast_fmap {A B} (g : A -> B) (l : list A) :
  removelast (g <$> l) = g <$> removelast l.
Proof.
  induction l as [|a l IH]; [done|]. cbn [fmap list_fmap removelast].
  destruct l as [|a' l]; [done|]. cbn [fmap list_fmap] in *. by rewrite IH.
Qed.

Lemma replace_last_reloc (l : list InstructionData) i :
  replace_last (reloc_inst relocate <$> l) (reloc_inst relocate i)
  = reloc_inst relocate <$> replace_last l i.
Proof. unfold replace_last. by rewrite removelast_fmap, fmap_app. Qed.

Lemma repeat_fmap {A B} (g : A -> B) (a : A) (n : nat) :
  repeat (g a) n = g <$> repeat a n.
Proof. induction n as [|n IH]; [done|]. simpl. by rewrite IH. Qed.

Lemma flat_map_reloc {A B A' B'} (gA : A -> A') (gB : B -> B')
      (h : A -> list B) (h' : A' -> list B') (l : list A) :
  (∀ a, h' (gA a) = gB <$> h a) →
  flat_map h' (gA <$> l) = gB <$> flat_map h l.
Proof.
  intros Hh. induction l as [|a l IH]; [done|].
  cbn [fmap list_fmap flat_map]. by rewrite Hh, IH, fmap_app.
Qed.

Lemma break_edge_reloc f b (from_bb : BasicBlock) :
  break_edge alloc' (reloc_function relocate f) (reloc_block relocate b)
             (relocate from_bb)
  = result_map (prod_map (reloc_function relocate) relocate)
               (break_edge alloc f b from_bb).
Proof.
  unfold break_edge. cbn [fn_created reloc_function bb_addr reloc_block].
  rewrite find_block_reloc, !alloc_reloc.
  destruct (find_block f from_bb) as [fb|]; [|done].
  cbn [fmap option_fmap option_map]. rewrite (getTerminator_reloc relocate).
  destruct (getTerminator fb) as [terminator|]; [|done].
  cbn [fmap option_fmap option_map]. rewrite retarget_reloc.
  destruct (retarget (bb_addr b) (alloc (fn_created f)) terminator)
    as [[terminator' moved]|e]; [|done].
  cbn [result_map mbind result_bind rbind prod_map fst snd id]. f_equal.
  unfold reloc_function at 3. cbn [fn_args fn_blocks fn_created].
  f_equal. f_equal. cbn [fn_blocks reloc_function].
  apply flat_map_reloc. intros d.
  cbn [bb_addr reloc_block]. rewrite !(Pos_eqb_reloc relocate).
  destruct (Pos.eqb (bb_addr d) from_bb).
  - unfold set_insts, set_preds. cbn [bb_addr bb_insts bb_preds reloc_block].
    rewrite (Pos_eqb_reloc relocate).
    destruct (Pos.eqb (bb_addr d) (bb_addr b)).
    + cbn [fmap list_fmap]. f_equal.
      * unfold reloc_block. cbn. by rewrite repeat_fmap.
      * f_equal. unfold reloc_block. cbn [bb_addr bb_insts bb_preds].
        by rewrite replace_last_reloc, remapPhis_reloc, remove_uses_reloc.
    + cbn [fmap list_fmap]. f_equal.
      unfold reloc_block. cbn [bb_addr bb_insts bb_preds].
      by rewrite replace_last_reloc.
  - cbn [bb_addr reloc_block]. rewrite (Pos_eqb_reloc relocate).
    destruct (Pos.eqb (bb_addr d) (bb_addr b)); [|reflexivity].
    cbn [fmap list_fmap]. f_equal.
    + unfold reloc_block. cbn. by rewrite repeat_fmap.
    + f_equal. unfold set_insts, set_preds, reloc_block. cbn [bb_addr bb_insts bb_preds].
      by rewrite remapPhis_reloc, remove_uses_reloc.
Qed.

Lemma findInsertionPoint_reloc (BB from_bb : option BasicBlock)
      (st : Function * InsertionCache) :
  findInsertionPoint alloc' (relocate <$> BB) (relocate <$> from_bb)
                     (reloc_mutation relocate st)
  = result_map (reloc_found relocate) (findInsertionPoint alloc BB from_bb st).
Proof.
  destruct st as [f cache]. unfold findInsertionPoint, reloc_mutation. cbn [fst snd].
  destruct BB as [BB|]; [|done]. cbn [fmap option_fmap option_map].
  assert (bool_decide (Some (relocate BB) = relocate <$> from_bb)
          = bool_decide (Some BB = from_bb)) as ->.
  { apply bool_decide_ext. destruct from_bb as [x|]; cbn; [|done]. split.
    - intros [= H%(inj relocate)]. by subst.
    - by intros [= ->]. }
  destruct (negb _); [|done]. cbn [assert_ mbind result_bind rbind].
  rewrite lookup_reloc_cache.
  destruct (cache !! (BB, from_bb)) as [pt|]; [done|].
  cbn [fmap option_fmap option_map]. rewrite find_block_reloc.
  destruct (find_block f BB) as [b|]; [|done].
  cbn [fmap option_fmap option_map]. rewrite numPredecessors_reloc.
  destruct (Z.ltb 1 (numPredecessors b)).
  - destruct from_bb as [from_bb|]; [|done]. cbn [fmap option_fmap option_map].
    rewrite break_edge_reloc.
    destruct (break_edge alloc f b from_bb) as [[f1 br]|e]; [|done].
    cbn [result_map mbind result_bind rbind prod_map fst snd].
    unfold reloc_found, reloc_mutation. cbn [fst snd]. do 3 f_equal.
    apply (insert_reloc_cache cache BB (Some from_bb) br).
  - cbn [bb_insts reloc_block].
    destruct (bb_insts b) as [|first rest] eqn:Hinsts; [done|].
    cbn [fmap list_fmap]. rewrite isa_LandingPadInst_reloc.
    destruct (isa_LandingPadInst first).
    + change (reloc_inst relocate first :: (reloc_inst relocate <$> rest))
        with (reloc_inst relocate <$> first :: rest).
      rewrite list_lookup_fmap.
      destruct ((first :: rest) !! 3%nat) as [i|]; [|done].
      cbn [fmap option_fmap option_map result_map addr reloc_inst].
      unfold reloc_found, reloc_mutation. cbn [fst snd]. do 3 f_equal.
      apply (insert_reloc_cache cache BB from_bb (addr i)).
    + change (reloc_inst relocate first :: (reloc_inst relocate <$> rest))
        with (reloc_inst relocate <$> first :: rest).
      rewrite (find_reloc (reloc_inst relocate)
                 (λ i, negb (isa_PHINode i) && negb (isa_AllocaInst i)))
        by (intros i; by rewrite (isa_PHINode_reloc relocate), isa_AllocaInst_reloc).
      destruct (List.find _ (first :: rest)) as [i|]; [|done].
      cbn [fmap option_fmap option_map result_map addr reloc_inst].
      unfold reloc_found, reloc_mutation. cbn [fst snd]. do 3 f_equal.
      apply (insert_reloc_cache cache BB from_bb (addr i)).
Qed.


Implicit Types (st : Function * InsertionCache) (op : RefOp) (state : RefState).

Lemma insertion_point_of_reloc op st :
  insertion_point_of alloc' (reloc_op relocate op) (reloc_mutation relocate st)
  = result_map (reloc_found relocate) (insertion_point_of alloc op st).
Proof.
  unfold insertion_point_of. cbn [insertion_inst insertion_bb insertion_from_bb reloc_op].
  destruct (insertion_inst op) as [pt|]; [done|]. apply findInsertionPoint_reloc.
Qed.

Lemma find_step_reloc st op :
  find_step alloc' (reloc_mutation relocate st) (reloc_op relocate op)
  = result_map (reloc_mutation relocate) (find_step alloc st op).
Proof.
  unfold find_step. rewrite insertion_point_of_reloc.
  by destruct (insertion_point_of alloc op st).
Qed.

Lemma find_in_state_reloc st state :
  find_in_state alloc' (reloc_mutation relocate st) (reloc_state relocate state)
  = result_map (reloc_mutation relocate) (find_in_state alloc st state).
Proof.
  unfold find_in_state. cbn [increfs decrefs reloc_state].
  rewrite (foldM_reloc (reloc_op relocate) (reloc_mutation relocate) (find_step alloc))
    by (intros; apply find_step_reloc).
  destruct (foldM (find_step alloc) (increfs state) st) as [st1|e]; [|done].
  cbn [result_map mbind result_bind rbind].
  apply foldM_reloc. intros. apply find_step_reloc.
Qed.

Lemma find_insertion_points_reloc (states : list RefState) st :
  find_insertion_points alloc' (reloc_state relocate <$> states)
                        (reloc_mutation relocate st)
  = result_map (reloc_mutation relocate) (find_insertion_points alloc states st).
Proof.
  unfold find_insertion_points. apply foldM_reloc. intros. apply find_in_state_reloc.
Qed.

End RelocMutator.

(** So far the pass does not look at addresses: the solver
    ([solver_is_deterministic]) and the search for the insertion points
    ([find_insertion_points_reloc]) commute with every injective
    relocation.  The IR that the emitters build is not modelled, and
    nothing is said here about it. *)


(** ** Invariant I1: the summaries hold no count below one *)

Lemma foldM_invariant {A S} (P : S -> Prop) (f : S -> A -> result S)
      (l : list A) (s s' : S) :
  (∀ s a s', a ∈ l → P s → f s a = Ok s' → P s') →
  P s → foldM f l s = Ok s' → P s'.
Proof.
  revert s. induction l as [|a l IH]; intros s Hf Hs Hfold.
  - by injection Hfold as <-.
  - cbn [foldM] in Hfold. rinv Hfold. eapply IH; [|eapply Hf; [left|..]|]; eauto.
    intros s1 a1 s2 Ha1. apply Hf. by right.
Qed.

Lemma fold_left_invariant {A S} (P : S -> Prop) (f : S -> A -> S) (l : list A) (s : S) :
  (∀ s a, a ∈ l → P s → P (f s a)) → P s → P (fold_left f l s).
Proof.
  revert s. induction l as [|a l IH]; intros s Hf Hs; [done|].
  cbn [fold_left]. apply IH; [|apply Hf; [left|done]].
  intros s1 a1 Ha1. apply Hf. by right.
Qed.

Lemma summary_ok_erase_touch (m m' : BlockMap) (k : Value) :
  summary_ok m → OrderedMap.erase k (touch k m) = Ok m' → summary_ok m'.
Proof.
  intros [Hwf Hpos] He. split.
  - eapply wf_erase; [|exact He]. by apply wf_touch.
  - intros v x Hx. unfold OrderedMap.erase in He.
    destruct (Nat.ltb _ _); [|done]. injection He as <-. simpl in Hx.
    apply lookup_delete_Some in Hx as [Hne Hx].
    rewrite touch_lookup_ne in Hx by done. by apply (Hpos v).
Qed.

Lemma summary_ok_assign_touch (m : BlockMap) (k : Value) (x : Z) :
  summary_ok m → 0 < x → summary_ok (assign k x (touch k m)).
Proof.
  intros [Hwf Hpos] Hx. split; [by apply wf_assign, wf_touch|].
  intros v y. destruct (decide (k = v)) as [<-|Hne].
  - rewrite assign_lookup. intros [= <-]. lia.
  - rewrite assign_lookup_ne, touch_lookup_ne by done. apply Hpos.
Qed.

Section Invariant.
Variable rt : RefcountTracker.
Implicit Types (m : BlockMap) (v : Value) (s st state : RefState)
         (info : list (BlockMap * BasicBlock)).

Lemma reconcile_step_keeps_refs bb v (min_refs : Z) s st (s_info : BlockMap * BasicBlock) :
  reconcile_step rt bb v min_refs s s_info = Ok st →
  starting_refs st = starting_refs s ∧ ending_refs st = ending_refs s.
Proof.
  unfold reconcile_step. destruct (Z.ltb min_refs _); [by intros [= <-]|].
  destruct (Z.ltb _ min_refs); [|by intros [= <-]].
  intros H. rinv H. by injection H as <-.
Qed.

Lemma merge_value_ok bb info s st v :
  Forall summary_ok info.*1 →
  summary_ok (starting_refs s) →
  merge_value rt bb info s v = Ok st →
  summary_ok (starting_refs st) ∧ ending_refs st = ending_refs s.
Proof.
  intros Hinfo Hok H. unfold merge_value in H. rinv H.
  assert (Hrefs : starting_refs a0 = starting_refs s ∧ ending_refs a0 = ending_refs s).
  { eapply (foldM_invariant
              (λ s1, starting_refs s1 = starting_refs s ∧ ending_refs s1 = ending_refs s));
      [|done|exact Ha0].
    intros s1 a1 s2 _ [Hs He] Hstep.
    apply reconcile_step_keeps_refs in Hstep as [-> ->]. by split. }
  destruct Hrefs as [Hs He].
  destruct (negb _) eqn:Hnz.
  - injection H as <-. simpl. split; [|done]. rewrite Hs.
    apply summary_ok_assign; [done|].
    apply negb_true_iff, Z.eqb_neq in Hnz.
    pose proof (min_refs_of_closed rt v info Hinfo) as Hc.
    pose proof (min_demand_nonneg v info Hinfo).
    unfold defining_refs in Hc. destruct (isOwned rt v); lia.
  - rinv H. injection H as <-. by rewrite Hs.
Qed.

Lemma merge_successors_ok bb info s st :
  Forall summary_ok info.*1 →
  summary_ok (starting_refs s) →
  merge_successors rt bb info s = Ok st →
  summary_ok (starting_refs st) ∧ ending_refs st = ending_refs s.
Proof.
  intros Hinfo Hok H. unfold merge_successors in H.
  destruct info as [|s0 info0] eqn:Hi; [by injection H as <-|]. rewrite <-Hi in *.
  rinv H.
  eapply (foldM_invariant
            (λ s1, summary_ok (starting_refs s1) ∧ ending_refs s1 = ending_refs s));
    [|done|exact H].
  intros s1 v s2 _ [Hs He] Hstep.
  apply merge_value_ok in Hstep as [? ->]; done.
Qed.

Lemma adjust_definition_keeps_refs inst pt ibb ifrom s st :
  adjust_definition rt inst pt ibb ifrom s = Ok st → ending_refs st = ending_refs s.
Proof.
  unfold adjust_definition. destruct (Z.ltb _ _).
  - intros H. rinv H. by injection H as <-.
  - by intros [= <-].
Qed.

Lemma scan_definition_ok i following s st :
  summary_ok (ending_refs s) →
  scan_definition rt i following s = Ok st →
  summary_ok (ending_refs st).
Proof.
  intros Hok H. unfold scan_definition in H.
  destruct (negb _ && _); [|by injection H as <-].
  cbn [ending_refs set_ending_refs] in H. rinv H. injection H as <-. simpl.
  assert (ending_refs a = touch (addr i) (ending_refs s)) as Ha'.
  { destruct (negb (Z.eqb _ _)).
    - rinv Ha. apply adjust_definition_keeps_refs in Ha. by rewrite Ha.
    - by injection Ha as <-. }
  rewrite Ha' in Ha0. by eapply summary_ok_erase_touch.
Qed.

Lemma plan_last_use_keeps_refs bb i following op s st :
  plan_last_use rt bb i following op s = Ok st → ending_refs st = ending_refs s.
Proof.
  unfold plan_last_use.
  destruct (opcode i); try (intros H; rinv H; destruct following as [|next rest];
    [done|]; destruct (isa_UnreachableInst next); [rinv H|]; by injection H as <-).
  by intros [= <-].
Qed.

Lemma keep_alive_step_ok bb i following (nc : SmallOrderedMap.t) s st (p : Value * Z) :
  summary_ok (ending_refs s) →
  keep_alive_step rt bb i following nc s p = Ok st →
  summary_ok (ending_refs st).
Proof.
  intros Hok H. unfold keep_alive_step in H.
  destruct (_ && _); [|by injection H as <-].
  cbn [ending_refs set_ending_refs] in H.
  destruct (Z.eqb_spec (subscript (touch p.1 (ending_refs s)) p.1) 0) as [Hz|Hnz].
  - rinv H. injection H as <-. cbn [ending_refs set_ending_refs].
    apply plan_last_use_keeps_refs in Ha. rewrite Ha. cbn [ending_refs set_ending_refs].
    by apply summary_ok_assign_touch.
  - injection H as <-. cbn [ending_refs set_ending_refs].
    rewrite subscript_touch in Hnz. unfold OrderedMap.touch, OrderedMap.count.
    unfold OrderedMap.subscript in Hnz.
    destruct (OrderedMap.map (ending_refs s) !! p.1); simpl in *; [done|lia].
Qed.


Lemma scan_flush_ok i following s st :
  summary_ok (ending_refs s) →
  scan_flush rt i following s = Ok st →
  summary_ok (ending_refs st).
Proof.
  intros [Hwf Hpos] H. destruct (may_throw_count rt (addr i)) eqn:Hthrow.
  - destruct (scan_flush_spec rt i following s Hthrow Hwf)
      as (st' & Hst & _ & Hmap & _ & _ & _ & _ & _ & Hwf').
    rewrite Hst in H. injection H as <-. split; [done|].
    intros v x. rewrite Hmap. destruct (OrderedMap.map (ending_refs s) !! v); [|done].
    destruct (isOwned rt v); [|done]. intros [= <-]. lia.
  - unfold scan_flush in H. rewrite Hthrow in H. by injection H as <-.
Qed.

Lemma scan_fixup_keeps_refs i s st :
  scan_fixup rt i s = Ok st → ending_refs st = ending_refs s.
Proof. by intros [->|[fx ->]]%scan_fixup_Ok. Qed.

Lemma small_update_ok (g : Z -> Z) (k : Value) (c : SmallOrderedMap.t) :
  (∀ x, 0 ≤ x → 0 ≤ g x) → counters_ok c → counters_ok (SmallOrderedMap.update g k c).
Proof.
  intros Hg. induction 1 as [|p c Hp Hc IH]; cbn [SmallOrderedMap.update].
  - constructor; [|constructor]. simpl. apply Hg. lia.
  - destruct (Pos.eqb p.1 k).
    + constructor; [|done]. simpl. by apply Hg.
    + by constructor.
Qed.

Lemma small_get_ok (c : SmallOrderedMap.t) (k : Value) :
  counters_ok c → 0 ≤ SmallOrderedMap.get c k.
Proof.
  induction 1 as [|p c Hp Hc IH]; cbn [SmallOrderedMap.get]; [lia|].
  by destruct (Pos.eqb p.1 k).
Qed.

Lemma count_uses_ok i (nc nt : SmallOrderedMap.t) :
  count_uses rt i = Ok (nc, nt) → counters_ok nc.
Proof.
  intros H. unfold count_uses in H. rinv H. injection H as <- _.
  eapply (foldM_invariant (λ acc, counters_ok acc.1)); [| |exact Ha].
  - intros acc v acc' _ Hacc Hstep. unfold count_consumed_step in Hstep.
    rinv Hstep. injection Hstep as <-. simpl.
    apply small_update_ok; [|done]. intros x. lia.
  - constructor.
Qed.

Lemma stolen_step_ok (nc : SmallOrderedMap.t) s (p : Value * Z) :
  counters_ok nc → summary_ok (ending_refs s) →
  summary_ok (ending_refs (stolen_step nc s p)).
Proof.
  intros Hnc Hok. unfold stolen_step.
  destruct (Z.eqb_spec (SmallOrderedMap.get nc p.1) 0) as [Hz|Hnz]; [done|].
  cbn [negb ending_refs set_ending_refs].
  apply summary_ok_assign_touch; [done|].
  pose proof (small_get_ok nc p.1 Hnc). rewrite subscript_touch.
  assert (0 ≤ subscript (ending_refs s) p.1); [|lia].
  unfold OrderedMap.subscript. destruct Hok as [_ Hpos].
  destruct (OrderedMap.map (ending_refs s) !! p.1) as [x|] eqn:Hx; simpl; [|lia].
  specialize (Hpos _ _ Hx). lia.
Qed.

Lemma scan_instruction_ok bb s st (it : InstructionData * list InstructionData) :
  summary_ok (ending_refs s) →
  scan_instruction rt bb s it = Ok st →
  summary_ok (ending_refs st).
Proof.
  intros Hok H. destruct it as [i following]. unfold scan_instruction in H.
  rinv H. apply scan_definition_ok in Ha; [|done].
  destruct (isa_PHINode i); [by injection H as <-|].
  rinv H. apply scan_flush_ok in Ha0; [|done].
  destruct a1 as [nc nt]. rinv H. injection H as <-.
  pose proof (count_uses_ok i nc nt Ha1) as Hnc.
  apply fold_left_invariant.
  { intros s1 p _ Hs1. by apply stolen_step_ok. }
  apply scan_fixup_keeps_refs in Ha3. rewrite Ha3.
  eapply (foldM_invariant (λ s1, summary_ok (ending_refs s1))); [|exact Ha0|exact Ha2].
  intros s1 p s2 _ Hs1 Hstep. by eapply keep_alive_step_ok.
Qed.

Lemma scan_block_ok (b : BasicBlockData) s st :
  summary_ok (ending_refs s) →
  scan_block rt b s = Ok st →
  summary_ok (ending_refs st).
Proof.
  intros Hok H. unfold scan_block in H.
  eapply (foldM_invariant (λ s1, summary_ok (ending_refs s1))); [|exact Hok|exact H].
  intros s1 it s2 _ Hs1 Hstep. by eapply scan_instruction_ok.
Qed.

Lemma invoke_step_ok bb s st (ii : InstructionData * BasicBlock) :
  summary_ok (ending_refs s) →
  invoke_step rt bb s ii = Ok st →
  summary_ok (ending_refs st).
Proof.
  intros Hok H. unfold invoke_step in H.
  destruct (opcode ii.1); try (by injection H as <-).
  destruct (Pos.eqb _ bb); [|by injection H as <-].
  cbn [ending_refs set_ending_refs] in H. rinv H. injection H as <-. simpl.
  assert (ending_refs a = touch (addr ii.1) (ending_refs s)) as Ha'.
  { destruct (negb (Z.eqb _ _)).
    - apply adjust_definition_keeps_refs in Ha. by rewrite Ha.
    - by injection Ha as <-. }
  rewrite Ha' in Ha0. by eapply summary_ok_erase_touch.
Qed.

End Invariant.

Section InvariantBlock.
Variable classof : Value -> ValueClass.
Variable rt : RefcountTracker.
Variable f : Function.
Variable bbg : BBGraph.

Lemma finish_entry_ok bb s st :
  summary_ok (ending_refs s) →
  finish_entry classof rt f bb s = Ok st →
  summary_ok (ending_refs st).
Proof.
  intros Hok H. unfold finish_entry in H.
  destruct (is_entry_block f bb); [|by injection H as <-].
  rinv H. injection H as <-. apply summary_ok_empty.
Qed.

Lemma state_at_ok (states : list RefState) idx :
  states_ok states → summary_ok (ending_refs (state_at states idx)).
Proof.
  intros Hok. unfold state_at. destruct (states !! idx) as [s|] eqn:Hs; simpl.
  - eapply Forall_lookup_1 in Hok; eauto.
  - apply summary_ok_empty.
Qed.

Lemma process_block_ok idx (states states' : list RefState) (changed : bool) :
  states_ok states →
  process_block classof rt f bbg idx states = Ok (states', changed) →
  states_ok states'.
Proof.
  intros Hok H. unfold process_block in H.
  destruct (fn_blocks f !! idx) as [b|]; [|done].
  cbv zeta in H.
  set (cleared := {| been_run := true; starting_refs := OrderedMap.empty;
                     ending_refs := OrderedMap.empty; increfs := []; decrefs := [];
                     cxx_fixups := [] |}) in H.
  assert (Hok1 : states_ok (<[idx := cleared]> states)).
  { apply Forall_insert; [done|]. apply summary_ok_empty. }
  rinv H. injection H as <- _.
  assert (Hinfo : Forall summary_ok a.*1).
  { clear -Ha Hok1. revert a Ha.
    induction (List.filter _ _) as [|sidx l IH]; intros a Ha.
    - by injection Ha as <-.
    - cbn [mapM_result] in Ha. rinv Ha. injection Ha as <-.
      destruct (bbs bbg !! sidx); [|done]. injection Ha0 as <-.
      cbn [fmap list_fmap fst]. constructor; [by apply state_at_ok|by apply IH]. }
  apply merge_successors_ok in Ha0 as [Hst _]; [|done|apply summary_ok_empty].
  apply scan_block_ok in Ha1; [|done].
  assert (Ha2' : summary_ok (ending_refs a2)).
  { eapply (foldM_invariant (λ s1, summary_ok (ending_refs s1))); [|exact Ha1|exact Ha2].
    intros s1 ii s2 _ Hs1 Hstep. by eapply invoke_step_ok. }
  apply finish_entry_ok in Ha3; [|done].
  by apply Forall_insert.
Qed.

Lemma solve_loop_ok fuel (orderer : BlockOrderer.t) (states states' : list RefState)
      (visited visited' : list nat) :
  states_ok states →
  solve_loop classof rt f bbg fuel orderer states visited = Ok (states', visited') →
  states_ok states'.
Proof.
  revert orderer states visited.
  induction fuel as [|fuel IH]; intros orderer states visited Hok H; [done|].
  cbn [solve_loop] in H. rinv H. destruct a as [popped orderer1].
  destruct popped as [idx|]; [|by injection H as <- _].
  rinv H. destruct a as [states1 changed].
  eapply IH; [|exact H]. by eapply process_block_ok.
Qed.

End InvariantBlock.

(** X15 (invariant I1 of the specification): when the solver has come to
    its fixed point, the summary of every block is a well-formed map
    without any count below one. *)
Theorem solver_keeps_counts_positive (sort_by_count : list (nat * Z) -> list (nat * Z))
        (classof : Value -> ValueClass) (rt : RefcountTracker) (f : Function)
        (fuel : nat) (states : list RefState) (visited : list nat) :
  solve sort_by_count classof rt f fuel = Ok (states, visited) →
  Forall (λ s, summary_ok (ending_refs s)) states.
Proof.
  intros H. unfold solve in H. rinv H.
  eapply solve_loop_ok; [|exact H].
  apply Forall_replicate. apply summary_ok_empty.
Qed.

(** * Further properties of the containers *)

Lemma filter_all_true_in {A} (f : A -> bool) (l : list A) :
  (∀ x, x ∈ l → f x = true) → List.filter f l = l.
Proof.
  induction l as [|a l IH]; intros Hf; simpl; [done|].
  rewrite Hf by left. f_equal. apply IH. intros x Hx. apply Hf. by right.
Qed.

Section OrderedMapApi.
Context {K : Type} `{Countable K} {V : Type}.
Variable V0 : V.
Implicit Types (m : OrderedMap.t K V) (k : K) (x : V).

(** X1: every operation of [OrderedMap] keeps the class invariant
    (the keys of [order] are those of [map], each once), so the
    assertion of [size()] holds for every map that the operations
    build. *)
Theorem OrderedMap_operations_keep_invariant m k x :
  OrderedMap.wf m →
  OrderedMap.wf (OrderedMap.touch V0 k m) ∧
  OrderedMap.wf (OrderedMap.assign V0 k x m) ∧
  OrderedMap.wf (OrderedMap.clear m) ∧
  (∀ m', OrderedMap.erase k m = Ok m' → OrderedMap.wf m') ∧
  OrderedMap.size m = Ok (length (OrderedMap.order m)).
Proof.
  intros Hwf. split_and!.
  - by apply wf_touch.
  - by apply wf_assign.
  - apply wf_empty.
  - intros m' Hm'. by eapply wf_erase.
  - by apply size_wf.
Qed.

(** X2: what [m[k] = x] stores is what [get] and [count] find: the
    key [k] now holds [x], and every other key is as it was. *)
Theorem OrderedMap_assign_then_get m k k' x :
  OrderedMap.get (OrderedMap.assign V0 k x m) k'
  = (if decide (k' = k) then Ok x else OrderedMap.get m k') ∧
  OrderedMap.count (OrderedMap.assign V0 k x m) k'
  = (if decide (k' = k) then 1%nat else OrderedMap.count m k').
Proof.
  unfold OrderedMap.get, OrderedMap.count.
  destruct (decide (k' = k)) as [->|Hne].
  - by rewrite assign_lookup.
  - by rewrite assign_lookup_ne.
Qed.

(** X3: [erase] of a key that is not in the map fails its assertion;
    a key that was just inserted is erased again without a trace: the
    map and the order of its keys are as before. *)
Theorem OrderedMap_erase_undoes_insertion m k x :
  OrderedMap.wf m →
  OrderedMap.count m k = 0%nat →
  OrderedMap.erase k m = Err (AssertionFailed "map.count(k)") ∧
  OrderedMap.erase k (OrderedMap.assign V0 k x m) = Ok m.
Proof.
  intros [Hnd Hdom] Hc. split.
  - unfold OrderedMap.erase. by rewrite Hc.
  - assert (Hk : OrderedMap.map m !! k = None).
    { apply count_zero. by rewrite Hc. }
    rewrite erase_Ok by (rewrite assign_lookup; eauto).
    unfold OrderedMap.assign, OrderedMap.touch. rewrite Hc. simpl.
    destruct m as [mp ord]; simpl in *. f_equal. f_equal.
    + rewrite insert_insert_eq, delete_insert_id; done.
    + rewrite List.filter_app. simpl.
      rewrite bool_decide_eq_true_2 by done. simpl. rewrite app_nil_r.
      apply filter_all_true_in. intros k' Hk'.
      rewrite negb_true_iff, bool_decide_eq_false. intros ->.
      apply Hdom in Hk'. rewrite Hk in Hk'. by destruct Hk'.
Qed.

(** X4: [erase] takes exactly the entry of its key out of the
    iteration sequence; the other entries keep their values and their
    order. *)
Theorem OrderedMap_erase_keeps_the_rest m m' k :
  OrderedMap.erase k m = Ok m' →
  OrderedMap.count m' k = 0%nat ∧
  OrderedMap.elements m'
  = List.filter (λ p, negb (bool_decide (p.1 = k))) (OrderedMap.elements m).
Proof.
  intros He. unfold OrderedMap.erase in He.
  destruct (0 <? OrderedMap.count m k)%nat; [|discriminate].
  injection He as <-. split.
  - unfold OrderedMap.count. simpl. by rewrite lookup_delete_eq.
  - unfold OrderedMap.elements. simpl.
    induction (OrderedMap.order m) as [|k' l IH]; simpl; [done|].
    destruct (decide (k' = k)) as [->|Hne].
    + rewrite bool_decide_eq_true_2 by done. simpl.
      destruct (OrderedMap.map m !! k) as [y|]; simpl; [|done].
      rewrite bool_decide_eq_true_2 by done. simpl. done.
    + rewrite bool_decide_eq_false_2 by done. simpl.
      rewrite lookup_delete_ne by done.
      destruct (OrderedMap.map m !! k') as [y|]; simpl; [|done].
      rewrite bool_decide_eq_false_2 by done. simpl. by f_equal.
Qed.

(** X5: the iteration sequence follows the order of first insertion:
    assigning to a key that is in the map changes its value in place,
    assigning to a new key appends the entry. *)
Theorem OrderedMap_assign_keeps_insertion_order m k x :
  OrderedMap.wf m →
  OrderedMap.elements (OrderedMap.assign V0 k x m)
  = if decide (is_Some (OrderedMap.map m !! k))
    then (λ p, if decide (p.1 = k) then (k, x) else p) <$> OrderedMap.elements m
    else OrderedMap.elements m ++ [(k, x)].
Proof.
  intros [Hnd Hdom]. destruct (decide (is_Some (OrderedMap.map m !! k))) as [Hk|Hk].
  - unfold OrderedMap.elements. rewrite assign_order_present by done.
    unfold OrderedMap.assign, OrderedMap.touch.
    destruct Hk as [y Hy]. unfold OrderedMap.count. rewrite Hy. simpl.
    clear Hnd Hdom. induction (OrderedMap.order m) as [|k' l IH]; simpl; [done|].
    destruct (decide (k' = k)) as [->|Hne].
    + rewrite lookup_insert_eq, Hy. simpl.
      rewrite decide_True by done. by f_equal.
    + rewrite lookup_insert_ne by done.
      destruct (OrderedMap.map m !! k') as [z|]; simpl; [|done].
      rewrite decide_False by done. by f_equal.
  - assert (Hnone : OrderedMap.map m !! k = None).
    { destruct (OrderedMap.map m !! k) eqn:E; [|done]. destruct Hk. eauto. }
    assert (Hfresh : ∀ k', k' ∈ OrderedMap.order m → k' ≠ k).
    { intros k' Hin ->. apply Hdom in Hin. rewrite Hnone in Hin. by destruct Hin. }
    unfold OrderedMap.elements, OrderedMap.assign, OrderedMap.touch.
    unfold OrderedMap.count. rewrite Hnone. simpl.
    rewrite omap_app. simpl. rewrite lookup_insert_eq. simpl. f_equal.
    clear Hnd Hdom. induction (OrderedMap.order m) as [|k' l IH]; simpl; [done|].
    rewrite !lookup_insert_ne by (symmetry; apply Hfresh; left).
    destruct (OrderedMap.map m !! k'); simpl.
    + f_equal. apply IH. intros k'' Hin. apply Hfresh. by right.
    + apply IH. intros k'' Hin. apply Hfresh. by right.
Qed.

End OrderedMapApi.

(** X6: what is stored through [operator[]] of a [SmallOrderedMap]
    is what [get] finds; a key that was never stored reads as zero,
    and the other keys are not touched. *)
Theorem SmallOrderedMap_update_then_get (g : Z -> Z) (k k' : Value)
        (v : SmallOrderedMap.t) :
  SmallOrderedMap.get (SmallOrderedMap.update g k v) k'
  = if Pos.eqb k' k then g (SmallOrderedMap.get v k) else SmallOrderedMap.get v k'.
Proof.
  induction v as [|p v IH]; simpl.
  - rewrite (Pos.eqb_sym k k'). by destruct (Pos.eqb k' k).
  - destruct (Pos.eqb_spec p.1 k) as [Hp|Hp]; simpl.
    + destruct (Pos.eqb_spec p.1 k') as [Hp'|Hp'].
      * subst. by rewrite Pos.eqb_refl.
      * destruct (Pos.eqb_spec k' k); [congruence|done].
    + destruct (Pos.eqb_spec p.1 k') as [Hp'|Hp']; [|done].
      destruct (Pos.eqb_spec k' k); [congruence|done].
Qed.

(** X7: [operator[]] of a [SmallOrderedMap] never files a key twice:
    a key that is there keeps its place, a new key goes to the end,
    so the keys stay distinct and in the order of their first use. *)
Theorem SmallOrderedMap_keys_stay_distinct (g : Z -> Z) (k : Value)
        (v : SmallOrderedMap.t) :
  (SmallOrderedMap.update g k v).*1
  = (if decide (k ∈ v.*1) then v.*1 else v.*1 ++ [k]) ∧
  (NoDup v.*1 → NoDup (SmallOrderedMap.update g k v).*1).
Proof.
  assert (Hkeys : (SmallOrderedMap.update g k v).*1
                  = if decide (k ∈ v.*1) then v.*1 else v.*1 ++ [k]).
  { induction v as [|p v IH].
    - destruct (decide (k ∈ ([] : SmallOrderedMap.t).*1)) as [Hin|Hin]; [|done].
      by apply elem_of_nil in Hin.
    - cbn [SmallOrderedMap.update]. rewrite fmap_cons.
      destruct (Pos.eqb_spec p.1 k) as [Hp|Hp].
      + rewrite fmap_cons. cbn [fst]. rewrite decide_True; [done|]. rewrite Hp. left.
      + rewrite fmap_cons, IH. destruct (decide (k ∈ v.*1)) as [Hin|Hin].
        * rewrite decide_True; [done|]. by right.
        * rewrite decide_False; [done|]. intros [?|?]%elem_of_cons; congruence. }
  split; [exact Hkeys|]. intros Hnd. rewrite Hkeys.
  destruct (decide (k ∈ v.*1)) as [Hin|Hin]; [done|].
  apply NoDup_app. split_and!; [done| |apply NoDup_singleton].
  intros x Hx ->%list_elem_of_singleton. done.
Qed.

(** * Further properties of the annotation store *)

(** Splits a successful sequence of binds and reads its assertions. *)
Ltac rinva H :=
  rinv H;
  repeat match goal with
         | Ha : assert_ _ _ = Ok _ |- _ => apply assert_Ok in Ha
         end.

Lemma foldM_succeeds {A S} (f : S -> A -> result S) (l : list A) (s : S) :
  (∀ s a, a ∈ l → ∃ s', f s a = Ok s') → ∃ s', foldM f l s = Ok s'.
Proof.
  revert s. induction l as [|a l IH]; intros s Hf; simpl; [by eexists|].
  destruct (Hf s a) as [s1 ->]; [left|]. simpl.
  apply IH. intros s2 a' Ha'. apply Hf. by right.
Qed.

Section TrackerHistory.
Variable classof : Value -> ValueClass.

Lemma RefType_eqb_eq (a b : RefType) : RefType_eqb a b = true ↔ a = b.
Proof. destruct a, b; simpl; split; congruence. Qed.

Lemma vars_lookup_insert (rt : RefcountTracker) (m : gmap positive RefcountState)
      (v v' : Value) (s : RefcountState) :
  vars_lookup (set_vars rt (<[v := s]> (vars rt))) v'
  = if decide (v' = v) then s else vars_lookup rt v'.
Proof.
  unfold vars_lookup. simpl. destruct (decide (v' = v)) as [->|Hne].
  - by rewrite lookup_insert_eq.
  - by rewrite lookup_insert_ne.
Qed.

Lemma run_call_final rt rt' c v :
  run_call classof rt c = Ok rt' →
  (reftype (vars_lookup rt v) ≠ UNKNOWN →
   reftype (vars_lookup rt' v) = reftype (vars_lookup rt v)) ∧
  (nullable (vars_lookup rt v) = true → nullable (vars_lookup rt' v) = true).
Proof.
  intros Hrun. destruct c as [f v0 rty|v0 nl|v0 inst|v0 inst|inst]; simpl in Hrun.
  - unfold setType in Hrun. rinva Hrun. injection Hrun as <-.
    rewrite (vars_lookup_insert rt (vars rt)).
    destruct (decide (v = v0)) as [->|Hne]; [|done]. simpl. split.
    + intros Hknown. apply orb_true_iff in Ha1 as [Heq|Hun].
      * apply RefType_eqb_eq in Heq. done.
      * apply RefType_eqb_eq in Hun. done.
    + intros ->. by destruct (isa_ConstantPointerNull _).
  - unfold setNullable in Hrun. rinva Hrun. injection Hrun as <-.
    rewrite (vars_lookup_insert rt (vars rt)).
    destruct (decide (v = v0)) as [->|Hne]; [|done]. simpl. split; [done|].
    intros Hn. rewrite Hn in Ha0. by destruct nl.
  - unfold refConsumed in Hrun. destruct (_ || _).
    + by injection Hrun as <-.
    + rinva Hrun. by injection Hrun as <-.
  - unfold refUsed in Hrun. destruct (_ || _).
    + by injection Hrun as <-.
    + rinva Hrun. by injection Hrun as <-.
  - unfold setMayThrow in Hrun. rinva Hrun. by injection Hrun as <-.
Qed.

Lemma lookup_push_ref inst inst' v (refs : gmap positive (list positive)) :
  default [] (push_ref inst v refs !! inst')
  = default [] (refs !! inst') ++ (if Pos.eqb inst inst' then [v] else []).
Proof.
  unfold push_ref. destruct (Pos.eqb_spec inst inst') as [->|Hne].
  - by rewrite lookup_insert_eq.
  - rewrite lookup_insert_ne by done. by rewrite app_nil_r.
Qed.

Lemma run_call_history rt rt' c inst :
  run_call classof rt c = Ok rt' →
  default [] (refs_consumed rt' !! inst)
  = default [] (refs_consumed rt !! inst) ++ consumed_by classof inst [c] ∧
  default [] (refs_used rt' !! inst)
  = default [] (refs_used rt !! inst) ++ used_by classof inst [c] ∧
  may_throw rt' = may_throw rt ∪ list_to_set (marked_by [c]) ∧
  Forall (λ i, i ∉ may_throw rt) (marked_by [c]).
Proof.
  intros Hrun. destruct c as [f v0 rty|v0 nl|v0 i|v0 i|i]; simpl in Hrun.
  - unfold setType in Hrun. rinva Hrun. injection Hrun as <-. simpl.
    rewrite !app_nil_r. split_and!; [done..|set_solver|constructor].
  - unfold setNullable in Hrun. rinva Hrun. injection Hrun as <-. simpl.
    rewrite !app_nil_r. split_and!; [done..|set_solver|constructor].
  - unfold refConsumed in Hrun. unfold consumed_by, used_by, marked_by. simpl.
    fold (skipped classof v0) in Hrun. destruct (skipped classof v0).
    + injection Hrun as <-. rewrite andb_false_r, !app_nil_r.
      split_and!; [done..|set_solver|constructor].
    + rinva Hrun. injection Hrun as <-. simpl. rewrite andb_true_r, app_nil_r.
      rewrite lookup_push_ref.
      split_and!; [by destruct (Pos.eqb i inst)|done|set_solver|constructor].
  - unfold refUsed in Hrun. unfold consumed_by, used_by, marked_by. simpl.
    fold (skipped classof v0) in Hrun. destruct (skipped classof v0).
    + injection Hrun as <-. rewrite andb_false_r, !app_nil_r.
      split_and!; [done..|set_solver|constructor].
    + rinva Hrun. injection Hrun as <-. simpl. rewrite andb_true_r, app_nil_r.
      rewrite lookup_push_ref.
      split_and!; [done|by destruct (Pos.eqb i inst)|set_solver|constructor].
  - unfold setMayThrow in Hrun. rinva Hrun. injection Hrun as <-. simpl.
    rewrite !app_nil_r. split_and!; [done..|set_solver|].
    constructor; [|constructor]. unfold may_throw_count in Ha.
    apply negb_true_iff, bool_decide_eq_false in Ha. done.
Qed.

Lemma run_call_uses_annotated rt rt' c :
  uses_annotated rt → run_call classof rt c = Ok rt' → uses_annotated rt'.
Proof.
  intros Hinv Hrun inst v Hin.
  destruct (run_call_history rt rt' c inst Hrun) as (Hc & Hu & _).
  rewrite Hc, Hu, !elem_of_app in Hin.
  assert (Hold : reftype (vars_lookup rt v) ≠ UNKNOWN →
                 reftype (vars_lookup rt' v) ≠ UNKNOWN).
  { intros Hk. destruct (run_call_final rt rt' c v Hrun) as [Hty _].
    by rewrite Hty. }
  destruct Hin as [[Hin|Hin]|[Hin|Hin]].
  - apply Hold, (Hinv inst). by left.
  - destruct c as [f v0 rty|v0 nl|v0 i|v0 i|i];
      try (by apply elem_of_nil in Hin).
    unfold consumed_by in Hin. simpl in Hin.
    destruct (Pos.eqb i inst && negb (skipped classof v0)) eqn:E;
      [|by apply elem_of_nil in Hin].
    apply list_elem_of_singleton in Hin as ->.
    apply andb_true_iff in E as [_ Hsk]. apply negb_true_iff in Hsk.
    simpl in Hrun. unfold refConsumed in Hrun. fold (skipped classof v0) in Hrun.
    rewrite Hsk in Hrun. rinva Hrun. injection Hrun as <-.
    apply negb_true_iff in Ha. intros Hun.
    change (vars_lookup _ v0) with (vars_lookup rt v0) in Hun.
    rewrite Hun in Ha. done.
  - apply Hold, (Hinv inst). by right.
  - destruct c as [f v0 rty|v0 nl|v0 i|v0 i|i];
      try (by apply elem_of_nil in Hin).
    unfold used_by in Hin. simpl in Hin.
    destruct (Pos.eqb i inst && negb (skipped classof v0)) eqn:E;
      [|by apply elem_of_nil in Hin].
    apply list_elem_of_singleton in Hin as ->.
    apply andb_true_iff in E as [_ Hsk]. apply negb_true_iff in Hsk.
    simpl in Hrun. unfold refUsed in Hrun. fold (skipped classof v0) in Hrun.
    rewrite Hsk in Hrun. rinva Hrun. injection Hrun as <-.
    apply negb_true_iff in Ha. intros Hun.
    change (vars_lookup _ v0) with (vars_lookup rt v0) in Hun.
    rewrite Hun in Ha. done.
Qed.

Lemma run_calls_uses_annotated cs rt rt' :
  uses_annotated rt → run_calls classof cs rt = Ok rt' → uses_annotated rt'.
Proof.
  unfold run_calls. intros Hinv Hrun.
  eapply (foldM_invariant uses_annotated); [|exact Hinv|exact Hrun].
  intros s c s' _ Hs Hstep. by eapply run_call_uses_annotated.
Qed.

Lemma uses_annotated_empty : uses_annotated RefcountTracker0.
Proof.
  intros inst v. simpl. rewrite !lookup_empty. simpl.
  by intros [?%elem_of_nil|?%elem_of_nil].
Qed.

Lemma count_uses_succeeds rt i :
  uses_annotated rt → ∃ c, count_uses rt i = Ok c.
Proof.
  intros Hinv. unfold count_uses.
  assert (Hknown : ∀ v, reftype (vars_lookup rt v) ≠ UNKNOWN →
                        vars_count rt v = true ∧
                        negb (RefType_eqb (reftype (vars_lookup rt v)) UNKNOWN) = true).
  { intros v Hv. split.
    - unfold vars_count, vars_lookup in *. apply bool_decide_eq_true.
      destruct (vars rt !! v); [by eauto|done].
    - apply negb_true_iff. destruct (reftype (vars_lookup rt v)); done. }
  destruct (foldM_succeeds (count_consumed_step rt)
              (default [] (refs_consumed rt !! addr i)) ([], [])) as [acc ->].
  { intros s v Hv. unfold count_consumed_step.
    destruct (Hknown v) as [-> ->]; [apply (Hinv (addr i)); by left|].
    by eexists. }
  rsimpl.
  destruct (foldM_succeeds (count_used_step rt)
              (default [] (refs_used rt !! addr i)) acc.2) as [n ->].
  { intros s v Hv. unfold count_used_step.
    destruct (Hknown v) as [_ ->]; [apply (Hinv (addr i)); by right|].
    by eexists. }
  rsimpl. by eexists.
Qed.

End TrackerHistory.

(** X8: an annotation is final: through any sequence of calls of the
    tracker that succeeds, a value that has a discipline keeps it, and
    a value that is nullable stays nullable. *)
Theorem tracker_annotations_are_final (classof : Value -> ValueClass)
        (cs : list TrackerCall) (rt rt' : RefcountTracker) (v : Value) :
  run_calls classof cs rt = Ok rt' →
  (reftype (vars_lookup rt v) ≠ UNKNOWN →
   reftype (vars_lookup rt' v) = reftype (vars_lookup rt v)) ∧
  (nullable (vars_lookup rt v) = true → nullable (vars_lookup rt' v) = true).
Proof.
  unfold run_calls. revert rt. induction cs as [|c cs IH]; intros rt Hrun; simpl in Hrun.
  - by injection Hrun as <-.
  - destruct (run_call classof rt c) as [rt1|] eqn:H1; [|done]. simpl in Hrun.
    destruct (run_call_final classof rt rt1 c v H1) as [Hty Hnl].
    destruct (IH rt1 Hrun) as [Hty' Hnl']. split.
    + intros Hk. rewrite Hty', Hty; [done..|]. by rewrite Hty.
    + intros Hk. by apply Hnl', Hnl.
Qed.

(** X9: the store is the record of the calls that filled it: the
    sequence of an instruction holds the values of the [refConsumed]
    (or [refUsed]) calls for it, in call order and as often as they
    were filed, less the undef and null values; [may_throw] holds the
    instructions of the [setMayThrow] calls, none of which was marked
    twice. *)
Theorem tracker_store_records_calls (classof : Value -> ValueClass)
        (cs : list TrackerCall) (rt : RefcountTracker) (inst : Instruction) :
  run_calls classof cs RefcountTracker0 = Ok rt →
  default [] (refs_consumed rt !! inst) = consumed_by classof inst cs ∧
  default [] (refs_used rt !! inst) = used_by classof inst cs ∧
  may_throw rt = list_to_set (marked_by cs) ∧
  NoDup (marked_by cs).
Proof.
  assert (Hgen : ∀ cs rt0 rt,
    run_calls classof cs rt0 = Ok rt →
    default [] (refs_consumed rt !! inst)
    = default [] (refs_consumed rt0 !! inst) ++ consumed_by classof inst cs ∧
    default [] (refs_used rt !! inst)
    = default [] (refs_used rt0 !! inst) ++ used_by classof inst cs ∧
    may_throw rt = may_throw rt0 ∪ list_to_set (marked_by cs) ∧
    NoDup (marked_by cs) ∧ Forall (λ i, i ∉ may_throw rt0) (marked_by cs)).
  { clear. unfold run_calls. induction cs as [|c cs IH]; intros rt0 rt Hrun; simpl in Hrun.
    - injection Hrun as <-. simpl. rewrite !app_nil_r.
      split_and!; [done..|set_solver|constructor|constructor].
    - destruct (run_call classof rt0 c) as [rt1|] eqn:H1; [|done]. simpl in Hrun.
      destruct (run_call_history classof rt0 rt1 c inst H1) as (Hc1 & Hu1 & Hm1 & Hf1).
      destruct (IH rt1 rt Hrun) as (Hc & Hu & Hm & Hnd & Hf).
      change (c :: cs) with ([c] ++ cs).
      unfold consumed_by, used_by, marked_by in *. rewrite !omap_app.
      rewrite Hc, Hc1, Hu, Hu1, Hm, Hm1, !app_assoc.
      split_and!; [done..|set_solver| |].
      + apply NoDup_app. split_and!; [|intros i Hi Hi'|done].
        * destruct c; simpl; try constructor; [by intros ?%elem_of_nil|constructor].
        * eapply Forall_forall in Hf; [|exact Hi']. apply Hf. rewrite Hm1.
          apply elem_of_union_r, elem_of_list_to_set, Hi.
      + apply Forall_app. split; [done|].
        eapply Forall_impl; [exact Hf|]. intros i Hi. simpl in Hi.
        rewrite Hm1 in Hi. set_solver. }
  intros Hrun. destruct (Hgen cs RefcountTracker0 rt Hrun) as (Hc & Hu & Hm & Hnd & _).
  simpl in *. rewrite lookup_empty in Hc, Hu. simpl in *.
  split_and!; [done..|set_solver|done].
Qed.

(** X10: in a store filled through the calls of the tracker every
    value that is filed as consumed or used has a discipline, so the
    solver's count of the uses of an instruction fails none of its
    assertions, whatever the instruction. *)
Theorem tracked_uses_can_be_counted (classof : Value -> ValueClass)
        (cs : list TrackerCall) (rt : RefcountTracker) (i : InstructionData) :
  run_calls classof cs RefcountTracker0 = Ok rt →
  ∃ counters, count_uses rt i = Ok counters.
Proof.
  intros Hrun. apply count_uses_succeeds.
  eapply run_calls_uses_annotated; [apply uses_annotated_empty|exact Hrun].
Qed.

(** * Further properties of the worklist *)

Section OrdererFacts.

Lemma top_spec (q : list (nat * Z)) :
  match BlockOrderer.top q with
  | None => q = []
  | Some p => p ∈ q ∧ ∀ p', p' ∈ q → p.2 ≤ p'.2
  end.
Proof.
  induction q as [|p q IH]; simpl; [done|].
  destruct (BlockOrderer.top q) as [p'|].
  - destruct IH as [Hin Hmin]. destruct (Z.ltb_spec p'.2 p.2) as [Hlt|Hge].
    + split; [by right|]. intros x [->|Hx]%elem_of_cons; [lia|by apply Hmin].
    + split; [left|]. intros x [->|Hx]%elem_of_cons; [lia|].
      specialize (Hmin x Hx). lia.
  - subst q. split; [left|]. by intros x ->%list_elem_of_singleton.
Qed.

Lemma remove_fst (p : nat * Z) (q : list (nat * Z)) :
  p ∈ q → NoDup q.*1 →
  (∀ x, x ∈ (BlockOrderer.remove p q).*1 ↔ x ∈ q.*1 ∧ x ≠ p.1) ∧
  NoDup (BlockOrderer.remove p q).*1 ∧
  (∀ x, x ∈ BlockOrderer.remove p q → x ∈ q).
Proof.
  induction q as [|p' q IH]; intros Hin Hnd; [by apply elem_of_nil in Hin|].
  rewrite fmap_cons in Hnd. apply NoDup_cons in Hnd as [Hp' Hnd].
  cbn [BlockOrderer.remove].
  destruct (Nat.eqb_spec p'.1 p.1) as [He|Hne]; cbn [andb].
  - assert (Hpp : p' = p).
    { apply elem_of_cons in Hin as [->|Hin]; [done|].
      exfalso. apply Hp'. rewrite He. apply list_elem_of_fmap. by exists p. }
    subst p'. rewrite Z.eqb_refl. split_and!; [|done|by right].
    intros x. rewrite fmap_cons, elem_of_cons. split; [|naive_solver].
    intros Hx. split; [by right|]. by intros ->.
  - apply elem_of_cons in Hin as [->|Hin]; [done|].
    destruct (IH Hin Hnd) as (Hmem & Hnd' & Hsub).
    split_and!.
    + intros x. rewrite !fmap_cons, !elem_of_cons, Hmem. naive_solver.
    + rewrite fmap_cons. apply NoDup_cons. split; [|done].
      rewrite Hmem. tauto.
    + intros x [->|Hx]%elem_of_cons; [left|right; by apply Hsub].
Qed.

Lemma fmap_inj_on_NoDup {A B} (g : A → B) (l : list A) (x y : A) :
  NoDup (g <$> l) → x ∈ l → y ∈ l → g x = g y → x = y.
Proof.
  induction l as [|a l IH]; intros Hnd Hx Hy He; [by apply elem_of_nil in Hx|].
  rewrite fmap_cons in Hnd. apply NoDup_cons in Hnd as [Ha Hnd].
  apply elem_of_cons in Hx as [->|Hx]; apply elem_of_cons in Hy as [->|Hy].
  - done.
  - exfalso. apply Ha. rewrite He. apply list_elem_of_fmap. by exists y.
  - exfalso. apply Ha. rewrite <-He. apply list_elem_of_fmap. by exists x.
  - by apply IH.
Qed.

Lemma add_ok (idx : nat) (o : BlockOrderer.t) :
  orderer_ok o → (idx < length (BlockOrderer.in_queue o))%nat →
  orderer_ok (BlockOrderer.add idx o).
Proof.
  intros (Hnd & Hflag & Hpri) Hlt. unfold BlockOrderer.add.
  destruct (default false (BlockOrderer.in_queue o !! idx)) eqn:Hq; [done|].
  split_and!; simpl.
  - apply NoDup_cons. split; [|done]. rewrite <-Hflag, Hq. done.
  - intros i. rewrite elem_of_cons. destruct (decide (i = idx)) as [->|Hne].
    + rewrite list_lookup_insert_eq by done. naive_solver.
    + rewrite list_lookup_insert_ne by done. rewrite Hflag. naive_solver.
  - intros p [->|Hp]%elem_of_cons; [done|by apply Hpri].
Qed.

Lemma pop_ok (o o' : BlockOrderer.t) (popped : option nat) :
  orderer_ok o → BlockOrderer.pop o = Ok (popped, o') → orderer_ok o'.
Proof.
  intros (Hnd & Hflag & Hpri) Hpop. unfold BlockOrderer.pop in Hpop.
  pose proof (top_spec (BlockOrderer.queue o)) as Htop.
  destruct (BlockOrderer.top (BlockOrderer.queue o)) as [p|].
  - destruct Htop as [Hin _]. rinv Hpop. injection Hpop as <- <-.
    destruct (remove_fst p _ Hin Hnd) as (Hmem & Hnd' & Hsub).
    split_and!; simpl; [done| |by intros x Hx; apply Hpri, Hsub].
    intros i. rewrite Hmem, <-Hflag. destruct (decide (i = p.1)) as [->|Hne].
    + split; [|tauto]. intros Ht.
      destruct (BlockOrderer.in_queue o !! p.1) eqn:E.
      * rewrite list_lookup_insert_eq in Ht; [done|]. by eapply lookup_lt_Some.
      * assert (<[p.1:=false]> (BlockOrderer.in_queue o) !! p.1 = None) as Hn.
        { apply lookup_ge_None. rewrite length_insert. by apply lookup_ge_None. }
        rewrite Hn in Ht. done.
    + rewrite list_lookup_insert_ne by done. tauto.
  - by injection Hpop as <- <-.
Qed.

Lemma pop_succeeds (o : BlockOrderer.t) :
  orderer_ok o → ∃ r, BlockOrderer.pop o = Ok r.
Proof.
  intros (Hnd & Hflag & Hpri). unfold BlockOrderer.pop.
  pose proof (top_spec (BlockOrderer.queue o)) as Htop.
  destruct (BlockOrderer.top (BlockOrderer.queue o)) as [p|]; [|by eexists].
  destruct Htop as [Hin _].
  assert (Hq : default false (BlockOrderer.in_queue o !! p.1) = true).
  { apply Hflag, list_elem_of_fmap. by exists p. }
  rewrite Hq. rsimpl. by eexists.
Qed.

Lemma create_ok (order : list nat) : orderer_ok (BlockOrderer.create order).
Proof.
  split_and!; simpl.
  - constructor.
  - intros i. split; [|by intros ?%elem_of_nil].
    destruct (replicate (length order) false !! i) eqn:E; simpl; [|done].
    apply lookup_replicate in E as [-> _]. done.
  - by intros p ?%elem_of_nil.
Qed.

Lemma create_priority_fold (order : list nat) (k : nat) :
  NoDup order → Forall (λ idx, (idx < length order)%nat) order →
  (k ≤ length order)%nat →
  let pr := fold_left (λ pr i, <[default 0%nat (order !! i) := Z.of_nat i]> pr)
                      (seq 0 k) (replicate (length order) 0) in
  length pr = length order ∧
  ∀ i idx, (i < k)%nat → order !! i = Some idx → pr !! idx = Some (Z.of_nat i).
Proof.
  intros Hnd Hrange. induction k as [|k IH]; intros Hk pr.
  - subst pr. simpl. split; [by rewrite length_replicate|]. intros; lia.
  - subst pr. rewrite seq_S, fold_left_app. simpl.
    destruct IH as [Hlen Hpr]; [lia|].
    split; [by rewrite length_insert|].
    intros i idx Hi Hidx.
    destruct (lookup_lt_is_Some_2 order k) as [idxk Hidxk]; [lia|].
    rewrite Hidxk. simpl.
    destruct (decide (i = k)) as [->|Hne].
    + assert (idx = idxk) as -> by congruence.
      apply list_lookup_insert_eq. rewrite Hlen.
      eapply Forall_forall in Hrange; [exact Hrange|].
      by eapply list_elem_of_lookup_2.
    + rewrite list_lookup_insert_ne.
      * apply Hpr; [lia|done].
      * intros <-. apply Hne. by eapply NoDup_lookup.
Qed.

Lemma order_permutes (order : list nat) :
  NoDup order → Forall (λ idx, (idx < length order)%nat) order →
  Permutation order (seq 0 (length order)).
Proof.
  intros Hnd Hrange. apply submseteq_length_Permutation.
  - apply NoDup_submseteq; [done|]. intros i Hi. apply elem_of_seq.
    rewrite Forall_forall in Hrange. specialize (Hrange i Hi). lia.
  - by rewrite length_seq.
Qed.

Lemma create_differ (order : list nat) :
  NoDup order → Forall (λ idx, (idx < length order)%nat) order →
  priorities_differ (BlockOrderer.create order).
Proof.
  intros Hnd Hrange.
  destruct (create_priority_fold order (length order) Hnd Hrange) as [Hlen Hpr]; [lia|].
  split; cbn [BlockOrderer.create BlockOrderer.priority BlockOrderer.in_queue].
  - apply NoDup_alt. intros a b x Ha Hb.
    assert (Hpos : ∀ c, fold_left (λ pr i, <[default 0%nat (order !! i) := Z.of_nat i]> pr)
                                  (seq 0 (length order)) (replicate (length order) 0)
                        !! c = Some x →
                        ∃ i, order !! i = Some c ∧ x = Z.of_nat i).
    { intros c Hc. pose proof (lookup_lt_Some _ _ _ Hc) as Hlt. rewrite Hlen in Hlt.
      assert (Hin : c ∈ order).
      { rewrite (order_permutes order Hnd Hrange). apply elem_of_seq. lia. }
      apply list_elem_of_lookup in Hin as [i Hi]. exists i. split; [done|].
      pose proof (Hpr i c (lookup_lt_Some _ _ _ Hi) Hi) as Hx. congruence. }
    destruct (Hpos a Ha) as (i & Hi & ->). destruct (Hpos b Hb) as (j & Hj & Hij).
    apply Nat2Z.inj in Hij as ->. congruence.
  - by rewrite Hlen, length_replicate.
Qed.

Lemma add_differ (idx : nat) (o : BlockOrderer.t) :
  priorities_differ o → priorities_differ (BlockOrderer.add idx o).
Proof.
  intros [Hnd Hlen]. unfold BlockOrderer.add.
  destruct (default false (BlockOrderer.in_queue o !! idx)); [done|].
  split; cbn [BlockOrderer.priority BlockOrderer.in_queue]; [done|].
  by rewrite length_insert.
Qed.

Lemma pop_differ (o o' : BlockOrderer.t) (popped : option nat) :
  priorities_differ o → BlockOrderer.pop o = Ok (popped, o') → priorities_differ o'.
Proof.
  intros [Hnd Hlen] Hpop. unfold BlockOrderer.pop in Hpop.
  destruct (BlockOrderer.top (BlockOrderer.queue o)) as [p|].
  - rinv Hpop. injection Hpop as <- <-.
    split; cbn [BlockOrderer.priority BlockOrderer.in_queue]; [done|].
    by rewrite length_insert.
  - by injection Hpop as <- <-.
Qed.

(** In a consistent orderer with distinct priorities no two queued
    pairs have the same priority. *)
Lemma queue_priorities_differ (o : BlockOrderer.t) :
  orderer_ok o → priorities_differ o → NoDup (BlockOrderer.queue o).*2.
Proof.
  intros (Hnd & Hflag & Hpri) [Hdiff Hlen].
  assert (Hat : ∀ p, p ∈ BlockOrderer.queue o →
                     BlockOrderer.priority o !! p.1 = Some p.2).
  { intros p Hp.
    assert (Hq : default false (BlockOrderer.in_queue o !! p.1) = true).
    { apply Hflag, list_elem_of_fmap. by exists p. }
    assert (Hlt : (p.1 < length (BlockOrderer.priority o))%nat).
    { rewrite Hlen. destruct (BlockOrderer.in_queue o !! p.1) eqn:E; [|done].
      by eapply lookup_lt_Some. }
    destruct (lookup_lt_is_Some_2 _ _ Hlt) as [x Hx].
    rewrite (Hpri p Hp), Hx. done. }
  clear Hflag Hpri. revert Hnd Hat. generalize (BlockOrderer.queue o) as q.
  induction q as [|p q IH]; intros Hnd Hat; [constructor|].
  rewrite fmap_cons in Hnd. rewrite fmap_cons. apply NoDup_cons in Hnd as [Hp Hnd].
  apply NoDup_cons. split.
  - intros Hin. apply list_elem_of_fmap in Hin as (p' & He & Hp').
    apply Hp. apply list_elem_of_fmap. exists p'. split; [|done].
    apply (proj1 (NoDup_alt _) Hdiff p.1 p'.1 p.2).
    + apply Hat. left.
    + rewrite He. apply Hat. by right.
  - apply IH; [done|]. intros p' Hp'. apply Hat. by right.
Qed.

End OrdererFacts.

(** X11: [BlockOrderer] keeps its bookkeeping consistent as long as
    the priorities of the blocks are pairwise different, which they
    are when the orderer is made from an order that lists every block
    index once: such a new orderer is consistent, [add] (of a block of
    the function) and [pop] keep it so, and no two queued pairs ever
    have the same priority, so that the assertion of [BlockComparer]
    holds for every two pairs; [add] of a queued block changes
    nothing, and the assertion [in_queue[idx]] of [pop] never
    fails. *)
Theorem BlockOrderer_stays_consistent (order : list nat) (o : BlockOrderer.t) (idx : nat) :
  NoDup order →
  Forall (λ i, (i < length order)%nat) order →
  orderer_ok o →
  priorities_differ o →
  (idx < length (BlockOrderer.in_queue o))%nat →
  (orderer_ok (BlockOrderer.create order) ∧
   priorities_differ (BlockOrderer.create order)) ∧
  (orderer_ok (BlockOrderer.add idx o) ∧
   priorities_differ (BlockOrderer.add idx o) ∧
   NoDup (BlockOrderer.queue (BlockOrderer.add idx o)).*2) ∧
  BlockOrderer.add idx (BlockOrderer.add idx o) = BlockOrderer.add idx o ∧
  ∃ popped o',
    BlockOrderer.pop o = Ok (popped, o') ∧
    orderer_ok o' ∧ priorities_differ o' ∧ NoDup (BlockOrderer.queue o').*2.
Proof.
  intros Hnd Hrange Hok Hdiff Hlt. split_and!.
  - apply create_ok.
  - by apply create_differ.
  - by apply add_ok.
  - by apply add_differ.
  - apply queue_priorities_differ; [by apply add_ok|by apply add_differ].
  - unfold BlockOrderer.add at 2.
    destruct (default false (BlockOrderer.in_queue o !! idx)) eqn:Hq.
    + unfold BlockOrderer.add. by rewrite Hq.
    + unfold BlockOrderer.add. cbn [BlockOrderer.in_queue].
      rewrite list_lookup_insert_eq by exact Hlt. by rewrite Hq.
  - destruct (pop_succeeds o Hok) as [[popped o'] Hpop].
    exists popped, o'. split; [done|].
    assert (Hok' : orderer_ok o') by (by eapply pop_ok).
    assert (Hdiff' : priorities_differ o') by (by eapply pop_differ).
    split_and!; [done..|]. by apply queue_priorities_differ.
Qed.

(** X12: [pop] hands out the queued block of least priority and takes
    it off the queue: when the priorities of the queued blocks differ
    (which [BlockComparer] asserts), every other queued block has a
    greater priority and stays queued; on an empty queue [pop] answers
    [-1] and leaves the orderer alone. *)
Theorem BlockOrderer_pop_takes_least_priority (o o' : BlockOrderer.t)
        (popped : option nat) :
  orderer_ok o →
  NoDup (BlockOrderer.queue o).*2 →
  BlockOrderer.pop o = Ok (popped, o') →
  match popped with
  | None => BlockOrderer.queue o = [] ∧ o' = o
  | Some idx =>
      idx ∈ (BlockOrderer.queue o).*1 ∧
      (∀ p, p ∈ BlockOrderer.queue o → p.1 ≠ idx →
            default 0 (BlockOrderer.priority o !! idx) < p.2) ∧
      idx ∉ (BlockOrderer.queue o').*1 ∧
      (∀ i, i ≠ idx → i ∈ (BlockOrderer.queue o').*1 ↔ i ∈ (BlockOrderer.queue o).*1)
  end.
Proof.
  intros (Hnd & Hflag & Hpri) Hdiff Hpop. unfold BlockOrderer.pop in Hpop.
  pose proof (top_spec (BlockOrderer.queue o)) as Htop.
  destruct (BlockOrderer.top (BlockOrderer.queue o)) as [p|].
  - destruct Htop as [Hin Hmin]. rinv Hpop. injection Hpop as <- <-. simpl.
    destruct (remove_fst p _ Hin Hnd) as (Hmem & Hnd' & Hsub).
    split_and!.
    + apply list_elem_of_fmap. by exists p.
    + intros p' Hp' Hne. rewrite <-(Hpri p Hin).
      specialize (Hmin p' Hp').
      destruct (decide (p.2 = p'.2)) as [He|]; [|lia].
      exfalso. apply Hne. f_equal. symmetry.
      by apply (fmap_inj_on_NoDup snd (BlockOrderer.queue o)).
    + rewrite Hmem. tauto.
    + intros i Hi. rewrite Hmem. tauto.
  - by injection Hpop as <- <-.
Qed.

(** X13: the priority of a block is its position in the traversal
    order that the orderer was made from. *)
Theorem BlockOrderer_priority_is_position (order : list nat) (i idx : nat) :
  NoDup order →
  Forall (λ idx, (idx < length order)%nat) order →
  order !! i = Some idx →
  BlockOrderer.priority (BlockOrderer.create order) !! idx = Some (Z.of_nat i).
Proof.
  intros Hnd Hrange Hidx. simpl.
  destruct (create_priority_fold order (length order) Hnd Hrange) as [_ Hpr]; [lia|].
  apply Hpr; [|done]. by eapply lookup_lt_Some.
Qed.

(** * Further properties of the block graph and of the traversal order *)

Section GraphFacts.

Lemma index_fold (l : list positive) (acc : gmap positive nat * list positive) :
  let r := fold_left (λ (acc : gmap positive nat * list positive) (b : positive),
                        (<[b := length acc.2]> acc.1, acc.2 ++ [b])) l acc in
  r.2 = acc.2 ++ l ∧
  ((∀ b i, acc.1 !! b = Some i → acc.2 !! i = Some b) →
   ∀ b i, r.1 !! b = Some i → r.2 !! i = Some b) ∧
  (NoDup (acc.2 ++ l) →
   (∀ i b, acc.2 !! i = Some b → acc.1 !! b = Some i) →
   ∀ i b, r.2 !! i = Some b → r.1 !! b = Some i).
Proof.
  revert acc. induction l as [|b l IH]; intros acc r.
  - subst r. simpl. rewrite app_nil_r. by split_and!.
  - subst r. cbn [fold_left].
    destruct (IH (<[b := length acc.2]> acc.1, acc.2 ++ [b])) as (Hl & H1 & H2).
    cbn [fst snd] in *.
    split_and!.
    + rewrite Hl, <-app_assoc. done.
    + intros Hacc. apply H1. intros b' i.
      destruct (decide (b' = b)) as [->|Hne].
      * rewrite lookup_insert_eq. intros [= <-].
        by rewrite lookup_app_r, Nat.sub_diag by lia.
      * rewrite lookup_insert_ne by done. intros Hi.
        apply lookup_app_l_Some. by apply Hacc.
    + intros Hnd Hacc. apply H2; [by rewrite <-app_assoc|].
      intros i b' Hi. apply lookup_app_Some in Hi as [Hi|[Hge Hi]].
      * rewrite lookup_insert_ne; [by apply Hacc|].
        intros <-. apply NoDup_app in Hnd as (_ & Hdis & _).
        apply (Hdis b); [by eapply list_elem_of_lookup_2|left].
      * apply list_lookup_singleton_Some in Hi as [Hi <-].
        rewrite lookup_insert_eq. f_equal. lia.
Qed.

Lemma mkBBGraph_idx (f : Function) :
  (∀ b i, bb_idx (mkBBGraph f) !! b = Some i → bbs (mkBBGraph f) !! i = Some b) ∧
  (NoDup (bb_addr <$> fn_blocks f) →
   ∀ i b, bbs (mkBBGraph f) !! i = Some b → bb_idx (mkBBGraph f) !! b = Some i).
Proof.
  destruct (index_fold (bb_addr <$> fn_blocks f) (∅, [])) as (Hl & H1 & H2).
  cbn [fst snd] in *. rewrite app_nil_l in *.
  unfold mkBBGraph. cbn [bb_idx bbs].
  split.
  - intros b i Hi. rewrite <-Hl. apply H1; [|done].
    intros b' i'. by rewrite lookup_empty.
  - intros Hnd i b Hi. apply H2; [done| |by rewrite Hl].
    intros i' b'. by rewrite lookup_nil.
Qed.

Lemma idx_of_in_range (f : Function) (b : BasicBlock) :
  (0 < length (fn_blocks f))%nat →
  (idx_of (bb_idx (mkBBGraph f)) b < numBB (mkBBGraph f))%nat.
Proof.
  intros Hpos. unfold idx_of.
  destruct (bb_idx (mkBBGraph f) !! b) as [i|] eqn:Hi; simpl.
  - apply mkBBGraph_idx in Hi. unfold numBB. by eapply lookup_lt_Some.
  - unfold numBB, mkBBGraph. simpl. by rewrite length_fmap.
Qed.

End GraphFacts.

Lemma mkBBGraph_in_range (f : Function) : graph_in_range (mkBBGraph f).
Proof.
  assert (Hall : ∀ (g : BasicBlockData -> list BasicBlock),
    Forall (Forall (λ j, (j < numBB (mkBBGraph f))%nat))
           ((λ b, idx_of (bb_idx (mkBBGraph f)) <$> g b) <$> fn_blocks f)).
  { intros g. apply Forall_fmap, Forall_forall. intros b Hb. simpl.
    apply Forall_fmap, Forall_forall. intros sb _. simpl.
    apply idx_of_in_range. destruct (fn_blocks f); [by apply elem_of_nil in Hb|].
    simpl. lia. }
  split; [apply (Hall bb_preds)|apply (Hall succ_range)].
Qed.


Section TraversalFacts.
Variable sort_by_count : list (nat * Z) -> list (nat * Z).
Variable bbg : BBGraph.
Hypothesis sort_permutes : ∀ l, Permutation (sort_by_count l) l.
Hypothesis in_range : graph_in_range bbg.

Lemma preds_of_in_range idx : Forall (λ j, (j < numBB bbg)%nat) (preds_of bbg idx).
Proof.
  unfold preds_of. destruct (predecessors bbg !! idx) as [l|] eqn:E; simpl; [|constructor].
  destruct in_range as [Hp _]. eapply Forall_lookup_1 in Hp; eauto.
Qed.

Lemma traversal_ok_push (t : Traversal) (i : nat) (nsa : list Z) (c : nat) :
  traversal_ok bbg t → (i < numBB bbg)%nat → default false (added t !! i) = false →
  traversal_ok bbg {| ordering := ordering t ++ [i]; added := <[i := true]> (added t);
                  num_successors_added := nsa; check_predecessors_idx := c |}.
Proof.
  intros (Hnd & Hlen & Hflag) Hi Hfalse. split_and!; simpl.
  - apply NoDup_app. split_and!; [done| |apply NoDup_singleton].
    intros x Hx ->%list_elem_of_singleton. apply Hflag in Hx. by rewrite Hx in Hfalse.
  - by rewrite length_insert.
  - intros j. rewrite elem_of_app, list_elem_of_singleton.
    destruct (decide (j = i)) as [->|Hne].
    + rewrite list_lookup_insert_eq by lia. naive_solver.
    + rewrite list_lookup_insert_ne by done. rewrite Hflag. naive_solver.
Qed.

Lemma add_exit_fold_ok (k : nat) (t : Traversal) :
  traversal_ok bbg t → ordering t = [] → (k ≤ numBB bbg)%nat →
  let t' := fold_left (add_exit bbg) (seq 0 k) t in
  traversal_ok bbg t' ∧ Forall (λ i, (i < k)%nat) (ordering t').
Proof.
  intros Hok Hnil. induction k as [|k IH]; intros Hk t'.
  - subst t'. simpl. rewrite Hnil. split; [done|constructor].
  - subst t'. rewrite seq_S, fold_left_app. simpl.
    destruct IH as [Hok' Hlt]; [lia|].
    set (t1 := fold_left (add_exit bbg) (seq 0 k) t) in *.
    unfold add_exit. destruct (length (succs_of bbg k) =? 0)%nat.
    + split.
      * apply traversal_ok_push; [done|lia|].
        destruct (added t1 !! k) as [[]|] eqn:E; simpl; [|done..].
        apply Hok' in E. eapply Forall_forall in Hlt; [|exact E]. lia.
      * simpl. apply Forall_app. split; [|by repeat constructor].
        eapply Forall_impl; [exact Hlt|]. intros; simpl in *; lia.
    + split; [done|]. eapply Forall_impl; [exact Hlt|]. intros; simpl in *; lia.
Qed.

Lemma visit_predecessor_ok (t : Traversal) (pidx : nat) :
  traversal_ok bbg t → (pidx < numBB bbg)%nat → traversal_ok bbg (visit_predecessor bbg t pidx).
Proof.
  intros Hok Hp. unfold visit_predecessor.
  destruct (default false (added t !! pidx)) eqn:Ha; [done|].
  destruct (Z.eqb _ _).
  - by apply traversal_ok_push.
  - exact Hok.
Qed.

Lemma visit_predecessors_ok (l : list nat) (t : Traversal) :
  traversal_ok bbg t → Forall (λ j, (j < numBB bbg)%nat) l →
  traversal_ok bbg (fold_left (visit_predecessor bbg) l t).
Proof.
  intros Hok Hl. revert t Hok. induction Hl as [|p l Hp Hl IH]; intros t Hok; simpl; [done|].
  apply IH. by apply visit_predecessor_ok.
Qed.

Lemma break_cycle_ok (t t' : Traversal) :
  traversal_ok bbg t → break_cycle sort_by_count bbg t = Ok t' → traversal_ok bbg t'.
Proof.
  intros Hok Hb. unfold break_cycle in Hb. rinv Hb.
  set (cands := omap _ (seq 0 (numBB bbg))) in *.
  assert (Hbest : match a.2 with
                  | None => True
                  | Some best => best ∈ (sort_by_count cands).*1
                  end).
  { eapply (foldM_invariant
              (λ acc : list bool * option nat,
                 match acc.2 with
                 | None => True
                 | Some best => best ∈ (sort_by_count cands).*1
                 end)); [| |exact Ha]; [|done].
    intros acc p acc' Hp Hacc Hstep. unfold pick_best in Hstep.
    destruct (default false (acc.1 !! p.1)); [by injection Hstep as <-|].
    rinv Hstep. injection Hstep as <-. simpl.
    apply list_elem_of_fmap. by exists p. }
  destruct a.2 as [best|]; [|done]. injection Hb as <-.
  rewrite sort_permutes in Hbest.
  apply list_elem_of_fmap in Hbest as (p & -> & Hp).
  apply list_elem_of_omap in Hp as (i & Hi & Hp). cbv zeta in Hp.
  destruct (Z.eqb _ _); [done|].
  destruct (default false (added t !! i)) eqn:Hadd; [done|].
  injection Hp as <-. simpl.
  apply elem_of_seq in Hi. apply traversal_ok_push; [done|lia|done].
Qed.

Lemma traversal_loop_ok (fuel : nat) (t t' : Traversal) :
  traversal_ok bbg t → traversal_loop sort_by_count bbg fuel t = Ok t' → traversal_ok bbg t'.
Proof.
  revert t. induction fuel as [|fuel IH]; intros t Hok Hloop; simpl in Hloop.
  - destruct (_ <? _)%nat; [done|]. by injection Hloop as <-.
  - destruct (length (ordering t) <? numBB bbg)%nat; [|by injection Hloop as <-].
    destruct (check_predecessors_idx t <? length (ordering t))%nat.
    + eapply IH; [|exact Hloop].
      apply visit_predecessors_ok; [|apply preds_of_in_range].
      destruct Hok as (? & ? & ?). by split_and!.
    + rinv Hloop. eapply IH; [|exact Hloop]. by eapply break_cycle_ok.
Qed.

Lemma traversal_start_ok :
  traversal_ok bbg {| ordering := []; added := replicate (numBB bbg) false;
                  num_successors_added := replicate (numBB bbg) 0;
                  check_predecessors_idx := 0 |}.
Proof.
  split_and!; simpl; [constructor|by rewrite length_replicate|].
  intros i. split; [by intros ?%elem_of_nil|].
  by intros [? _]%lookup_replicate.
Qed.

End TraversalFacts.

(** ** The traversal order of a graph without cycles *)

Lemma filter_length_le {A} (g : A -> bool) (l : list A) :
  (length (List.filter g l) ≤ length l)%nat.
Proof. induction l as [|a l IH]; simpl; [lia|]. destruct (g a); simpl; lia. Qed.

Lemma filter_length_full {A} (g : A -> bool) (l : list A) :
  (length l ≤ length (List.filter g l))%nat → ∀ y, y ∈ l → g y = true.
Proof.
  induction l as [|a l IH]; simpl; intros Hlen y Hy; [by apply elem_of_nil in Hy|].
  pose proof (filter_length_le g l). destruct (g a) eqn:Ha; simpl in Hlen; [|lia].
  apply elem_of_cons in Hy as [->|Hy]; [done|]. apply IH; [lia|done].
Qed.

Lemma filter_length_short {A} (g : A -> bool) (l : list A) :
  (length (List.filter g l) < length l)%nat → ∃ y, y ∈ l ∧ g y = false.
Proof.
  induction l as [|a l IH]; simpl; intros Hlen; [lia|].
  destruct (g a) eqn:Ha; simpl in Hlen.
  - destruct IH as (y & Hy & Hg); [lia|]. exists y. split; [by right|done].
  - exists a. split; [left|done].
Qed.

Lemma count_in_snoc (x y : nat) (l : list nat) :
  count_in x (l ++ [y]) = (count_in x l + if Nat.eqb x y then 1 else 0)%nat.
Proof.
  unfold count_in. rewrite List.filter_app, length_app. simpl.
  by destruct (Nat.eqb x y).
Qed.

Lemma count_in_app_le (x : nat) (l1 l2 : list nat) :
  (count_in x l1 ≤ count_in x (l1 ++ l2))%nat.
Proof. unfold count_in. rewrite List.filter_app, length_app. lia. Qed.

Section DagFacts.
Variable sort_by_count : list (nat * Z) -> list (nat * Z).
Variable bbg : BBGraph.
Variable rank : nat -> nat.
Hypothesis in_range : graph_in_range bbg.
Hypothesis agree : edges_agree bbg = true.
Hypothesis acyclic : ∀ i j, j ∈ succs_of bbg i → (rank j < rank i)%nat.

Lemma succs_of_in_range idx : Forall (λ j, (j < numBB bbg)%nat) (succs_of bbg idx).
Proof.
  unfold succs_of. destruct (successors bbg !! idx) as [l|] eqn:E; simpl; [|constructor].
  destruct in_range as [_ Hs]. eapply Forall_lookup_1 in Hs; eauto.
Qed.

Lemma edges_agree_spec i j :
  (i < numBB bbg)%nat → (j < numBB bbg)%nat →
  count_in j (succs_of bbg i) = count_in i (preds_of bbg j).
Proof.
  intros Hi Hj. unfold edges_agree in agree.
  rewrite forallb_forall in agree.
  specialize (agree i). rewrite forallb_forall in agree.
  apply Nat.eqb_eq, agree; apply in_seq; lia.
Qed.

Lemma succs_in_le p X : (succs_in bbg p X ≤ length (succs_of bbg p))%nat.
Proof. apply filter_length_le. Qed.

Lemma succs_in_nil p : succs_in bbg p [] = 0%nat.
Proof.
  unfold succs_in. induction (succs_of bbg p) as [|y l IH]; [done|].
  cbn [List.filter]. rewrite bool_decide_eq_false_2; [done|]. by intros ?%elem_of_nil.
Qed.

Lemma succs_in_snoc p X idx :
  idx ∉ X →
  succs_in bbg p (X ++ [idx]) = (succs_in bbg p X + count_in idx (succs_of bbg p))%nat.
Proof.
  intros Hfresh. unfold succs_in, count_in.
  induction (succs_of bbg p) as [|y l IH]; simpl; [done|].
  destruct (decide (y ∈ X)) as [Hy|Hy].
  - rewrite (bool_decide_eq_true_2 (y ∈ X ++ [idx])) by (apply elem_of_app; by left).
    rewrite (bool_decide_eq_true_2 (y ∈ X)) by done.
    destruct (Nat.eqb_spec idx y) as [->|Hne]; [done|]. simpl. lia.
  - rewrite (bool_decide_eq_false_2 (y ∈ X)) by done.
    destruct (Nat.eqb_spec idx y) as [->|Hne].
    + rewrite bool_decide_eq_true_2; [simpl; lia|].
      apply elem_of_app. right. left.
    + rewrite bool_decide_eq_false_2; [done|].
      intros [?|?%list_elem_of_singleton]%elem_of_app; congruence.
Qed.

Lemma unadded_not_in (t : Traversal) (p : nat) :
  traversal_ok bbg t →
  (default false (added t !! p) = false ↔ p ∉ ordering t).
Proof.
  intros (_ & _ & Hflag). rewrite Hflag.
  destruct (added t !! p) as [[]|]; simpl; split; congruence.
Qed.

(** One step of the loop over the predecessors of [idx]. *)
Lemma visit_predecessor_counts (X L1 L2 : list nat) (idx pidx : nat) (t : Traversal) :
  preds_of bbg idx = L1 ++ pidx :: L2 →
  (idx < numBB bbg)%nat → idx ∉ X →
  traversal_ok bbg t →
  length (num_successors_added t) = numBB bbg →
  (∃ rest, ordering t = X ++ idx :: rest) →
  successors_first bbg (ordering t) →
  counting_ok bbg X L1 t →
  let t' := visit_predecessor bbg t pidx in
  traversal_ok bbg t' ∧
  length (num_successors_added t') = numBB bbg ∧
  (∃ rest, ordering t' = X ++ idx :: rest) ∧
  successors_first bbg (ordering t') ∧
  counting_ok bbg X (L1 ++ [pidx]) t' ∧
  check_predecessors_idx t' = check_predecessors_idx t.
Proof.
  intros Hpreds Hidx Hfresh Hok Hlen [rest Hord] Htopo Hcnt t'.
  assert (Hp : (pidx < numBB bbg)%nat).
  { pose proof (preds_of_in_range bbg in_range idx) as Hall.
    rewrite Hpreds in Hall. apply Forall_app in Hall as [_ Hall].
    by apply Forall_cons in Hall as [? _]. }
  subst t'. unfold visit_predecessor.
  destruct (default false (added t !! pidx)) eqn:Hadd.
  { split_and!; [done|done|by eexists|done| |done].
    intros p Hpn Hun. rewrite count_in_snoc.
    destruct (Nat.eqb_spec p pidx) as [->|Hne]; [congruence|].
    rewrite Nat.add_0_r. by apply Hcnt. }
  destruct (Hcnt pidx Hp Hadd) as [Hnsa Hlt].
  rewrite Hnsa.
  assert (Hother : ∀ p v, p ≠ pidx →
             default 0 (<[pidx := v]> (num_successors_added t) !! p)
             = default 0 (num_successors_added t !! p)).
  { intros p v Hne. by rewrite list_lookup_insert_ne by done. }
  destruct (Z.eqb_spec (Z.of_nat (succs_in bbg pidx X + count_in pidx L1) + 1)
                       (Z.of_nat (length (succs_of bbg pidx)))) as [Hfull|Hpart].
  - split_and!; simpl.
    + by apply traversal_ok_push.
    + by rewrite length_insert.
    + exists (rest ++ [pidx]). rewrite Hord. by rewrite <-app_assoc.
    + intros pa a b Ha Hb. apply lookup_app_Some in Ha as [Ha|[Hge Ha]].
      * destruct (Htopo pa a b Ha Hb) as (pb & Hpb & Hb').
        exists pb. split; [done|]. by apply lookup_app_l_Some.
      * apply list_lookup_singleton_Some in Ha as [Hpa <-].
        assert (Hall : ∀ y, y ∈ succs_of bbg pidx →
                            bool_decide (y ∈ X ++ [idx]) = true).
        { apply filter_length_full. fold (succs_in bbg pidx (X ++ [idx])).
          rewrite succs_in_snoc by done.
          rewrite (edges_agree_spec pidx idx) by done.
          rewrite Hpreds.
          pose proof (count_in_app_le pidx (L1 ++ [pidx]) L2) as Hle.
          rewrite <-app_assoc in Hle. simpl in Hle.
          rewrite count_in_snoc, Nat.eqb_refl in Hle. lia. }
        apply Hall, bool_decide_eq_true in Hb.
        apply list_elem_of_lookup in Hb as [pb Hpb].
        exists pb. split.
        -- apply lookup_lt_Some in Hpb. rewrite length_app in Hpb. simpl in Hpb.
           rewrite Hord, length_app in Hge. simpl in Hge. lia.
        -- apply lookup_app_l_Some. rewrite Hord.
           replace (X ++ idx :: rest) with ((X ++ [idx]) ++ rest)
             by (by rewrite <-app_assoc).
           by apply lookup_app_l_Some.
    + intros p Hpn Hun. cbn [added num_successors_added] in Hun |- *.
      rewrite count_in_snoc.
      destruct (Nat.eqb_spec p pidx) as [->|Hne].
      * rewrite list_lookup_insert_eq in Hun by (destruct Hok as (_ & -> & _); lia).
        done.
      * rewrite list_lookup_insert_ne in Hun by done.
        rewrite Hother by done. rewrite Nat.add_0_r. by apply Hcnt.
    + done.
  - split_and!; simpl; [done|by rewrite length_insert|by eexists|done| |done].
    intros p Hpn Hun. cbn [added num_successors_added] in Hun |- *.
    rewrite count_in_snoc.
    destruct (Nat.eqb_spec p pidx) as [->|Hne].
    + rewrite list_lookup_insert_eq by lia. simpl. split; lia.
    + rewrite Hother by done. rewrite Nat.add_0_r. by apply Hcnt.
Qed.

Lemma visit_predecessors_count (X : list nat) (idx : nat) (L2 L1 : list nat)
      (t : Traversal) :
  preds_of bbg idx = L1 ++ L2 →
  (idx < numBB bbg)%nat → idx ∉ X →
  traversal_ok bbg t →
  length (num_successors_added t) = numBB bbg →
  (∃ rest, ordering t = X ++ idx :: rest) →
  successors_first bbg (ordering t) →
  counting_ok bbg X L1 t →
  let t' := fold_left (visit_predecessor bbg) L2 t in
  traversal_ok bbg t' ∧
  length (num_successors_added t') = numBB bbg ∧
  (∃ rest, ordering t' = X ++ idx :: rest) ∧
  successors_first bbg (ordering t') ∧
  counting_ok bbg X (preds_of bbg idx) t' ∧
  check_predecessors_idx t' = check_predecessors_idx t.
Proof.
  revert L1 t. induction L2 as [|pidx L2 IH];
    intros L1 t Hpreds Hidx Hfresh Hok Hlen Hord Htopo Hcnt t'.
  - subst t'. simpl. rewrite app_nil_r in Hpreds. rewrite Hpreds.
    by split_and!.
  - subst t'. cbn [fold_left].
    destruct (visit_predecessor_counts X L1 L2 idx pidx t)
      as (Hok' & Hlen' & Hord' & Htopo' & Hcnt' & Hc'); try done.
    destruct (IH (L1 ++ [pidx]) (visit_predecessor bbg t pidx))
      as (? & ? & ? & ? & ? & Hc''); try done.
    { by rewrite <-app_assoc. }
    split_and!; try done. by rewrite Hc''.
Qed.

(** In a graph without cycles case 1 never runs dry before every
    block is added. *)
Lemma dag_no_stall (t : Traversal) :
  dag_ok bbg t →
  check_predecessors_idx t = length (ordering t) →
  (length (ordering t) < numBB bbg)%nat → False.
Proof.
  intros (Hok & Hlen & Hc & Htopo & Hcnt) Hall Hshort.
  rewrite Hall, firstn_all in Hcnt.
  assert (Hdescent : ∀ r p, (rank p < r)%nat → (p < numBB bbg)%nat →
                            p ∉ ordering t → False).
  { induction r as [|r IH]; intros p Hr Hp Hnot; [lia|].
    destruct (Hcnt p Hp) as [_ Hlt]; [by apply unadded_not_in|].
    unfold count_in in Hlt. simpl in Hlt. rewrite Nat.add_0_r in Hlt.
    apply filter_length_short in Hlt as (b & Hb & Hout).
    apply bool_decide_eq_false in Hout.
    pose proof (succs_of_in_range p) as Hbn. rewrite Forall_forall in Hbn.
    apply (IH b); [|by apply Hbn|done].
    specialize (acyclic p b Hb). lia. }
  destruct (decide (Forall (λ p, p ∈ ordering t) (seq 0 (numBB bbg)))) as [Hfull|Hmiss].
  - assert (seq 0 (numBB bbg) ⊆+ ordering t) as Hsub.
    { apply NoDup_submseteq; [apply NoDup_seq|].
      intros p Hp. eapply Forall_forall in Hfull; eauto. }
    apply submseteq_length in Hsub. rewrite length_seq in Hsub. lia.
  - apply not_Forall_Exists in Hmiss; [|apply _].
    apply Exists_exists in Hmiss as (p & Hp & Hnot).
    apply elem_of_seq in Hp. apply (Hdescent (S (rank p)) p); [lia|lia|done].
Qed.

Lemma dag_loop (fuel : nat) (t : Traversal) :
  dag_ok bbg t →
  (numBB bbg - check_predecessors_idx t < fuel)%nat →
  ∃ t', traversal_loop sort_by_count bbg fuel t = Ok t' ∧
        dag_ok bbg t' ∧ (numBB bbg ≤ length (ordering t'))%nat.
Proof.
  revert t. induction fuel as [|fuel IH]; intros t Hdag Hfuel; [lia|].
  cbn [traversal_loop].
  destruct (Nat.ltb_spec (length (ordering t)) (numBB bbg)) as [Hshort|Hdone];
    [|by exists t].
  destruct (Nat.ltb_spec (check_predecessors_idx t) (length (ordering t)))
    as [Hmore|Hdry].
  - destruct Hdag as (Hok & Hlen & Hc & Htopo & Hcnt).
    destruct (lookup_lt_is_Some_2 (ordering t) (check_predecessors_idx t) Hmore)
      as [idx Hidx].
    rewrite Hidx. cbn [default from_option id].
    set (X := take (check_predecessors_idx t) (ordering t)) in *.
    set (t1 := {| ordering := ordering t; added := added t;
                  num_successors_added := num_successors_added t;
                  check_predecessors_idx := S (check_predecessors_idx t) |}).
    assert (Hsplit : ordering t = X ++ idx :: drop (S (check_predecessors_idx t)) (ordering t)).
    { unfold X. rewrite <-(take_drop_middle _ _ _ Hidx) at 1. done. }
    assert (Hfresh : idx ∉ X).
    { destruct Hok as (Hnd & _). rewrite Hsplit in Hnd.
      apply NoDup_app in Hnd as (_ & Hdis & _). intros Hin.
      apply (Hdis idx Hin). left. }
    assert (Hidxn : (idx < numBB bbg)%nat).
    { destruct Hok as (_ & Hla & Hflag).
      assert (Hin : idx ∈ ordering t) by (by eapply list_elem_of_lookup_2).
      apply Hflag, lookup_lt_Some in Hin. lia. }
    destruct (visit_predecessors_count X idx (preds_of bbg idx) [] t1)
      as (Hok' & Hlen' & [rest Hord'] & Htopo' & Hcnt' & Hc'); try done.
    { by eexists. }
    apply IH.
    + split_and!; try done.
      * rewrite Hc'. simpl. rewrite Hord', length_app. simpl.
        unfold X. rewrite length_take. lia.
      * rewrite Hc'. simpl.
        assert (Htake : take (S (check_predecessors_idx t))
                             (ordering (fold_left (visit_predecessor bbg)
                                                  (preds_of bbg idx) t1))
                        = X ++ [idx]).
        { rewrite Hord'.
          replace (X ++ idx :: rest) with ((X ++ [idx]) ++ rest)
            by (by rewrite <-app_assoc).
          rewrite take_app_length'; [done|].
          rewrite length_app. unfold X. rewrite length_take. simpl. lia. }
        rewrite Htake. intros p Hp Hun.
        destruct (Hcnt' p Hp Hun) as [Hnsa Hlt].
        rewrite succs_in_snoc by done.
        rewrite (edges_agree_spec p idx) by done.
        change (count_in p []) with 0%nat. rewrite !Nat.add_0_r. done.
    + rewrite Hc'. simpl. lia.
  - exfalso. apply (dag_no_stall t Hdag); [|done].
    destruct Hdag as (_ & _ & Hc & _). lia.
Qed.

Lemma add_exit_fold_shape (l : list nat) (t : Traversal) :
  let t' := fold_left (add_exit bbg) l t in
  ordering t' = ordering t ++ List.filter (is_exit bbg) l ∧
  num_successors_added t' = num_successors_added t ∧
  check_predecessors_idx t' = check_predecessors_idx t.
Proof.
  revert t. induction l as [|i l IH]; intros t t'.
  - subst t'. simpl. by rewrite app_nil_r.
  - subst t'. cbn [fold_left List.filter].
    destruct (IH (add_exit bbg t i)) as (Ho & Hn & Hc).
    rewrite Ho, Hn, Hc. unfold add_exit, is_exit.
    destruct (length (succs_of bbg i) =? 0)%nat; simpl; [|done].
    by rewrite <-app_assoc.
Qed.

Lemma dag_start :
  dag_ok bbg
    (fold_left (add_exit bbg) (seq 0 (numBB bbg))
       {| ordering := []; added := replicate (numBB bbg) false;
          num_successors_added := replicate (numBB bbg) 0;
          check_predecessors_idx := 0 |}).
Proof.
  destruct (add_exit_fold_ok bbg (numBB bbg) _ (traversal_start_ok bbg) eq_refl)
    as [Hok _]; [lia|].
  destruct (add_exit_fold_shape (seq 0 (numBB bbg))
              {| ordering := []; added := replicate (numBB bbg) false;
                 num_successors_added := replicate (numBB bbg) 0;
                 check_predecessors_idx := 0 |}) as (Ho & Hn & Hc).
  simpl in Ho, Hn, Hc.
  split_and!; [done| | | |].
  - by rewrite Hn, length_replicate.
  - rewrite Hc. lia.
  - rewrite Ho. intros pa a b Ha Hb.
    apply list_elem_of_lookup_2, list_elem_of_In, filter_In in Ha as [_ Hexit].
    unfold is_exit in Hexit. apply Nat.eqb_eq in Hexit.
    destruct (succs_of bbg a); [by apply elem_of_nil in Hb|done].
  - rewrite Hc. simpl. intros p Hp Hun.
    rewrite succs_in_nil, Hn. change (count_in p []) with 0%nat. simpl.
    rewrite lookup_replicate_2 by done. simpl. split; [done|].
    apply (unadded_not_in _ p Hok) in Hun. rewrite Ho in Hun.
    destruct (length (succs_of bbg p)) eqn:Hl; [|lia].
    exfalso. apply Hun, list_elem_of_In, filter_In. split.
    + apply in_seq. lia.
    + unfold is_exit. by rewrite Hl.
Qed.

End DagFacts.

(** X17: the traversal order begins with the exit blocks (the blocks
    without successors), in the order of the function. *)
Theorem traversal_order_begins_with_the_exits
        (sort_by_count : list (nat * Z) -> list (nat * Z)) (bbg : BBGraph)
        (order : list nat) :
  computeTraversalOrder sort_by_count bbg = Ok order →
  ∃ rest, order = List.filter (is_exit bbg) (seq 0 (numBB bbg)) ++ rest.
Proof.
  intros Hrun. unfold computeTraversalOrder in Hrun. rinva Hrun. injection Hrun as <-.
  destruct (add_exit_fold_shape bbg (seq 0 (numBB bbg))
              {| ordering := []; added := replicate (numBB bbg) false;
                 num_successors_added := replicate (numBB bbg) 0;
                 check_predecessors_idx := 0 |}) as (Ho & _).
  simpl in Ho. rewrite <-Ho. clear Ho Ha0 Ha1.
  revert Ha. generalize (fold_left (add_exit bbg) (seq 0 (numBB bbg))
              {| ordering := []; added := replicate (numBB bbg) false;
                 num_successors_added := replicate (numBB bbg) 0;
                 check_predecessors_idx := 0 |}).
  generalize (2 * numBB bbg + 1)%nat. intros fuel.
  assert (Hvisit : ∀ l t, ∃ rest,
            ordering (fold_left (visit_predecessor bbg) l t) = ordering t ++ rest).
  { induction l as [|p l IH]; intros t; simpl; [exists []; by rewrite app_nil_r|].
    destruct (IH (visit_predecessor bbg t p)) as [rest ->].
    unfold visit_predecessor. destruct (default false _); [by eexists|].
    destruct (Z.eqb _ _); simpl; [|by eexists].
    exists ([p] ++ rest). by rewrite <-app_assoc. }
  induction fuel as [|fuel IH]; intros t Hloop; simpl in Hloop.
  - destruct (_ <? _)%nat; [done|]. injection Hloop as <-.
    exists []. by rewrite app_nil_r.
  - destruct (length (ordering t) <? numBB bbg)%nat;
      [|injection Hloop as <-; exists []; by rewrite app_nil_r].
    destruct (check_predecessors_idx t <? length (ordering t))%nat.
    + apply IH in Hloop as [rest ->].
      match goal with
      | |- context [fold_left _ ?l ?t1] => destruct (Hvisit l t1) as [rest' ->]
      end.
      simpl. exists (rest' ++ rest). by rewrite <-app_assoc.
    + rinv Hloop. apply IH in Hloop as [rest ->].
      unfold break_cycle in Ha. rinv Ha.
      match type of Ha with
      | match ?x with _ => _ end = _ => destruct x as [best|]; [|done]
      end.
      injection Ha as <-. simpl. exists ([best] ++ rest). by rewrite <-app_assoc.
Qed.

(** X18: on a graph without cycles whose predecessor lists mirror its
    successor lists the traversal order is found without a provisional
    pick and without a failed assertion, lists every block once, and
    puts every block behind all of its successors. *)
Theorem traversal_order_of_an_acyclic_graph
        (sort_by_count : list (nat * Z) -> list (nat * Z)) (bbg : BBGraph)
        (rank : nat -> nat) :
  graph_in_range bbg →
  edges_agree bbg = true →
  (∀ i j, j ∈ succs_of bbg i → (rank j < rank i)%nat) →
  ∃ order, computeTraversalOrder sort_by_count bbg = Ok order ∧
           Permutation order (seq 0 (numBB bbg)) ∧
           successors_first bbg order.
Proof.
  intros Hrange Hagree Hrank. unfold computeTraversalOrder.
  destruct (dag_loop sort_by_count bbg rank Hrange Hagree Hrank
              (2 * numBB bbg + 1) _ (dag_start bbg))
    as (t' & -> & (Hok & _ & _ & Htopo & _) & Hlen).
  { destruct (add_exit_fold_shape bbg (seq 0 (numBB bbg))
              {| ordering := []; added := replicate (numBB bbg) false;
                 num_successors_added := replicate (numBB bbg) 0;
                 check_predecessors_idx := 0 |}) as (_ & _ & ->). simpl. lia. }
  destruct Hok as (Hnd & Hla & Hflag).
  assert (Hperm : Permutation (ordering t') (seq 0 (numBB bbg))).
  { apply submseteq_length_Permutation.
    - apply NoDup_submseteq; [done|]. intros i Hi. apply Hflag in Hi.
      apply elem_of_seq. apply lookup_lt_Some in Hi. lia.
    - rewrite length_seq. lia. }
  exists (ordering t'). rsimpl.
  apply Permutation_length in Hperm as Hl. rewrite length_seq in Hl.
  rewrite Hl, Hla, Nat.eqb_refl. rsimpl. done.
Qed.

(** * Further properties of the solver *)

(** ** The solver runs every block *)

Section BeenRun.
Variable rt : RefcountTracker.
Implicit Types (s st state : RefState).

Lemma reconcile_step_run bb v (min_refs : Z) s st (s_info : BlockMap * BasicBlock) :
  reconcile_step rt bb v min_refs s s_info = Ok st → been_run st = been_run s.
Proof.
  unfold reconcile_step. destruct (Z.ltb min_refs _); [by intros [= <-]|].
  destruct (Z.ltb _ min_refs); [|by intros [= <-]].
  intros H. rinv H. by injection H as <-.
Qed.

Lemma merge_value_run bb info s st v :
  merge_value rt bb info s v = Ok st → been_run st = been_run s.
Proof.
  intros H. unfold merge_value in H. rinv H.
  assert (Hrun : been_run a0 = been_run s).
  { eapply (foldM_invariant (λ s1, been_run s1 = been_run s)); [| |exact Ha0]; [|done].
    intros s1 a1 s2 _ Hs Hstep. apply reconcile_step_run in Hstep. congruence. }
  destruct (negb _).
  - by injection H as <-.
  - rinv H. by injection H as <-.
Qed.

Lemma merge_successors_run bb info s st :
  merge_successors rt bb info s = Ok st → been_run st = been_run s.
Proof.
  intros H. unfold merge_successors in H.
  destruct info as [|s0 info0] eqn:Hi; [by injection H as <-|]. rewrite <-Hi in *.
  rinv H.
  eapply (foldM_invariant (λ s1, been_run s1 = been_run s)); [| |exact H]; [|done].
  intros s1 v s2 _ Hs Hstep. apply merge_value_run in Hstep. congruence.
Qed.

Lemma adjust_definition_run inst pt ibb ifrom s st :
  adjust_definition rt inst pt ibb ifrom s = Ok st → been_run st = been_run s.
Proof.
  unfold adjust_definition. destruct (Z.ltb _ _).
  - intros H. rinv H. by injection H as <-.
  - by intros [= <-].
Qed.

Lemma scan_definition_run i following s st :
  scan_definition rt i following s = Ok st → been_run st = been_run s.
Proof.
  intros H. unfold scan_definition in H.
  destruct (_ && _); [|by injection H as <-].
  rinv H. injection H as <-. simpl.
  destruct (negb _).
  - rinv Ha. apply adjust_definition_run in Ha. by rewrite Ha.
  - by injection Ha as <-.
Qed.

Lemma scan_flush_run i following s st :
  scan_flush rt i following s = Ok st → been_run st = been_run s.
Proof.
  intros H. unfold scan_flush in H.
  destruct (may_throw_count rt (addr i)); [|by injection H as <-].
  rinv H.
  assert (Hrun : been_run a0.1 = been_run s).
  { eapply (foldM_invariant (λ acc : RefState * list Value, been_run acc.1 = been_run s)
                            _ _ (s, []) a0);
      [|reflexivity|exact Ha0].
    intros [s1 te] idx [s2 te'] _ Hs Hstep. unfold flush_step in Hstep.
    rinv Hstep. injection Hstep as <- _. simpl in *.
    by destruct (Z.ltb _ _). }
  eapply (foldM_invariant (λ s1, been_run s1 = been_run s)); [|exact Hrun|exact H].
  intros s1 v s2 _ Hs Hstep. unfold erase_step in Hstep. rinv Hstep.
  by injection Hstep as <-.
Qed.

Lemma plan_last_use_run bb i following op s st :
  plan_last_use rt bb i following op s = Ok st → been_run st = been_run s.
Proof.
  unfold plan_last_use. intros H.
  destruct (opcode i); try (by injection H as <-);
    rinv H; (destruct following as [|next ?]; [done|]);
    (destruct (isa_UnreachableInst next); [rinv H|]); by injection H as <-.
Qed.

Lemma keep_alive_step_run bb i following (nc : SmallOrderedMap.t) s st (p : Value * Z) :
  keep_alive_step rt bb i following nc s p = Ok st → been_run st = been_run s.
Proof.
  unfold keep_alive_step. intros H.
  destruct (_ && _); [|by injection H as <-].
  destruct (Z.eqb _ _); [|by injection H as <-].
  rinv H. injection H as <-. simpl. apply plan_last_use_run in Ha. by rewrite Ha.
Qed.

Lemma scan_fixup_run i s st :
  scan_fixup rt i s = Ok st → been_run st = been_run s.
Proof. by intros [->|[fx ->]]%scan_fixup_Ok. Qed.

Lemma stolen_step_run (nc : SmallOrderedMap.t) s (p : Value * Z) :
  been_run (stolen_step nc s p) = been_run s.
Proof. unfold stolen_step. by destruct (negb _). Qed.

Lemma scan_instruction_run bb s st (it : InstructionData * list InstructionData) :
  scan_instruction rt bb s it = Ok st → been_run st = been_run s.
Proof.
  intros H. destruct it as [i following]. unfold scan_instruction in H.
  rinv H. apply scan_definition_run in Ha.
  destruct (isa_PHINode i); [injection H as <-; done|].
  rinv H. apply scan_flush_run in Ha0.
  destruct a1 as [nc nt]. rinv H. injection H as <-.
  apply scan_fixup_run in Ha3.
  assert (Hk : been_run a1 = been_run a0).
  { eapply (foldM_invariant (λ s1, been_run s1 = been_run a0)); [| |exact Ha2]; [|done].
    intros s1 p s2 _ Hs Hstep. apply keep_alive_step_run in Hstep. congruence. }
  transitivity (been_run a2); [|congruence].
  apply (fold_left_invariant (λ s1, been_run s1 = been_run a2)); [|done].
  intros s1 p _ Hs. by rewrite stolen_step_run.
Qed.

Lemma scan_block_run (b : BasicBlockData) s st :
  scan_block rt b s = Ok st → been_run st = been_run s.
Proof.
  intros H. unfold scan_block in H.
  eapply (foldM_invariant (λ s1, been_run s1 = been_run s)); [| |exact H]; [|done].
  intros s1 it s2 _ Hs Hstep. apply scan_instruction_run in Hstep. congruence.
Qed.

Lemma invoke_step_run bb s st (ii : InstructionData * BasicBlock) :
  invoke_step rt bb s ii = Ok st → been_run st = been_run s.
Proof.
  intros H. unfold invoke_step in H.
  destruct (opcode ii.1); try (by injection H as <-).
  destruct (Pos.eqb _ bb); [|by injection H as <-].
  rinv H. injection H as <-. simpl.
  destruct (negb _).
  - apply adjust_definition_run in Ha. by rewrite Ha.
  - by injection Ha as <-.
Qed.

End BeenRun.

Section SolveFacts.
Variable classof : Value -> ValueClass.
Variable rt : RefcountTracker.
Variable f : Function.
Variable bbg : BBGraph.

Lemma finish_entry_run bb s st :
  finish_entry classof rt f bb s = Ok st → been_run st = been_run s.
Proof.
  intros H. unfold finish_entry in H.
  destruct (is_entry_block f bb); [|by injection H as <-].
  rinv H. injection H as <-. simpl.
  eapply (foldM_invariant (λ s1, been_run s1 = been_run s)); [| |exact Ha0]; [|done].
  intros s1 p s2 _ Hs Hstep. unfold entry_step in Hstep. rinv Hstep.
  by injection Hstep as <-.
Qed.

Lemma process_block_run idx (states states' : list RefState) (changed : bool) :
  (idx < length states)%nat →
  process_block classof rt f bbg idx states = Ok (states', changed) →
  length states' = length states ∧
  been_run (state_at states' idx) = true ∧
  ∀ j, j ≠ idx → state_at states' j = state_at states j.
Proof.
  intros Hidx H. unfold process_block in H.
  destruct (fn_blocks f !! idx) as [b|]; [|done].
  cbv zeta in H. rinv H. injection H as <- _.
  apply merge_successors_run in Ha0. apply scan_block_run in Ha1.
  apply finish_entry_run in Ha3.
  assert (Hi : been_run a2 = been_run a1).
  { eapply (foldM_invariant (λ s1, been_run s1 = been_run a1)); [| |exact Ha2]; [|done].
    intros s1 ii s2 _ Hs Hstep. apply invoke_step_run in Hstep. congruence. }
  split_and!.
  - by rewrite !length_insert.
  - unfold state_at. rewrite list_lookup_insert_eq by (by rewrite length_insert).
    simpl. rewrite Ha3, Hi, Ha1. simpl. by rewrite Ha0.
  - intros j Hj. unfold state_at. by rewrite !list_lookup_insert_ne by done.
Qed.

Lemma add_queued (idx : nat) (o : BlockOrderer.t) :
  orderer_ok o → (idx < length (BlockOrderer.in_queue o))%nat →
  idx ∈ (BlockOrderer.queue (BlockOrderer.add idx o)).*1 ∧
  (∀ j, j ∈ (BlockOrderer.queue o).*1 →
        j ∈ (BlockOrderer.queue (BlockOrderer.add idx o)).*1) ∧
  length (BlockOrderer.in_queue (BlockOrderer.add idx o))
  = length (BlockOrderer.in_queue o).
Proof.
  intros (Hnd & Hflag & Hpri) Hlt. unfold BlockOrderer.add.
  destruct (default false (BlockOrderer.in_queue o !! idx)) eqn:Hq.
  - split_and!; [by apply Hflag|done|done].
  - simpl. split_and!; [left|by right|by rewrite length_insert].
Qed.

Lemma adds_queued (l : list nat) (o : BlockOrderer.t) :
  orderer_ok o → Forall (λ i, (i < length (BlockOrderer.in_queue o))%nat) l →
  let o' := fold_left (λ o p, BlockOrderer.add p o) l o in
  orderer_ok o' ∧
  length (BlockOrderer.in_queue o') = length (BlockOrderer.in_queue o) ∧
  ∀ j, j ∈ l ∨ j ∈ (BlockOrderer.queue o).*1 → j ∈ (BlockOrderer.queue o').*1.
Proof.
  revert o. induction l as [|p l IH]; intros o Hok Hl o'.
  - subst o'. simpl. split_and!; [done..|]. intros j [?%elem_of_nil|?]; done.
  - subst o'. cbn [fold_left]. apply Forall_cons in Hl as [Hp Hl].
    destruct (add_queued p o Hok Hp) as (Hin & Hkeep & Hlen).
    destruct (IH (BlockOrderer.add p o)) as (Hok' & Hlen' & Hq').
    { by apply add_ok. }
    { by rewrite Hlen. }
    split_and!; [done|congruence|].
    intros j [[->|Hj]%elem_of_cons|Hj]; apply Hq'; auto.
Qed.

Hypothesis in_range : graph_in_range bbg.

(** What the worklist loop keeps: a block is queued, or it has been
    run. *)
Lemma solve_loop_runs_all (fuel : nat) (o : BlockOrderer.t)
      (states states' : list RefState) (visited visited' : list nat) :
  orderer_ok o →
  length (BlockOrderer.in_queue o) = numBB bbg →
  length states = numBB bbg →
  (∀ i, (i < numBB bbg)%nat →
        i ∈ (BlockOrderer.queue o).*1
        ∨ (i ∈ visited ∧ been_run (state_at states i) = true)) →
  solve_loop classof rt f bbg fuel o states visited = Ok (states', visited') →
  length states' = numBB bbg ∧
  ∀ i, (i < numBB bbg)%nat → i ∈ visited' ∧ been_run (state_at states' i) = true.
Proof.
  revert o states visited.
  induction fuel as [|fuel IH]; intros o states visited Hok Hlq Hls Hinv H; [done|].
  cbn [solve_loop] in H. rinv H. destruct a as [popped o1].
  pose proof (pop_ok _ _ _ Hok Ha) as Hok1.
  unfold BlockOrderer.pop in Ha.
  pose proof (top_spec (BlockOrderer.queue o)) as Htop.
  destruct (BlockOrderer.top (BlockOrderer.queue o)) as [p|].
  - destruct Htop as [Hin _]. rinva Ha. injection Ha as <- <-.
    lazy iota beta in H. rinv H. destruct a0 as [states1 changed].
    destruct Hok as (Hnd & Hflag & Hpri).
    assert (Hp : (p.1 < numBB bbg)%nat).
    { rewrite <-Hlq.
      assert (Hq : default false (BlockOrderer.in_queue o !! p.1) = true).
      { apply Hflag, list_elem_of_fmap. by exists p. }
      destruct (BlockOrderer.in_queue o !! p.1) eqn:E; [|done].
      by eapply lookup_lt_Some. }
    destruct (process_block_run p.1 states states1 changed) as (Hl1 & Hrun & Hsame);
      [lia|done|].
    destruct (remove_fst p _ Hin Hnd) as (Hmem & _ & _).
    set (o1 := {| BlockOrderer.priority := BlockOrderer.priority o;
                  BlockOrderer.in_queue := <[p.1:=false]> (BlockOrderer.in_queue o);
                  BlockOrderer.queue := BlockOrderer.remove p (BlockOrderer.queue o) |})
      in *.
    assert (Hlq1 : length (BlockOrderer.in_queue o1) = numBB bbg).
    { unfold o1. simpl. by rewrite length_insert. }
    destruct (adds_queued (preds_of bbg p.1) o1 Hok1) as (Hok2 & Hlq2 & Hq2).
    { rewrite Hlq1. apply preds_of_in_range, in_range. }
    assert (Hstep : ∀ o2,
      orderer_ok o2 → length (BlockOrderer.in_queue o2) = numBB bbg →
      (∀ j, j ∈ (BlockOrderer.queue o1).*1 → j ∈ (BlockOrderer.queue o2).*1) →
      solve_loop classof rt f bbg fuel o2 states1 (visited ++ [p.1])
      = Ok (states', visited') →
      length states' = numBB bbg ∧
      ∀ i, (i < numBB bbg)%nat → i ∈ visited' ∧ been_run (state_at states' i) = true).
    { intros o2 Hok' Hlq' Hsub Hloop.
      eapply (IH o2 states1 (visited ++ [p.1])); [done|done|lia| |done].
      intros i Hi. destruct (decide (i = p.1)) as [->|Hne].
      - right. split; [|done]. apply elem_of_app. right. left.
      - destruct (Hinv i Hi) as [Hq|[Hv Hr]].
        + left. apply Hsub. unfold o1. simpl. apply Hmem. done.
        + right. split; [apply elem_of_app; by left|]. by rewrite Hsame. }
    destruct changed.
    + apply (Hstep _ Hok2); [congruence| |done]. intros j Hj. apply Hq2. by right.
    + by apply (Hstep o1).
  - subst. injection Ha as <- <-. injection H as <- <-.
    split; [done|]. intros i Hi.
    destruct (Hinv i Hi) as [Hq|?]; [|done].
    rewrite Htop in Hq. by apply elem_of_nil in Hq.
Qed.

End SolveFacts.

(** X19: when the solver returns, it has run every block of the
    function at least once, and it holds one state for each block. *)
Theorem solver_runs_every_block (sort_by_count : list (nat * Z) -> list (nat * Z))
        (classof : Value -> ValueClass) (rt : RefcountTracker) (f : Function)
        (fuel : nat) (states : list RefState) (visited : list nat) :
  solve sort_by_count classof rt f fuel = Ok (states, visited) →
  length states = length (fn_blocks f) ∧
  ∀ idx, (idx < length (fn_blocks f))%nat →
         idx ∈ visited ∧ been_run (state_at states idx) = true.
Proof.
  intros H. unfold solve in H. rinv H.
  assert (Hn : numBB (mkBBGraph f) = length (fn_blocks f)).
  { unfold numBB, mkBBGraph. simpl. by rewrite length_fmap. }
  assert (Hlen : length a = length (fn_blocks f)).
  { unfold computeTraversalOrder in Ha. rinva Ha. injection Ha as <-.
    apply Nat.eqb_eq in Ha1. congruence. }
  destruct (adds_queued (seq 0 (length (fn_blocks f))) (BlockOrderer.create a))
    as (Hok & Hlq & Hq).
  { apply create_ok. }
  { simpl. rewrite length_replicate, Hlen. apply Forall_forall.
    intros i Hi. apply elem_of_seq in Hi. lia. }
  rewrite <-Hn.
  eapply (solve_loop_runs_all classof rt f (mkBBGraph f) (mkBBGraph_in_range f));
    [exact Hok| | | |exact H].
  - rewrite Hlq. simpl. rewrite length_replicate. congruence.
  - rewrite length_replicate. congruence.
  - intros i Hi. left. apply Hq. left. apply elem_of_seq. lia.
Qed.

(** ** The solver on a function without loops *)




Section OnePass.
Variable sort_by_count : list (nat * Z) -> list (nat * Z).
Variable classof : Value -> ValueClass.
Variable rt : RefcountTracker.
Variable f : Function.
Variable bbg : BBGraph.
Variable rank : nat -> nat.
Hypothesis in_range : graph_in_range bbg.
Hypothesis agree : edges_agree bbg = true.
Hypothesis acyclic : ∀ i j, j ∈ succs_of bbg i → (rank j < rank i)%nat.



End OnePass.


(** * Further properties of the mutator *)

Section WalkFacts.
Variable alloc : nat -> positive.

Lemma findInsertionPoint_grows BB from f cache pt f' cache' :
  findInsertionPoint alloc BB from (f, cache) = Ok (pt, (f', cache')) →
  cache ⊆ cache' ∧
  ∃ BB', BB = Some BB' ∧ Some BB' ≠ from ∧ cache' !! (BB', from) = Some pt.
Proof.
  intros H. unfold findInsertionPoint in H.
  destruct BB as [BB'|]; [|done]. rinva H.
  apply negb_true_iff, bool_decide_eq_false in Ha.
  assert (Hins : ∀ x, cache !! (BB', from) = None →
                      cache ⊆ <[(BB', from) := x]> cache).
  { intros x Hn. by apply insert_subseteq. }
  destruct (cache !! (BB', from)) as [pt0|] eqn:Hc.
  { injection H as <- <- <-. split; [done|]. by exists BB'. }
  destruct (find_block f BB') as [b|]; [|done].
  destruct (Z.ltb 1 (numPredecessors b)).
  - destruct from as [from'|]; [|done]. rinv H. destruct a0 as [f1 br].
    injection H as <- <- <-. split; [by apply Hins|].
    exists BB'. by rewrite lookup_insert_eq.
  - destruct (bb_insts b) as [|first rest]; [done|].
    destruct (isa_LandingPadInst first).
    + destruct ((first :: rest) !! 3%nat); [|done].
      injection H as <- <- <-. split; [by apply Hins|].
      exists BB'. by rewrite lookup_insert_eq.
    + destruct (List.find _ _); [|done].
      injection H as <- <- <-. split; [by apply Hins|].
      exists BB'. by rewrite lookup_insert_eq.
Qed.

Lemma covered_mono cache cache' op :
  cache ⊆ cache' → covered cache op → covered cache' op.
Proof.
  intros Hsub [Hi|(BB & Hb & Hne & [pt Hpt])]; [by left|].
  right. exists BB. split_and!; [done..|]. exists pt.
  by eapply lookup_weaken.
Qed.

Lemma insertion_point_of_covers op f cache pt f' cache' :
  insertion_point_of alloc op (f, cache) = Ok (pt, (f', cache')) →
  cache ⊆ cache' ∧ covered cache' op.
Proof.
  unfold insertion_point_of. destruct (insertion_inst op) as [i|] eqn:Hi.
  - intros [= <- <- <-]. split; [done|]. left. by rewrite Hi.
  - intros H. apply findInsertionPoint_grows in H as (Hsub & BB & Hb & Hne & Hpt).
    split; [done|]. right. exists BB. by split_and!.
Qed.

Lemma find_steps_cover (ops : list RefOp) (st st' : Function * InsertionCache) :
  foldM (find_step alloc) ops st = Ok st' →
  st.2 ⊆ st'.2 ∧ Forall (covered st'.2) ops.
Proof.
  revert st. induction ops as [|op ops IH]; intros st H; simpl in H.
  - injection H as <-. split; [done|constructor].
  - rinv H. unfold find_step in Ha. rinv Ha. injection Ha as <-.
    destruct st as [f cache], a0 as [pt [f1 cache1]].
    apply insertion_point_of_covers in Ha0 as [Hsub Hcov].
    apply IH in H as [Hsub' Hall]. simpl in *.
    split; [by etrans|]. constructor; [|done]. by eapply covered_mono.
Qed.

Lemma find_insertion_points_cover (states : list RefState)
      (st st' : Function * InsertionCache) :
  find_insertion_points alloc states st = Ok st' →
  st.2 ⊆ st'.2 ∧
  Forall (λ s, Forall (covered st'.2) (increfs s) ∧ Forall (covered st'.2) (decrefs s))
         states.
Proof.
  unfold find_insertion_points. revert st.
  induction states as [|s states IH]; intros st H; simpl in H.
  - injection H as <-. split; [done|constructor].
  - rinv H. unfold find_in_state in Ha. rinv Ha.
    apply find_steps_cover in Ha0 as [Hs1 Hc1].
    apply find_steps_cover in Ha as [Hs2 Hc2].
    apply IH in H as [Hs3 Hall].
    split; [by do 2 (etrans; [done|])|].
    constructor; [|done]. split.
    + eapply Forall_impl; [exact Hc1|]. intros op. apply covered_mono. by etrans.
    + eapply Forall_impl; [exact Hc2|]. intros op. by apply covered_mono.
Qed.

(** The search for a covered operation is answered at once: by the
    instruction the operation was planned at, or from the cache. *)
Lemma insertion_point_of_cached op f cache :
  covered cache op →
  ∃ pt, insertion_point_of alloc op (f, cache) = Ok (pt, (f, cache)) ∧
        match insertion_inst op with
        | Some i => pt = i
        | None => ∃ BB, insertion_bb op = Some BB ∧
                        cache !! (BB, insertion_from_bb op) = Some pt
        end.
Proof.
  unfold insertion_point_of. intros [[i Hi]|(BB & Hb & Hne & [pt Hpt])].
  - rewrite Hi. by eexists.
  - destruct (insertion_inst op); [by eexists|].
    unfold findInsertionPoint. rewrite Hb.
    rewrite bool_decide_eq_false_2 by done. rsimpl. cbn [negb].
    rewrite Hpt. exists pt. split; [done|]. by exists BB.
Qed.

End WalkFacts.

(** X21: after the first walk of the mutator, the search for the
    insertion point that the second walk makes for a planned increment
    or decrement is answered without a new search, whatever the
    emitters have made of the function in between: it returns the
    instruction that the operation was planned at, or the point that
    the first walk has put into the cache for its edge; it splits no
    edge and changes neither the function nor the cache. *)
Theorem second_walk_hits_the_cache (alloc : nat -> positive)
        (states : list RefState) (st0 : Function * InsertionCache)
        (f1 : Function) (cache1 : InsertionCache)
        (s : RefState) (op : RefOp) (f' : Function) :
  find_insertion_points alloc states st0 = Ok (f1, cache1) →
  s ∈ states →
  op ∈ increfs s ++ decrefs s →
  ∃ pt,
    insertion_point_of alloc op (f', cache1) = Ok (pt, (f', cache1)) ∧
    match insertion_inst op with
    | Some i => pt = i
    | None => ∃ BB, insertion_bb op = Some BB ∧
                    cache1 !! (BB, insertion_from_bb op) = Some pt
    end.
Proof.
  intros Hfind Hs Hop. apply find_insertion_points_cover in Hfind as [_ Hcov].
  rewrite Forall_forall in Hcov. destruct (Hcov s Hs) as [Hi Hd].
  apply insertion_point_of_cached. cbn [snd] in Hi, Hd.
  apply elem_of_app in Hop as [Hop|Hop].
  - by apply (proj1 (Forall_forall _ _) Hi).
  - by apply (proj1 (Forall_forall _ _) Hd).
Qed.

(** ** The splitting of critical edges *)

Lemma find_split {A} (g : A -> bool) (l : list A) (x : A) :
  List.find g l = Some x →
  ∃ pre post, l = pre ++ x :: post ∧ g x = true ∧ Forall (λ y, g y = false) pre.
Proof.
  induction l as [|a l IH]; simpl; [done|].
  destruct (g a) eqn:Hg.
  - intros [= ->]. exists [], l. by split_and!.
  - intros H. destruct (IH H) as (pre & post & -> & Hx & Hpre).
    exists (a :: pre), post. split_and!; [done|done|by constructor].
Qed.

Lemma replace_first_length (a b : BasicBlock) (l : list BasicBlock) :
  length (replace_first a b l) = length l.
Proof.
  induction l as [|x l IH]; simpl; [done|]. destruct (Pos.eqb x a); simpl; congruence.
Qed.

Lemma replace_first_absent (a b : BasicBlock) (l : list BasicBlock) :
  a ∉ l → replace_first a b l = l.
Proof.
  induction l as [|x l IH]; simpl; [done|]. intros Hn.
  apply not_elem_of_cons in Hn as [Hne Hn].
  destruct (Pos.eqb_spec x a); [congruence|]. by rewrite IH.
Qed.

Lemma replace_first_present (a b : BasicBlock) (l1 l2 : list BasicBlock) :
  a ∉ l1 → replace_first a b (l1 ++ a :: l2) = l1 ++ b :: l2.
Proof.
  induction l1 as [|x l1 IH]; simpl; intros Hn.
  - by rewrite Pos.eqb_refl.
  - apply not_elem_of_cons in Hn as [Hne Hn].
    destruct (Pos.eqb_spec x a); [congruence|]. by rewrite IH.
Qed.

Lemma remapPhis_shape (a b : BasicBlock) (phis rest : list InstructionData) :
  Forall (λ i, isa_PHINode i = true) phis →
  match rest with [] => True | i :: _ => isa_PHINode i = false end →
  remapPhis a b (phis ++ rest) = (redirect_phi a b <$> phis) ++ rest.
Proof.
  intros Hphis Hrest. induction Hphis as [|i phis Hi Hphis IH]; simpl.
  - destruct rest as [|i rest]; [done|]. simpl. unfold isa_PHINode in Hrest.
    by destruct (opcode i).
  - unfold redirect_phi at 1. unfold isa_PHINode in Hi.
    destruct (opcode i); try done. by rewrite IH.
Qed.

Lemma remapPhis_addr (a b : BasicBlock) (l : list InstructionData) :
  addr <$> remapPhis a b l = addr <$> l ∧
  operands <$> remapPhis a b l = operands <$> l.
Proof.
  induction l as [|i l [IH1 IH2]]; [done|]. cbn [remapPhis].
  destruct (opcode i); try done. rewrite !fmap_cons. cbn [set_opcode addr operands].
  by rewrite IH1, IH2.
Qed.

(** X22: [remapPhis] touches nothing but the incoming blocks of the
    phis at the head of the block: every instruction keeps its address
    and its operands, the instructions from the first non-phi on are
    as they were, and in each leading phi only the first incoming entry
    of [from_block] is redirected to the new block (a phi without such
    an entry is not changed). *)
Theorem remapPhis_redirects_leading_phis (from_block new_from_block : BasicBlock)
        (phis rest : list InstructionData) :
  Forall (λ i, isa_PHINode i = true) phis →
  match rest with [] => True | i :: _ => isa_PHINode i = false end →
  remapPhis from_block new_from_block (phis ++ rest)
  = (redirect_phi from_block new_from_block <$> phis) ++ rest ∧
  addr <$> remapPhis from_block new_from_block (phis ++ rest) = addr <$> (phis ++ rest) ∧
  operands <$> remapPhis from_block new_from_block (phis ++ rest)
  = operands <$> (phis ++ rest) ∧
  (∀ incoming, from_block ∉ incoming →
     replace_first from_block new_from_block incoming = incoming) ∧
  (∀ l1 l2, from_block ∉ l1 →
     replace_first from_block new_from_block (l1 ++ from_block :: l2)
     = l1 ++ new_from_block :: l2).
Proof.
  intros Hphis Hrest.
  destruct (remapPhis_addr from_block new_from_block (phis ++ rest)) as [Ha Ho].
  split_and!; [by apply remapPhis_shape|done|done| |].
  - apply replace_first_absent.
  - apply replace_first_present.
Qed.

Lemma find_block_addr (f : Function) (BB : BasicBlock) (b : BasicBlockData) :
  find_block f BB = Some b → bb_addr b = BB.
Proof.
  unfold find_block. intros H. apply find_split in H as (pre & post & _ & Hb & _).
  by apply Pos.eqb_eq.
Qed.

Lemma retarget_spec (BB breaker : BasicBlock) (t t' : InstructionData) (moved : nat) :
  breaker ≠ BB →
  retarget BB breaker t = Ok (t', moved) →
  isTerminator t' = true ∧ addr t' = addr t ∧ BB ∉ terminator_successors t'.
Proof.
  intros Hne H. unfold retarget in H.
  destruct (opcode t) as [| | | | |normal unwind|s0 s1| | | |] eqn:Hop; try done.
  - rinva H. injection H as <- _. apply negb_true_iff, Pos.eqb_neq in Ha.
    unfold isTerminator, terminator_successors. simpl. split_and!; [done..|].
    destruct (Pos.eqb_spec normal BB); set_solver.
  - injection H as <- _.
    unfold isTerminator, terminator_successors. simpl. split_and!; [done..|].
    destruct s1 as [s1|].
    + destruct (Pos.eqb_spec s0 BB), (Pos.eqb_spec s1 BB); set_solver.
    + destruct (Pos.eqb_spec s0 BB); set_solver.
Qed.

Lemma getTerminator_replace_last (d : BasicBlockData) (t : InstructionData) :
  isTerminator t = true →
  getTerminator (set_insts d (replace_last (bb_insts d) t)) = Some t.
Proof.
  intros Ht. unfold getTerminator, replace_last. simpl.
  by rewrite last_snoc, Ht.
Qed.

(** X23: a critical edge (an edge to a block with more than one
    predecessor) is split by a new block that is put right before its
    destination and holds one unconditional branch to it; this branch
    is the insertion point, and it is cached.  The other blocks keep
    their addresses and their order, the instructions of the
    destination keep their addresses, the destination now has the new
    block as a predecessor, and the terminator of the source block no
    longer leads to the destination. *)
Theorem critical_edge_is_split (alloc : nat -> positive) (f f' : Function)
        (cache cache' : InsertionCache) (BB from_bb : BasicBlock)
        (b : BasicBlockData) (pt : Instruction) :
  find_block f BB = Some b →
  1 < numPredecessors b →
  cache !! (BB, Some from_bb) = None →
  NoDup (bb_addr <$> fn_blocks f) →
  alloc (fn_created f) ∉ bb_addr <$> fn_blocks f →
  findInsertionPoint alloc (Some BB) (Some from_bb) (f, cache) = Ok (pt, (f', cache')) →
  pt = alloc (S (fn_created f)) ∧
  cache' = <[(BB, Some from_bb) := pt]> cache ∧
  fn_created f' = S (S (fn_created f)) ∧
  (∃ pre post pre' b' post' moved,
     fn_blocks f = pre ++ b :: post ∧
     fn_blocks f'
     = pre' ++ breaker_block (alloc (fn_created f)) pt from_bb BB moved :: b' :: post' ∧
     bb_addr <$> pre' = bb_addr <$> pre ∧
     bb_addr <$> post' = bb_addr <$> post ∧
     bb_addr b' = BB ∧
     addr <$> bb_insts b' = addr <$> bb_insts b ∧
     bb_preds b' = alloc (fn_created f) :: remove_uses moved from_bb (bb_preds b)) ∧
  (∀ d, d ∈ fn_blocks f' → bb_addr d = from_bb → BB ∉ succ_range d).
Proof.
  intros Hb Hmany Hmiss Hnd Hfresh H.
  pose proof (find_block_addr f BB b Hb) as Hbaddr.
  unfold findInsertionPoint in H. rinva H.
  apply negb_true_iff, bool_decide_eq_false in Ha.
  assert (Hne : BB ≠ from_bb) by congruence.
  rewrite Hmiss, Hb in H. apply Z.ltb_lt in Hmany. rewrite Hmany in H.
  rinv H. destruct a0 as [f1 br]. injection H as <- <- <-.
  unfold break_edge in Ha0. rewrite Hbaddr in Ha0.
  destruct (find_block f from_bb) as [fb|] eqn:Hfb; [|done].
  destruct (getTerminator fb) as [t|] eqn:Ht; [|done].
  rinv Ha0. destruct a0 as [t' moved]. injection Ha0 as <- <-.
  assert (Hbrk : alloc (fn_created f) ≠ BB).
  { intros Heq. apply Hfresh. rewrite Heq, <-Hbaddr.
    unfold find_block in Hb. apply find_split in Hb as (pre & post & -> & _).
    rewrite fmap_app, fmap_cons. apply elem_of_app. right. left. }
  destruct (retarget_spec BB _ t t' moved Hbrk Ha1) as (Hterm & Htaddr & Hsucc).
  set (g := λ d : BasicBlockData,
         if Pos.eqb (bb_addr d) from_bb
         then set_insts d (replace_last (bb_insts d) t') else d).
  assert (Hgaddr : ∀ d, bb_addr (g d) = bb_addr d).
  { intros d. unfold g. by destruct (Pos.eqb _ _). }
  set (rw := λ d : BasicBlockData,
         if Pos.eqb (bb_addr (g d)) BB
         then [ breaker_block (alloc (fn_created f)) (alloc (S (fn_created f)))
                              from_bb BB moved;
                set_preds (set_insts (g d) (remapPhis from_bb (alloc (fn_created f))
                                                      (bb_insts (g d))))
                          (alloc (fn_created f)
                             :: remove_uses moved from_bb (bb_preds (g d))) ]
         else [g d]).
  assert (Hother : ∀ l, Forall (λ d, bb_addr d ≠ BB) l → flat_map rw l = g <$> l).
  { induction 1 as [|d l Hd Hl IH]; simpl; [done|].
    rewrite IH. unfold rw at 1. rewrite Hgaddr.
    by destruct (Pos.eqb_spec (bb_addr d) BB). }
  unfold find_block in Hb. apply find_split in Hb as (pre & post & Hsplit & _ & Hpre).
  assert (HpreBB : Forall (λ d, bb_addr d ≠ BB) pre).
  { eapply Forall_impl; [exact Hpre|]. intros d Hd. by apply Pos.eqb_neq. }
  assert (HpostBB : Forall (λ d, bb_addr d ≠ BB) post).
  { rewrite Hsplit, fmap_app, fmap_cons in Hnd.
    apply NoDup_app in Hnd as (_ & _ & Hnd). apply NoDup_cons in Hnd as [Hnot _].
    apply Forall_forall. intros d Hd Heq. apply Hnot. rewrite Hbaddr, <-Heq.
    apply list_elem_of_fmap. by exists d. }
  assert (Hgb : g b = b).
  { unfold g. rewrite Hbaddr. by destruct (Pos.eqb_spec BB from_bb). }
  assert (Hblocks : flat_map rw (fn_blocks f)
            = (g <$> pre)
              ++ breaker_block (alloc (fn_created f)) (alloc (S (fn_created f)))
                               from_bb BB moved
              :: set_preds (set_insts b (remapPhis from_bb (alloc (fn_created f))
                                                   (bb_insts b)))
                           (alloc (fn_created f) :: remove_uses moved from_bb (bb_preds b))
              :: (g <$> post)).
  { rewrite Hsplit, flat_map_app. simpl. rewrite !Hother by done.
    unfold rw at 1. rewrite Hgb, Hbaddr, Pos.eqb_refl. done. }
  split_and!; [done|done|done| |].
  - eexists pre, post, (g <$> pre), _, (g <$> post), moved.
    split_and!; [done|exact Hblocks| | |done| |done].
    + rewrite <-list_fmap_compose. apply list_fmap_ext. intros ? d _. apply Hgaddr.
    + rewrite <-list_fmap_compose. apply list_fmap_ext. intros ? d _. apply Hgaddr.
    + simpl. apply remapPhis_addr.
  - intros d Hd Hdaddr. change (d ∈ flat_map rw (fn_blocks f)) in Hd.
    rewrite Hblocks in Hd.
    assert (Hfrom : ∀ (l : list BasicBlockData) d,
              d ∈ g <$> l → bb_addr d = from_bb → BB ∉ succ_range d).
    { intros l d' Hin Haddr. apply list_elem_of_fmap in Hin as (d0 & -> & _).
      rewrite Hgaddr in Haddr. unfold g. rewrite Haddr, Pos.eqb_refl.
      unfold succ_range. by rewrite getTerminator_replace_last. }
    apply elem_of_app in Hd as [Hd|Hd]; [by eapply Hfrom|].
    apply elem_of_cons in Hd as [->|Hd].
    { simpl in Hdaddr. exfalso. apply Hfresh. rewrite Hdaddr.
      unfold find_block in Hfb. apply find_split in Hfb as (p1 & p2 & -> & Hx & _).
      apply Pos.eqb_eq in Hx. rewrite <-Hx, fmap_app, fmap_cons.
      apply elem_of_app. right. left. }
    apply elem_of_cons in Hd as [->|Hd]; [|by eapply Hfrom].
    simpl in Hdaddr. congruence.
Qed.

(** X24: a critical edge that is the unwind edge of an invoke cannot
    be split: the search for its insertion point fails the assertion
    "don't know how break critical unwind edges" (this is the edge on
    which the solver plans the decrement after the last use of an
    owned value at an invoke). *)
Theorem critical_unwind_edge_is_refused (alloc : nat -> positive) (f : Function)
        (cache : InsertionCache) (BB from_bb normal : BasicBlock)
        (b fb : BasicBlockData) (t : InstructionData) :
  find_block f BB = Some b →
  1 < numPredecessors b →
  cache !! (BB, Some from_bb) = None →
  BB ≠ from_bb →
  find_block f from_bb = Some fb →
  getTerminator fb = Some t →
  opcode t = InvokeInst normal BB →
  findInsertionPoint alloc (Some BB) (Some from_bb) (f, cache)
  = Err (AssertionFailed "don't know how break critical unwind edges").
Proof.
  intros Hb Hmany Hmiss Hne Hfb Ht Hop.
  pose proof (find_block_addr f BB b Hb) as Hbaddr.
  unfold findInsertionPoint.
  rewrite bool_decide_eq_false_2 by congruence. rsimpl. cbn [negb].
  rewrite Hmiss, Hb. apply Z.ltb_lt in Hmany. rewrite Hmany.
  unfold break_edge. rewrite Hfb, Ht. unfold retarget. rewrite Hop, Hbaddr.
  by rewrite Pos.eqb_refl.
Qed.

(** ** The emission of a decrement *)

(** X25: [addDecrefs] calls the patchpoint intrinsic at most once,
    and always with the identifier and size of the plain decrement:
    for a nullable value it builds the null check itself and puts the
    patchpoint into the new "decref" block, so that the XDECREF
    patchpoint is never used.  The call is made exactly when the
    function returns and the value is not a constant null pointer. *)
Theorem addDecrefs_never_uses_xdecref (classof : Value -> ValueClass)
        (sigtrap_returns : bool)
        (DECREF_PP_ID XDECREF_PP_ID DECREF_PP_SIZE XDECREF_PP_SIZE : Z)
        (v : Value) (nullable : bool) (num_refs : Z) (decref_pt : Instruction) :
  let r := addDecrefs classof sigtrap_returns
                      DECREF_PP_ID XDECREF_PP_ID DECREF_PP_SIZE XDECREF_PP_SIZE
                      v nullable num_refs decref_pt in
  r.2 ≠ Err OutOfFuel ∧
  List.filter is_patchpoint r.1
  = if is_ok r.2 && negb (isa_ConstantPointerNull (classof v))
    then [CreatePatchpointCall DECREF_PP_ID DECREF_PP_SIZE v
            (if nullable then CreatedBranch "decref" else ExistingInst decref_pt)]
    else [].
Proof.
  unfold addDecrefs. cbn [addDecrefs_rec].
  destruct sigtrap_returns;
    destruct (isa_ConstantPointerNull (classof v)) eqn:Hnull;
    destruct nullable;
    destruct (Z.ltb_spec 0 num_refs); destruct (Z.eqb_spec num_refs 1);
    destruct (Z.ltb_spec 1 num_refs); simpl; try lia; by split.
Qed.

(** * Further properties of the backward scan *)

Lemma small_get_update (g : Z -> Z) (k k' : Value) (v : SmallOrderedMap.t) :
  SmallOrderedMap.get (SmallOrderedMap.update g k v) k'
  = if Pos.eqb k' k then g (SmallOrderedMap.get v k) else SmallOrderedMap.get v k'.
Proof.
  induction v as [|p v IH]; simpl.
  - rewrite (Pos.eqb_sym k k'). by destruct (Pos.eqb k' k).
  - destruct (Pos.eqb_spec p.1 k) as [Hp|Hp]; simpl.
    + destruct (Pos.eqb_spec p.1 k') as [Hp'|Hp'].
      * subst. by rewrite Pos.eqb_refl.
      * destruct (Pos.eqb_spec k' k); [congruence|done].
    + destruct (Pos.eqb_spec p.1 k') as [Hp'|Hp']; [|done].
      destruct (Pos.eqb_spec k' k); [congruence|done].
Qed.

Lemma small_update_keys (g : Z -> Z) (k : Value) (v : SmallOrderedMap.t) :
  (SmallOrderedMap.update g k v).*1
  = if decide (k ∈ v.*1) then v.*1 else v.*1 ++ [k].
Proof.
  induction v as [|p v IH].
  - destruct (decide (k ∈ ([] : SmallOrderedMap.t).*1)) as [Hin|Hin]; [|done].
    by apply elem_of_nil in Hin.
  - cbn [SmallOrderedMap.update]. rewrite fmap_cons.
    destruct (Pos.eqb_spec p.1 k) as [Hp|Hp].
    + rewrite fmap_cons. cbn [fst]. rewrite decide_True; [done|]. rewrite Hp. left.
    + rewrite fmap_cons, IH. destruct (decide (k ∈ v.*1)) as [Hin|Hin].
      * rewrite decide_True; [done|]. by right.
      * rewrite decide_False; [done|]. intros [?|?]%elem_of_cons; congruence.
Qed.

Lemma small_update_NoDup (g : Z -> Z) (k : Value) (v : SmallOrderedMap.t) :
  NoDup v.*1 → NoDup (SmallOrderedMap.update g k v).*1.
Proof.
  intros Hnd. rewrite small_update_keys.
  destruct (decide (k ∈ v.*1)) as [Hin|Hin]; [done|].
  apply NoDup_app. split_and!; [done| |apply NoDup_singleton].
  intros x Hx ->%list_elem_of_singleton. done.
Qed.

Lemma small_update_elem (g : Z -> Z) (k x : Value) (v : SmallOrderedMap.t) :
  x ∈ (SmallOrderedMap.update g k v).*1 ↔ x = k ∨ x ∈ v.*1.
Proof.
  rewrite small_update_keys. destruct (decide (k ∈ v.*1)) as [Hin|Hin].
  - naive_solver.
  - rewrite elem_of_app, list_elem_of_singleton. naive_solver.
Qed.

Lemma small_get_absent (v : SmallOrderedMap.t) (k : Value) :
  k ∉ v.*1 → SmallOrderedMap.get v k = 0.
Proof.
  induction v as [|p v IH]; simpl; [done|]. intros Hn.
  apply not_elem_of_cons in Hn as [Hne Hn].
  destruct (Pos.eqb_spec p.1 k); [congruence|by apply IH].
Qed.

Lemma small_get_head (p : Value * Z) (v : SmallOrderedMap.t) :
  SmallOrderedMap.get (p :: v) p.1 = p.2.
Proof. simpl. by rewrite Pos.eqb_refl. Qed.

Lemma small_get_tail (p : Value * Z) (v : SmallOrderedMap.t) (k : Value) :
  k ≠ p.1 → SmallOrderedMap.get (p :: v) k = SmallOrderedMap.get v k.
Proof. simpl. intros Hne. by destruct (Pos.eqb_spec p.1 k). Qed.

Lemma occurrences_snoc (v x : Value) (l : list Value) :
  occurrences v (l ++ [x]) = (occurrences v l + if Pos.eqb v x then 1 else 0)%nat.
Proof.
  unfold occurrences. rewrite List.filter_app, length_app. simpl.
  by destruct (Pos.eqb v x).
Qed.

Section UseFacts.
Variable rt : RefcountTracker.

Lemma count_consumed_fold (l done_ : list Value) acc acc' :
  counters_of done_ acc.1 → NoDup acc.2.*1 →
  (∀ v, v ∈ acc.2.*1 ↔ v ∈ done_) → (∀ v, SmallOrderedMap.get acc.2 v = 0) →
  foldM (count_consumed_step rt) l acc = Ok acc' →
  counters_of (done_ ++ l) acc'.1 ∧ NoDup acc'.2.*1 ∧
  (∀ v, v ∈ acc'.2.*1 ↔ v ∈ done_ ++ l) ∧ (∀ v, SmallOrderedMap.get acc'.2 v = 0).
Proof.
  revert done_ acc. induction l as [|x l IH]; intros done_ acc Hc Hnd Hkeys Hzero H.
  - simpl in H. injection H as <-. rewrite app_nil_r. by split_and!.
  - simpl in H. rinv H. unfold count_consumed_step in Ha. rinva Ha. injection Ha as <-.
    replace (done_ ++ x :: l) with ((done_ ++ [x]) ++ l) by (by rewrite <-app_assoc).
    apply (IH (done_ ++ [x]) (SmallOrderedMap.incr x acc.1, SmallOrderedMap.touch x acc.2));
      [| | | |exact H]; simpl.
    + destruct Hc as (Hn & Hsub & Hget). split_and!.
      * by apply small_update_NoDup.
      * intros v [->|Hv]%small_update_elem; apply elem_of_app; [right; left|left; auto].
      * intros v. unfold SmallOrderedMap.incr. rewrite small_get_update, occurrences_snoc.
        rewrite !Hget. destruct (Pos.eqb_spec v x) as [->|Hne]; lia.
    + by apply small_update_NoDup.
    + intros v. unfold SmallOrderedMap.touch.
      rewrite small_update_elem, elem_of_app, list_elem_of_singleton, Hkeys. tauto.
    + intros v. unfold SmallOrderedMap.touch. rewrite small_get_update.
      destruct (Pos.eqb v x); apply Hzero.
Qed.

Lemma count_used_fold (l : list Value) (g0 : Value -> Z) c c' :
  NoDup c.*1 → (∀ v, SmallOrderedMap.get c v = g0 v) →
  foldM (count_used_step rt) l c = Ok c' →
  NoDup c'.*1 ∧ (∀ v, v ∈ c.*1 → v ∈ c'.*1) ∧
  ∀ v, SmallOrderedMap.get c' v = g0 v + Z.of_nat (occurrences v l).
Proof.
  revert g0 c. induction l as [|x l IH]; intros g0 c Hnd Hget H.
  - simpl in H. injection H as <-. split_and!; [done..|]. intros v. rewrite Hget.
    unfold occurrences. simpl. lia.
  - simpl in H. rinv H. unfold count_used_step in Ha. rinva Ha. injection Ha as <-.
    destruct (IH (λ v, g0 v + if Pos.eqb v x then 1 else 0)
                 (SmallOrderedMap.incr x c)) as (Hnd' & Hsub & Hget'); [| |exact H|].
    + by apply small_update_NoDup.
    + intros v. unfold SmallOrderedMap.incr. rewrite small_get_update, !Hget.
      destruct (Pos.eqb_spec v x) as [->|Hne]; lia.
    + split_and!; [done| |].
      * intros v Hv. apply Hsub, small_update_elem. by right.
      * intros v. rewrite Hget'. unfold occurrences. simpl.
        destruct (Pos.eqb v x); simpl; lia.
Qed.

Lemma count_operand_fold (l : list Value) (g0 : Value -> Z) c :
  NoDup c.*1 → (∀ v, SmallOrderedMap.get c v = g0 v) →
  let c' := fold_left (count_operand_step rt) l c in
  NoDup c'.*1 ∧ (∀ v, v ∈ c.*1 → v ∈ c'.*1) ∧
  ∀ v, SmallOrderedMap.get c' v
       = g0 v + if vars_count rt v then Z.of_nat (occurrences v l) else 0.
Proof.
  revert g0 c. induction l as [|x l IH]; intros g0 c Hnd Hget c'.
  - subst c'. simpl. split_and!; [done..|]. intros v. rewrite Hget.
    unfold occurrences. simpl. destruct (vars_count rt v); lia.
  - subst c'. cbn [fold_left].
    destruct (IH (λ v, g0 v + if vars_count rt v && Pos.eqb v x then 1 else 0)
                 (count_operand_step rt c x)) as (Hnd' & Hsub & Hget').
    + unfold count_operand_step. destruct (vars_count rt x); [|done].
      by apply small_update_NoDup.
    + intros v. unfold count_operand_step.
      destruct (vars_count rt x) eqn:Hx.
      * unfold SmallOrderedMap.incr. rewrite small_get_update, !Hget.
        destruct (Pos.eqb_spec v x) as [->|Hne]; [rewrite Hx; simpl; lia|].
        rewrite andb_false_r. lia.
      * rewrite Hget. destruct (Pos.eqb_spec v x) as [->|Hne];
          [rewrite Hx; simpl; lia|]. rewrite andb_false_r. lia.
    + split_and!; [done| |].
      * intros v Hv. apply Hsub. unfold count_operand_step.
        destruct (vars_count rt x); [|done]. apply small_update_elem. by right.
      * intros v. rewrite Hget'. unfold occurrences. simpl.
        destruct (vars_count rt v), (Pos.eqb v x); simpl; lia.
Qed.

Lemma count_uses_spec (i : InstructionData) (nc nt : SmallOrderedMap.t) :
  count_uses rt i = Ok (nc, nt) →
  NoDup nc.*1 ∧ NoDup nt.*1 ∧ (∀ v, v ∈ nc.*1 → v ∈ nt.*1) ∧
  (∀ v, SmallOrderedMap.get nc v
        = Z.of_nat (occurrences v (default [] (refs_consumed rt !! addr i)))) ∧
  (∀ v, SmallOrderedMap.get nt v
        = Z.of_nat (occurrences v (default [] (refs_used rt !! addr i)))
          + if vars_count rt v then Z.of_nat (occurrences v (operands i)) else 0).
Proof.
  intros H. unfold count_uses in H. rinv H. injection H as <- <-.
  destruct (count_consumed_fold (default [] (refs_consumed rt !! addr i)) [] ([], []) a)
    as ((Hn1 & Hsub1 & Hg1) & Hn2 & Hk2 & Hz2); try done.
  { split_and!; [constructor|by intros v ?%elem_of_nil|done]. }
  { constructor. }
  rewrite app_nil_l in *.
  destruct (count_used_fold _ (λ _, 0) a.2 a0 Hn2 Hz2 Ha0) as (Hn3 & Hsub3 & Hg3).
  destruct (count_operand_fold (operands i)
              (λ v, Z.of_nat (occurrences v (default [] (refs_used rt !! addr i))))
              a0 Hn3) as (Hn4 & Hsub4 & Hg4).
  { intros v. rewrite Hg3. lia. }
  split_and!; [done|done| |done|done].
  intros v Hv. apply Hsub4, Hsub3, Hk2, Hsub1, Hv.
Qed.

Lemma keep_alive_step_refs bb i following (nc : SmallOrderedMap.t) s st (p : Value * Z) :
  keep_alive_step rt bb i following nc s p = Ok st →
  ∀ v, subscript (ending_refs st) v
       = if Pos.eqb v p.1 && (Z.ltb (SmallOrderedMap.get nc p.1) p.2 && isOwned rt p.1
                              && Z.eqb (subscript (ending_refs s) p.1) 0)
         then 1 else subscript (ending_refs s) v.
Proof.
  intros H v. unfold keep_alive_step in H.
  destruct (_ && isOwned rt p.1) eqn:Hc; simpl;
    [|injection H as <-; by rewrite andb_false_r].
  simpl in H. rewrite subscript_touch in H.
  destruct (Z.eqb (subscript (ending_refs s) p.1) 0) eqn:Hz.
  - rinv H. injection H as <-. simpl.
    apply plan_last_use_keeps_refs in Ha. rewrite Ha. simpl.
    rewrite andb_true_r. unfold OrderedMap.subscript.
    destruct (Pos.eqb_spec v p.1) as [->|Hne].
    + by rewrite assign_lookup.
    + rewrite assign_lookup_ne, touch_lookup_ne by done. done.
  - injection H as <-. simpl. rewrite andb_false_r, subscript_touch. done.
Qed.

Lemma keep_alive_fold bb i following (nc : SmallOrderedMap.t) (nt : SmallOrderedMap.t)
      s st :
  NoDup nt.*1 → (∀ v, 0 ≤ SmallOrderedMap.get nc v) →
  foldM (keep_alive_step rt bb i following nc) nt s = Ok st →
  ∀ v, subscript (ending_refs st) v
       = if kept_alive rt nc nt (ending_refs s) v then 1
         else subscript (ending_refs s) v.
Proof.
  intros Hnd Hnc. revert s. induction nt as [|p nt IH]; intros s H v.
  - simpl in H. injection H as <-. unfold kept_alive. simpl.
    specialize (Hnc v). destruct (Z.ltb_spec (SmallOrderedMap.get nc v) 0); [lia|done].
  - simpl in H. rinv H. rewrite fmap_cons in Hnd. apply NoDup_cons in Hnd as [Hp Hnd].
    rewrite (IH Hnd a H v).
    pose proof (keep_alive_step_refs bb i following nc s a p Ha) as Hstep.
    unfold kept_alive. destruct (Pos.eqb_spec v p.1) as [->|Hne].
    + rewrite small_get_head, (small_get_absent nt p.1 Hp).
      specialize (Hnc p.1).
      destruct (Z.ltb_spec (SmallOrderedMap.get nc p.1) 0); [lia|]. simpl.
      rewrite Hstep, Pos.eqb_refl. done.
    + rewrite small_get_tail by done. rewrite !Hstep.
      destruct (Pos.eqb_spec v p.1); [done|]. simpl. done.
Qed.

Lemma stolen_fold (nc nt : SmallOrderedMap.t) s :
  NoDup nt.*1 →
  ∀ v, subscript (ending_refs (fold_left (stolen_step nc) nt s)) v
       = subscript (ending_refs s) v
         + if decide (v ∈ nt.*1) then SmallOrderedMap.get nc v else 0.
Proof.
  revert s. induction nt as [|p nt IH]; intros s Hnd v.
  - cbn [fold_left].
    destruct (decide (v ∈ ([] : SmallOrderedMap.t).*1)) as [Hin|_];
      [by apply elem_of_nil in Hin|lia].
  - cbn [fold_left]. rewrite fmap_cons in Hnd. apply NoDup_cons in Hnd as [Hp Hnd].
    rewrite (IH _ Hnd v).
    assert (Hstep : subscript (ending_refs (stolen_step nc s p)) v
                    = subscript (ending_refs s) v
                      + if Pos.eqb v p.1 then SmallOrderedMap.get nc v else 0).
    { unfold stolen_step. destruct (Z.eqb_spec (SmallOrderedMap.get nc p.1) 0) as [Hz|Hnz].
      - simpl. destruct (Pos.eqb_spec v p.1) as [->|]; lia.
      - simpl. unfold OrderedMap.subscript at 1.
        destruct (Pos.eqb_spec v p.1) as [->|Hne].
        + rewrite assign_lookup. simpl. by rewrite subscript_touch.
        + rewrite assign_lookup_ne, touch_lookup_ne by done.
          unfold OrderedMap.subscript. lia. }
    rewrite Hstep. rewrite fmap_cons.
    destruct (Pos.eqb_spec v p.1) as [Heq|Hne].
    + rewrite decide_False by (by rewrite Heq).
      rewrite decide_True by (rewrite Heq; left). lia.
    + destruct (decide (v ∈ nt.*1)) as [Hin|Hin].
      * rewrite decide_True by (by right). lia.
      * rewrite decide_False; [lia|]. intros [?|?]%elem_of_cons; congruence.
Qed.

End UseFacts.

(** X26: the counters of an instruction hold what the store says
    about it: [num_consumed_by_inst] counts how often a value is filed
    as consumed by the instruction, [num_times_as_op] how often it is
    filed as used plus, for a tracked value, how often it is an
    operand; every consumed value has an entry in [num_times_as_op]. *)
Theorem count_uses_counts_the_store (rt : RefcountTracker) (i : InstructionData)
        (nc nt : SmallOrderedMap.t) :
  count_uses rt i = Ok (nc, nt) →
  (∀ v, SmallOrderedMap.get nc v
        = Z.of_nat (occurrences v (default [] (refs_consumed rt !! addr i)))) ∧
  (∀ v, SmallOrderedMap.get nt v
        = Z.of_nat (occurrences v (default [] (refs_used rt !! addr i)))
          + if vars_count rt v then Z.of_nat (occurrences v (operands i)) else 0) ∧
  (∀ v, v ∈ nc.*1 → v ∈ nt.*1).
Proof.
  intros H. destruct (count_uses_spec rt i nc nt H) as (_ & _ & Hsub & Hc & Ht).
  by split_and!.
Qed.

(** X27: the transfer of the demand through an instruction that
    defines no tracked value and cannot throw: before the instruction
    a value is wanted as often as behind it -- or once, if this is the
    last use of an owned value that the instruction does not consume
    entirely -- plus as often as the instruction consumes it. *)
Theorem uses_transfer_the_demand (rt : RefcountTracker) (bb : BasicBlock)
        (i : InstructionData) (following : list InstructionData) (s st : RefState) :
  isa_PHINode i = false →
  may_throw_count rt (addr i) = false →
  negb (isa_InvokeInst i) && vars_count rt (addr i) = false →
  scan_instruction rt bb s (i, following) = Ok st →
  ∃ nc nt, count_uses rt i = Ok (nc, nt) ∧
    ∀ v, subscript (ending_refs st) v
         = (if kept_alive rt nc nt (ending_refs s) v then 1
            else subscript (ending_refs s) v)
           + SmallOrderedMap.get nc v.
Proof.
  intros Hphi Hthrow Hdef H. unfold scan_instruction in H. rinv H.
  unfold scan_definition in Ha. rewrite Hdef in Ha. injection Ha as <-.
  rewrite Hphi in H. rinv H.
  unfold scan_flush in Ha. rewrite Hthrow in Ha. injection Ha as <-.
  destruct a0 as [nc nt]. rinv H. injection H as <-.
  unfold scan_fixup in Ha1. rewrite Hthrow in Ha1. injection Ha1 as <-.
  exists nc, nt. split; [done|]. intros v.
  destruct (count_uses_spec rt i nc nt Ha0) as (Hnc & Hnt & Hsub & Hgc & Hgt).
  rewrite (stolen_fold nc nt a Hnt v).
  rewrite (keep_alive_fold rt bb i following nc nt s a Hnt);
    [|by intros; rewrite Hgc; lia|done].
  destruct (decide (v ∈ nt.*1)) as [Hin|Hin]; [done|].
  rewrite (small_get_absent nc v); [done|]. intros Hv. by apply Hin, Hsub.
Qed.

(** ** Where a value is defined *)

Section DefinitionFacts.
Variable rt : RefcountTracker.

Lemma adjust_definition_spec v pt ibb ifrom s st :
  adjust_definition rt v pt ibb ifrom s = Ok st →
  let want := subscript (ending_refs s) v in
  let have := defining_refs rt v in
  ending_refs st = ending_refs s ∧
  (have ≤ want →
   increfs st = increfs s ++ [def_op rt v (want - have) pt ibb ifrom] ∧
   decrefs st = decrefs s) ∧
  (want < have →
   decrefs st = decrefs s ++ [def_op rt v (have - want) pt ibb ifrom] ∧
   increfs st = increfs s ∧ isOwned rt v = true).
Proof.
  intros H want have. unfold adjust_definition in H. fold want have in H.
  destruct (Z.ltb_spec want have) as [Hlt|Hge].
  - rinva H. injection H as <-. simpl. split_and!; [done|lia|done].
  - injection H as <-. simpl. split_and!; [done|done|lia].
Qed.

Lemma erase_touched (m m' : BlockMap) (v : Value) :
  OrderedMap.erase v m = Ok m' →
  OrderedMap.count m' v = 0%nat ∧
  ∀ v', v' ≠ v → OrderedMap.map m' !! v' = OrderedMap.map m !! v'.
Proof.
  intros He. unfold OrderedMap.erase in He.
  destruct (0 <? OrderedMap.count m v)%nat; [|discriminate].
  injection He as <-. split.
  - unfold OrderedMap.count. simpl. by rewrite lookup_delete_eq.
  - intros v' Hne. simpl. by rewrite lookup_delete_ne.
Qed.

End DefinitionFacts.

(** X28: at the instruction that defines a tracked value the scan
    settles the count of the value: what the code behind the
    definition wants is compared with what the definition gives (one
    reference for an owned value, none for a borrowed one), the
    difference is planned as an increment or a decrement at the next
    instruction that is not a phi, and the value is taken out of the
    summary: it is not live before its definition.  The other values
    are not touched. *)
Theorem definition_settles_the_count (rt : RefcountTracker) (i : InstructionData)
        (following : list InstructionData) (s st : RefState) :
  isa_InvokeInst i = false →
  vars_count rt (addr i) = true →
  scan_definition rt i following s = Ok st →
  let want := subscript (ending_refs s) (addr i) in
  let have := defining_refs rt (addr i) in
  OrderedMap.count (ending_refs st) (addr i) = 0%nat ∧
  (∀ v, v ≠ addr i →
        OrderedMap.map (ending_refs st) !! v = OrderedMap.map (ending_refs s) !! v) ∧
  (want = have → increfs st = increfs s ∧ decrefs st = decrefs s) ∧
  (have < want →
   ∃ pt, next_non_phi following = Ok pt ∧
         increfs st = increfs s ++ [def_op rt (addr i) (want - have) (Some pt) None None] ∧
         decrefs st = decrefs s) ∧
  (want < have →
   ∃ pt, next_non_phi following = Ok pt ∧
         decrefs st = decrefs s ++ [def_op rt (addr i) (have - want) (Some pt) None None] ∧
         increfs st = increfs s ∧ isOwned rt (addr i) = true).
Proof.
  intros Hinv Htracked H want have. unfold scan_definition in H.
  rewrite Hinv, Htracked in H. cbn [negb andb] in H. rinv H. injection H as <-.
  cbn [ending_refs set_ending_refs] in *. rewrite subscript_touch in Ha.
  fold want have in Ha.
  apply erase_touched in Ha0 as [Hcount Hother].
  destruct (Z.eqb_spec want have) as [Heq|Hne]; cbn [negb] in Ha.
  - injection Ha as <-. cbn [ending_refs set_ending_refs] in *.
    split_and!; [done| |done|lia|lia].
    intros v Hv. rewrite Hother by done. by rewrite touch_lookup_ne.
  - rinva Ha.
    apply adjust_definition_spec in Ha as (Hrefs & Hinc & Hdec).
    cbn [ending_refs set_ending_refs increfs decrefs] in *.
    rewrite subscript_touch in Hinc, Hdec. fold want have in Hinc, Hdec.
    rewrite Hrefs in *. cbn [ending_refs set_ending_refs] in *.
    split_and!; [done| |done| |].
    + intros v Hv. rewrite Hother by done. by rewrite touch_lookup_ne.
    + intros Hlt. exists a2. destruct Hinc as [-> ->]; [lia|]. done.
    + intros Hlt. exists a2. destruct (Hdec Hlt) as (-> & -> & ->). done.
Qed.

(** X29: the value of a tracked invoke is settled where the solver
    runs the normal destination of the invoke, as if it were defined
    at the top of that block: the difference between what is wanted
    there and what the invoke gives is planned on the edge from the
    block of the invoke to its normal destination, and the value is
    taken out of the summary.  In every other block the invoke is
    passed over. *)
Theorem invoke_settles_on_its_normal_edge (rt : RefcountTracker) (bb parent : BasicBlock)
        (ii : InstructionData) (normal unwind : BasicBlock) (s st : RefState) :
  opcode ii = InvokeInst normal unwind →
  invoke_step rt bb s (ii, parent) = Ok st →
  let want := subscript (ending_refs s) (addr ii) in
  let have := defining_refs rt (addr ii) in
  (normal ≠ bb → st = s) ∧
  (normal = bb →
   OrderedMap.count (ending_refs st) (addr ii) = 0%nat ∧
   (∀ v, v ≠ addr ii →
         OrderedMap.map (ending_refs st) !! v = OrderedMap.map (ending_refs s) !! v) ∧
   (want = have → increfs st = increfs s ∧ decrefs st = decrefs s) ∧
   (have < want →
    increfs st
    = increfs s ++ [def_op rt (addr ii) (want - have) None (Some bb) (Some parent)] ∧
    decrefs st = decrefs s) ∧
   (want < have →
    decrefs st
    = decrefs s ++ [def_op rt (addr ii) (have - want) None (Some bb) (Some parent)] ∧
    increfs st = increfs s ∧ isOwned rt (addr ii) = true)).
Proof.
  intros Hop H want have. unfold invoke_step in H. cbn [fst snd] in H. rewrite Hop in H.
  destruct (Pos.eqb_spec normal bb) as [Heq|Hne].
  2: { injection H as <-. split; [done|]. intros; congruence. }
  split; [congruence|]. intros _.
  rinv H. injection H as <-.
  cbn [ending_refs set_ending_refs] in *. rewrite subscript_touch in Ha.
  fold want have in Ha.
  apply erase_touched in Ha0 as [Hcount Hother].
  destruct (Z.eqb_spec want have) as [Hwh|Hwh]; cbn [negb] in Ha.
  - injection Ha as <-. cbn [ending_refs set_ending_refs] in *.
    split_and!; [done| |done|lia|lia].
    intros v Hv. rewrite Hother by done. by rewrite touch_lookup_ne.
  - apply adjust_definition_spec in Ha as (Hrefs & Hinc & Hdec).
    cbn [ending_refs set_ending_refs increfs decrefs] in *.
    rewrite subscript_touch in Hinc, Hdec. fold want have in Hinc, Hdec.
    rewrite Hrefs in *. cbn [ending_refs set_ending_refs] in *.
    split_and!; [done| |done| |].
    + intros v Hv. rewrite Hother by done. by rewrite touch_lookup_ne.
    + intros Hlt. destruct Hinc as [-> ->]; [lia|]. done.
    + intros Hlt. destruct (Hdec Hlt) as (-> & -> & ->). done.
Qed.

(** ** The traversal order is always found *)

Lemma foldM_succeeds_with {A S} (P : S -> Prop) (f : S -> A -> result S)
      (l : list A) (s : S) :
  (∀ s a, P s → ∃ s', f s a = Ok s' ∧ P s') → P s →
  ∃ s', foldM f l s = Ok s' ∧ P s'.
Proof.
  intros Hf. revert s. induction l as [|a l IH]; intros s Hs; simpl; [by eexists|].
  destruct (Hf s a Hs) as (s1 & -> & Hs1). simpl. by apply IH.
Qed.

Lemma unvisited_le (visited : list bool) : (unvisited visited ≤ length visited)%nat.
Proof. apply filter_length_le. Qed.

Lemma unvisited_mark (visited : list bool) (i : nat) :
  visited !! i = Some false →
  (unvisited (<[i := true]> visited) + 1 = unvisited visited)%nat.
Proof.
  unfold unvisited. revert i. induction visited as [|b l IH]; intros i Hi; [done|].
  destruct i as [|i]; simpl in *.
  - injection Hi as ->. simpl. lia.
  - specialize (IH i Hi). destruct b; simpl; lia.
Qed.

Lemma unvisited_mark_le (visited : list bool) (i : nat) :
  (unvisited (<[i := true]> visited) ≤ unvisited visited)%nat.
Proof.
  unfold unvisited. revert i. induction visited as [|b l IH]; intros i; [done|].
  destruct i as [|i]; simpl.
  - destruct b; simpl; lia.
  - specialize (IH i). destruct b; simpl; lia.
Qed.

Section Termination.
Variable sort_by_count : list (nat * Z) -> list (nat * Z).
Variable bbg : BBGraph.
Hypothesis sort_permutes : ∀ l, Permutation (sort_by_count l) l.
Hypothesis in_range : graph_in_range bbg.

Lemma flood_successors_measure (l : list nat) (acc : list bool * list nat) :
  Forall (λ j, (j < length acc.1)%nat) l →
  let acc' := fold_left flood_successor l acc in
  length acc'.1 = length acc.1 ∧
  (length acc'.2 + unvisited acc'.1 = length acc.2 + unvisited acc.1)%nat.
Proof.
  revert acc. induction l as [|sidx l IH]; intros acc Hl acc'; [done|].
  subst acc'. cbn [fold_left]. apply Forall_cons in Hl as [Hs Hl].
  assert (Hstep : length (flood_successor acc sidx).1 = length acc.1 ∧
                  (length (flood_successor acc sidx).2
                   + unvisited (flood_successor acc sidx).1
                   = length acc.2 + unvisited acc.1)%nat).
  { unfold flood_successor.
    destruct (lookup_lt_is_Some_2 acc.1 sidx Hs) as [b Hb]. rewrite Hb.
    destruct b; simpl; [done|]. rewrite length_insert, length_app. simpl.
    pose proof (unvisited_mark acc.1 sidx Hb). split; [done|lia]. }
  destruct Hstep as [Hlen Hm].
  destruct (IH (flood_successor acc sidx)) as [Hlen' Hm'].
  { by rewrite Hlen. }
  split; [congruence|lia].
Qed.

Lemma flood_terminates (fuel : nat) (queue : list nat) (visited : list bool) :
  length visited = numBB bbg →
  (length queue + unvisited visited ≤ fuel)%nat →
  ∃ visited', flood bbg fuel queue visited = Ok visited' ∧
              length visited' = numBB bbg.
Proof.
  revert queue visited. induction fuel as [|fuel IH]; intros queue visited Hlen Hm.
  - destruct queue as [|idx rest]; [by eexists|]. simpl in Hm. lia.
  - destruct queue as [|idx rest]; [by eexists|]. cbn [flood].
    destruct (flood_successors_measure (succs_of bbg idx) (visited, rest))
      as [Hlen' Hm'].
    { simpl. rewrite Hlen. apply (succs_of_in_range bbg in_range). }
    simpl in Hlen', Hm', Hm. apply IH; [congruence|lia].
Qed.

Lemma break_cycle_terminates (t : Traversal) :
  (∃ t', break_cycle sort_by_count bbg t = Ok t') ∨
  break_cycle sort_by_count bbg t = Err (AssertionFailed "best != -1").
Proof.
  unfold break_cycle.
  match goal with
  | |- context [foldM (pick_best bbg) ?l ?s] =>
      destruct (foldM_succeeds_with
                  (λ acc : list bool * option nat, length acc.1 = numBB bbg)
                  (pick_best bbg) l s) as (acc & -> & _)
  end.
  - intros acc p Hacc. unfold pick_best.
    destruct (default false (acc.1 !! p.1)); [by eexists|].
    destruct (flood_terminates (S (numBB bbg)) [p.1] (<[p.1:=true]> acc.1))
      as (v & -> & Hv).
    + by rewrite length_insert.
    + pose proof (unvisited_mark_le acc.1 p.1). pose proof (unvisited_le acc.1).
      simpl. lia.
    + rsimpl. by eexists.
  - simpl. by rewrite length_replicate.
  - rsimpl. destruct acc.2; [left; by eexists|by right].
Qed.

Lemma visit_predecessors_grow (l : list nat) (t : Traversal) :
  (length (ordering t) ≤ length (ordering (fold_left (visit_predecessor bbg) l t)))%nat ∧
  check_predecessors_idx (fold_left (visit_predecessor bbg) l t)
  = check_predecessors_idx t.
Proof.
  revert t. induction l as [|p l IH]; intros t; simpl; [done|].
  destruct (IH (visit_predecessor bbg t p)) as [Hl Hc].
  rewrite Hc. unfold visit_predecessor in *.
  destruct (default false _); [done|].
  destruct (Z.eqb _ _); simpl in *; [|done]. rewrite length_app in Hl. simpl in Hl.
  split; [lia|done].
Qed.

Lemma traversal_ok_length (t : Traversal) :
  traversal_ok bbg t → (length (ordering t) ≤ numBB bbg)%nat.
Proof.
  intros (Hnd & Hlen & Hflag).
  assert (ordering t ⊆+ seq 0 (numBB bbg)) as Hsub.
  { apply NoDup_submseteq; [done|]. intros i Hi. apply Hflag, lookup_lt_Some in Hi.
    apply elem_of_seq. lia. }
  apply submseteq_length in Hsub. by rewrite length_seq in Hsub.
Qed.

Lemma traversal_loop_terminates (fuel : nat) (t : Traversal) :
  traversal_ok bbg t →
  (check_predecessors_idx t ≤ length (ordering t))%nat →
  (2 * numBB bbg - check_predecessors_idx t - length (ordering t) < fuel)%nat →
  (∃ t', traversal_loop sort_by_count bbg fuel t = Ok t' ∧ traversal_ok bbg t' ∧
         (numBB bbg ≤ length (ordering t'))%nat) ∨
  traversal_loop sort_by_count bbg fuel t = Err (AssertionFailed "best != -1").
Proof.
  revert t. induction fuel as [|fuel IH]; intros t Hok Hc Hfuel; [lia|].
  cbn [traversal_loop].
  destruct (Nat.ltb_spec (length (ordering t)) (numBB bbg)) as [Hshort|Hdone];
    [|left; by exists t].
  destruct (Nat.ltb_spec (check_predecessors_idx t) (length (ordering t)))
    as [Hmore|Hdry].
  - match goal with
    | |- context [fold_left (visit_predecessor bbg) ?l ?t1] =>
        destruct (visit_predecessors_grow l t1) as [Hgrow Hsame];
        pose proof (visit_predecessors_ok bbg l t1) as Hok'
    end.
    simpl in Hgrow, Hsame.
    apply IH.
    + apply Hok'; [|apply preds_of_in_range, in_range].
      destruct Hok as (? & ? & ?). by split_and!.
    + rewrite Hsame. lia.
    + rewrite Hsame. lia.
  - destruct (break_cycle_terminates t) as [[t' Hb]| ->]; [|by right].
    rewrite Hb. rsimpl.
    pose proof (break_cycle_ok sort_by_count bbg sort_permutes t t' Hok Hb) as Hok'.
    pose proof (traversal_ok_length t' Hok').
    assert (Hlen : length (ordering t') = S (length (ordering t)) ∧
                   check_predecessors_idx t' = check_predecessors_idx t).
    { unfold break_cycle in Hb. rinv Hb.
      match type of Hb with
      | match ?x with _ => _ end = _ => destruct x as [best|]; [|done]
      end.
      injection Hb as <-. simpl. rewrite length_app. simpl. split; [lia|done]. }
    destruct Hlen as [Hl' Hc'].
    apply IH; [done|lia|lia].
Qed.

End Termination.

(** X16: the traversal order is always found, and it lists every
    block of the graph exactly once (given that [std::sort] permutes
    what it is handed): the loops of [computeTraversalOrder] come to
    an end, and its only failure is the assertion [best != -1], which
    fires when a cycle has to be broken and no block of it has a
    successor in the order. *)
Theorem traversal_order_is_found
        (sort_by_count : list (nat * Z) -> list (nat * Z)) (bbg : BBGraph) :
  (∀ l, Permutation (sort_by_count l) l) →
  graph_in_range bbg →
  (∃ order, computeTraversalOrder sort_by_count bbg = Ok order ∧
            Permutation order (seq 0 (numBB bbg))) ∨
  computeTraversalOrder sort_by_count bbg = Err (AssertionFailed "best != -1").
Proof.
  intros Hsort Hrange. unfold computeTraversalOrder.
  destruct (add_exit_fold_ok bbg (numBB bbg) _ (traversal_start_ok bbg) eq_refl)
    as [Hok0 _]; [lia|].
  destruct (add_exit_fold_shape bbg (seq 0 (numBB bbg))
              {| ordering := []; added := replicate (numBB bbg) false;
                 num_successors_added := replicate (numBB bbg) 0;
                 check_predecessors_idx := 0 |}) as (_ & _ & Hc0).
  destruct (traversal_loop_terminates sort_by_count bbg Hsort Hrange
              (2 * numBB bbg + 1) _ Hok0) as [(t' & -> & Hok & Hlen)| ->];
    [rewrite Hc0; simpl; lia|rewrite Hc0; simpl; lia| |by right].
  left. pose proof (traversal_ok_length bbg t' Hok) as Hle.
  destruct Hok as (Hnd & Hla & Hflag).
  assert (Hperm : Permutation (ordering t') (seq 0 (numBB bbg))).
  { apply submseteq_length_Permutation.
    - apply NoDup_submseteq; [done|]. intros i Hi. apply Hflag in Hi.
      apply elem_of_seq. apply lookup_lt_Some in Hi. lia.
    - rewrite length_seq. lia. }
  exists (ordering t'). rsimpl.
  replace (length (ordering t')) with (numBB bbg) by lia.
  rewrite Hla, Nat.eqb_refl. rsimpl. done.
Qed.

(** ** The planned operations *)

Section PlanFacts.
Variable rt : RefcountTracker.
Implicit Types (s st state : RefState).

Lemma ops_ok_push_incref s op :
  ops_ok rt s → 0 < num_refs op → ops_ok rt (push_incref s op).
Proof.
  intros [Hi Hd] Hn. split; simpl; [|done].
  apply Forall_app. split; [done|]. by repeat constructor.
Qed.

Lemma ops_ok_push_decref s op :
  ops_ok rt s → 0 < num_refs op → isOwned rt (operand op) = true →
  ops_ok rt (push_decref s op).
Proof.
  intros [Hi Hd] Hn Ho. split; simpl; [done|].
  apply Forall_app. split; [done|]. by repeat constructor.
Qed.

Lemma ops_ok_refs s m1 m2 fx b :
  ops_ok rt s →
  ops_ok rt {| been_run := b; starting_refs := m1; ending_refs := m2;
               increfs := increfs s; decrefs := decrefs s; cxx_fixups := fx |}.
Proof. by intros [Hi Hd]. Qed.

Lemma reconcile_step_plans bb v (min_refs : Z) s st (s_info : BlockMap * BasicBlock) :
  ops_ok rt s → reconcile_step rt bb v min_refs s s_info = Ok st → ops_ok rt st.
Proof.
  intros Hok H. unfold reconcile_step in H.
  destruct (Z.ltb_spec min_refs (this_refs_of v s_info.1)) as [Hlt|Hge].
  - injection H as <-. apply ops_ok_push_incref; [done|simpl; lia].
  - destruct (Z.ltb_spec (this_refs_of v s_info.1) min_refs) as [Hlt|Hge'].
    + rinva H. injection H as <-. apply ops_ok_push_decref; [done|simpl; lia|done].
    + by injection H as <-.
Qed.

Lemma merge_value_plans bb info s st v :
  ops_ok rt s → merge_value rt bb info s v = Ok st → ops_ok rt st.
Proof.
  intros Hok H. unfold merge_value in H. rinv H.
  assert (Ha0' : ops_ok rt a0).
  { eapply (foldM_invariant (ops_ok rt)); [| |exact Ha0]; [|done].
    intros s1 a1 s2 _ Hs Hstep. by eapply reconcile_step_plans. }
  destruct (negb _).
  - injection H as <-. by apply ops_ok_refs.
  - rinv H. by injection H as <-.
Qed.

Lemma merge_successors_plans bb info s st :
  ops_ok rt s → merge_successors rt bb info s = Ok st → ops_ok rt st.
Proof.
  intros Hok H. unfold merge_successors in H.
  destruct info as [|s0 info0] eqn:Hi; [by injection H as <-|]. rewrite <-Hi in *.
  rinv H. eapply (foldM_invariant (ops_ok rt)); [| |exact H]; [|done].
  intros s1 v s2 _ Hs Hstep. by eapply merge_value_plans.
Qed.

Lemma adjust_definition_plans inst pt ibb ifrom s st :
  ops_ok rt s →
  subscript (ending_refs s) inst ≠ defining_refs rt inst →
  adjust_definition rt inst pt ibb ifrom s = Ok st → ops_ok rt st.
Proof.
  intros Hok Hne H. unfold adjust_definition in H.
  destruct (Z.ltb_spec (subscript (ending_refs s) inst) (defining_refs rt inst)).
  - rinva H. injection H as <-. apply ops_ok_push_decref; [done|simpl; lia|done].
  - injection H as <-. apply ops_ok_push_incref; [done|simpl; lia].
Qed.

Lemma scan_definition_plans i following s st :
  ops_ok rt s → scan_definition rt i following s = Ok st → ops_ok rt st.
Proof.
  intros Hok H. unfold scan_definition in H.
  destruct (_ && _); [|by injection H as <-].
  rinv H. injection H as <-. apply ops_ok_refs.
  cbn [ending_refs set_ending_refs] in Ha.
  destruct (Z.eqb_spec (subscript (touch (addr i) (ending_refs s)) (addr i))
                       (defining_refs rt (addr i))) as [Heq|Hne]; cbn [negb] in Ha.
  - injection Ha as <-. by apply ops_ok_refs.
  - rinv Ha. eapply adjust_definition_plans; [| |exact Ha]; [|exact Hne].
    by apply ops_ok_refs.
Qed.

Lemma scan_flush_plans i following s st :
  ops_ok rt s → scan_flush rt i following s = Ok st → ops_ok rt st.
Proof.
  intros Hok H. unfold scan_flush in H.
  destruct (may_throw_count rt (addr i)); [|by injection H as <-].
  rinv H.
  assert (Hacc : ops_ok rt a0.1).
  { eapply (foldM_invariant (λ acc : RefState * list Value, ops_ok rt acc.1)
                            _ _ (s, []) a0); [|exact Hok|exact Ha0].
    intros [s1 te] idx [s2 te'] _ Hs Hstep. unfold flush_step in Hstep.
    rinv Hstep. injection Hstep as <- _. simpl in *. apply ops_ok_refs.
    destruct (Z.ltb_spec (defining_refs rt a1.1) a1.2); [|done].
    apply ops_ok_push_incref; [done|simpl; lia]. }
  eapply (foldM_invariant (ops_ok rt)); [| |exact H]; [|done].
  intros s1 v s2 _ Hs Hstep. unfold erase_step in Hstep. rinv Hstep.
  injection Hstep as <-. by apply ops_ok_refs.
Qed.

Lemma plan_last_use_plans bb i following op s st :
  ops_ok rt s → isOwned rt op = true →
  plan_last_use rt bb i following op s = Ok st → ops_ok rt st.
Proof.
  intros Hok Ho H. unfold plan_last_use in H.
  destruct (opcode i);
    try (rinv H; destruct following as [|next ?]; [done|];
         destruct (isa_UnreachableInst next);
         [rinv H; by injection H as <-
         |injection H as <-; by apply ops_ok_push_decref]).
  injection H as <-. apply ops_ok_push_decref; [|done|done].
  by apply ops_ok_push_decref.
Qed.

Lemma keep_alive_step_plans bb i following (nc : SmallOrderedMap.t) s st (p : Value * Z) :
  ops_ok rt s → keep_alive_step rt bb i following nc s p = Ok st → ops_ok rt st.
Proof.
  intros Hok H. unfold keep_alive_step in H.
  destruct (Z.ltb _ _ && isOwned rt p.1) eqn:Hc; [|by injection H as <-].
  apply andb_true_iff in Hc as [_ Ho].
  destruct (Z.eqb _ _).
  - rinv H. injection H as <-. apply ops_ok_refs.
    eapply plan_last_use_plans; [|exact Ho|exact Ha]. by apply ops_ok_refs.
  - injection H as <-. by apply ops_ok_refs.
Qed.

Lemma scan_fixup_plans i s st :
  ops_ok rt s → scan_fixup rt i s = Ok st → ops_ok rt st.
Proof.
  intros Hok [->|[fx ->]]%scan_fixup_Ok; [done|]. by apply ops_ok_refs.
Qed.

Lemma stolen_step_plans (nc : SmallOrderedMap.t) s (p : Value * Z) :
  ops_ok rt s → ops_ok rt (stolen_step nc s p).
Proof.
  intros Hok. unfold stolen_step. destruct (negb _); [|done]. by apply ops_ok_refs.
Qed.

Lemma scan_instruction_plans bb s st (it : InstructionData * list InstructionData) :
  ops_ok rt s → scan_instruction rt bb s it = Ok st → ops_ok rt st.
Proof.
  intros Hok H. destruct it as [i following]. unfold scan_instruction in H.
  rinv H. apply scan_definition_plans in Ha; [|done].
  destruct (isa_PHINode i); [by injection H as <-|].
  rinv H. apply scan_flush_plans in Ha0; [|done].
  destruct a1 as [nc nt]. rinv H. injection H as <-.
  apply fold_left_invariant; [intros s1 p _ Hs; by apply stolen_step_plans|].
  eapply scan_fixup_plans; [|exact Ha3].
  eapply (foldM_invariant (ops_ok rt)); [| |exact Ha2]; [|done].
  intros s1 p s2 _ Hs Hstep. by eapply keep_alive_step_plans.
Qed.

Lemma scan_block_plans (b : BasicBlockData) s st :
  ops_ok rt s → scan_block rt b s = Ok st → ops_ok rt st.
Proof.
  intros Hok H. unfold scan_block in H.
  eapply (foldM_invariant (ops_ok rt)); [| |exact H]; [|done].
  intros s1 it s2 _ Hs Hstep. by eapply scan_instruction_plans.
Qed.

Lemma invoke_step_plans bb s st (ii : InstructionData * BasicBlock) :
  ops_ok rt s → invoke_step rt bb s ii = Ok st → ops_ok rt st.
Proof.
  intros Hok H. unfold invoke_step in H.
  destruct (opcode ii.1); try (by injection H as <-).
  destruct (Pos.eqb _ bb); [|by injection H as <-].
  rinv H. injection H as <-. apply ops_ok_refs.
  cbn [ending_refs set_ending_refs] in Ha.
  destruct (Z.eqb_spec (subscript (touch (addr ii.1) (ending_refs s)) (addr ii.1))
                       (defining_refs rt (addr ii.1))) as [Heq|Hne]; cbn [negb] in Ha.
  - injection Ha as <-. by apply ops_ok_refs.
  - eapply adjust_definition_plans; [| |exact Ha]; [|exact Hne]. by apply ops_ok_refs.
Qed.

End PlanFacts.

Section PlanBlock.
Variable classof : Value -> ValueClass.
Variable rt : RefcountTracker.
Variable f : Function.
Variable bbg : BBGraph.

Lemma finish_entry_plans bb s st :
  summary_ok (ending_refs s) → ops_ok rt s →
  finish_entry classof rt f bb s = Ok st → ops_ok rt st.
Proof.
  intros [Hwf Hpos] Hok H. unfold finish_entry in H.
  destruct (is_entry_block f bb); [|by injection H as <-].
  rinv H. injection H as <-. apply ops_ok_refs.
  rewrite (items_wf 0) in Ha by done. injection Ha as <-.
  eapply (foldM_invariant (ops_ok rt)); [| |exact Ha0]; [|done].
  intros s1 p s2 Hp Hs Hstep. unfold entry_step in Hstep. rinv Hstep.
  injection Hstep as <-. apply ops_ok_push_incref; [done|]. simpl.
  destruct p as [k x]. apply (elem_of_elements 0) in Hp; [|done].
  by apply (Hpos k).
Qed.

Lemma process_block_plans idx (states states' : list RefState) (changed : bool) :
  states_ok states → Forall (ops_ok rt) states →
  process_block classof rt f bbg idx states = Ok (states', changed) →
  Forall (ops_ok rt) states'.
Proof.
  intros Hsum Hok H. unfold process_block in H.
  destruct (fn_blocks f !! idx) as [b|]; [|done].
  cbv zeta in H.
  set (cleared := {| been_run := true; starting_refs := OrderedMap.empty;
                     ending_refs := OrderedMap.empty; increfs := []; decrefs := [];
                     cxx_fixups := [] |}) in H.
  assert (Hcl : ops_ok rt cleared) by (split; constructor).
  assert (Hsum1 : states_ok (<[idx := cleared]> states)).
  { apply Forall_insert; [done|]. apply summary_ok_empty. }
  rinv H. injection H as <- _.
  assert (Hinfo : Forall summary_ok a.*1).
  { clear -Ha Hsum1. revert a Ha.
    induction (List.filter _ _) as [|sidx l IH]; intros a Ha.
    - by injection Ha as <-.
    - cbn [mapM_result] in Ha. rinv Ha. injection Ha as <-.
      destruct (bbs bbg !! sidx); [|done]. injection Ha0 as <-.
      cbn [fmap list_fmap fst]. constructor; [by apply state_at_ok|by apply IH]. }
  pose proof (merge_successors_plans rt _ _ _ _ Hcl Ha0) as Hp0.
  apply merge_successors_ok in Ha0 as [Hst _]; [|done|apply summary_ok_empty].
  pose proof (scan_block_plans rt b _ _ (ops_ok_refs rt a0 _ _ _ _ Hp0) Ha1) as Hp1.
  apply scan_block_ok in Ha1; [|done].
  assert (Hp2 : ops_ok rt a2 ∧ summary_ok (ending_refs a2)).
  { eapply (foldM_invariant (λ s1, ops_ok rt s1 ∧ summary_ok (ending_refs s1)));
      [| |exact Ha2]; [|done].
    intros s1 ii s2 _ [Hs1 Hs1'] Hstep.
    split; [by eapply invoke_step_plans|by eapply invoke_step_ok]. }
  destruct Hp2 as [Hp2 Hs2].
  apply finish_entry_plans in Ha3; [|done..].
  apply Forall_insert; [|done]. by apply Forall_insert.
Qed.

Lemma solve_loop_plans fuel (orderer : BlockOrderer.t) (states states' : list RefState)
      (visited visited' : list nat) :
  states_ok states → Forall (ops_ok rt) states →
  solve_loop classof rt f bbg fuel orderer states visited = Ok (states', visited') →
  Forall (ops_ok rt) states'.
Proof.
  revert orderer states visited.
  induction fuel as [|fuel IH]; intros orderer states visited Hsum Hok H; [done|].
  cbn [solve_loop] in H. rinv H. destruct a as [popped orderer1].
  destruct popped as [idx|]; [|by injection H as <- _].
  rinv H. destruct a as [states1 changed].
  eapply IH; [| |exact H].
  - by eapply process_block_ok.
  - by eapply process_block_plans.
Qed.

End PlanBlock.

(** X30: the plans that the solver hands to the mutator are ones
    that the emitters accept: every planned increment and decrement
    has a count of at least one (the assertion [num_refs > 0] of
    [addIncrefs] and [addDecrefs] holds), and a decrement is planned
    for an owned value only, never for a borrowed one. *)
Theorem solver_plans_are_sound (sort_by_count : list (nat * Z) -> list (nat * Z))
        (classof : Value -> ValueClass) (rt : RefcountTracker) (f : Function)
        (fuel : nat) (states : list RefState) (visited : list nat) :
  solve sort_by_count classof rt f fuel = Ok (states, visited) →
  ∀ s, s ∈ states →
       (∀ op, op ∈ increfs s → 0 < num_refs op) ∧
       (∀ op, op ∈ decrefs s →
              0 < num_refs op ∧ reftype (vars_lookup rt (operand op)) = OWNED).
Proof.
  intros H. unfold solve in H. rinv H.
  assert (Hall : Forall (ops_ok rt) states).
  { eapply solve_loop_plans; [| |exact H].
    - apply Forall_replicate. apply summary_ok_empty.
    - apply Forall_replicate. split; constructor. }
  intros s Hs. rewrite Forall_forall in Hall. destruct (Hall s Hs) as [Hi Hd].
  rewrite Forall_forall in Hi, Hd. split; [done|].
  intros op Hop. destruct (Hd op Hop) as [Hn Ho]. split; [done|].
  unfold isOwned in Ho. by destruct (reftype (vars_lookup rt (operand op))).
Qed.

(** * The further properties at work *)

Lemma insert_by_count_permutes (p : nat * Z) (l : list (nat * Z)) :
  Permutation (Sample.insert_by_count p l) (p :: l).
Proof.
  induction l as [|q l IH]; simpl; [done|].
  destruct (Z.ltb q.2 p.2); [done|]. rewrite IH. apply perm_swap.
Qed.

Lemma sort_by_count_permutes (l : list (nat * Z)) :
  Permutation (Sample.sort_by_count l) l.
Proof.
  unfold Sample.sort_by_count. induction l as [|p l IH]; simpl; [done|].
  rewrite insert_by_count_permutes. by constructor.
Qed.

Lemma diamond_acyclic (i j : nat) :
  j ∈ succs_of Sample2.diamond i → (Sample2.diamond_rank j < Sample2.diamond_rank i)%nat.
Proof.
  unfold Sample2.diamond_rank.
  destruct i as [|[|[|[|i]]]]; vm_compute succs_of; intros Hj.
  - apply elem_of_cons in Hj as [->|Hj]; [lia|].
    apply list_elem_of_singleton in Hj as ->. lia.
  - apply list_elem_of_singleton in Hj as ->. lia.
  - apply list_elem_of_singleton in Hj as ->. lia.
  - by apply elem_of_nil in Hj.
  - by apply elem_of_nil in Hj.
Qed.

Lemma OrderedMap_operations_keep_invariant_witness :
  OrderedMap.wf Sample.refs_ab ∧
  OrderedMap.wf (touch 9%positive Sample.refs_ab) ∧
  OrderedMap.wf (assign 9%positive 7 Sample.refs_ab) ∧
  OrderedMap.wf (OrderedMap.clear Sample.refs_ab) ∧
  (∀ m', OrderedMap.erase 9%positive Sample.refs_ab = Ok m' → OrderedMap.wf m') ∧
  OrderedMap.size Sample.refs_ab = Ok (length (OrderedMap.order Sample.refs_ab)).
Proof.
  split; [exact wf_refs_ab|].
  exact (OrderedMap_operations_keep_invariant 0 Sample.refs_ab 9%positive 7 wf_refs_ab).
Defined.

Lemma OrderedMap_erase_undoes_insertion_witness :
  OrderedMap.wf Sample.refs_ab ∧
  OrderedMap.count Sample.refs_ab 9%positive = 0%nat ∧
  OrderedMap.erase 9%positive Sample.refs_ab = Err (AssertionFailed "map.count(k)") ∧
  OrderedMap.erase 9%positive (assign 9%positive 7 Sample.refs_ab) = Ok Sample.refs_ab.
Proof.
  split; [exact wf_refs_ab|]. split; [reflexivity|].
  exact (OrderedMap_erase_undoes_insertion 0 Sample.refs_ab 9%positive 7
           wf_refs_ab eq_refl).
Defined.

Lemma OrderedMap_erase_keeps_the_rest_witness :
  OrderedMap.erase 1%positive Sample.refs_ab = Ok Sample2.refs_b ∧
  OrderedMap.count Sample2.refs_b 1%positive = 0%nat ∧
  OrderedMap.elements Sample2.refs_b
  = List.filter (λ p, negb (bool_decide (p.1 = 1%positive)))
                (OrderedMap.elements Sample.refs_ab).
Proof.
  assert (H : OrderedMap.erase 1%positive Sample.refs_ab = Ok Sample2.refs_b)
    by (vm_compute; reflexivity).
  split; [exact H|].
  exact (OrderedMap_erase_keeps_the_rest Sample.refs_ab Sample2.refs_b 1%positive H).
Defined.

Lemma OrderedMap_assign_keeps_insertion_order_witness :
  OrderedMap.wf Sample.refs_ab ∧
  OrderedMap.elements (assign 9%positive 7 Sample.refs_ab)
  = if decide (is_Some (OrderedMap.map Sample.refs_ab !! 9%positive))
    then (λ p, if decide (p.1 = 9%positive) then (9%positive, 7) else p)
           <$> OrderedMap.elements Sample.refs_ab
    else OrderedMap.elements Sample.refs_ab ++ [(9%positive, 7)].
Proof.
  split; [exact wf_refs_ab|].
  exact (OrderedMap_assign_keeps_insertion_order 0 Sample.refs_ab 9%positive 7
           wf_refs_ab).
Defined.

Lemma tracker_annotations_are_final_witness :
  ∃ rt', run_calls Sample.classes Sample2.more_calls Sample2.rt_two = Ok rt' ∧
    (reftype (vars_lookup Sample2.rt_two 2%positive) ≠ UNKNOWN →
     reftype (vars_lookup rt' 2%positive)
     = reftype (vars_lookup Sample2.rt_two 2%positive)) ∧
    (nullable (vars_lookup Sample2.rt_two 2%positive) = true →
     nullable (vars_lookup rt' 2%positive) = true).
Proof.
  eexists. split; [vm_compute; reflexivity|].
  eapply (tracker_annotations_are_final Sample.classes Sample2.more_calls Sample2.rt_two).
  vm_compute. reflexivity.
Defined.

Lemma tracker_store_records_calls_witness :
  ∃ rt, run_calls Sample.classes Sample.calls RefcountTracker0 = Ok rt ∧
    default [] (refs_consumed rt !! 5%positive)
    = consumed_by Sample.classes 5%positive Sample.calls ∧
    default [] (refs_used rt !! 5%positive)
    = used_by Sample.classes 5%positive Sample.calls ∧
    may_throw rt = list_to_set (marked_by Sample.calls) ∧
    NoDup (marked_by Sample.calls).
Proof.
  eexists. split; [vm_compute; reflexivity|].
  eapply (tracker_store_records_calls Sample.classes Sample.calls).
  vm_compute. reflexivity.
Defined.

Lemma tracked_uses_can_be_counted_witness :
  ∃ rt, run_calls Sample.classes Sample.calls RefcountTracker0 = Ok rt ∧
        ∃ counters, count_uses rt Sample2.inst5 = Ok counters.
Proof.
  eexists. split; [vm_compute; reflexivity|].
  eapply (tracked_uses_can_be_counted Sample.classes Sample.calls).
  vm_compute. reflexivity.
Defined.

Lemma BlockOrderer_stays_consistent_witness :
  NoDup [1; 0]%nat ∧
  Forall (λ i, (i < length [1; 0]%nat)%nat) [1; 0]%nat ∧
  orderer_ok Sample2.two_blocks ∧
  priorities_differ Sample2.two_blocks ∧
  (0 < length (BlockOrderer.in_queue Sample2.two_blocks))%nat ∧
  (orderer_ok (BlockOrderer.create [1; 0]%nat) ∧
   priorities_differ (BlockOrderer.create [1; 0]%nat)) ∧
  (orderer_ok (BlockOrderer.add 0 Sample2.two_blocks) ∧
   priorities_differ (BlockOrderer.add 0 Sample2.two_blocks) ∧
   NoDup (BlockOrderer.queue (BlockOrderer.add 0 Sample2.two_blocks)).*2) ∧
  BlockOrderer.add 0 (BlockOrderer.add 0 Sample2.two_blocks)
  = BlockOrderer.add 0 Sample2.two_blocks ∧
  ∃ popped o',
    BlockOrderer.pop Sample2.two_blocks = Ok (popped, o') ∧
    orderer_ok o' ∧ priorities_differ o' ∧ NoDup (BlockOrderer.queue o').*2.
Proof.
  assert (Hnd : NoDup [1; 0]%nat).
  { apply (bool_decide_unpack _). vm_compute. exact I. }
  assert (Hrange : Forall (λ i, (i < length [1; 0]%nat)%nat) [1; 0]%nat).
  { repeat constructor; simpl; lia. }
  assert (Hlt : (0 < length (BlockOrderer.in_queue Sample2.two_blocks))%nat)
    by (simpl; lia).
  split; [exact Hnd|]. split; [exact Hrange|].
  split; [apply create_ok|]. split; [exact (create_differ [1; 0]%nat Hnd Hrange)|].
  split; [exact Hlt|].
  exact (BlockOrderer_stays_consistent [1; 0]%nat Sample2.two_blocks 0
           Hnd Hrange (create_ok [1; 0]%nat) (create_differ [1; 0]%nat Hnd Hrange) Hlt).
Defined.

Lemma orderer_ok_both_queued : orderer_ok Sample2.both_queued.
Proof.
  unfold Sample2.both_queued. apply add_ok; [apply add_ok|]; try apply create_ok;
    simpl; lia.
Qed.

Lemma BlockOrderer_pop_takes_least_priority_witness :
  orderer_ok Sample2.both_queued ∧
  NoDup (BlockOrderer.queue Sample2.both_queued).*2 ∧
  ∃ o', BlockOrderer.pop Sample2.both_queued = Ok (Some 1%nat, o') ∧
    1%nat ∈ (BlockOrderer.queue Sample2.both_queued).*1 ∧
    (∀ p, p ∈ BlockOrderer.queue Sample2.both_queued → p.1 ≠ 1%nat →
          default 0 (BlockOrderer.priority Sample2.both_queued !! 1%nat) < p.2) ∧
    1%nat ∉ (BlockOrderer.queue o').*1 ∧
    (∀ i, i ≠ 1%nat →
          i ∈ (BlockOrderer.queue o').*1
          ↔ i ∈ (BlockOrderer.queue Sample2.both_queued).*1).
Proof.
  assert (Hdiff : NoDup (BlockOrderer.queue Sample2.both_queued).*2).
  { apply (bool_decide_unpack _). vm_compute. exact I. }
  split; [exact orderer_ok_both_queued|]. split; [exact Hdiff|].
  eexists. split; [vm_compute; reflexivity|].
  eapply (BlockOrderer_pop_takes_least_priority Sample2.both_queued _ (Some 1%nat)
           orderer_ok_both_queued Hdiff).
  vm_compute. reflexivity.
Defined.

Lemma BlockOrderer_priority_is_position_witness :
  NoDup [1; 0; 2]%nat ∧
  Forall (λ idx, (idx < length [1; 0; 2]%nat)%nat) [1; 0; 2]%nat ∧
  [1; 0; 2]%nat !! 0%nat = Some 1%nat ∧
  BlockOrderer.priority (BlockOrderer.create [1; 0; 2]%nat) !! 1%nat = Some 0.
Proof.
  assert (Hnd : NoDup [1; 0; 2]%nat).
  { apply (bool_decide_unpack _). vm_compute. exact I. }
  assert (Hr : Forall (λ idx, (idx < length [1; 0; 2]%nat)%nat) [1; 0; 2]%nat).
  { repeat constructor; simpl; lia. }
  split; [exact Hnd|]. split; [exact Hr|]. split; [reflexivity|].
  exact (BlockOrderer_priority_is_position [1; 0; 2]%nat 0 1 Hnd Hr eq_refl).
Defined.

Lemma traversal_order_is_found_witness :
  (∀ l, Permutation (Sample.sort_by_count l) l) ∧
  graph_in_range Sample2.diamond ∧
  ((∃ order, computeTraversalOrder Sample.sort_by_count Sample2.diamond = Ok order ∧
             Permutation order (seq 0 (numBB Sample2.diamond))) ∨
   computeTraversalOrder Sample.sort_by_count Sample2.diamond
   = Err (AssertionFailed "best != -1")).
Proof.
  split; [exact sort_by_count_permutes|].
  split; [exact (mkBBGraph_in_range Sample.diamond_fn)|].
  exact (traversal_order_is_found Sample.sort_by_count Sample2.diamond
           sort_by_count_permutes (mkBBGraph_in_range Sample.diamond_fn)).
Defined.

Lemma traversal_order_begins_with_the_exits_witness :
  computeTraversalOrder Sample.sort_by_count Sample2.diamond = Ok [3; 2; 1; 0]%nat ∧
  ∃ rest, [3; 2; 1; 0]%nat
          = List.filter (is_exit Sample2.diamond) (seq 0 (numBB Sample2.diamond)) ++ rest.
Proof.
  assert (H : computeTraversalOrder Sample.sort_by_count Sample2.diamond
              = Ok [3; 2; 1; 0]%nat) by (vm_compute; reflexivity).
  split; [exact H|].
  exact (traversal_order_begins_with_the_exits Sample.sort_by_count Sample2.diamond
           [3; 2; 1; 0]%nat H).
Defined.

Lemma traversal_order_of_an_acyclic_graph_witness :
  graph_in_range Sample2.diamond ∧
  edges_agree Sample2.diamond = true ∧
  (∀ i j, j ∈ succs_of Sample2.diamond i →
          (Sample2.diamond_rank j < Sample2.diamond_rank i)%nat) ∧
  ∃ order, computeTraversalOrder Sample.sort_by_count Sample2.diamond = Ok order ∧
           Permutation order (seq 0 (numBB Sample2.diamond)) ∧
           successors_first Sample2.diamond order.
Proof.
  assert (Ha : edges_agree Sample2.diamond = true) by (vm_compute; reflexivity).
  split; [exact (mkBBGraph_in_range Sample.diamond_fn)|]. split; [exact Ha|].
  split; [exact diamond_acyclic|].
  exact (traversal_order_of_an_acyclic_graph Sample.sort_by_count Sample2.diamond
           Sample2.diamond_rank (mkBBGraph_in_range Sample.diamond_fn) Ha diamond_acyclic).
Defined.

Lemma solver_runs_every_block_witness :
  ∃ states visited,
    solve Sample.sort_by_count Sample.classes Sample.rt_diamond Sample.diamond_fn 10
    = Ok (states, visited) ∧
    length states = length (fn_blocks Sample.diamond_fn) ∧
    ∀ idx, (idx < length (fn_blocks Sample.diamond_fn))%nat →
           idx ∈ visited ∧ been_run (state_at states idx) = true.
Proof.
  eexists _, _. split; [vm_compute; reflexivity|].
  eapply (solver_runs_every_block Sample.sort_by_count Sample.classes Sample.rt_diamond
           Sample.diamond_fn 10).
  vm_compute. reflexivity.
Defined.


Lemma solver_keeps_counts_positive_witness :
  ∃ states visited,
    solve Sample.sort_by_count Sample.classes Sample.rt_diamond Sample.diamond_fn 10
    = Ok (states, visited) ∧
    Forall (λ s, summary_ok (ending_refs s)) states.
Proof.
  eexists _, _. split; [vm_compute; reflexivity|].
  eapply (solver_keeps_counts_positive Sample.sort_by_count Sample.classes
           Sample.rt_diamond Sample.diamond_fn 10 _ [3; 2; 1; 0]%nat).
  vm_compute. reflexivity.
Defined.

Lemma solver_plans_are_sound_witness :
  ∃ states visited,
    solve Sample.sort_by_count Sample.classes Sample.rt_diamond Sample.diamond_fn 10
    = Ok (states, visited) ∧
    ∀ s, s ∈ states →
         (∀ op, op ∈ increfs s → 0 < num_refs op) ∧
         (∀ op, op ∈ decrefs s →
                0 < num_refs op ∧
                reftype (vars_lookup Sample.rt_diamond (operand op)) = OWNED).
Proof.
  eexists _, _. split; [vm_compute; reflexivity|].
  eapply (solver_plans_are_sound Sample.sort_by_count Sample.classes
           Sample.rt_diamond Sample.diamond_fn 10 _ [3; 2; 1; 0]%nat).
  vm_compute. reflexivity.
Defined.

(** The witness asks for the point of the edge in a function that
    has nothing in common with the one of the first walk. *)
Lemma second_walk_hits_the_cache_witness :
  ∃ f1 cache1,
    find_insertion_points Sample.allocator Sample2.edge_plan (Sample.edge_fn, ∅)
    = Ok (f1, cache1) ∧
    Sample2.edge_state ∈ Sample2.edge_plan ∧
    Sample2.edge_incref ∈ increfs Sample2.edge_state ++ decrefs Sample2.edge_state ∧
    ∃ pt,
      insertion_point_of Sample.allocator Sample2.edge_incref (Sample.no_blocks, cache1)
      = Ok (pt, (Sample.no_blocks, cache1)) ∧
      match insertion_inst Sample2.edge_incref with
      | Some i => pt = i
      | None => ∃ BB, insertion_bb Sample2.edge_incref = Some BB ∧
                      cache1 !! (BB, insertion_from_bb Sample2.edge_incref) = Some pt
      end.
Proof.
  assert (Hs : Sample2.edge_state ∈ Sample2.edge_plan) by (right; left).
  assert (Hop : Sample2.edge_incref
                ∈ increfs Sample2.edge_state ++ decrefs Sample2.edge_state) by left.
  eexists _, _. split; [vm_compute; reflexivity|].
  split; [exact Hs|]. split; [exact Hop|].
  eapply (second_walk_hits_the_cache Sample.allocator Sample2.edge_plan
            (Sample.edge_fn, ∅) _ _ Sample2.edge_state Sample2.edge_incref
            Sample.no_blocks); [|exact Hs|exact Hop].
  vm_compute. reflexivity.
Defined.

Lemma remapPhis_redirects_leading_phis_witness :
  Forall (λ i, isa_PHINode i = true) (take 1 (bb_insts Sample.block60)) ∧
  match drop 1 (bb_insts Sample.block60) with
  | [] => True
  | i :: _ => isa_PHINode i = false
  end ∧
  remapPhis 50%positive 1000%positive
            (take 1 (bb_insts Sample.block60) ++ drop 1 (bb_insts Sample.block60))
  = (redirect_phi 50%positive 1000%positive <$> take 1 (bb_insts Sample.block60))
    ++ drop 1 (bb_insts Sample.block60) ∧
  addr <$> remapPhis 50%positive 1000%positive
                     (take 1 (bb_insts Sample.block60) ++ drop 1 (bb_insts Sample.block60))
  = addr <$> (take 1 (bb_insts Sample.block60) ++ drop 1 (bb_insts Sample.block60)) ∧
  operands <$> remapPhis 50%positive 1000%positive
                 (take 1 (bb_insts Sample.block60) ++ drop 1 (bb_insts Sample.block60))
  = operands <$> (take 1 (bb_insts Sample.block60) ++ drop 1 (bb_insts Sample.block60)) ∧
  (∀ incoming, 50%positive ∉ incoming →
     replace_first 50%positive 1000%positive incoming = incoming) ∧
  (∀ l1 l2, 50%positive ∉ l1 →
     replace_first 50%positive 1000%positive (l1 ++ 50%positive :: l2)
     = l1 ++ 1000%positive :: l2).
Proof.
  assert (H1 : Forall (λ i, isa_PHINode i = true) (take 1 (bb_insts Sample.block60)))
    by (by repeat constructor).
  assert (H2 : match drop 1 (bb_insts Sample.block60) with
               | [] => True
               | i :: _ => isa_PHINode i = false
               end) by reflexivity.
  split; [exact H1|]. split; [exact H2|].
  exact (remapPhis_redirects_leading_phis 50%positive 1000%positive
           (take 1 (bb_insts Sample.block60)) (drop 1 (bb_insts Sample.block60)) H1 H2).
Defined.

Lemma critical_edge_is_split_witness :
  find_block Sample.diamond_fn 400%positive = Some Sample2.block400 ∧
  1 < numPredecessors Sample2.block400 ∧
  (∅ : InsertionCache) !! (400%positive, Some 200%positive) = None ∧
  NoDup (bb_addr <$> fn_blocks Sample.diamond_fn) ∧
  Sample.allocator (fn_created Sample.diamond_fn) ∉ bb_addr <$> fn_blocks Sample.diamond_fn ∧
  ∃ pt f' cache',
    findInsertionPoint Sample.allocator (Some 400%positive) (Some 200%positive)
                       (Sample.diamond_fn, ∅) = Ok (pt, (f', cache')) ∧
    pt = Sample.allocator (S (fn_created Sample.diamond_fn)) ∧
    cache' = <[(400%positive, Some 200%positive) := pt]> ∅ ∧
    fn_created f' = S (S (fn_created Sample.diamond_fn)) ∧
    (∃ pre post pre' b' post' moved,
       fn_blocks Sample.diamond_fn = pre ++ Sample2.block400 :: post ∧
       fn_blocks f'
       = pre' ++ breaker_block (Sample.allocator (fn_created Sample.diamond_fn)) pt
                               200%positive 400%positive moved :: b' :: post' ∧
       bb_addr <$> pre' = bb_addr <$> pre ∧
       bb_addr <$> post' = bb_addr <$> post ∧
       bb_addr b' = 400%positive ∧
       addr <$> bb_insts b' = addr <$> bb_insts Sample2.block400 ∧
       bb_preds b'
       = Sample.allocator (fn_created Sample.diamond_fn)
           :: remove_uses moved 200%positive (bb_preds Sample2.block400)) ∧
    (∀ d, d ∈ fn_blocks f' → bb_addr d = 200%positive → 400%positive ∉ succ_range d).
Proof.
  assert (H1 : find_block Sample.diamond_fn 400%positive = Some Sample2.block400)
    by reflexivity.
  assert (H2 : 1 < numPredecessors Sample2.block400) by (vm_compute; reflexivity).
  assert (H3 : (∅ : InsertionCache) !! (400%positive, Some 200%positive) = None)
    by reflexivity.
  assert (H4 : NoDup (bb_addr <$> fn_blocks Sample.diamond_fn)).
  { apply (bool_decide_unpack _). vm_compute. exact I. }
  assert (H5 : Sample.allocator (fn_created Sample.diamond_fn)
               ∉ bb_addr <$> fn_blocks Sample.diamond_fn).
  { apply (bool_decide_unpack _). vm_compute. exact I. }
  split; [exact H1|]. split; [exact H2|]. split; [exact H3|]. split; [exact H4|].
  split; [exact H5|].
  eexists _, _, _. split; [vm_compute; reflexivity|].
  eapply (critical_edge_is_split Sample.allocator Sample.diamond_fn _ ∅ _
           400%positive 200%positive Sample2.block400 _ H1 H2 H3 H4 H5).
  vm_compute. reflexivity.
Defined.

Lemma critical_unwind_edge_is_refused_witness :
  find_block Sample2.unwind_fn 70%positive = Some Sample2.block70 ∧
  1 < numPredecessors Sample2.block70 ∧
  (∅ : InsertionCache) !! (70%positive, Some 55%positive) = None ∧
  70%positive ≠ 55%positive ∧
  find_block Sample2.unwind_fn 55%positive = Some Sample2.block55 ∧
  getTerminator Sample2.block55 = Some Sample2.invoke56 ∧
  opcode Sample2.invoke56 = InvokeInst 60%positive 70%positive ∧
  findInsertionPoint Sample.allocator (Some 70%positive) (Some 55%positive)
                     (Sample2.unwind_fn, ∅)
  = Err (AssertionFailed "don't know how break critical unwind edges").
Proof.
  assert (H2 : 1 < numPredecessors Sample2.block70) by (vm_compute; reflexivity).
  assert (H4 : 70%positive ≠ 55%positive) by discriminate.
  split; [reflexivity|]. split; [exact H2|]. split; [reflexivity|]. split; [exact H4|].
  split; [reflexivity|]. split; [reflexivity|]. split; [reflexivity|].
  exact (critical_unwind_edge_is_refused Sample.allocator Sample2.unwind_fn ∅
           70%positive 55%positive 60%positive Sample2.block70 Sample2.block55
           Sample2.invoke56 eq_refl H2 eq_refl H4 eq_refl eq_refl eq_refl).
Defined.

Lemma count_uses_counts_the_store_witness :
  count_uses Sample.rt_diamond Sample2.call201
  = Ok ([(101%positive, 1)], [(101%positive, 1)]) ∧
  (∀ v, SmallOrderedMap.get [(101%positive, 1)] v
        = Z.of_nat (occurrences v (default [] (refs_consumed Sample.rt_diamond
                                                 !! addr Sample2.call201)))) ∧
  (∀ v, SmallOrderedMap.get [(101%positive, 1)] v
        = Z.of_nat (occurrences v (default [] (refs_used Sample.rt_diamond
                                                 !! addr Sample2.call201)))
          + if vars_count Sample.rt_diamond v
            then Z.of_nat (occurrences v (operands Sample2.call201)) else 0) ∧
  (∀ v, v ∈ [(101%positive, 1)].*1 → v ∈ [(101%positive, 1)].*1).
Proof.
  assert (H : count_uses Sample.rt_diamond Sample2.call201
              = Ok ([(101%positive, 1)], [(101%positive, 1)]))
    by (vm_compute; reflexivity).
  split; [exact H|].
  exact (count_uses_counts_the_store Sample.rt_diamond Sample2.call201 _ _ H).
Defined.

Lemma uses_transfer_the_demand_witness :
  isa_PHINode Sample2.call201 = false ∧
  may_throw_count Sample.rt_diamond (addr Sample2.call201) = false ∧
  negb (isa_InvokeInst Sample2.call201)
  && vars_count Sample.rt_diamond (addr Sample2.call201) = false ∧
  ∃ st,
    scan_instruction Sample.rt_diamond 200%positive RefState0 (Sample2.call201, [])
    = Ok st ∧
    ∃ nc nt, count_uses Sample.rt_diamond Sample2.call201 = Ok (nc, nt) ∧
      ∀ v, subscript (ending_refs st) v
           = (if kept_alive Sample.rt_diamond nc nt (ending_refs RefState0) v then 1
              else subscript (ending_refs RefState0) v)
             + SmallOrderedMap.get nc v.
Proof.
  split; [reflexivity|]. split; [reflexivity|]. split; [reflexivity|].
  eexists. split; [vm_compute; reflexivity|].
  eapply (uses_transfer_the_demand Sample.rt_diamond 200%positive Sample2.call201 []
           RefState0 _ eq_refl eq_refl eq_refl).
  vm_compute. reflexivity.
Defined.

Lemma definition_settles_the_count_witness :
  isa_InvokeInst Sample2.call101 = false ∧
  vars_count Sample.rt_diamond (addr Sample2.call101) = true ∧
  ∃ st,
    scan_definition Sample.rt_diamond Sample2.call101 [Sample2.branch102]
                    Sample2.wanted_twice = Ok st ∧
    let want := subscript (ending_refs Sample2.wanted_twice) (addr Sample2.call101) in
    let have := defining_refs Sample.rt_diamond (addr Sample2.call101) in
    OrderedMap.count (ending_refs st) (addr Sample2.call101) = 0%nat ∧
    (∀ v, v ≠ addr Sample2.call101 →
          OrderedMap.map (ending_refs st) !! v
          = OrderedMap.map (ending_refs Sample2.wanted_twice) !! v) ∧
    (want = have →
     increfs st = increfs Sample2.wanted_twice ∧
     decrefs st = decrefs Sample2.wanted_twice) ∧
    (have < want →
     ∃ pt, next_non_phi [Sample2.branch102] = Ok pt ∧
           increfs st
           = increfs Sample2.wanted_twice
             ++ [def_op Sample.rt_diamond (addr Sample2.call101) (want - have)
                        (Some pt) None None] ∧
           decrefs st = decrefs Sample2.wanted_twice) ∧
    (want < have →
     ∃ pt, next_non_phi [Sample2.branch102] = Ok pt ∧
           decrefs st
           = decrefs Sample2.wanted_twice
             ++ [def_op Sample.rt_diamond (addr Sample2.call101) (have - want)
                        (Some pt) None None] ∧
           increfs st = increfs Sample2.wanted_twice ∧
           isOwned Sample.rt_diamond (addr Sample2.call101) = true).
Proof.
  split; [reflexivity|]. split; [reflexivity|].
  eexists. split; [vm_compute; reflexivity|].
  eapply (definition_settles_the_count Sample.rt_diamond Sample2.call101
           [Sample2.branch102] Sample2.wanted_twice _ eq_refl eq_refl).
  vm_compute. reflexivity.
Defined.

Lemma invoke_settles_on_its_normal_edge_witness :
  opcode Sample2.invoke56 = InvokeInst 60%positive 70%positive ∧
  ∃ st,
    invoke_step Sample2.rt_invoke 60%positive RefState0 (Sample2.invoke56, 55%positive)
    = Ok st ∧
    let want := subscript (ending_refs RefState0) (addr Sample2.invoke56) in
    let have := defining_refs Sample2.rt_invoke (addr Sample2.invoke56) in
    (60%positive ≠ 60%positive → st = RefState0) ∧
    (60%positive = 60%positive →
     OrderedMap.count (ending_refs st) (addr Sample2.invoke56) = 0%nat ∧
     (∀ v, v ≠ addr Sample2.invoke56 →
           OrderedMap.map (ending_refs st) !! v
           = OrderedMap.map (ending_refs RefState0) !! v) ∧
     (want = have → increfs st = increfs RefState0 ∧ decrefs st = decrefs RefState0) ∧
     (have < want →
      increfs st
      = increfs RefState0
        ++ [def_op Sample2.rt_invoke (addr Sample2.invoke56) (want - have) None
                   (Some 60%positive) (Some 55%positive)] ∧
      decrefs st = decrefs RefState0) ∧
     (want < have →
      decrefs st
      = decrefs RefState0
        ++ [def_op Sample2.rt_invoke (addr Sample2.invoke56) (have - want) None
                   (Some 60%positive) (Some 55%positive)] ∧
      increfs st = increfs RefState0 ∧
      isOwned Sample2.rt_invoke (addr Sample2.invoke56) = true)).
Proof.
  split; [reflexivity|].
  eexists. split; [vm_compute; reflexivity|].
  eapply (invoke_settles_on_its_normal_edge Sample2.rt_invoke 60%positive 55%positive
           Sample2.invoke56 60%positive 70%positive RefState0 _ eq_refl).
  vm_compute. reflexivity.
Defined.
